(** * StoryFlow: the generation pipeline, the job orchestrator and the
      video timeline compositor

    A shallow embedding of
    - the subtitle segmenter [parseAndGroupSrt] and the storyboard pipeline
      [generateStoryboard] (backend storyboard service),
    - the job registry and its event/result endpoints, the account check
      of the generation endpoints, the log-in and the API key of a user
      (backend server),
    - the client of the event stream and of the result endpoint
      (core/services/geminiService.ts),
    - the duration rescaling, the Ken Burns transform and the render loop
      of [generateVideoFromScenes] (services/videoService.ts).

    Numbers.  A JavaScript [number] that carries a time or a size is the
    rational ([Q]) that the double denotes.  The arithmetic of the
    subtitle segmenter, of the rescaling against an audio track and of the
    Ken Burns transform is binary64: each operation is the exact one
    followed by [Binary64.round], the rounding to the nearest double, ties
    to even.  A result of magnitude [2^1024] or more (Infinity in the
    code) is outside the model, and so are NaN and the sign of zero; the
    properties that depend on sizes state their range.  The rounding is
    compared with the binary64 numbers of the kernel on samples
    ([binary64_agrees]).  The clock
    arithmetic of the render loop and the word rate of a plain script are
    exact.  Counters and indices are [nat] or [Z].

    Text.  A string is a [string] of bytes.  The white-space class used by
    [trim] and by the pattern [\s] is its ASCII part (tab, line feed,
    vertical tab, form feed, carriage return, space); where a property
    depends on what the engine trims, as for the API key of a user, the
    [trim] of the engine is a parameter.  A length or a slice counts
    bytes where the code counts UTF-16 units: the two agree on ASCII
    text. *)

From Stdlib Require Import ZArith QArith Qround Qminmax Qabs Qpower Lqa Lia Sorted.
From Stdlib Require Import String Ascii.
From Stdlib Require PrimFloat FloatOps.
From stdpp Require Import base option list gmap strings pretty.

(** * Part I: the program *)

(** ** Text primitives *)

Definition isWhitespace (c : ascii) : bool :=
  let n := N_of_ascii c in
  ((9 <=? n)%N && (n <=? 13)%N) || (n =? 32)%N.

Definition isDigit (c : ascii) : bool :=
  let n := N_of_ascii c in (48 <=? n)%N && (n <=? 57)%N.

(** [Boolean(s)] on a string: the empty string is the only falsy one. *)
Definition truthy (s : string) : bool :=
  match s with EmptyString => false | String _ _ => true end.

(** [s.split(/\s+/)]: the pieces between maximal runs of white space.
    [inGap] tells that the previous character was white space (the piece
    before the run is already emitted); [cur] is the piece being read. *)
Fixpoint splitWhitespace (inGap : bool) (cur : string) (s : string) : list string :=
  match s with
  | EmptyString => [cur]
  | String c r =>
      if isWhitespace c then
        if inGap then splitWhitespace true cur r
        else cur :: splitWhitespace true "" r
      else splitWhitespace false (cur +:+ String c "") r
  end.

(** [s.split(/\s+/).filter(Boolean).length] *)
Definition wordCount (s : string) : nat :=
  length (List.filter truthy (splitWhitespace false "" s)).

(** [s.trim()] *)
Fixpoint trimStart (s : string) : string :=
  match s with
  | String c r => if isWhitespace c then trimStart r else s
  | EmptyString => EmptyString
  end.

Fixpoint trimEnd (s : string) : string :=
  match s with
  | EmptyString => EmptyString
  | String c r =>
      match trimEnd r with
      | EmptyString => if isWhitespace c then EmptyString else String c EmptyString
      | r' => String c r'
      end
  end.

Definition trim (s : string) : string := trimEnd (trimStart s).

(** [s.replace(/\r\n/g, '\n')] *)
Fixpoint replaceCrLf (s : string) : string :=
  match s with
  | EmptyString => EmptyString
  | String c r =>
      match r with
      | String c' r' =>
          if Ascii.eqb c "013" && Ascii.eqb c' "010"
          then String "010" (replaceCrLf r')
          else String c (replaceCrLf r)
      | EmptyString => String c EmptyString
      end
  end.

(** [s.split(sep)] for a separator given as a class of single characters
    (['\n'], or the pattern [/[:,]/]). *)
Fixpoint splitOn (isSep : ascii -> bool) (cur : string) (s : string) : list string :=
  match s with
  | EmptyString => [cur]
  | String c r =>
      if isSep c then cur :: splitOn isSep "" r
      else splitOn isSep (cur +:+ String c "") r
  end.

(** [s.split(/\n\n+/)]: [nl] counts the line feeds just read: 0 none,
    1 one that still belongs to the piece unless another follows, 2 a
    separator that is being skipped. *)
Fixpoint splitBlankLines (cur : string) (nl : nat) (s : string) : list string :=
  match s with
  | EmptyString =>
      match nl with 1 => [cur +:+ String "010" ""] | _ => [cur] end
  | String c r =>
      if Ascii.eqb c "010" then
        match nl with
        | 0 => splitBlankLines cur 1 r
        | 1 => cur :: splitBlankLines "" 2 r
        | _ => splitBlankLines cur 2 r
        end
      else
        match nl with
        | 1 => splitBlankLines (cur +:+ String "010" (String c "")) 0 r
        | _ => splitBlankLines (cur +:+ String c "") 0 r
        end
  end.

(** [s.replace(/<[^>]*>?/gm, '')]: a tag runs from [<] to the next [>]
    (included) or, when there is none, to the end of the text. *)
Fixpoint stripTags (inTag : bool) (s : string) : string :=
  match s with
  | EmptyString => EmptyString
  | String c r =>
      if inTag then stripTags (negb (Ascii.eqb c ">")) r
      else if Ascii.eqb c "<" then stripTags true r
      else String c (stripTags false r)
  end.

(** [parseInt(s, 10)]; [None] is NaN. *)
Fixpoint digitsValue (acc : Z) (s : string) : Z :=
  match s with
  | String c r =>
      if isDigit c then digitsValue (10 * acc + (Z.of_N (N_of_ascii c) - 48)) r
      else acc
  | EmptyString => acc
  end.

Definition parseInt (s : string) : option Z :=
  let t := trimStart s in
  let '(negative, body) :=
    match t with
    | String "-" r => (true, r)
    | String "+" r => (false, r)
    | _ => (false, t)
    end in
  match body with
  | String c _ =>
      if isDigit c
      then Some (if negative then - digitsValue 0 body else digitsValue 0 body)%Z
      else None
  | EmptyString => None
  end.

(** [reduce((sum, x) => sum + x, 0)] *)
Definition sumQ (l : list Q) : Q := fold_left Qplus l 0%Q.

(** ** Binary64 arithmetic *)

(** The doubles as the rationals they denote, and the four operations of
    IEEE 754 binary64 in the default rounding mode. *)

Module Binary64.

Definition pow2 (e : Z) : Q := (2 ^ e)%Q.

(** The integer part of the binary logarithm of a positive number. *)
Definition log2floor (x : Q) : Z :=
  let k := (Z.log2 (Qnum x) - Z.log2 (Zpos (Qden x)))%Z in
  if Qle_bool (pow2 k) x then k else (k - 1)%Z.

(** The nearest integer, ties to the even one. *)
Definition roundHalfEven (x : Q) : Z :=
  let f := Qfloor x in
  match Qcompare (x - inject_Z f) (1 # 2) with
  | Lt => f
  | Gt => (f + 1)%Z
  | Eq => if Z.even f then f else (f + 1)%Z
  end.

(** The double nearest to a number, ties to the even significand: 53
    bits of significand, the least exponent -1074. *)
Definition round (x : Q) : Q :=
  if Qeq_bool x 0 then 0%Q
  else
    let e := Z.max (-1074) (log2floor (Qabs x) - 52) in
    (inject_Z (roundHalfEven (x / pow2 e)) * pow2 e)%Q.

Definition add (a b : Q) : Q := round (a + b).
Definition sub (a b : Q) : Q := round (a - b).
Definition mul (a b : Q) : Q := round (a * b).
Definition div (a b : Q) : Q := round (a / b).

End Binary64.

Infix "⊕" := Binary64.add (at level 50, left associativity) : Q_scope.
Infix "⊖" := Binary64.sub (at level 50, left associativity) : Q_scope.
Infix "⊗" := Binary64.mul (at level 40, left associativity) : Q_scope.
Infix "⊘" := Binary64.div (at level 40, left associativity) : Q_scope.

(** The number a decimal literal of the source denotes. *)
Definition literal (decimal : Q) : Q := Binary64.round decimal.

Arguments Binary64.round : simpl never.
Arguments Binary64.add : simpl never.
Arguments Binary64.sub : simpl never.
Arguments Binary64.mul : simpl never.
Arguments Binary64.div : simpl never.
Arguments literal : simpl never.

(** ** The timed-segment model *)

Module TimedLine.
Record t := mk { startTime : Q; endTime : Q; text : string }.
End TimedLine.

Module SceneGroup.
Record t := mk { narration : string; startTime : Q; endTime : Q }.
End SceneGroup.

(** [SceneWithoutVisuals]: a [Scene] without its [imageUrl]. *)
Module SceneWithoutVisuals.
Record t := mk {
  sceneNumber : nat;
  narration : string;
  duration : string;
  durationSeconds : Q;
  visualDescription : string }.
End SceneWithoutVisuals.

Module Scene.
Record t := mk {
  sceneNumber : nat;
  narration : string;
  duration : string;
  durationSeconds : Q;
  visualDescription : string;
  imageUrl : string }.
End Scene.

(** ** Subtitle parsing *)

(** [parseSrtTimestamp]; [None] is NaN.  The four integers are doubles
    (those of a captured time stamp are below 1000, hence exact). *)
Definition isTimeSeparator (c : ascii) : bool :=
  Ascii.eqb c ":" || Ascii.eqb c ",".

Definition parseSrtTimestamp (timestamp : string) : option Q :=
  let parts := splitOn isTimeSeparator "" timestamp in
  hours ← parts !! 0%nat ≫= parseInt;
  minutes ← parts !! 1%nat ≫= parseInt;
  seconds ← parts !! 2%nat ≫= parseInt;
  milliseconds ← parts !! 3%nat ≫= parseInt;
  let number (z : Z) := Binary64.round (inject_Z z) in
  Some (number hours ⊗ 3600 ⊕ number minutes ⊗ 60 ⊕ number seconds
        ⊕ number milliseconds ⊘ 1000)%Q.

(** The pattern
    [/(\d{2}:\d{2}:\d{2},\d{3})\s*-->\s*(\d{2}:\d{2}:\d{2},\d{3})/]:
    [takeDigits n] is [\d{n}], [takeTimestamp] one captured group,
    [matchTimeAt] a match that starts at the head of the text and
    [matchTime] the leftmost match, with its two captures. *)
Fixpoint takeDigits (n : nat) (s : string) : option (string * string) :=
  match n with
  | O => Some (EmptyString, s)
  | S n' =>
      match s with
      | String c r =>
          if isDigit c
          then '(d, rest) ← takeDigits n' r; Some (String c d, rest)
          else None
      | EmptyString => None
      end
  end.

Definition takeChar (c : ascii) (s : string) : option string :=
  match s with
  | String c' r => if Ascii.eqb c c' then Some r else None
  | EmptyString => None
  end.

Definition takeTimestamp (s : string) : option (string * string) :=
  '(h, s1) ← takeDigits 2 s;
  s2 ← takeChar ":" s1;
  '(m, s3) ← takeDigits 2 s2;
  s4 ← takeChar ":" s3;
  '(sec, s5) ← takeDigits 2 s4;
  s6 ← takeChar "," s5;
  '(ms, s7) ← takeDigits 3 s6;
  Some (h +:+ ":" +:+ m +:+ ":" +:+ sec +:+ "," +:+ ms, s7).

Definition matchTimeAt (s : string) : option (string * string) :=
  '(t1, s1) ← takeTimestamp s;
  s2 ← takeChar "-" (trimStart s1);
  s3 ← takeChar "-" s2;
  s4 ← takeChar ">" s3;
  '(t2, _) ← takeTimestamp (trimStart s4);
  Some (t1, t2).

Fixpoint matchTime (s : string) : option (string * string) :=
  match matchTimeAt s with
  | Some r => Some r
  | None =>
      match s with
      | String _ r => matchTime r
      | EmptyString => None
      end
  end.

(** The body of [blocks.forEach]: the lines a block adds to [timedLines].
    The last [match] has no counterpart in the source: a captured group
    always parses ([matchTime_parses] below), so its second branch is
    never taken. *)
Definition parseBlock (block : string) : list TimedLine.t :=
  let lines := splitOn (Ascii.eqb "010") "" (trim block) in
  if (length lines <? 2)%nat then []
  else
    match lines !! 1%nat ≫= matchTime with
    | None => []
    | Some (t1, t2) =>
        let text := stripTags false (trim (String.concat " " (drop 2 lines))) in
        if negb (truthy text) then []
        else
          match parseSrtTimestamp t1, parseSrtTimestamp t2 with
          | Some startTime, Some endTime => [TimedLine.mk startTime endTime text]
          | _, _ => []
          end
    end.

Definition parseTimedLines (srtContent : string) : list TimedLine.t :=
  let blocks := splitBlankLines "" 0 (replaceCrLf (trim srtContent)) in
  flat_map parseBlock blocks.

(** ** Subtitle segmenter *)

Definition MAX_PAUSE_SECONDS : Q := 1.5%Q.

(** [a > b] on numbers. *)
Definition Qgtb (a b : Q) : bool := negb (Qle_bool a b).

(** The variables the grouping loop updates. *)
Record GroupingState := mkGroupingState {
  sceneGroups : list SceneGroup.t;
  currentSceneNarration : string;
  currentSceneStartTime : Q;
  lastLineEndTime : Q }.

(** One iteration of [for (let i = 1; i < timedLines.length; i++)]. *)
Definition groupingStep (maxWordsPerScene : Z) (st : GroupingState)
    (line : TimedLine.t) : GroupingState :=
  let wordCountSoFar := wordCount (currentSceneNarration st) in
  let newWordsCount := wordCount (TimedLine.text line) in
  let pauseSinceLastLine := (TimedLine.startTime line ⊖ lastLineEndTime st)%Q in
  if Qgtb pauseSinceLastLine MAX_PAUSE_SECONDS
     || (Z.of_nat (wordCountSoFar + newWordsCount) >? maxWordsPerScene)%Z
  then
    {| sceneGroups :=
         sceneGroups st ++
         [SceneGroup.mk (currentSceneNarration st) (currentSceneStartTime st)
                        (lastLineEndTime st)];
       currentSceneNarration := TimedLine.text line;
       currentSceneStartTime := TimedLine.startTime line;
       lastLineEndTime := TimedLine.endTime line |}
  else
    {| sceneGroups := sceneGroups st;
       currentSceneNarration :=
         currentSceneNarration st +:+ " " +:+ TimedLine.text line;
       currentSceneStartTime := currentSceneStartTime st;
       lastLineEndTime := TimedLine.endTime line |}.

(** The groups [parseAndGroupSrt] builds from its timed lines: the loop
    from the second line on, then the push of the group still open. *)
Definition groupTimedLines (timedLines : list TimedLine.t)
    (maxWordsPerScene : Z) : list SceneGroup.t :=
  match timedLines with
  | [] => []
  | first :: rest =>
      let st :=
        fold_left (groupingStep maxWordsPerScene) rest
          {| sceneGroups := [];
             currentSceneNarration := TimedLine.text first;
             currentSceneStartTime := TimedLine.startTime first;
             lastLineEndTime := TimedLine.endTime first |} in
      sceneGroups st ++
      [SceneGroup.mk (currentSceneNarration st) (currentSceneStartTime st)
                     (lastLineEndTime st)]
  end.

(** [Math.round]: the nearest integer, halves upwards; it is exact on the
    number a double denotes. *)
Definition mathRound (x : Q) : Z := Qfloor (x + (1 # 2))%Q.

(** The duration a group gets before any floor is applied. *)
Definition rawDuration (sceneGroups : list SceneGroup.t) (index : nat)
    (group : SceneGroup.t) : Q :=
  if (index <? length sceneGroups - 1)%nat then
    match sceneGroups !! (index + 1)%nat with
    | Some next => (SceneGroup.startTime next ⊖ SceneGroup.startTime group)%Q
    | None => (SceneGroup.endTime group ⊖ SceneGroup.startTime group)%Q
    end
  else (SceneGroup.endTime group ⊖ SceneGroup.startTime group)%Q.

Definition displayDuration (displayDurationSeconds : Z) : string :=
  pretty displayDurationSeconds +:+ " segundo"
  +:+ (if (displayDurationSeconds >? 1)%Z then "s" else "").

(** The callback of [sceneGroups.map((group, index) => ...)]. *)
Definition sceneOfGroup (sceneGroups : list SceneGroup.t) (index : nat)
    (group : SceneGroup.t) : SceneWithoutVisuals.t :=
  let durationSeconds := rawDuration sceneGroups index group in
  let preciseDurationSeconds := Qmax (literal 0.1) durationSeconds in
  let displayDurationSeconds := Z.max 1 (mathRound durationSeconds) in
  {| SceneWithoutVisuals.sceneNumber := index + 1;
     SceneWithoutVisuals.narration := SceneGroup.narration group;
     SceneWithoutVisuals.duration := displayDuration displayDurationSeconds;
     SceneWithoutVisuals.durationSeconds := preciseDurationSeconds;
     SceneWithoutVisuals.visualDescription := "" |}.

Definition scenesOfGroups (sceneGroups : list SceneGroup.t)
    : list SceneWithoutVisuals.t :=
  imap (sceneOfGroup sceneGroups) sceneGroups.

Definition parseAndGroupSrt (srtContent : string) (maxWordsPerScene : Z)
    : list SceneWithoutVisuals.t :=
  scenesOfGroups (groupTimedLines (parseTimedLines srtContent) maxWordsPerScene).


(** ** Video timeline compositor *)

(** [scenes.reduce((sum, s) => sum + s.durationSeconds, 0)] *)
Definition totalSceneDuration (scenes : list Scene.t) : Q :=
  fold_left (fun sum s => (sum ⊕ Scene.durationSeconds s)%Q) scenes 0%Q.

(** [{ ...scene, durationSeconds: d }] *)
Definition withDurationSeconds (scene : Scene.t) (d : Q) : Scene.t :=
  {| Scene.sceneNumber := Scene.sceneNumber scene;
     Scene.narration := Scene.narration scene;
     Scene.duration := Scene.duration scene;
     Scene.durationSeconds := d;
     Scene.visualDescription := Scene.visualDescription scene;
     Scene.imageUrl := Scene.imageUrl scene |}.

(** The rescaling of the scenes against an audio track of duration
    [totalDuration] (the body of [if (audioUrl)] once the audio is
    decoded). *)
Definition rescaleScenes (scenes : list Scene.t) (totalDuration : Q)
    : list Scene.t :=
  let totalSrtDuration := totalSceneDuration scenes in
  if Qgtb totalSrtDuration (literal 0.1) then
    let scaleFactor := (totalDuration ⊘ totalSrtDuration)%Q in
    let scaledScenes :=
      map (fun scene =>
             withDurationSeconds scene (Scene.durationSeconds scene ⊗ scaleFactor)%Q)
          scenes in
    let sumOfScaledDurations := totalSceneDuration scaledScenes in
    let diff := (totalDuration ⊖ sumOfScaledDurations)%Q in
    if (0 <? length scaledScenes)%nat && Qgtb (Qabs diff) (literal 0.001) then
      alter (fun scene =>
               withDurationSeconds scene (Scene.durationSeconds scene ⊕ diff)%Q)
            (length scaledScenes - 1)%nat scaledScenes
    else scaledScenes
  else scenes.

(** The authoritative total duration and the scenes the render loop plays;
    [audioDuration] is [None] when no audio track is supplied. *)
Definition reconcileDurations (scenes : list Scene.t) (audioDuration : option Q)
    : Q * list Scene.t :=
  match audioDuration with
  | Some totalDuration => (totalDuration, rescaleScenes scenes totalDuration)
  | None => (totalSceneDuration scenes, scenes)
  end.

(** *** The Ken Burns transform *)

Record Rect := mkRect { dx : Q; dy : Q; dWidth : Q; dHeight : Q }.

Record KenBurnsTransform := mkKenBurns {
  sWidth : Q;
  sHeight : Q;
  destStart : Rect;
  destEnd : Rect }.

Definition initialScale (imgWidth imgHeight canvasWidth canvasHeight : Q) : Q :=
  let imgAspect := (imgWidth ⊘ imgHeight)%Q in
  let canvasAspect := (canvasWidth ⊘ canvasHeight)%Q in
  if Qgtb imgAspect canvasAspect then (canvasHeight ⊘ imgHeight)%Q
  else (canvasWidth ⊘ imgWidth)%Q.

Definition startScale (scale : Q) (zoomIn : bool) : Q :=
  if zoomIn then scale else (scale ⊗ literal 1.2)%Q.

Definition endScale (scale : Q) (zoomIn : bool) : Q :=
  if zoomIn then (scale ⊗ literal 1.2)%Q else scale.

Definition getMaxOffset (scaledSize canvasSize : Q) : Q :=
  Qmax 0 ((scaledSize ⊖ canvasSize) ⊘ 2)%Q.

(** [getKenBurnsTransforms]; [random1], [random2] and [random3] are the
    three successive values of [Math.random()], each in [0, 1). *)
Definition getKenBurnsTransforms (imgWidth imgHeight canvasWidth canvasHeight : Q)
    (random1 random2 random3 : Q) : KenBurnsTransform :=
  let scale := initialScale imgWidth imgHeight canvasWidth canvasHeight in
  let zoomIn := Qgtb random1 (literal 0.5) in
  let panX := (random2 ⊖ literal 0.5)%Q in
  let panY := (random3 ⊖ literal 0.5)%Q in
  let startW := (imgWidth ⊗ startScale scale zoomIn)%Q in
  let startH := (imgHeight ⊗ startScale scale zoomIn)%Q in
  let maxOffsetXStart := getMaxOffset startW canvasWidth in
  let maxOffsetYStart := getMaxOffset startH canvasHeight in
  let startX := (maxOffsetXStart ⊕ panX ⊗ maxOffsetXStart)%Q in
  let startY := (maxOffsetYStart ⊕ panY ⊗ maxOffsetYStart)%Q in
  let endW := (imgWidth ⊗ endScale scale zoomIn)%Q in
  let endH := (imgHeight ⊗ endScale scale zoomIn)%Q in
  let maxOffsetXEnd := getMaxOffset endW canvasWidth in
  let maxOffsetYEnd := getMaxOffset endH canvasHeight in
  let endX := (maxOffsetXEnd ⊖ panX ⊗ maxOffsetXEnd)%Q in
  let endY := (maxOffsetYEnd ⊖ panY ⊗ maxOffsetYEnd)%Q in
  {| sWidth := imgWidth;
     sHeight := imgHeight;
     destStart := mkRect (- startX) (- startY) startW startH;
     destEnd := mkRect (- endX) (- endY) endW endH |}.

(** The progress of a scene at a tick of the render loop. *)
Definition sceneProgress (timeInScene durationSeconds : Q) : Q :=
  if Qgtb durationSeconds (literal 0.001) then Qmin 1 (timeInScene / durationSeconds)%Q
  else 1%Q.

(** The destination rectangle painted at a given progress. *)
Definition interpolate (transform : KenBurnsTransform) (progress : Q) : Rect :=
  let a := destStart transform in
  let b := destEnd transform in
  {| dx := (dx a ⊕ (dx b ⊖ dx a) ⊗ progress)%Q;
     dy := (dy a ⊕ (dy b ⊖ dy a) ⊗ progress)%Q;
     dWidth := (dWidth a ⊕ (dWidth b ⊖ dWidth a) ⊗ progress)%Q;
     dHeight := (dHeight a ⊕ (dHeight b ⊖ dHeight a) ⊗ progress)%Q |}.

(** ** Job orchestrator *)

Module JobStatus.
Inductive t := running | completed | failed.
End JobStatus.

Module JobEvent.
Inductive t := progress | completed | failed.
End JobEvent.

(** The verified token of a request: [request.user]. *)
Module RequestUser.
Record t := mk { id : string; role : string }.
End RequestUser.

(** The payload of a server-sent event; a field that a payload does not
    carry is [None]. *)
Module SsePayload.
Record t := mk {
  projectId : option string;
  status : JobStatus.t;
  message : string;
  updatedAt : Z;
  sceneCount : option nat;
  error : option string }.
End SsePayload.

(** What is written on an event stream: an event, or the comment line of
    the heartbeat. *)
Inductive StreamItem :=
  | SseEvent (event : JobEvent.t) (payload : SsePayload.t)
  | Ping.

(** The response object of one subscriber ([reply.raw]) with the state of
    its connection: what was written, whether the server ended it, whether
    writing on it throws, whether the close handler and the heartbeat are
    installed, whether the peer has closed it, and the job whose events
    endpoint opened it. *)
Module Stream.
Record t := mk {
  jobId : string;
  written : list StreamItem;
  ended : bool;
  broken : bool;
  listening : bool;
  closed : bool }.

Definition write (item : StreamItem) (s : t) : t :=
  if ended s then s
  else mk (jobId s) (written s ++ [item]) (ended s) (broken s) (listening s) (closed s).

Definition end_ (s : t) : t :=
  mk (jobId s) (written s) true (broken s) (listening s) (closed s).

Definition break (s : t) : t :=
  mk (jobId s) (written s) (ended s) true (listening s) (closed s).

Definition close (s : t) : t :=
  mk (jobId s) (written s) (ended s) (broken s) false true.
End Stream.

(** [StoryboardJob]; [clients] holds the identities of the response
    objects, [cleanupTimer] the time at which the pending timer is due. *)
Module StoryboardJob.
Record t := mk {
  id : string;
  userId : string;
  projectId : string;
  status : JobStatus.t;
  message : string;
  createdAt : Z;
  updatedAt : Z;
  scenes : option (list Scene.t);
  error : option string;
  clients : gset nat;
  cleanupTimer : option Z }.

Definition setClients (cs : gset nat) (job : t) : t :=
  mk (id job) (userId job) (projectId job) (status job) (message job)
     (createdAt job) (updatedAt job) (scenes job) (error job) cs
     (cleanupTimer job).

Definition setCleanupTimer (timer : option Z) (job : t) : t :=
  mk (id job) (userId job) (projectId job) (status job) (message job)
     (createdAt job) (updatedAt job) (scenes job) (error job) (clients job)
     timer.
End StoryboardJob.

Definition JOB_TTL_MS : Z := 30 * 60 * 1000.

(** The response objects of all connections, by identity. *)
Abbreviation Streams := (gmap nat Stream.t).

(** A write on a response object throws when the connection is broken. *)
Definition writeThrows (streams : Streams) (client : nat) : bool :=
  match streams !! client with
  | Some s => Stream.broken s
  | None => true
  end.

Definition writeSseEvent (event : JobEvent.t) (payload : SsePayload.t)
    (s : Stream.t) : Stream.t :=
  Stream.write (SseEvent event payload) s.

(** [broadcastJobEvent]: every client of the set is written the event; a
    client whose write throws is deleted from the set. *)
Definition broadcastJobEvent (clients : gset nat) (event : JobEvent.t)
    (payload : SsePayload.t) (streams : Streams) : gset nat * Streams :=
  (filter (fun client => writeThrows streams client = false) clients,
   map_imap (fun client s =>
               Some (if decide (client ∈ clients)
                     then if Stream.broken s then s
                          else writeSseEvent event payload s
                     else s)) streams).

(** [for (const client of job.clients) { try { client.end() } catch {} }] *)
Definition endClients (clients : gset nat) (streams : Streams) : Streams :=
  map_imap (fun client s =>
              Some (if decide (client ∈ clients) then Stream.end_ s else s))
           streams.

Definition notifyJobProgress (now : Z) (message : string)
    (job : StoryboardJob.t) (streams : Streams) : StoryboardJob.t * Streams :=
  let '(clients, streams') :=
    broadcastJobEvent (StoryboardJob.clients job) JobEvent.progress
      {| SsePayload.projectId := None;
         SsePayload.status := StoryboardJob.status job;
         SsePayload.message := message;
         SsePayload.updatedAt := now;
         SsePayload.sceneCount := None;
         SsePayload.error := None |} streams in
  (StoryboardJob.mk (StoryboardJob.id job) (StoryboardJob.userId job)
     (StoryboardJob.projectId job) (StoryboardJob.status job) message
     (StoryboardJob.createdAt job) now (StoryboardJob.scenes job)
     (StoryboardJob.error job) clients (StoryboardJob.cleanupTimer job),
   streams').

Definition completedPayload (job : StoryboardJob.t) (sceneCount : nat)
    : SsePayload.t :=
  {| SsePayload.projectId := Some (StoryboardJob.projectId job);
     SsePayload.status := StoryboardJob.status job;
     SsePayload.message := StoryboardJob.message job;
     SsePayload.updatedAt := StoryboardJob.updatedAt job;
     SsePayload.sceneCount := Some sceneCount;
     SsePayload.error := None |}.

Definition failedPayload (job : StoryboardJob.t) : SsePayload.t :=
  {| SsePayload.projectId := Some (StoryboardJob.projectId job);
     SsePayload.status := StoryboardJob.status job;
     SsePayload.message := StoryboardJob.message job;
     SsePayload.updatedAt := StoryboardJob.updatedAt job;
     SsePayload.sceneCount := None;
     SsePayload.error := StoryboardJob.error job |}.

(** [finishJobSuccess] up to its [await]: the terminal transition, the
    broadcast and the closing of the streams. *)
Definition finishJobSuccess (now : Z) (scenes : list Scene.t)
    (job : StoryboardJob.t) (streams : Streams) : StoryboardJob.t * Streams :=
  let job1 :=
    StoryboardJob.mk (StoryboardJob.id job) (StoryboardJob.userId job)
      (StoryboardJob.projectId job) JobStatus.completed "Storyboard completo!"
      (StoryboardJob.createdAt job) now (Some scenes)
      (StoryboardJob.error job) (StoryboardJob.clients job)
      (StoryboardJob.cleanupTimer job) in
  let '(clients, streams1) :=
    broadcastJobEvent (StoryboardJob.clients job1) JobEvent.completed
      (completedPayload job1 (length scenes)) streams in
  (StoryboardJob.setClients ∅ job1, endClients clients streams1).

(** [finishJobFailure] up to its [await]. *)
Definition finishJobFailure (now : Z) (error : string)
    (job : StoryboardJob.t) (streams : Streams) : StoryboardJob.t * Streams :=
  let job1 :=
    StoryboardJob.mk (StoryboardJob.id job) (StoryboardJob.userId job)
      (StoryboardJob.projectId job) JobStatus.failed error
      (StoryboardJob.createdAt job) now (StoryboardJob.scenes job)
      (Some error) (StoryboardJob.clients job)
      (StoryboardJob.cleanupTimer job) in
  let '(clients, streams1) :=
    broadcastJobEvent (StoryboardJob.clients job1) JobEvent.failed
      (failedPayload job1) streams in
  (StoryboardJob.setClients ∅ job1, endClients clients streams1).

(** [scheduleJobCleanup]: a timer that is pending is replaced. *)
Definition scheduleJobCleanup (now : Z) (job : StoryboardJob.t) : StoryboardJob.t :=
  StoryboardJob.setCleanupTimer (Some (now + JOB_TTL_MS)%Z) job.

Definition canAccessJob (requestUser : RequestUser.t) (job : StoryboardJob.t) : bool :=
  String.eqb (RequestUser.id requestUser) (StoryboardJob.userId job)
  || String.eqb (RequestUser.role requestUser) "ADMIN".

(** [error?.message || 'Falha no job de geração de storyboard.'] *)
Definition jobFailureMessage (errorMessage : option string) : string :=
  match errorMessage with
  | Some m => if truthy m then m else "Falha no job de geração de storyboard."
  | None => "Falha no job de geração de storyboard."
  end.

(** *** The endpoints *)

Inductive ResponseBody :=
  | ErrorBody (message : string)
  | RunningBody (projectId : string) (status : JobStatus.t) (message : string)
      (updatedAt : Z)
  | FailedBody (projectId : string) (status : JobStatus.t) (message : string)
      (error : string) (updatedAt : Z)
  | CompletedBody (projectId : string) (status : JobStatus.t) (message : string)
      (scenes : list Scene.t) (updatedAt : Z).

Record Reply := mkReply { code : nat; body : ResponseBody }.

Definition sendError (statusCode : nat) (message : string) : Reply :=
  {| code := statusCode; body := ErrorBody message |}.

(** [GET /storyboard/jobs/:jobId/result], given the verified token of the
    request ([None] when [jwtVerify] throws) and the outcome of
    [storyboardJobs.get(jobId)]. *)
Definition getJobResult (requestUser : option RequestUser.t)
    (job : option StoryboardJob.t) : Reply :=
  match requestUser with
  | None => sendError 401 "Unauthorized"
  | Some user =>
      match job with
      | None => sendError 404 "Job não encontrado."
      | Some job =>
          if negb (canAccessJob user job) then sendError 403 "Acesso negado ao job."
          else
            match StoryboardJob.status job with
            | JobStatus.running =>
                {| code := 202;
                   body := RunningBody (StoryboardJob.projectId job)
                             (StoryboardJob.status job) (StoryboardJob.message job)
                             (StoryboardJob.updatedAt job) |}
            | JobStatus.failed =>
                {| code := 400;
                   body := FailedBody (StoryboardJob.projectId job)
                             (StoryboardJob.status job) (StoryboardJob.message job)
                             (match StoryboardJob.error job with
                              | Some e => if truthy e then e else "Falha no job."
                              | None => "Falha no job."
                              end)
                             (StoryboardJob.updatedAt job) |}
            | JobStatus.completed =>
                {| code := 200;
                   body := CompletedBody (StoryboardJob.projectId job)
                             (StoryboardJob.status job) (StoryboardJob.message job)
                             (default [] (StoryboardJob.scenes job))
                             (StoryboardJob.updatedAt job) |}
            end
      end
  end.

(** The snapshot every subscriber is written first. *)
Definition snapshotPayload (job : StoryboardJob.t) : SsePayload.t :=
  {| SsePayload.projectId := Some (StoryboardJob.projectId job);
     SsePayload.status := StoryboardJob.status job;
     SsePayload.message := StoryboardJob.message job;
     SsePayload.updatedAt := StoryboardJob.updatedAt job;
     SsePayload.sceneCount := None;
     SsePayload.error := None |}.

(** [GET /storyboard/jobs/:jobId/events] for the fresh response object
    [client]: either an error reply, or the job with [client] among its
    clients when it is running, and the stream of [client]. *)
Definition subscribeJobEvents (requestUser : option RequestUser.t)
    (job : option StoryboardJob.t) (client : nat)
    : Reply + StoryboardJob.t * Stream.t :=
  match requestUser with
  | None => inl (sendError 401 "Unauthorized")
  | Some user =>
      match job with
      | None => inl (sendError 404 "Job não encontrado.")
      | Some job =>
          if negb (canAccessJob user job) then inl (sendError 403 "Acesso negado ao job.")
          else
            let raw :=
              writeSseEvent JobEvent.progress (snapshotPayload job)
                (Stream.mk (StoryboardJob.id job) [] false false false false) in
            match StoryboardJob.status job with
            | JobStatus.completed =>
                inr (job,
                     Stream.end_
                       (writeSseEvent JobEvent.completed
                          (completedPayload job
                             (length (default [] (StoryboardJob.scenes job))))
                          raw))
            | JobStatus.failed =>
                inr (job,
                     Stream.end_ (writeSseEvent JobEvent.failed (failedPayload job) raw))
            | JobStatus.running =>
                inr (StoryboardJob.setClients ({[client]} ∪ StoryboardJob.clients job) job,
                     Stream.mk (Stream.jobId raw) (Stream.written raw)
                       (Stream.ended raw) (Stream.broken raw) true (Stream.closed raw))
            end
      end
  end.

(** *** The server as a transition system *)

(** Where the background task of a job stands: inside
    [generateStoryboard], or awaiting the project update of
    [finishJobSuccess] / [finishJobFailure], or finished.  The task is
    [try { ...; scenes = await generateStoryboard(...); await
    finishJobSuccess(job, scenes) } catch { await finishJobFailure(...) }];
    [finishJobSuccess] itself does not throw (its writes and its stream
    endings are guarded, the rejection of the project update is
    swallowed), so the task reaches exactly one of the two. *)
Inductive TaskPc := Generating | Persisting | Done.

(** [jobs] holds the job objects by identity (the identifier that
    [randomUUID] drew for them, never drawn twice); [storyboardJobs] is the
    set of keys of the registry, each mapped to the object of that
    identity; [tasks] holds the background tasks. *)
Record World := mkWorld {
  clock : Z;
  jobs : gmap string StoryboardJob.t;
  storyboardJobs : gset string;
  tasks : gmap string TaskPc;
  streams : Streams }.

Definition initialWorld : World := mkWorld 0 ∅ ∅ ∅ ∅.

(** [storyboardJobs.get(jobId)] *)
Definition getJob (w : World) (jobId : string) : option StoryboardJob.t :=
  if decide (jobId ∈ storyboardJobs w) then jobs w !! jobId else None.

Inductive Label :=
  | Tick (dt : Z)
  | Start (jobId userId projectId : string)
  | TaskProgress (jobId message : string)
  | TaskReturns (jobId : string) (scenes : list Scene.t)
  | TaskThrows (jobId : string) (errorMessage : option string)
  | PersistSettled (jobId : string)
  | TimerFires (jobId : string)
  | Subscribe (client : nat) (requestUser : option RequestUser.t) (jobId : string)
  | Poll (requestUser : option RequestUser.t) (jobId : string)
  | Heartbeat (client : nat)
  | ClientCloses (client : nat)
  | StreamBreaks (client : nat).

(** The job a start request creates, after the first
    [notifyJobProgress] of its background task. *)
Definition newJob (now : Z) (jobId userId projectId : string) : StoryboardJob.t :=
  fst (notifyJobProgress now "Preparando geração do storyboard..."
         (StoryboardJob.mk jobId userId projectId JobStatus.running
            "Job criado. Iniciando processamento..." now now None None ∅ None)
         ∅).

Inductive step : World -> Label -> World -> Prop :=
  | step_tick w dt :
      (0 <= dt)%Z ->
      step w (Tick dt)
        (mkWorld (clock w + dt) (jobs w) (storyboardJobs w) (tasks w) (streams w))
  | step_start w jobId userId projectId :
      jobs w !! jobId = None ->
      step w (Start jobId userId projectId)
        (mkWorld (clock w)
           (<[jobId := newJob (clock w) jobId userId projectId]> (jobs w))
           ({[jobId]} ∪ storyboardJobs w)
           (<[jobId := Generating]> (tasks w))
           (streams w))
  | step_progress w jobId message job job' streams' :
      tasks w !! jobId = Some Generating ->
      jobs w !! jobId = Some job ->
      notifyJobProgress (clock w) message job (streams w) = (job', streams') ->
      step w (TaskProgress jobId message)
        (mkWorld (clock w) (<[jobId := job']> (jobs w)) (storyboardJobs w)
           (tasks w) streams')
  | step_returns w jobId scenes job job' streams' :
      tasks w !! jobId = Some Generating ->
      jobs w !! jobId = Some job ->
      finishJobSuccess (clock w) scenes job (streams w) = (job', streams') ->
      step w (TaskReturns jobId scenes)
        (mkWorld (clock w) (<[jobId := job']> (jobs w)) (storyboardJobs w)
           (<[jobId := Persisting]> (tasks w)) streams')
  | step_throws w jobId errorMessage job job' streams' :
      tasks w !! jobId = Some Generating ->
      jobs w !! jobId = Some job ->
      finishJobFailure (clock w) (jobFailureMessage errorMessage) job (streams w)
      = (job', streams') ->
      step w (TaskThrows jobId errorMessage)
        (mkWorld (clock w) (<[jobId := job']> (jobs w)) (storyboardJobs w)
           (<[jobId := Persisting]> (tasks w)) streams')
  | step_persist w jobId job :
      tasks w !! jobId = Some Persisting ->
      jobs w !! jobId = Some job ->
      step w (PersistSettled jobId)
        (mkWorld (clock w) (<[jobId := scheduleJobCleanup (clock w) job]> (jobs w))
           (storyboardJobs w) (<[jobId := Done]> (tasks w)) (streams w))
  | step_timer w jobId job due :
      jobs w !! jobId = Some job ->
      StoryboardJob.cleanupTimer job = Some due ->
      (due <= clock w)%Z ->
      step w (TimerFires jobId)
        (mkWorld (clock w) (jobs w) (storyboardJobs w ∖ {[jobId]}) (tasks w)
           (streams w))
  | step_subscribe_refused w client requestUser jobId reply :
      streams w !! client = None ->
      subscribeJobEvents requestUser (getJob w jobId) client = inl reply ->
      step w (Subscribe client requestUser jobId) w
  | step_subscribe w client requestUser jobId job' raw :
      streams w !! client = None ->
      subscribeJobEvents requestUser (getJob w jobId) client = inr (job', raw) ->
      step w (Subscribe client requestUser jobId)
        (mkWorld (clock w) (<[jobId := job']> (jobs w)) (storyboardJobs w)
           (tasks w) (<[client := raw]> (streams w)))
  | step_poll w requestUser jobId :
      step w (Poll requestUser jobId) w
  | step_heartbeat w client s :
      streams w !! client = Some s ->
      Stream.listening s = true ->
      step w (Heartbeat client)
        (mkWorld (clock w) (jobs w) (storyboardJobs w) (tasks w)
           (<[client := if Stream.broken s then s else Stream.write Ping s]>
              (streams w)))
  | step_close w client s :
      streams w !! client = Some s ->
      Stream.closed s = false ->
      step w (ClientCloses client)
        (mkWorld (clock w)
           (if Stream.listening s
            then alter (fun job =>
                          StoryboardJob.setClients
                            (StoryboardJob.clients job ∖ {[client]}) job)
                       (Stream.jobId s) (jobs w)
            else jobs w)
           (storyboardJobs w) (tasks w)
           (<[client := Stream.close s]> (streams w)))
  | step_break w client s :
      streams w !! client = Some s ->
      step w (StreamBreaks client)
        (mkWorld (clock w) (jobs w) (storyboardJobs w) (tasks w)
           (<[client := Stream.break s]> (streams w))).

(** The worlds the server can be in. *)
Inductive reachable : World -> Prop :=
  | reachable_initial : reachable initialWorld
  | reachable_step w label w' : reachable w -> step w label w' -> reachable w'.

(** Zero or more transitions. *)
Inductive steps : World -> World -> Prop :=
  | steps_refl w : steps w w
  | steps_more w label w' w'' : step w label w' -> steps w' w'' -> steps w w''.

(** ** Storyboard generation *)

(** The outcome of a call that may throw an [Error] (or, for an [async]
    function, reject with it). *)
Inductive Outcome (A : Type) :=
  | Returned (value : A)
  | Thrown (message : string).
Arguments Returned {A} value.
Arguments Thrown {A} message.

#[global] Instance outcome_ret : MRet Outcome := fun A value => Returned value.
#[global] Instance outcome_bind : MBind Outcome := fun A B f call =>
  match call with
  | Returned value => f value
  | Thrown message => Thrown message
  end.

(** [l.filter(f)] for a callback that may throw. *)
Fixpoint filterThrowing {A} (f : A -> Outcome bool) (l : list A) : Outcome (list A) :=
  match l with
  | [] => Returned []
  | x :: rest =>
      match f x with
      | Thrown message => Thrown message
      | Returned keep =>
          match filterThrowing f rest with
          | Thrown message => Thrown message
          | Returned kept => Returned (if keep then x :: kept else kept)
          end
      end
  end.

(** An entry of [AllCharactersInfo]. *)
Module CharacterInfo.
Record t := mk {
  name : string;
  characteristic : option string;
  context : option string }.
End CharacterInfo.

Module CharacterReference.
Record t := mk {
  name : string;
  base64Image : string;
  mimeType : string;
  characteristic : option string;
  context : option string }.
End CharacterReference.

(** [Boolean(x)] on an optional string. *)
Definition truthyOption (x : option string) : bool :=
  match x with Some s => truthy s | None => false end.

(** The reply of the text model to the prompt of a description: the call
    is rejected, or it resolves with [response.text]. *)
Inductive TextReply :=
  | TextRejected
  | TextReplied (text : option string).

(** What lies outside the program: the environment of the process, the
    regular-expression engine and the models.
    - [mockMode] is [process.env.STORYBOARD_MOCK_MODE === '1'].
    - [regExpTest name subject] is
      [new RegExp(`\\b${name}\\b`, 'i').test(subject)]; it throws when the
      constructor rejects the pattern.
    - [scriptScenes] is the list [result.scenes || []] obtained from the
      model that splits a script, thrown when the call is rejected or its
      answer is empty or cannot be parsed.
    - [descriptionReply i] answers the description prompt of the scene of
      index [i].
    - [imagenBytes i] is [imageBytes] of the first generated image for
      that scene; [referencedImage i] is, for the answer given with
      reference images, the [mimeType] and [data] of its first inline
      image and the text of its first text part; both are thrown when the
      call is rejected. *)
Module External.
Record t := mk {
  mockMode : bool;
  regExpTest : string -> string -> Outcome bool;
  scriptScenes : Outcome (list string);
  descriptionReply : nat -> TextReply;
  imagenBytes : nat -> Outcome (option string);
  referencedImage : nat -> Outcome (option (string * string) * option string) }.
End External.

Definition PLACEHOLDER_IMAGE_URL : string :=
  "data:image/svg+xml,%3Csvg xmlns='http://www.w3.org/2000/svg' viewBox='0 0 200 112.5'%3E%3Crect width='200' height='112.5' fill='%231f2937'/%3E%3Ctext x='100' y='50' text-anchor='middle' font-family='sans-serif' font-size='10' fill='%23fca5a5'%3EFalha ao gerar a imagem%3C/text%3E%3Ctext x='100' y='65' text-anchor='middle' font-family='sans-serif' font-size='6' fill='%239ca3af'%3EVerifique o console para detalhes.%3C/text%3E%3C/svg%3E".

Definition MOCK_IMAGE_URL : string :=
  "data:image/svg+xml,%3Csvg xmlns='http://www.w3.org/2000/svg' viewBox='0 0 200 112.5'%3E%3Crect width='200' height='112.5' fill='%230a3b8c'/%3E%3Ctext x='100' y='58' text-anchor='middle' font-family='sans-serif' font-size='10' fill='%23dbeafe'%3EMock Scene%3C/text%3E%3C/svg%3E".

(** [subject.includes(search)] *)
Fixpoint includes (search subject : string) : bool :=
  if String.prefix search subject then true
  else
    match subject with
    | EmptyString => false
    | String _ rest => includes search rest
    end.

Definition isSentenceEnd (c : ascii) : bool :=
  Ascii.eqb c "." || Ascii.eqb c "!" || Ascii.eqb c "?".

(** [s.split(/(?<=[.!?])\s+/)]: the pieces between the maximal runs of
    white space that come right after a [.], a [!] or a [?].  [afterEnd]
    tells that the previous character was one of the three, [inGap] that a
    separator is being skipped; [cur] is the piece being read. *)
Fixpoint splitSentences (afterEnd inGap : bool) (cur : string) (s : string)
    : list string :=
  match s with
  | EmptyString => [cur]
  | String c r =>
      if isWhitespace c then
        if inGap then splitSentences false true cur r
        else if afterEnd then cur :: splitSentences false true "" r
        else splitSentences false false (cur +:+ String c "") r
      else splitSentences (isSentenceEnd c) false (cur +:+ String c "") r
  end.

(** [splitScriptIntoMockScenes].  The description holds the first 80 bytes
    of the narration, where the code takes its first 80 UTF-16 units. *)
Definition splitScriptIntoMockScenes (script : string) : list SceneWithoutVisuals.t :=
  let parts := List.filter truthy (trim <$> splitSentences false false "" script) in
  let narrations :=
    if (0 <? length parts)%nat then take 4 parts
    else List.filter truthy [trim script] in
  if (length narrations =? 0)%nat then []
  else
    imap (fun index narration =>
            {| SceneWithoutVisuals.sceneNumber := index + 1;
               SceneWithoutVisuals.narration := narration;
               SceneWithoutVisuals.duration := "2 segundos";
               SceneWithoutVisuals.durationSeconds := 2;
               SceneWithoutVisuals.visualDescription :=
                 "Mock visual da cena " +:+ pretty (index + 1)%nat +:+ ": "
                 +:+ String.substring 0 80 narration |})
         narrations.

(** [getAiClient]; the client itself is not modelled. *)
Definition getAiClient (apiKey : string) : Outcome unit :=
  if truthy apiKey then Returned tt
  else Thrown "API Key não configurada para o usuário.".

(** [splitScriptIntoScenesWithAI] *)
Definition splitScriptIntoScenesWithAI (ext : External.t) (apiKey : string)
    : Outcome (list SceneWithoutVisuals.t) :=
  _ ← getAiClient apiKey;
  narrations ← External.scriptScenes ext;
  if (length narrations =? 0)%nat
  then Thrown "A IA não conseguiu dividir o roteiro em cenas. Tente ajustar o texto."
  else
    Returned
      (imap (fun index narration =>
               let wordCount := wordCount (trim narration) in
               let durationSeconds :=
                 Z.max 1 (mathRound (inject_Z (Z.of_nat wordCount) / (150 / 60))%Q) in
               {| SceneWithoutVisuals.sceneNumber := index + 1;
                  SceneWithoutVisuals.narration := narration;
                  SceneWithoutVisuals.duration := displayDuration durationSeconds;
                  SceneWithoutVisuals.durationSeconds := inject_Z durationSeconds;
                  SceneWithoutVisuals.visualDescription := "" |})
            narrations).

Definition fallbackDescription (narration : string) : string :=
  "Uma cena cinematográfica mostrando: " +:+ narration.

(** [generateVisualDescriptionForScene] for the scene of index [index].
    The client and the characters of the scene are computed before the
    [try]; the text of the prompt is not modelled. *)
Definition generateVisualDescriptionForScene (ext : External.t) (index : nat)
    (narration : string) (allCharactersInfo : list CharacterInfo.t)
    (apiKey : string) : Outcome string :=
  _ ← getAiClient apiKey;
  charactersInScene ←
    filterThrowing
      (fun c =>
         found ← External.regExpTest ext (CharacterInfo.name c) narration;
         Returned (found && truthyOption (CharacterInfo.characteristic c)))
      allCharactersInfo;
  match External.descriptionReply ext index with
  | TextRejected => Returned (fallbackDescription narration)
  | TextReplied text =>
      Returned
        (match text with
         | Some t => if truthy (trim t) then trim t else fallbackDescription narration
         | None => fallbackDescription narration
         end)
  end.

(** [generateImageForScene] for the scene of index [index]; the prompts
    are not modelled. *)
Definition generateImageForScene (ext : External.t) (index : nat)
    (visualDescription : string)
    (characterReferences : list CharacterReference.t)
    (allCharactersInfo : list CharacterInfo.t) (apiKey : string) : Outcome string :=
  _ ← getAiClient apiKey;
  relevantCharacters ←
    filterThrowing
      (fun char => External.regExpTest ext (CharacterReference.name char) visualDescription)
      characterReferences;
  allCharsInDescriptionWithTraits ←
    filterThrowing
      (fun char =>
         if truthyOption (CharacterInfo.characteristic char)
            || truthyOption (CharacterInfo.context char)
         then External.regExpTest ext (CharacterInfo.name char) visualDescription
         else Returned false)
      allCharactersInfo;
  if (length relevantCharacters =? 0)%nat then
    bytes ← External.imagenBytes ext index;
    match bytes with
    | Some imageBytes =>
        if truthy imageBytes then Returned ("data:image/jpeg;base64," +:+ imageBytes)
        else Thrown "A geração de imagem padrão falhou."
    | None => Thrown "A geração de imagem padrão falhou."
    end
  else
    answer ← External.referencedImage ext index;
    match answer with
    | (Some (mimeType, data), _) =>
        Returned ("data:" +:+ mimeType +:+ ";base64," +:+ data)
    | (None, textPart) =>
        Thrown ("A geração da imagem falhou. "
                +:+ (if truthyOption textPart
                     then "Resposta do modelo: " +:+ String "034" (default "" textPart)
                          +:+ String "034" ""
                     else "O modelo não retornou uma imagem."))
    end.

(** The arguments of [generateStoryboard]. *)
Module GenerateArgs.
Record t := mk {
  characterReferences : list CharacterReference.t;
  allCharactersInfo : list CharacterInfo.t;
  scriptOrSrtContent : string;
  isSrt : bool;
  imageStyle : string;
  restrictionPrompt : string;
  delayBetweenScenes : Z;
  pacing : Z;
  apiKey : string }.
End GenerateArgs.

(** [{ ...scene, visualDescription, imageUrl }] *)
Definition completeScene (scene : SceneWithoutVisuals.t)
    (visualDescription imageUrl : string) : Scene.t :=
  {| Scene.sceneNumber := SceneWithoutVisuals.sceneNumber scene;
     Scene.narration := SceneWithoutVisuals.narration scene;
     Scene.duration := SceneWithoutVisuals.duration scene;
     Scene.durationSeconds := SceneWithoutVisuals.durationSeconds scene;
     Scene.visualDescription := visualDescription;
     Scene.imageUrl := imageUrl |}.

(** [buildMockScenes] *)
Definition buildMockScenes (scriptOrSrtContent : string) (isSrt : bool)
    (pacing : Z) : Outcome (list Scene.t) :=
  let sourceScenes :=
    if isSrt then parseAndGroupSrt scriptOrSrtContent pacing
    else splitScriptIntoMockScenes scriptOrSrtContent in
  if (length sourceScenes =? 0)%nat
  then Thrown "Falha simulada: conteúdo vazio para geração mock."
  else
    Returned
      (imap (fun index scene =>
               completeScene scene
                 (if truthy (SceneWithoutVisuals.visualDescription scene)
                  then SceneWithoutVisuals.visualDescription scene
                  else "Mock visual da cena " +:+ pretty (index + 1)%nat)
                 MOCK_IMAGE_URL)
            sourceScenes).

(** The loop of [generateStoryboard] from the scene of index [i] on:
    [pending] are the scenes still to enrich, [completeScenes] the scenes
    pushed so far and [progress] the messages given to [onProgress] so far.
    The result is the messages and the outcome of the loop. *)
Fixpoint enrichScenes (ext : External.t) (args : GenerateArgs.t) (total i : nat)
    (pending : list SceneWithoutVisuals.t) (completeScenes : list Scene.t)
    (progress : list string) : list string * Outcome (list Scene.t) :=
  match pending with
  | [] => (progress, Returned completeScenes)
  | scene :: rest =>
      let progress1 :=
        progress ++ ["Criando descrição para a cena " +:+ pretty (i + 1)%nat
                     +:+ " de " +:+ pretty total +:+ "..."] in
      match generateVisualDescriptionForScene ext i
              (SceneWithoutVisuals.narration scene)
              (GenerateArgs.allCharactersInfo args) (GenerateArgs.apiKey args) with
      | Thrown message => (progress1, Thrown message)
      | Returned visualDescription =>
          let progress2 :=
            progress1 ++ ["Gerando imagem para a cena " +:+ pretty (i + 1)%nat
                          +:+ " de " +:+ pretty total +:+ "..."] in
          let '(progress3, completed) :=
            match generateImageForScene ext i visualDescription
                    (GenerateArgs.characterReferences args)
                    (GenerateArgs.allCharactersInfo args)
                    (GenerateArgs.apiKey args) with
            | Returned imageUrl =>
                (progress2, completeScene scene visualDescription imageUrl)
            | Thrown _ =>
                (progress2 ++
                 ["Falha ao gerar imagem da cena "
                  +:+ pretty (SceneWithoutVisuals.sceneNumber scene)
                  +:+ ". Usando placeholder."],
                 completeScene scene visualDescription PLACEHOLDER_IMAGE_URL)
            end in
          let progress4 :=
            if (i <? total - 1)%nat && (0 <? GenerateArgs.delayBetweenScenes args)%Z
            then
              progress3 ++
              ["Cena " +:+ pretty (i + 1)%nat +:+ " concluída. Pausando por "
               +:+ pretty (mathRound (inject_Z (GenerateArgs.delayBetweenScenes args) / 1000)%Q)
               +:+ "s para não exceder a cota da API..."]
            else progress3 in
          enrichScenes ext args total (i + 1) rest (completeScenes ++ [completed])
            progress4
      end
  end.

(** [generateStoryboard]: the messages given to [onProgress], and the
    scenes returned or the error thrown.  The pauses ([sleep]) take time
    and nothing else. *)
Definition generateStoryboard (ext : External.t) (args : GenerateArgs.t)
    : list string * Outcome (list Scene.t) :=
  if External.mockMode ext then
    let progress := ["Modo mock ativo: iniciando geração simulada..."] in
    if includes "__MOCK_FAIL__" (GenerateArgs.scriptOrSrtContent args)
    then (progress, Thrown "Falha simulada de geração (mock).")
    else
      match buildMockScenes (GenerateArgs.scriptOrSrtContent args)
              (GenerateArgs.isSrt args) (GenerateArgs.pacing args) with
      | Thrown message => (progress, Thrown message)
      | Returned mockScenes =>
          (progress
           ++ imap (fun i _ =>
                      "Mock: cena " +:+ pretty (i + 1)%nat +:+ " de "
                      +:+ pretty (length mockScenes) +:+ " concluída.")
                   mockScenes
           ++ ["Storyboard mock completo!"],
           Returned mockScenes)
      end
  else
    let '(progress, segmented) :=
      if GenerateArgs.isSrt args then
        (["Processando e agrupando cenas do arquivo .SRT com ritmo ajustado..."],
         Returned (parseAndGroupSrt (GenerateArgs.scriptOrSrtContent args)
                     (GenerateArgs.pacing args)))
      else
        (["Analisando e dividindo o roteiro com IA usando o ritmo selecionado..."],
         splitScriptIntoScenesWithAI ext (GenerateArgs.apiKey args)) in
    match segmented with
    | Thrown message => (progress, Thrown message)
    | Returned scenesWithoutVisuals =>
        if (length scenesWithoutVisuals =? 0)%nat then
          (progress,
           Thrown (if GenerateArgs.isSrt args
                   then "Nenhuma cena válida foi encontrada no arquivo .SRT. Verifique o formato do arquivo."
                   else "Nenhuma cena foi identificada no roteiro. A IA pode não ter conseguido processar o texto."))
        else
          match enrichScenes ext args (length scenesWithoutVisuals) 0
                  scenesWithoutVisuals [] progress with
          | (progress', Returned completeScenes) =>
              (progress' ++ ["Storyboard completo!"], Returned completeScenes)
          | (progress', Thrown message) => (progress', Thrown message)
          end
    end.

(** ** Accounts, API keys and the generation endpoints *)

(** The handlers are functions of what the request carries and of what the
    database answers; a database call that throws is given as such where
    the handler distinguishes it. *)

(** A row of the users table, with the fields the server reads; [status]
    and [role] are the names of the stored values. *)
Module UserRow.
Record t := mk {
  id : string;
  email : string;
  role : string;
  status : string;
  googleApiKey : option string;
  passwordHash : string }.

Definition withGoogleApiKey (key : option string) (user : t) : t :=
  mk (id user) (email user) (role user) (status user) key (passwordHash user).
End UserRow.

(** What a handler sends: the body of a success, or [sendError]. *)
Inductive ApiReply (A : Type) :=
  | Sent (body : A)
  | SentError (statusCode : nat) (message : string).
Arguments Sent {A} body.
Arguments SentError {A} statusCode message.

(** [error?.message || fallback] for the message of a thrown error. *)
Definition messageOr (fallback message : string) : string :=
  if truthy message then message else fallback.

(** [getUserForGemini], given the row found for the user (if any). *)
Definition getUserForGemini (mockMode : bool) (user : option UserRow.t)
    : ApiReply UserRow.t :=
  match user with
  | None => SentError 404 "Usuário não encontrado."
  | Some user =>
      if String.eqb (UserRow.status user) "BANNED"
         || String.eqb (UserRow.status user) "EXPIRED"
      then SentError 403 "Conta sem permissão para gerar conteúdo."
      else if mockMode then
        Sent (UserRow.withGoogleApiKey
                (Some (if truthyOption (UserRow.googleApiKey user)
                       then default "" (UserRow.googleApiKey user)
                       else "mock-key"))
                user)
      else if negb (truthyOption (UserRow.googleApiKey user)) then
        SentError 400
          ("API Key não configurada. Clique em " +:+ String "034" "Configurar API Key"
           +:+ String "034" " para continuar.")
      else Sent user
  end.

(** A row of the projects table. *)
Module ProjectRow.
Record t := mk { id : string; userId : string }.
End ProjectRow.

(** [getProjectForUser], given the row found for the project (if any). *)
Definition getProjectForUser (project : option ProjectRow.t)
    (requestUser : RequestUser.t) : ApiReply ProjectRow.t :=
  match project with
  | None => SentError 404 "Projeto não encontrado."
  | Some project =>
      let isOwner := String.eqb (ProjectRow.userId project) (RequestUser.id requestUser) in
      let isAdmin := String.eqb (RequestUser.role requestUser) "ADMIN" in
      if negb isOwner && negb isAdmin then SentError 403 "Acesso negado ao projeto."
      else Sent project
  end.

(** [{ ...generationPayload, apiKey }] *)
Definition withApiKey (apiKey : string) (payload : GenerateArgs.t) : GenerateArgs.t :=
  GenerateArgs.mk (GenerateArgs.characterReferences payload)
    (GenerateArgs.allCharactersInfo payload)
    (GenerateArgs.scriptOrSrtContent payload) (GenerateArgs.isSrt payload)
    (GenerateArgs.imageStyle payload) (GenerateArgs.restrictionPrompt payload)
    (GenerateArgs.delayBetweenScenes payload) (GenerateArgs.pacing payload) apiKey.

(** [POST /storyboard/generate].  [requestUser] is the verified token
    ([None] when [jwtVerify] throws), [payload] what
    [generateStoryboardSchema.parse] returns or throws, [user] the row
    found for the token. *)
Definition postGenerate (ext : External.t) (requestUser : option RequestUser.t)
    (payload : Outcome GenerateArgs.t) (user : option UserRow.t)
    : ApiReply (list Scene.t) :=
  match requestUser with
  | None => SentError 401 "Unauthorized"
  | Some _ =>
      match payload with
      | Thrown message => SentError 400 (messageOr "Falha ao gerar storyboard." message)
      | Returned payload =>
          match getUserForGemini (External.mockMode ext) user with
          | SentError code error => SentError code error
          | Sent user =>
              match (generateStoryboard ext
                       (withApiKey (default "" (UserRow.googleApiKey user)) payload)).2 with
              | Returned scenes => Sent scenes
              | Thrown message =>
                  SentError 400 (messageOr "Falha ao gerar storyboard." message)
              end
          end
      end
  end.

(** The body of a regeneration request. *)
Module RegenerateArgs.
Record t := mk {
  visualDescription : string;
  characterReferences : list CharacterReference.t;
  allCharactersInfo : list CharacterInfo.t;
  imageStyle : string;
  restrictionPrompt : string }.
End RegenerateArgs.

(** [regenerateSceneImage]; [call] names the call among those the image
    models answer. *)
Definition regenerateSceneImage (ext : External.t) (call : nat)
    (args : RegenerateArgs.t) (apiKey : string) : Outcome string :=
  generateImageForScene ext call (RegenerateArgs.visualDescription args)
    (RegenerateArgs.characterReferences args)
    (RegenerateArgs.allCharactersInfo args) apiKey.

(** [POST /storyboard/regenerate-image] *)
Definition postRegenerateImage (ext : External.t) (call : nat)
    (requestUser : option RequestUser.t) (payload : Outcome RegenerateArgs.t)
    (user : option UserRow.t) : ApiReply string :=
  match requestUser with
  | None => SentError 401 "Unauthorized"
  | Some _ =>
      match payload with
      | Thrown message => SentError 400 (messageOr "Falha ao regenerar imagem." message)
      | Returned payload =>
          match getUserForGemini (External.mockMode ext) user with
          | SentError code error => SentError code error
          | Sent user =>
              match regenerateSceneImage ext call payload
                      (default "" (UserRow.googleApiKey user)) with
              | Returned imageUrl => Sent imageUrl
              | Thrown message =>
                  SentError 400 (messageOr "Falha ao regenerar imagem." message)
              end
          end
      end
  end.

(** The body of a start request: the generation payload, and the project
    to reuse, if any. *)
Module StartPayload.
Record t := mk {
  generationPayload : GenerateArgs.t;
  projectId : option string;
  title : option string }.
End StartPayload.

(** What a start request that passes its checks sets up: the job, and the
    arguments of the generation its background task runs. *)
Module StartedJob.
Record t := mk {
  job : StoryboardJob.t;
  args : GenerateArgs.t }.
End StartedJob.

(** [POST /storyboard/generate/start] up to the launch of the background
    task.  [project] is the row found for the project of the payload,
    [projectRecord] the row that the update or the creation of the project
    returns (or what it throws), [jobId] the value of [randomUUID()] and
    [now] of [Date.now()]. *)
Definition postGenerateStart (mockMode : bool) (now : Z) (jobId : string)
    (requestUser : option RequestUser.t) (payload : Outcome StartPayload.t)
    (user : option UserRow.t) (project : option ProjectRow.t)
    (projectRecord : Outcome ProjectRow.t) : ApiReply StartedJob.t :=
  let failed message :=
    SentError 400 (messageOr "Falha ao iniciar geração de storyboard." message) in
  match requestUser with
  | None => SentError 401 "Unauthorized"
  | Some requestUser =>
      match payload with
      | Thrown message => failed message
      | Returned payload =>
          match getUserForGemini mockMode user with
          | SentError code error => SentError code error
          | Sent user =>
              let launch :=
                match projectRecord with
                | Thrown message => failed message
                | Returned projectRecord =>
                    Sent {| StartedJob.job :=
                              StoryboardJob.mk jobId (RequestUser.id requestUser)
                                (ProjectRow.id projectRecord) JobStatus.running
                                "Job criado. Iniciando processamento..." now now
                                None None ∅ None;
                            StartedJob.args :=
                              withApiKey (default "" (UserRow.googleApiKey user))
                                (StartPayload.generationPayload payload) |}
                end in
              if truthyOption (StartPayload.projectId payload) then
                match getProjectForUser project requestUser with
                | SentError code error => SentError code error
                | Sent _ => launch
                end
              else launch
          end
      end
  end.

(** *** Log-in *)

(** [s.toUpperCase()] on the letters [a] to [z]. *)
Definition upperAscii (c : ascii) : ascii :=
  let n := N_of_ascii c in
  if (97 <=? n)%N && (n <=? 122)%N then ascii_of_N (n - 32) else c.

Fixpoint toUpperCase (s : string) : string :=
  match s with
  | EmptyString => EmptyString
  | String c r => String (upperAscii c) (toUpperCase r)
  end.

(** What a successful log-in sends. *)
Module LoginBody.
Record t := mk {
  token : string;
  email : string;
  role : string;
  status : string;
  googleApiKey : option string }.
End LoginBody.

(** [POST /login].  [credentials] is what [loginSchema.parse] returns or
    throws, [user] the row found for the e-mail, [passwordMatches] the
    outcome of [bcrypt.compare] and [token] the signed token. *)
Definition postLogin (credentials : Outcome (string * string))
    (user : option UserRow.t) (passwordMatches : bool) (token : string)
    : ApiReply LoginBody.t :=
  match credentials with
  | Thrown message => SentError 400 (messageOr "Falha no login." message)
  | Returned _ =>
      match user with
      | None => SentError 400 "Credenciais inválidas."
      | Some user =>
          if truthy (UserRow.status user)
             && String.eqb (toUpperCase (UserRow.status user)) "BANNED"
          then SentError 403 "Usuário banido."
          else if negb passwordMatches then SentError 400 "Credenciais inválidas."
          else if negb (String.eqb (UserRow.status user) "ACTIVE") then
            SentError 403 "Sua conta está em análise. Aguarde aprovação do administrador."
          else
            Sent (LoginBody.mk token (UserRow.email user) (UserRow.role user)
                    (UserRow.status user) (UserRow.googleApiKey user))
      end
  end.

(** *** The API key of a user *)

(** The class [[0-9A-Za-z\-_]]. *)
Definition isKeyChar (c : ascii) : bool :=
  let n := N_of_ascii c in
  isDigit c
  || ((65 <=? n)%N && (n <=? 90)%N)
  || ((97 <=? n)%N && (n <=? 122)%N)
  || Ascii.eqb c "-" || Ascii.eqb c "_".

Fixpoint allKeyChars (s : string) : bool :=
  match s with
  | EmptyString => true
  | String c r => isKeyChar c && allKeyChars r
  end.

(** [/^AIza[0-9A-Za-z\-_]{30,}$/.test(cleanKey)] *)
Definition looksLikeGoogleKey (cleanKey : string) : bool :=
  match cleanKey with
  | String "A" (String "I" (String "z" (String "a" rest))) =>
      (30 <=? String.length rest)%nat && allKeyChars rest
  | _ => false
  end.

(** The reasons a validation can give, as the handler distinguishes them. *)
Inductive KeyRejection :=
  | INVALID_KEY | MODEL_NOT_SUPPORTED | QUOTA_EXCEEDED | PERMISSION_DENIED | OTHER_REASON.

(** [validateGoogleApiKey]: [None] is [{ valid: true }].  [jsTrim] is
    [String.prototype.trim] of the engine, which strips all of Unicode's
    white space and line terminators. *)
Definition validateGoogleApiKey (jsTrim : string -> string) (apiKey : string)
    : option KeyRejection :=
  let cleanKey := jsTrim apiKey in
  if negb (looksLikeGoogleKey cleanKey) then Some INVALID_KEY else None.

(** [PUT /user/apikey]: the reply and, when the key is stored, the value
    stored for the user.  [apiKey] is [request.body?.apiKey] when it is a
    string, [updated] the outcome of [prisma.user.update], which rejects
    when the user of the token has no row.  The handler has no [try]: when
    the token does not verify, the framework answers with the status and
    the message of the error that [jwtVerify] throws, here the
    [SentError] of [verified]; when the update rejects, it answers 500
    with the message of the rejection. *)
Definition putUserApiKey (jsTrim : string -> string)
    (verified : ApiReply RequestUser.t) (apiKey : option string)
    (updated : Outcome unit) : ApiReply string :=
  match verified with
  | SentError statusCode message => SentError statusCode message
  | Sent _ =>
      match apiKey with
      | None => SentError 400 "API Key é obrigatória"
      | Some apiKey =>
          if negb (truthy apiKey) then SentError 400 "API Key é obrigatória"
          else
            let cleanKey := jsTrim apiKey in
            match validateGoogleApiKey jsTrim cleanKey with
            | Some INVALID_KEY =>
                SentError 400 "Chave inválida. Verifique no Google AI Studio."
            | Some MODEL_NOT_SUPPORTED =>
                SentError 500 "Erro interno: modelo não suportado para validação."
            | Some QUOTA_EXCEEDED =>
                SentError 429 "Quota excedida ou billing ausente no Google Cloud."
            | Some PERMISSION_DENIED =>
                SentError 403 "Chave válida, mas com restrição de IP/referrer/API."
            | Some OTHER_REASON =>
                SentError 500 "Erro temporário ao validar a chave. Tente novamente."
            | None =>
                match updated with
                | Returned _ => Sent cleanKey
                | Thrown message => SentError 500 message
                end
            end
      end
  end.

(** ** The event stream on the wire, and the client of the job endpoints *)

(** The names of the events and of the statuses, as they are written. *)
Definition eventName (event : JobEvent.t) : string :=
  match event with
  | JobEvent.progress => "progress"
  | JobEvent.completed => "completed"
  | JobEvent.failed => "failed"
  end.

Definition statusName (status : JobStatus.t) : string :=
  match status with
  | JobStatus.running => "running"
  | JobStatus.completed => "completed"
  | JobStatus.failed => "failed"
  end.

(** What [writeSseEvent] and the heartbeat write on a response object;
    [jsonStringify] is [JSON.stringify] on the payloads. *)
Definition wireItem (jsonStringify : SsePayload.t -> string) (item : StreamItem)
    : string :=
  match item with
  | SseEvent event payload =>
      ("event: " +:+ eventName event +:+ String "010" "")
      +:+ ("data: " +:+ jsonStringify payload +:+ String "010" (String "010" ""))
  | Ping => ": ping" +:+ String "010" (String "010" "")
  end.

(** [s.slice(n)] *)
Fixpoint sliceFrom (n : nat) (s : string) : string :=
  match n, s with
  | O, _ => s
  | S n', String _ r => sliceFrom n' r
  | S _, EmptyString => EmptyString
  end.

(** The fields that the client reads in the data of an event. *)
Module EventData.
Record t := mk { message : option string; error : option string }.
End EventData.

(** The variables of the loop of [parseSseEvent]. *)
Record SseScan := mkSseScan { scannedEvent : string; dataLines : list string }.

(** The body of [for (const rawLine of block.split('\n'))]. *)
Definition scanLine (scan : SseScan) (rawLine : string) : SseScan :=
  let line := trim rawLine in
  if negb (truthy line) || String.prefix ":" line then scan
  else if String.prefix "event:" line then
    mkSseScan (trim (sliceFrom 6 line)) (dataLines scan)
  else if String.prefix "data:" line then
    mkSseScan (scannedEvent scan) (dataLines scan ++ [trim (sliceFrom 5 line)])
  else scan.

(** [parseSseEvent] of the client; [jsonParse] is [JSON.parse], [None]
    when it throws. *)
Definition parseSseEvent {J : Type} (jsonParse : string -> option J) (block : string)
    : option (string * J) :=
  if negb (truthy (trim block)) then None
  else
    let scan :=
      fold_left scanLine (splitOn (Ascii.eqb "010") "" block)
        (mkSseScan "message" []) in
    if (length (dataLines scan) =? 0)%nat then None
    else
      match jsonParse (String.concat "" (dataLines scan)) with
      | Some data => Some (scannedEvent scan, data)
      | None => None
      end.

(** How the reading of the stream stands: still reading, with what is
    left in the buffer; or stopped, by the return at the [completed] event
    or by the error thrown at the [failed] event. *)
Inductive Reader :=
  | Reading (buffer : string)
  | Stopped (outcome : Outcome unit).

(** [a || b || fallback] on optional texts. *)
Definition firstTruthy (a b : option string) (fallback : string) : string :=
  if truthyOption a then default "" a
  else if truthyOption b then default "" b
  else fallback.

(** What the reader does with one block: the messages given to
    [onProgress] so far, and whether it goes on ([None]) or stops. *)
Definition handleBlock (jsonParse : string -> option EventData.t) (block : string)
    (progress : list string) : list string * option (Outcome unit) :=
  match parseSseEvent jsonParse block with
  | None => (progress, None)
  | Some (event, data) =>
      let progress' :=
        if truthyOption (EventData.message data)
        then progress ++ [default "" (EventData.message data)]
        else progress in
      if String.eqb event "failed" then
        (progress',
         Some (Thrown (firstTruthy (EventData.error data) (EventData.message data)
                         "Falha na geração do storyboard.")))
      else if String.eqb event "completed" then (progress', Some (Returned tt))
      else (progress', None)
  end.

(** The inner loop of [streamStoryboardEvents]: as long as the buffer
    holds two line feeds in a row, the block before the first such pair is
    cut off and handled.  The buffer is [cur] followed by [s], where [cur]
    is the part already searched. *)
Fixpoint drainFrom (jsonParse : string -> option EventData.t) (cur : string)
    (s : string) (progress : list string) : list string * Reader :=
  match s with
  | EmptyString => (progress, Reading cur)
  | String c r =>
      if Ascii.eqb c "010" then
        match r with
        | EmptyString => (progress, Reading (cur +:+ String c ""))
        | String c' r' =>
            if Ascii.eqb c' "010" then
              match handleBlock jsonParse cur progress with
              | (progress', Some outcome) => (progress', Stopped outcome)
              | (progress', None) => drainFrom jsonParse "" r' progress'
              end
            else drainFrom jsonParse (cur +:+ String c (String c' "")) r' progress
        end
      else drainFrom jsonParse (cur +:+ String c "") r progress
  end.

(** The outer loop of [streamStoryboardEvents] on the chunks that the body
    of the response delivers, until it is done. *)
Fixpoint readChunks (jsonParse : string -> option EventData.t) (buffer : string)
    (chunks : list string) (progress : list string) : list string * Outcome unit :=
  match chunks with
  | [] => (progress, Returned tt)
  | chunk :: rest =>
      match drainFrom jsonParse "" (buffer +:+ chunk) progress with
      | (progress', Reading buffer') => readChunks jsonParse buffer' rest progress'
      | (progress', Stopped outcome) => (progress', outcome)
      end
  end.

(** The body of a reply of the result endpoint, as the client gets it from
    [response.json()]. *)
Module ResultData.
Record t := mk {
  projectId : option string;
  status : option string;
  message : option string;
  error : option string;
  scenes : option (list Scene.t) }.
End ResultData.

(** The object that each reply of the result endpoint sends. *)
Definition replyData (reply : Reply) : nat * ResultData.t :=
  (code reply,
   match body reply with
   | ErrorBody message =>
       ResultData.mk None None (Some message) (Some message) None
   | RunningBody projectId status message _ =>
       ResultData.mk (Some projectId) (Some (statusName status)) (Some message) None None
   | FailedBody projectId status message error _ =>
       ResultData.mk (Some projectId) (Some (statusName status)) (Some message)
         (Some error) None
   | CompletedBody projectId status message scenes _ =>
       ResultData.mk (Some projectId) (Some (statusName status)) (Some message) None
         (Some scenes)
   end).

(** What one turn of the loop of [waitForStoryboardResult] does with a
    reply. *)
Inductive PollTurn :=
  | PollAgain (progress : option string)
  | PollThrows (message : string)
  | PollReturns (scenes : list Scene.t) (projectId : option string).

(** [data.status === name] *)
Definition hasStatus (name : string) (data : ResultData.t) : bool :=
  match ResultData.status data with
  | Some status => String.eqb status name
  | None => false
  end.

Definition pollTurn (status : nat) (data : ResultData.t) : PollTurn :=
  if (status =? 202)%nat || hasStatus "running" data
  then PollAgain (if truthyOption (ResultData.message data)
                  then ResultData.message data else None)
  else if (400 <=? status)%nat || hasStatus "failed" data
  then PollThrows (firstTruthy (ResultData.error data) (ResultData.message data)
                     "Falha no processamento do storyboard.")
  else
    match ResultData.scenes data with
    | Some scenes =>
        if hasStatus "completed" data
        then PollReturns scenes (ResultData.projectId data)
        else PollThrows "Resposta inválida do servidor ao obter resultado do job."
    | None => PollThrows "Resposta inválida do servidor ao obter resultado do job."
    end.

(** ** The render loop of the compositor *)

(** The canvas of a resolution: width and height. *)
Inductive Resolution := R720p | R1080p.

Definition canvasOf (resolution : Resolution) : Q * Q :=
  match resolution with
  | R1080p => (1920, 1080)%Q
  | R720p => (1280, 720)%Q
  end.

(** [if (totalDuration <= 0) return reject(...)] *)
Definition checkTotalDuration (totalDuration : Q) : Outcome unit :=
  if Qle_bool totalDuration 0
  then Thrown "A duração do vídeo é zero. Não é possível gerar um clipe."
  else Returned tt.

(** The loop that fills [sceneStartTimes], from the iteration [i] on:
    [times] is the array so far.  [sceneStartTimes[i]] is always there;
    the [default] stands for an [undefined] that cannot happen. *)
Fixpoint pushStartTimes (i : nat) (scenes : list Scene.t) (times : list Q) : list Q :=
  match scenes with
  | [] => times
  | scene :: rest =>
      pushStartTimes (S i) rest
        (times ++ [(default 0 (times !! i) + Scene.durationSeconds scene)%Q])
  end.

(** [sceneStartTimes]: the loop runs on all the scenes but the last. *)
Definition sceneStartTimes (scaledScenes : list Scene.t) : list Q :=
  pushStartTimes 0 (take (length scaledScenes - 1) scaledScenes) [0%Q].

(** [while (currentSceneIndex < scaledScenes.length - 1 && currentTime >=
    sceneStartTimes[currentSceneIndex + 1]) currentSceneIndex++], on the
    start times that follow the one of the current scene. *)
Fixpoint advanceOver (laterStarts : list Q) (currentTime : Q) (index : nat) : nat :=
  match laterStarts with
  | [] => index
  | start :: rest =>
      if Qle_bool start currentTime then advanceOver rest currentTime (S index)
      else index
  end.

Definition advanceScene (sceneCount : nat) (startTimes : list Q) (currentTime : Q)
    (currentSceneIndex : nat) : nat :=
  advanceOver (drop (S currentSceneIndex) (take sceneCount startTimes)) currentTime
    currentSceneIndex.

(** [10 + Math.floor((currentTime / totalDuration) * 85)] *)
Definition visualProgress (currentTime totalDuration : Q) : Z :=
  (10 + Qfloor (currentTime / totalDuration * 85)%Q)%Z.

(** The variables that the render loop keeps from one tick to the next. *)
Record RenderState := mkRenderState {
  currentSceneIndex : nat;
  lastReportedProgress : Z }.

(** What a tick of the render loop does: it stops the recorder, it throws
    a [TypeError] before it paints, or it paints the image of the current
    scene in a rectangle and may report a percentage with its message.
    The variables keep the scene index that the tick has reached. *)
Inductive TickResult :=
  | StopRecorder
  | Throws (state : RenderState)
  | Paint (state : RenderState) (rect : Rect) (report : option (Z * string)).

(** The callback of [setInterval], at the reading [currentTime] of the
    clock.  [scene.durationSeconds] throws when there is no scene at the
    index, [transform.dest] when there is no transform; the start time of
    a scene that exists is always there, the [default] stands for an
    [undefined] that cannot happen. *)
Definition renderTick (scaledScenes : list Scene.t)
    (transforms : list KenBurnsTransform) (totalDuration : Q)
    (state : RenderState) (currentTime : Q) : TickResult :=
  let startTimes := sceneStartTimes scaledScenes in
  if Qle_bool totalDuration currentTime then StopRecorder
  else
    let index :=
      advanceScene (length scaledScenes) startTimes currentTime
        (currentSceneIndex state) in
    match scaledScenes !! index, transforms !! index with
    | Some scene, Some transform =>
        let sceneStartTime := default 0%Q (startTimes !! index) in
        let timeInScene := (currentTime - sceneStartTime)%Q in
        let progress := sceneProgress timeInScene (Scene.durationSeconds scene) in
        let percent := visualProgress currentTime totalDuration in
        if (lastReportedProgress state <? percent)%Z then
          Paint (mkRenderState index percent) (interpolate transform progress)
            (Some (percent,
                   "Renderizando cena " +:+ pretty (index + 1)%nat +:+ "/"
                   +:+ pretty (length scaledScenes) +:+ "..."))
        else
          Paint (mkRenderState index (lastReportedProgress state))
            (interpolate transform progress) None
    | _, _ => Throws (mkRenderState index (lastReportedProgress state))
    end.

(** What the loop leaves on the canvas at a tick: the index of the image
    drawn, its destination rectangle, and the progress reported if any. *)
Definition Frame : Type := nat * Rect * option (Z * string).

(** The ticks of the interval on the successive readings of the clock, up
    to the one that stops the recorder.  A tick that throws paints nothing
    and leaves the interval running. *)
Fixpoint renderLoop (scaledScenes : list Scene.t)
    (transforms : list KenBurnsTransform) (totalDuration : Q)
    (state : RenderState) (clock : list Q) : list Frame :=
  match clock with
  | [] => []
  | currentTime :: later =>
      match renderTick scaledScenes transforms totalDuration state currentTime with
      | StopRecorder => []
      | Throws state' => renderLoop scaledScenes transforms totalDuration state' later
      | Paint state' rect report =>
          (currentSceneIndex state', rect, report)
          :: renderLoop scaledScenes transforms totalDuration state' later
      end
  end.

(** [generateVideoFromScenes] up to the end of the render loop, once the
    audio track, if any, is decoded and the images are loaded:
    [audioDuration] is the duration of the track, [imageSize] the width
    and height of the image behind a URL, [randoms] the three draws of
    [Math.random()] for the transform of each index, and [clock] the
    readings of the clock at the ticks. *)
Definition generateVideoFromScenes (imageSize : string -> Q * Q)
    (randoms : nat -> Q * Q * Q) (scenes : list Scene.t)
    (audioDuration : option Q) (resolution : Resolution) (clock : list Q)
    : Outcome (list Frame) :=
  let '(width, height) := canvasOf resolution in
  let '(totalDuration, scaledScenes) := reconcileDurations scenes audioDuration in
  _ ← checkTotalDuration totalDuration;
  let transforms :=
    imap (fun index scene =>
            let '(imgWidth, imgHeight) := imageSize (Scene.imageUrl scene) in
            let '(random1, random2, random3) := randoms index in
            getKenBurnsTransforms imgWidth imgHeight width height
              random1 random2 random3)
         scaledScenes in
  Returned
    (renderLoop scaledScenes transforms totalDuration (mkRenderState 0 (-1)) clock).

(** * Part II: specification-side definitions *)

(** ** Binary64 arithmetic *)

(** The exponent of the last place of the double nearest to [x]. *)
Definition exponentOf (x : Q) : Z :=
  Z.max (-1074) (Binary64.log2floor (Qabs x) - 52).

(** A number is a double when rounding leaves it as it is. *)
Definition isDouble (x : Q) : Prop := (Binary64.round x == x)%Q.

(** The doubles are multiples of [2^-1074]. *)
Definition onGrid (x : Q) : Prop :=
  exists k : Z, (x == inject_Z k * Binary64.pow2 (-1074))%Q.

(** The unit roundoff: half the distance from 1 to the next double. *)
Definition unitRoundoff : Q := Binary64.pow2 (-53).

(** The rational that a binary64 number of the kernel denotes (zero for
    the infinities and for NaN). *)
Definition ofFloat (f : PrimFloat.float) : Q :=
  match FloatOps.Prim2SF f with
  | SpecFloat.S754_finite negative m e =>
      ((if negative then -1 else 1) * inject_Z (Zpos m) * Binary64.pow2 e)%Q
  | _ => 0%Q
  end.

(** Words counted by a scan: [inWord] tells that a word is being read. *)
Fixpoint wordsFrom (inWord : bool) (s : string) : nat :=
  match s with
  | EmptyString => if inWord then 1 else 0
  | String c r =>
      if isWhitespace c then (if inWord then 1 else 0) + wordsFrom false r
      else wordsFrom true r
  end.

Definition allDigits (s : string) : Prop :=
  forall c, In c (list_ascii_of_string s) -> isDigit c = true.

(** The group still open in a loop state, as it would be pushed. *)
Definition currentGroup (st : GroupingState) : SceneGroup.t :=
  SceneGroup.mk (currentSceneNarration st) (currentSceneStartTime st)
                (lastLineEndTime st).

Definition closeGroups (st : GroupingState) : list SceneGroup.t :=
  sceneGroups st ++ [currentGroup st].

Definition initialState (first : TimedLine.t) : GroupingState :=
  {| sceneGroups := [];
     currentSceneNarration := TimedLine.text first;
     currentSceneStartTime := TimedLine.startTime first;
     lastLineEndTime := TimedLine.endTime first |}.

(** The narration of a run of consecutive lines. *)
Definition joinTexts (chunk : list TimedLine.t) : string :=
  String.concat " " (map TimedLine.text chunk).

(** What the word budget allows a chunk of lines to be: within budget, or
    one single line that is over the budget by itself. *)
Definition withinBudget (maxWordsPerScene : Z) (chunk : list TimedLine.t) : Prop :=
  chunk <> [] /\
  ((Z.of_nat (wordCount (joinTexts chunk)) <= maxWordsPerScene)%Z \/
   exists line, chunk = [line] /\
     (maxWordsPerScene < Z.of_nat (wordCount (TimedLine.text line)))%Z).

(** The loop invariant: the lines read so far are cut into the chunks of
    the groups already pushed, followed by the chunk of the open group. *)
Definition chunked (maxWordsPerScene : Z) (done : list TimedLine.t)
    (st : GroupingState) : Prop :=
  exists (chunks : list (list TimedLine.t)) (cur : list TimedLine.t),
    done = concat chunks ++ cur /\
    map SceneGroup.narration (sceneGroups st) = map joinTexts chunks /\
    currentSceneNarration st = joinTexts cur /\
    Forall (withinBudget maxWordsPerScene) chunks /\
    withinBudget maxWordsPerScene cur.

(** The raw durations of a list of groups, by recursion on the list. *)
Fixpoint gaps (groups : list SceneGroup.t) : list Q :=
  match groups with
  | [] => []
  | group :: rest =>
      match rest with
      | [] => (SceneGroup.endTime group - SceneGroup.startTime group)%Q
      | next :: _ => (SceneGroup.startTime next - SceneGroup.startTime group)%Q
      end :: gaps rest
  end.

(** The group of a run of consecutive lines, as the loop pushes it: the
    texts joined, from the start of the first line to the end of the
    last one. *)
Definition groupOf (chunk : list TimedLine.t) : SceneGroup.t :=
  SceneGroup.mk (joinTexts chunk)
                (default 0%Q (TimedLine.startTime <$> head chunk))
                (default 0%Q (TimedLine.endTime <$> last chunk)).

(** A group spans a chunk of lines: it has their texts, starts when the
    first of them starts and ends when the last of them ends. *)
Definition spans (chunk : list TimedLine.t) (group : SceneGroup.t) : Prop :=
  exists first final : TimedLine.t,
    head chunk = Some first /\ last chunk = Some final /\
    SceneGroup.narration group = joinTexts chunk /\
    SceneGroup.startTime group = TimedLine.startTime first /\
    SceneGroup.endTime group = TimedLine.endTime final.

(** The loop invariant of the times: the groups pushed are those of the
    chunks read, and the open group is that of the open chunk. *)
Definition timed (done : list TimedLine.t) (st : GroupingState) : Prop :=
  exists (chunks : list (list TimedLine.t)) (cur : list TimedLine.t),
    done = concat chunks ++ cur /\
    Forall (fun chunk => chunk <> []) chunks /\ cur <> [] /\
    sceneGroups st = map groupOf chunks /\
    currentGroup st = groupOf cur.

(** Both times of a line are doubles. *)
Definition timedInDoubles (line : TimedLine.t) : Prop :=
  isDouble (TimedLine.startTime line) /\ isDouble (TimedLine.endTime line).

(** ** Sample inputs *)

Definition LF : string := String "010" "".

(** Two lines of four words, the second starting when the first ends. *)
Definition scenarioA : string :=
  "1" +:+ LF +:+ "00:00:01,000 --> 00:00:03,000" +:+ LF +:+ "um dois tres quatro"
  +:+ LF +:+ LF +:+
  "2" +:+ LF +:+ "00:00:03,000 --> 00:00:05,000" +:+ LF +:+ "cinco seis sete oito".

(** The same two lines with two seconds of silence between them. *)
Definition scenarioB : string :=
  "1" +:+ LF +:+ "00:00:01,000 --> 00:00:03,000" +:+ LF +:+ "um dois tres quatro"
  +:+ LF +:+ LF +:+
  "2" +:+ LF +:+ "00:00:05,000 --> 00:00:07,000" +:+ LF +:+ "cinco seis sete oito".

(** One line of 2.5 s whose times are not representable: it starts at
    63 ms and ends at 2563 ms. *)
Definition inexactSrt : string :=
  "1" +:+ LF +:+ "00:00:00,063 --> 00:00:02,563" +:+ LF +:+ "um dois tres".

(** Two short lines, the second starting 1.5 s after the first ends, by the
    time stamps: 3 ms and 1503 ms. *)
Definition exactPauseSrt : string :=
  "1" +:+ LF +:+ "00:00:00,001 --> 00:00:00,003" +:+ LF +:+ "um dois"
  +:+ LF +:+ LF +:+
  "2" +:+ LF +:+ "00:00:01,503 --> 00:00:02,000" +:+ LF +:+ "tres quatro".

(** A short interjection of 80 ms followed at once by a ten-word line. *)
Definition shortLineSrt : string :=
  "1" +:+ LF +:+ "00:00:01,000 --> 00:00:01,080" +:+ LF +:+ "Oi."
  +:+ LF +:+ LF +:+
  "2" +:+ LF +:+ "00:00:01,080 --> 00:00:05,000" +:+ LF
  +:+ "um dois tres quatro cinco seis sete oito nove dez".

(** Lines in chronological order: none ends before it starts, none starts
    before the previous one ends. *)
Fixpoint chronological (timedLines : list TimedLine.t) : bool :=
  match timedLines with
  | [] => true
  | line :: rest =>
      Qle_bool (TimedLine.startTime line) (TimedLine.endTime line)
      && match rest with
         | [] => true
         | next :: _ => Qle_bool (TimedLine.endTime line) (TimedLine.startTime next)
         end
      && chronological rest
  end.

(** ** Compositor *)

(** A destination rectangle that leaves no part of the frame unpainted. *)
Definition coversFrame (r : Rect) (canvasWidth canvasHeight : Q) : Prop :=
  (dx r <= 0)%Q /\ (dy r <= 0)%Q /\
  (canvasWidth <= dx r + dWidth r)%Q /\ (canvasHeight <= dy r + dHeight r)%Q.

Definition sceneLasting (d : Q) : Scene.t :=
  {| Scene.sceneNumber := 1; Scene.narration := "Oi.";
     Scene.duration := "1 segundo"; Scene.durationSeconds := d;
     Scene.visualDescription := ""; Scene.imageUrl := "" |}.

(** ** Job orchestrator *)

(** The fields of a job that its observers are shown. *)
Definition sameOutcome (job job' : StoryboardJob.t) : Prop :=
  StoryboardJob.id job' = StoryboardJob.id job /\
  StoryboardJob.userId job' = StoryboardJob.userId job /\
  StoryboardJob.projectId job' = StoryboardJob.projectId job /\
  StoryboardJob.status job' = StoryboardJob.status job /\
  StoryboardJob.message job' = StoryboardJob.message job /\
  StoryboardJob.updatedAt job' = StoryboardJob.updatedAt job /\
  StoryboardJob.scenes job' = StoryboardJob.scenes job /\
  StoryboardJob.error job' = StoryboardJob.error job.

(** A terminal job carries its result. *)
Definition resultPresent (job : StoryboardJob.t) : Prop :=
  match StoryboardJob.status job with
  | JobStatus.running => True
  | JobStatus.completed => is_Some (StoryboardJob.scenes job)
  | JobStatus.failed =>
      exists e, StoryboardJob.error job = Some e /\ truthy e = true
  end.

(** What the position of the background task tells about its job. *)
Definition taskAgrees (w : World) (jobId : string) (job : StoryboardJob.t) : Prop :=
  match tasks w !! jobId with
  | Some Generating =>
      StoryboardJob.status job = JobStatus.running /\
      StoryboardJob.cleanupTimer job = None /\
      jobId ∈ storyboardJobs w
  | Some Persisting =>
      StoryboardJob.status job <> JobStatus.running /\
      StoryboardJob.clients job = ∅ /\
      StoryboardJob.cleanupTimer job = None /\
      jobId ∈ storyboardJobs w /\
      resultPresent job
  | Some Done =>
      StoryboardJob.status job <> JobStatus.running /\
      StoryboardJob.clients job = ∅ /\
      resultPresent job
  | None => False
  end.

Definition jobsInvariant (w : World) : Prop :=
  (forall jobId job, jobs w !! jobId = Some job ->
     StoryboardJob.id job = jobId /\ taskAgrees w jobId job) /\
  (forall jobId, jobId ∈ storyboardJobs w -> is_Some (jobs w !! jobId)).

(** A job is never updated in the future, and a pending clean-up timer is
    due no sooner than [JOB_TTL_MS] after the last update of its job. *)
Definition timersInvariant (w : World) : Prop :=
  forall jobId job, jobs w !! jobId = Some job ->
    (StoryboardJob.updatedAt job <= clock w)%Z /\
    (forall due, StoryboardJob.cleanupTimer job = Some due ->
       (StoryboardJob.updatedAt job + JOB_TTL_MS <= due)%Z).

(** A user of the sample runs, and one who is neither the owner of the
    sample job nor an administrator. *)
Definition alice : RequestUser.t := RequestUser.mk "alice" "USER".
Definition bob : RequestUser.t := RequestUser.mk "bob" "USER".

(** A sample run: a job of alice is started, its generation returns one
    scene, the project update settles. *)
Definition worldStarted : World :=
  mkWorld 0 (<["job-1" := newJob 0 "job-1" "alice" "project-1"]> ∅)
    ({["job-1"]} ∪ ∅) (<["job-1" := Generating]> ∅) ∅.

Definition jobCompleted : StoryboardJob.t :=
  (finishJobSuccess 0 [sceneLasting 2%Q]
     (newJob 0 "job-1" "alice" "project-1") ∅).1.

Definition worldCompleted : World :=
  mkWorld 0 (<["job-1" := jobCompleted]> (jobs worldStarted))
    (storyboardJobs worldStarted) (<["job-1" := Persisting]> (tasks worldStarted))
    (finishJobSuccess 0 [sceneLasting 2%Q]
       (newJob 0 "job-1" "alice" "project-1") ∅).2.

Definition worldSettled : World :=
  mkWorld 0 (<["job-1" := scheduleJobCleanup 0 jobCompleted]> (jobs worldCompleted))
    (storyboardJobs worldCompleted) (<["job-1" := Done]> (tasks worldCompleted))
    (streams worldCompleted).

(** *** Event streams *)

(** An item that is not a terminal event: a progress event or a ping. *)
Definition progressItem (item : StreamItem) : Prop :=
  match item with
  | SseEvent event _ => event = JobEvent.progress
  | Ping => True
  end.

Definition isTerminal (item : StreamItem) : bool :=
  match item with
  | SseEvent JobEvent.progress _ => false
  | SseEvent _ _ => true
  | Ping => false
  end.

Definition terminalCount (items : list StreamItem) : nat :=
  length (List.filter isTerminal items).

(** The terminal event of a job: [completed] with the number of scenes, or
    [failed] with the error. *)
Definition terminalItem (job : StoryboardJob.t) : option StreamItem :=
  match StoryboardJob.status job with
  | JobStatus.running => None
  | JobStatus.completed =>
      Some (SseEvent JobEvent.completed
              (completedPayload job (length (default [] (StoryboardJob.scenes job)))))
  | JobStatus.failed => Some (SseEvent JobEvent.failed (failedPayload job))
  end.

(** What a stream holds: the snapshot first; then progress events and
    pings; and, exactly when the server has ended it, the terminal event
    of its job as the last item. *)
Definition streamShape (job : StoryboardJob.t) (s : Stream.t) : Prop :=
  exists snapshot rest,
    Stream.written s = SseEvent JobEvent.progress snapshot :: rest /\
    SsePayload.projectId snapshot = Some (StoryboardJob.projectId job) /\
    if Stream.ended s
    then exists body t,
           rest = body ++ [t] /\ Forall progressItem body /\
           terminalItem job = Some t
    else Forall progressItem rest.

Definition streamAgrees (job : StoryboardJob.t) (client : nat) (s : Stream.t) : Prop :=
  streamShape job s /\
  (client ∈ StoryboardJob.clients job ->
   Stream.listening s = true /\ Stream.ended s = false) /\
  (Stream.listening s = true -> Stream.closed s = false) /\
  (StoryboardJob.status job = JobStatus.running ->
   Stream.closed s = false -> Stream.broken s = false ->
   client ∈ StoryboardJob.clients job) /\
  (StoryboardJob.status job <> JobStatus.running ->
   Stream.closed s = false -> Stream.broken s = false ->
   Stream.ended s = true).

Definition streamsAgree (jobs : gmap string StoryboardJob.t) (streams : Streams)
    : Prop :=
  (forall client s,
     streams !! client = Some s ->
     exists job, jobs !! Stream.jobId s = Some job /\ streamAgrees job client s) /\
  (forall jobId job client,
     jobs !! jobId = Some job -> client ∈ StoryboardJob.clients job ->
     exists s, streams !! client = Some s /\ Stream.jobId s = jobId).

Definition serverInvariant (w : World) : Prop :=
  jobsInvariant w /\ streamsAgree (jobs w) (streams w).

(** The common shape of [finishJobSuccess] and [finishJobFailure]. *)
Definition finishWith (job1 : StoryboardJob.t) (event : JobEvent.t)
    (payload : SsePayload.t) (streams : Streams) : StoryboardJob.t * Streams :=
  let '(clients, streams1) :=
    broadcastJobEvent (StoryboardJob.clients job1) event payload streams in
  (StoryboardJob.setClients ∅ job1, endClients clients streams1).

(** The result a terminal event carries: the number of scenes of the
    completed job, or the error of the failed one. *)
Definition carriesResult (job : StoryboardJob.t) (item : StreamItem) : Prop :=
  match item with
  | SseEvent JobEvent.completed payload =>
      exists scenes,
        StoryboardJob.scenes job = Some scenes /\
        SsePayload.sceneCount payload = Some (length scenes)
  | SseEvent JobEvent.failed payload =>
      exists error,
        StoryboardJob.error job = Some error /\
        SsePayload.error payload = Some error
  | _ => False
  end.

(** A step from [w] to [w'] hands the terminal event [item] to every
    subscriber of the job whose connection is neither closed nor broken:
    the event is the last thing written on its stream, and the stream is
    ended. *)
Definition delivers (w w' : World) (jobId : string) (item : StreamItem) : Prop :=
  forall client s,
    streams w !! client = Some s -> Stream.jobId s = jobId ->
    Stream.closed s = false -> Stream.broken s = false ->
    exists s',
      streams w' !! client = Some s' /\
      Stream.written s' = Stream.written s ++ [item] /\
      Stream.ended s' = true.

(** A second sample run: alice subscribes (connection 1) while her job is
    running, then the generation returns one scene. *)
Definition worldSubscribed : World :=
  match subscribeJobEvents (Some alice) (getJob worldStarted "job-1") 1 with
  | inr (job', raw) =>
      mkWorld 0 (<["job-1" := job']> (jobs worldStarted))
        (storyboardJobs worldStarted) (tasks worldStarted)
        (<[1%nat := raw]> (streams worldStarted))
  | inl _ => worldStarted
  end.

Definition worldServed : World :=
  match jobs worldSubscribed !! "job-1" with
  | Some job =>
      let r := finishJobSuccess 0 [sceneLasting 2%Q] job (streams worldSubscribed) in
      mkWorld 0 (<["job-1" := r.1]> (jobs worldSubscribed))
        (storyboardJobs worldSubscribed)
        (<["job-1" := Persisting]> (tasks worldSubscribed)) r.2
  | None => worldSubscribed
  end.

(** ** Storyboard generation *)

(** The segmentation phase of [generateStoryboard]. *)
Definition segmentScenes (ext : External.t) (args : GenerateArgs.t)
    : Outcome (list SceneWithoutVisuals.t) :=
  if GenerateArgs.isSrt args then
    Returned (parseAndGroupSrt (GenerateArgs.scriptOrSrtContent args)
                (GenerateArgs.pacing args))
  else splitScriptIntoScenesWithAI ext (GenerateArgs.apiKey args).

(** The description a scene gets once its prompt reaches the model: the
    trimmed answer, or the fallback built from the narration. *)
Definition describedAs (ext : External.t) (index : nat) (narration : string) : string :=
  match External.descriptionReply ext index with
  | TextReplied (Some t) =>
      if truthy (trim t) then trim t else fallbackDescription narration
  | _ => fallbackDescription narration
  end.

(** The image a scene gets: the generated one, or the placeholder. *)
Definition imageFor (ext : External.t) (args : GenerateArgs.t) (index : nat)
    (visualDescription : string) : string :=
  match generateImageForScene ext index visualDescription
          (GenerateArgs.characterReferences args)
          (GenerateArgs.allCharactersInfo args) (GenerateArgs.apiKey args) with
  | Returned imageUrl => imageUrl
  | Thrown _ => PLACEHOLDER_IMAGE_URL
  end.

Definition enrichedScene (ext : External.t) (args : GenerateArgs.t) (index : nat)
    (scene : SceneWithoutVisuals.t) : Scene.t :=
  let visualDescription := describedAs ext index (SceneWithoutVisuals.narration scene) in
  completeScene scene visualDescription (imageFor ext args index visualDescription).

(** Nothing fails in [generateVisualDescriptionForScene] before its
    [try]: an API key is configured and the pattern of every character
    name is accepted. *)
Definition descriptionsReachModel (ext : External.t) (args : GenerateArgs.t)
    (scenes : list SceneWithoutVisuals.t) : Prop :=
  truthy (GenerateArgs.apiKey args) = true /\
  forall c scene,
    In c (GenerateArgs.allCharactersInfo args) -> In scene scenes ->
    exists found,
      External.regExpTest ext (CharacterInfo.name c) (SceneWithoutVisuals.narration scene)
      = Returned found.

(** *** Sample inputs *)

(** An engine that, as JavaScript engines do, rejects the pattern
    [\bC++\b], and finds no other name anywhere. *)
Definition strictRegExp (name subject : string) : Outcome bool :=
  if String.eqb name "C++"
  then Thrown "Invalid regular expression: /\bC++\b/i: Nothing to repeat"
  else Returned false.

(** Models that describe every scene and fail to draw the second one. *)
Definition sampleExternal : External.t :=
  {| External.mockMode := false;
     External.regExpTest := strictRegExp;
     External.scriptScenes := Returned [];
     External.descriptionReply := fun _ => TextReplied (Some " Plano geral, luz suave. ");
     External.imagenBytes :=
       fun index => if (index =? 1)%nat then Thrown "quota" else Returned (Some "QUJD");
     External.referencedImage := fun _ => Returned (None, None) |}.

(** A request on the subtitles of scenario B with one character. *)
Definition sampleArgsWith (characterName apiKey : string) : GenerateArgs.t :=
  {| GenerateArgs.characterReferences := [];
     GenerateArgs.allCharactersInfo := [CharacterInfo.mk characterName None None];
     GenerateArgs.scriptOrSrtContent := scenarioB;
     GenerateArgs.isSrt := true;
     GenerateArgs.imageStyle := "aquarela";
     GenerateArgs.restrictionPrompt := "";
     GenerateArgs.delayBetweenScenes := 30000;
     GenerateArgs.pacing := 10;
     GenerateArgs.apiKey := apiKey |}.

Definition sampleArgs (characterName : string) : GenerateArgs.t :=
  sampleArgsWith characterName "sample-key".

(** The mock mode of the integration tests, with every model out of
    reach. *)
Definition mockExternal : External.t :=
  {| External.mockMode := true;
     External.regExpTest := strictRegExp;
     External.scriptScenes := Thrown "offline";
     External.descriptionReply := fun _ => TextRejected;
     External.imagenBytes := fun _ => Thrown "offline";
     External.referencedImage := fun _ => Thrown "offline" |}.

(** A request on a plain script. *)
Definition scriptArgs (script : string) : GenerateArgs.t :=
  {| GenerateArgs.characterReferences := [];
     GenerateArgs.allCharactersInfo := [];
     GenerateArgs.scriptOrSrtContent := script;
     GenerateArgs.isSrt := false;
     GenerateArgs.imageStyle := "aquarela";
     GenerateArgs.restrictionPrompt := "";
     GenerateArgs.delayBetweenScenes := 0;
     GenerateArgs.pacing := 10;
     GenerateArgs.apiKey := "mock-key" |}.

(** A duration for which no product of the rescaling underflows: a double
    that is zero, or not below [2^-340] s. *)
Definition sizedDuration (d : Q) : Prop :=
  isDouble d /\ (d == 0 \/ Binary64.pow2 (-340) <= d)%Q.

(** Five scenes, to be played against a track. *)
Definition paceScenes : list Scene.t :=
  map (fun d => sceneLasting (literal d)) [2.5; 3.1; 4.7; 1.9; 2.2]%Q.

(** ** Texts and chunks of the segmenter *)

(** The characters of a text. *)
Definition chars (s : string) : list ascii := list_ascii_of_string s.

(** The silence between a line and the next one, as the loop measures
    it: the difference of the two times, rounded. *)
Definition pauseBetween (line next : TimedLine.t) : Q :=
  (TimedLine.startTime next ⊖ TimedLine.endTime line)%Q.

(** No two consecutive lines of the chunk are more than
    [MAX_PAUSE_SECONDS] apart. *)
Fixpoint calm (chunk : list TimedLine.t) : Prop :=
  match chunk with
  | [] => True
  | line :: rest =>
      match rest with
      | [] => True
      | next :: _ => (pauseBetween line next <= MAX_PAUSE_SECONDS)%Q
      end /\ calm rest
  end.

(** What makes the loop close a chunk before the line [next]: the silence
    before it, or the words it would add. *)
Definition mustSplit (maxWordsPerScene : Z) (chunk : list TimedLine.t)
    (next : TimedLine.t) : Prop :=
  (exists final, last chunk = Some final /\
     (MAX_PAUSE_SECONDS < pauseBetween final next)%Q) \/
  (maxWordsPerScene
   < Z.of_nat (wordCount (joinTexts chunk) + wordCount (TimedLine.text next)))%Z.

(** Every chunk but the last ends where the loop had to close it. *)
Fixpoint boundaries (maxWordsPerScene : Z) (chunks : list (list TimedLine.t)) : Prop :=
  match chunks with
  | [] => True
  | chunk :: rest =>
      match rest with
      | [] => True
      | following :: _ =>
          exists next, head following = Some next /\
                       mustSplit maxWordsPerScene chunk next
      end /\ boundaries maxWordsPerScene rest
  end.

(** The loop invariant of the pause rule. *)
Definition paced (maxWordsPerScene : Z) (done : list TimedLine.t)
    (st : GroupingState) : Prop :=
  exists (chunks : list (list TimedLine.t)) (cur : list TimedLine.t) (final : TimedLine.t),
    done = concat chunks ++ cur /\
    map SceneGroup.narration (sceneGroups st) = map joinTexts chunks /\
    currentSceneNarration st = joinTexts cur /\
    last cur = Some final /\
    lastLineEndTime st = TimedLine.endTime final /\
    Forall calm chunks /\ calm cur /\
    boundaries maxWordsPerScene (chunks ++ [cur]).

(** A subtitle request with the given content and API key, without
    characters. *)
Definition sampleArgsWithContent (content apiKey : string) : GenerateArgs.t :=
  {| GenerateArgs.characterReferences := [];
     GenerateArgs.allCharactersInfo := [];
     GenerateArgs.scriptOrSrtContent := content;
     GenerateArgs.isSrt := true;
     GenerateArgs.imageStyle := "aquarela";
     GenerateArgs.restrictionPrompt := "";
     GenerateArgs.delayBetweenScenes := 0;
     GenerateArgs.pacing := 10;
     GenerateArgs.apiKey := apiKey |}.

Definition lacks (c : ascii) (s : string) : Prop := ~ In c (chars s).

(** The text with every line feed turned into carriage return, line
    feed. *)
Fixpoint toCrLf (s : string) : string :=
  match s with
  | EmptyString => EmptyString
  | String c r =>
      if Ascii.eqb c "010" then String "013" (String "010" (toCrLf r))
      else String c (toCrLf r)
  end.

(** ** Results of the generation *)

(** An image given inline, as a [data:] URL. *)
Definition isDataUrl (url : string) : bool := String.prefix "data:" url.

(** The fields that enrichment has to leave alone. *)
Definition sameTimingAndText (scene : SceneWithoutVisuals.t) (completed : Scene.t)
    : Prop :=
  Scene.sceneNumber completed = SceneWithoutVisuals.sceneNumber scene /\
  Scene.narration completed = SceneWithoutVisuals.narration scene /\
  Scene.duration completed = SceneWithoutVisuals.duration scene /\
  Scene.durationSeconds completed = SceneWithoutVisuals.durationSeconds scene.

(** The scenes the mock mode starts from. *)
Definition mockSourceScenes (args : GenerateArgs.t) : list SceneWithoutVisuals.t :=
  if GenerateArgs.isSrt args
  then parseAndGroupSrt (GenerateArgs.scriptOrSrtContent args) (GenerateArgs.pacing args)
  else splitScriptIntoMockScenes (GenerateArgs.scriptOrSrtContent args).

(** The scenes a run of [generateStoryboard] starts from. *)
Definition sourceScenes (ext : External.t) (args : GenerateArgs.t)
    : Outcome (list SceneWithoutVisuals.t) :=
  if External.mockMode ext then Returned (mockSourceScenes args)
  else segmentScenes ext args.

(** Models that split every script into the same two scenes. *)
Definition scriptedExternal : External.t :=
  {| External.mockMode := false;
     External.regExpTest := strictRegExp;
     External.scriptScenes := Returned ["Era uma vez um gato."; "Ele dormia ao sol."];
     External.descriptionReply := fun _ => TextRejected;
     External.imagenBytes := fun _ => Returned (Some "QUJD");
     External.referencedImage := fun _ => Returned (None, None) |}.

(** ** Accounts and jobs *)

(** The accounts that may not generate. *)
Definition refusedStatus (status : string) : Prop :=
  status = "BANNED" \/ status = "EXPIRED".

(** What never changes in a job, and the time of its last update, which
    never goes back. *)
Definition sameIdentity (job job' : StoryboardJob.t) : Prop :=
  StoryboardJob.id job' = StoryboardJob.id job /\
  StoryboardJob.userId job' = StoryboardJob.userId job /\
  StoryboardJob.projectId job' = StoryboardJob.projectId job /\
  StoryboardJob.createdAt job' = StoryboardJob.createdAt job /\
  (StoryboardJob.updatedAt job <= StoryboardJob.updatedAt job')%Z.

Definition datesInvariant (w : World) : Prop :=
  forall jobId job, jobs w !! jobId = Some job ->
    (StoryboardJob.createdAt job <= StoryboardJob.updatedAt job)%Z.

(** Sample rows and requests. *)
Definition aliceRow (status : string) (key : option string) : UserRow.t :=
  UserRow.mk "alice" "alice@example.com" "USER" status key "$2a$10$hash".

Definition sampleStart : StartPayload.t :=
  StartPayload.mk (sampleArgsWithContent scenarioB "") None None.

Definition sampleKey : string := "AIza-sample-key-0123456789-abcdefghijklmnop".

(** ** The event stream, end to end *)

(** A text as [JSON.stringify] gives for an object: not empty, on one
    line, with no white space around it. *)
Definition tight (json : string) : Prop :=
  json <> "" /\ lacks "010" json /\ trim json = json.

(** The fields the client reads, in the payload the server sends. *)
Definition eventData (payload : SsePayload.t) : EventData.t :=
  EventData.mk (Some (SsePayload.message payload)) (SsePayload.error payload).

(** The bytes of everything written on a response object. *)
Definition wireText (jsonStringify : SsePayload.t -> string) (items : list StreamItem)
    : string :=
  String.concat "" (map (wireItem jsonStringify) items).

(** What the client makes of the items written on a stream, in order:
    the messages it reports, and how it stops. *)
Fixpoint clientView (items : list StreamItem) (progress : list string)
    : list string * Outcome unit :=
  match items with
  | [] => (progress, Returned tt)
  | Ping :: rest => clientView rest progress
  | SseEvent event payload :: rest =>
      let progress' :=
        if truthy (SsePayload.message payload)
        then progress ++ [SsePayload.message payload] else progress in
      match event with
      | JobEvent.progress => clientView rest progress'
      | JobEvent.completed => (progress', Returned tt)
      | JobEvent.failed =>
          (progress',
           Thrown (firstTruthy (SsePayload.error payload)
                     (Some (SsePayload.message payload))
                     "Falha na geração do storyboard."))
      end
  end.

(** A text that holds no empty line and does not end a line. *)
Fixpoint unbroken (s : string) : bool :=
  match s with
  | EmptyString => true
  | String c r =>
      if Ascii.eqb c "010" then
        match r with
        | EmptyString => false
        | String c' r' => negb (Ascii.eqb c' "010") && unbroken r'
        end
      else unbroken r
  end.

(** A toy [JSON.stringify] and [JSON.parse] for the examples: only the
    message is written. *)
Definition toyStringify (payload : SsePayload.t) : string :=
  "{" +:+ SsePayload.message payload +:+ "}".

Definition toyParse (json : string) : option EventData.t :=
  match json with
  | String "{" r =>
      Some (EventData.mk (Some (String.substring 0 (String.length r - 1) r)) None)
  | _ => None
  end.

(** How a reading that has seen all the bytes ends. *)
Definition finishReading (result : list string * Reader) : list string * Outcome unit :=
  match result with
  | (progress, Reading _) => (progress, Returned tt)
  | (progress, Stopped outcome) => (progress, outcome)
  end.

(** Sample payloads and a sample stream, cut into chunks that split events
    and separators. *)
Definition samplePayload (status : JobStatus.t) (message : string) : SsePayload.t :=
  SsePayload.mk (Some "project-1") status message 0 None None.

Definition sampleItems : list StreamItem :=
  [SseEvent JobEvent.progress (samplePayload JobStatus.running "Preparando...");
   Ping;
   SseEvent JobEvent.completed (samplePayload JobStatus.completed "Storyboard completo!");
   Ping].

Definition sampleChunks : list string :=
  ["event: progress" +:+ LF +:+ "data: {Prepa";
   "rando...}" +:+ LF;
   LF +:+ ": ping" +:+ LF +:+ LF +:+ "event: comp";
   "leted" +:+ LF +:+ "data: {Storyboard completo!}" +:+ LF +:+ LF +:+ ": pi";
   "ng" +:+ LF +:+ LF].

(** ** The timeline of the render loop *)


(** The state in which the render loop starts. *)
Definition initialRenderState : RenderState := mkRenderState 0 (-1).




(** The percentages that the frames report, in order. *)
Definition reportedPercents (frames : list Frame) : list Z :=
  omap (fun frame : Frame => fst <$> frame.2) frames.

(** Three scenes of two, three and one second, their transforms on the
    1080p canvas, and a clock that passes the end. *)
Definition sampleTimeline : list Scene.t :=
  [sceneLasting 2%Q; sceneLasting 3%Q; sceneLasting 1%Q].

Definition sampleTransforms : list KenBurnsTransform :=
  [getKenBurnsTransforms 4000 3000 1920 1080 (literal 0.7) (literal 0.9) (literal 0.2);
   getKenBurnsTransforms 1000 1000 1920 1080 (literal 0.3) (literal 0.5) (literal 0.5);
   getKenBurnsTransforms 1920 1080 1920 1080 (literal 0.6) (literal 0.1) (literal 0.8)]%Q.

Definition sampleClock : list Q := [0; 1; 2.5; 2.5; 5.5; 6; 7]%Q.

(** An audio track is usable when it lasts more than nothing. *)
Definition usableAudio (audioDuration : option Q) : Prop :=
  forall totalDuration, audioDuration = Some totalDuration -> (0 < totalDuration)%Q.

(** * Part III: properties *)
(** ** Binary64 arithmetic *)

Section Binary64Facts.
Import Binary64.
Local Open Scope Q_scope.

Lemma pow2_pos (e : Z) : 0 < pow2 e.
Proof. apply Qpower_0_lt. reflexivity. Qed.

Lemma pow2_plus (a b : Z) : pow2 (a + b) == pow2 a * pow2 b.
Proof. apply Qpower_plus. discriminate. Qed.

Lemma pow2_le (a b : Z) : (a <= b)%Z -> pow2 a <= pow2 b.
Proof. intros H. apply Qpower_le_compat_l; [exact H|discriminate]. Qed.

Lemma pow2_lt (a b : Z) : (a < b)%Z -> pow2 a < pow2 b.
Proof. intros H. apply Qpower_lt_compat_l; [exact H|reflexivity]. Qed.

Lemma pow2_lt_inv (a b : Z) : pow2 a < pow2 b -> (a < b)%Z.
Proof. intros H. eapply Qpower_lt_compat_l_inv; [exact H|reflexivity]. Qed.

Lemma pow2_succ (e : Z) : pow2 (e + 1) == 2 * pow2 e.
Proof. rewrite pow2_plus. change (pow2 1) with 2. ring. Qed.

Lemma pow2_Z (n : Z) : (0 <= n)%Z -> inject_Z (2 ^ n) == pow2 n.
Proof. intros H. now apply Zpower_Qpower. Qed.

Lemma log2floor_spec (x : Q) :
  0 < x -> pow2 (log2floor x) <= x < pow2 (log2floor x + 1).
Proof.
  intros Hx. destruct x as [n d]. unfold log2floor. cbn [Qnum Qden].
  assert (Hn : (0 < n)%Z) by (unfold Qlt in Hx; cbn in Hx; lia).
  set (a := Z.log2 n). set (b := Z.log2 (Zpos d)).
  assert (Ha : inject_Z (2 ^ a) <= inject_Z n < inject_Z (2 ^ (a + 1))).
  { destruct (Z.log2_spec n Hn) as [H1 H2]. fold a in H1, H2.
    rewrite <- Zle_Qle, <- Zlt_Qlt. replace (a + 1)%Z with (Z.succ a) by lia. now split. }
  assert (Hb : inject_Z (2 ^ b) <= inject_Z (Zpos d) < inject_Z (2 ^ (b + 1))).
  { destruct (Z.log2_spec (Zpos d) ltac:(lia)) as [H1 H2]. fold b in H1, H2.
    rewrite <- Zle_Qle, <- Zlt_Qlt. replace (b + 1)%Z with (Z.succ b) by lia. now split. }
  assert (Ha0 : (0 <= a)%Z) by apply Z.log2_nonneg.
  assert (Hb0 : (0 <= b)%Z) by apply Z.log2_nonneg.
  rewrite !pow2_Z in Ha, Hb by lia.
  assert (Hd : 0 < inject_Z (Zpos d)) by reflexivity.
  assert (Hxd : n # d == inject_Z n / inject_Z (Zpos d)) by apply Qmake_Qdiv.
  assert (Hlow : pow2 (a - b - 1) <= n # d).
  { rewrite Hxd. apply Qle_shift_div_l; [exact Hd|].
    apply Qle_trans with (pow2 (a - b - 1) * pow2 (b + 1)).
    - apply Qmult_le_l; [apply pow2_pos|]. apply Qlt_le_weak, Hb.
    - rewrite <- pow2_plus. replace (a - b - 1 + (b + 1))%Z with a by lia. apply Ha. }
  assert (Hhigh : n # d < pow2 (a - b + 1)).
  { rewrite Hxd. apply Qlt_shift_div_r; [exact Hd|].
    apply Qlt_le_trans with (pow2 (a + 1)); [apply Ha|].
    replace (a + 1)%Z with (a - b + 1 + b)%Z by lia. rewrite pow2_plus.
    apply Qmult_le_l; [apply pow2_pos|apply Hb]. }
  destruct (Qle_bool (pow2 (a - b)) (n # d)) eqn:Hk.
  - apply Qle_bool_iff in Hk. now split.
  - replace (a - b - 1 + 1)%Z with (a - b)%Z by lia. split; [exact Hlow|].
    apply Qnot_le_lt. intros H. apply Qle_bool_iff in H. congruence.
Qed.

Lemma log2floor_unique (x : Q) (k : Z) :
  pow2 k <= x < pow2 (k + 1) -> log2floor x = k.
Proof.
  intros [Hlow Hhigh].
  assert (Hx : 0 < x) by (eapply Qlt_le_trans; [apply (pow2_pos k)|exact Hlow]).
  destruct (log2floor_spec x Hx) as [Hl Hh].
  assert (log2floor x < k + 1)%Z
    by (apply pow2_lt_inv; eapply Qle_lt_trans; eassumption).
  assert (k < log2floor x + 1)%Z
    by (apply pow2_lt_inv; eapply Qle_lt_trans; eassumption).
  lia.
Qed.

Lemma log2floor_mono (x y : Q) : 0 < x -> x <= y -> (log2floor x <= log2floor y)%Z.
Proof.
  intros Hx Hxy.
  destruct (log2floor_spec x Hx) as [Hl _].
  destruct (log2floor_spec y ltac:(lra)) as [_ Hh].
  assert (log2floor x < log2floor y + 1)%Z by (apply pow2_lt_inv; lra).
  lia.
Qed.

Lemma log2floor_comp (x y : Q) : 0 < x -> x == y -> log2floor x = log2floor y.
Proof.
  intros Hx Hxy. symmetry. apply log2floor_unique. rewrite <- Hxy.
  now apply log2floor_spec.
Qed.

(** *** The nearest integer *)

Lemma roundHalfEven_spec (x : Q) :
  let z := inject_Z (roundHalfEven x) in
  Qabs (z - x) < 1 # 2 \/
  (Qabs (z - x) == 1 # 2 /\ Z.even (roundHalfEven x) = true).
Proof.
  unfold roundHalfEven. cbn zeta.
  pose proof (Qfloor_le x) as Hl. pose proof (Qlt_floor x) as Hh.
  rewrite inject_Z_plus in Hh. change (inject_Z 1) with 1 in Hh.
  set (f := Qfloor x) in *.
  destruct (Qcompare_spec (x - inject_Z f) (1 # 2)) as [He|Hlt|Hgt].
  - destruct (Z.even f) eqn:Heven.
    + right. split; [|exact Heven]. apply Qabs_case; intros; lra.
    + right. split.
      * rewrite inject_Z_plus. change (inject_Z 1) with 1. apply Qabs_case; intros; lra.
      * rewrite Z.even_add, Heven. reflexivity.
  - left. apply Qabs_case; intros; lra.
  - left. rewrite inject_Z_plus. change (inject_Z 1) with 1. apply Qabs_case; intros; lra.
Qed.

Lemma roundHalfEven_near (x : Q) : Qabs (inject_Z (roundHalfEven x) - x) <= 1 # 2.
Proof. destruct (roundHalfEven_spec x) as [H|[H _]]; lra. Qed.

Lemma nearest_unique (x : Q) (z z' : Z) :
  Qabs (inject_Z z - x) < 1 # 2 \/ (Qabs (inject_Z z - x) == 1 # 2 /\ Z.even z = true) ->
  Qabs (inject_Z z' - x) < 1 # 2 \/ (Qabs (inject_Z z' - x) == 1 # 2 /\ Z.even z' = true) ->
  z = z'.
Proof.
  intros H H'.
  assert (Hd : forall a b : Z,
             Qabs (inject_Z a - x) <= 1 # 2 -> Qabs (inject_Z b - x) <= 1 # 2 ->
             (a <= b + 1)%Z /\
             (a = b + 1 -> Qabs (inject_Z a - x) == 1 # 2 /\ Qabs (inject_Z b - x) == 1 # 2)%Z).
  { intros a b Ha Hb. apply Qabs_Qle_condition in Ha, Hb.
    assert (Hab : inject_Z a <= inject_Z (b + 1))
      by (rewrite inject_Z_plus; change (inject_Z 1) with 1; lra).
    rewrite <- Zle_Qle in Hab. split; [exact Hab|].
    intros ->. rewrite inject_Z_plus in *. change (inject_Z 1) with 1 in *.
    split; apply Qabs_case; intros; lra. }
  assert (Hz : Qabs (inject_Z z - x) <= 1 # 2) by (destruct H as [?|[? _]]; lra).
  assert (Hz' : Qabs (inject_Z z' - x) <= 1 # 2) by (destruct H' as [?|[? _]]; lra).
  destruct (Hd z z' Hz Hz') as [H1 E1]. destruct (Hd z' z Hz' Hz) as [H2 E2].
  destruct (Z.eq_dec z z') as [|Hne]; [assumption|exfalso].
  assert (Hcase : (z = z' + 1 \/ z' = z + 1)%Z) by lia.
  assert (Hties : Qabs (inject_Z z - x) == 1 # 2 /\ Qabs (inject_Z z' - x) == 1 # 2)
    by (destruct Hcase as [E|E]; [apply (E1 E)|apply and_comm, (E2 E)]).
  destruct Hties as [T T'].
  destruct H as [H|[_ Hev]]; [lra|]. destruct H' as [H'|[_ Hev']]; [lra|].
  destruct Hcase as [E|E]; rewrite E, Z.even_add in *; cbn in *;
    destruct (Z.even z), (Z.even z'); discriminate.
Qed.

Lemma roundHalfEven_is (x : Q) (z : Z) :
  Qabs (inject_Z z - x) < 1 # 2 \/ (Qabs (inject_Z z - x) == 1 # 2 /\ Z.even z = true) ->
  roundHalfEven x = z.
Proof. intros H. apply (nearest_unique x); [apply roundHalfEven_spec|exact H]. Qed.

Lemma roundHalfEven_Z (n : Z) : roundHalfEven (inject_Z n) = n.
Proof.
  apply roundHalfEven_is. left.
  unfold Qminus. rewrite Qplus_opp_r. reflexivity.
Qed.

Lemma roundHalfEven_comp (x y : Q) : x == y -> roundHalfEven x = roundHalfEven y.
Proof.
  intros Hxy. apply roundHalfEven_is.
  pose proof (roundHalfEven_spec y) as H. cbn zeta in H.
  now rewrite Hxy.
Qed.

Lemma roundHalfEven_opp (x : Q) : roundHalfEven (- x) = (- roundHalfEven x)%Z.
Proof.
  apply roundHalfEven_is.
  pose proof (roundHalfEven_spec x) as H. cbn zeta in H.
  assert (E : inject_Z (- roundHalfEven x) - - x == - (inject_Z (roundHalfEven x) - x))
    by (rewrite inject_Z_opp; ring).
  rewrite E, Qabs_opp, Z.even_opp. exact H.
Qed.

Lemma roundHalfEven_mono (x y : Q) : x <= y -> (roundHalfEven x <= roundHalfEven y)%Z.
Proof.
  intros Hxy.
  pose proof (roundHalfEven_spec x) as Hx. pose proof (roundHalfEven_spec y) as Hy.
  cbn zeta in Hx, Hy.
  set (a := roundHalfEven x) in *. set (b := roundHalfEven y) in *.
  destruct (Z_le_gt_dec a b) as [|Hgt]; [assumption|exfalso].
  assert (Ha : Qabs (inject_Z a - x) <= 1 # 2) by (destruct Hx as [?|[? _]]; lra).
  assert (Hb : Qabs (inject_Z b - y) <= 1 # 2) by (destruct Hy as [?|[? _]]; lra).
  apply Qabs_Qle_condition in Ha, Hb.
  assert (Hab : inject_Z (b + 1) <= inject_Z a) by (rewrite <- Zle_Qle; lia).
  rewrite inject_Z_plus in Hab. change (inject_Z 1) with 1 in Hab.
  assert (Hle : (a <= b + 1)%Z).
  { rewrite Zle_Qle, inject_Z_plus. change (inject_Z 1) with 1. lra. }
  assert (Ea : a = (b + 1)%Z) by lia.
  assert (Eab : inject_Z a == inject_Z b + 1)
    by (rewrite Ea, inject_Z_plus; reflexivity).
  assert (Tx : Qabs (inject_Z a - x) == 1 # 2) by (apply Qabs_case; intros; lra).
  assert (Ty : Qabs (inject_Z b - y) == 1 # 2) by (apply Qabs_case; intros; lra).
  destruct Hx as [Hx|[_ Hx]]; [lra|]. destruct Hy as [Hy|[_ Hy]]; [lra|].
  rewrite Ea, Z.even_add, Hy in Hx. discriminate.
Qed.

Lemma roundHalfEven_nonneg (x : Q) : 0 <= x -> (0 <= roundHalfEven x)%Z.
Proof.
  intros H. rewrite <- (roundHalfEven_Z 0). now apply roundHalfEven_mono.
Qed.

End Binary64Facts.

Section RoundFacts.
Import Binary64.
Local Open Scope Q_scope.

Lemma round_zero (x : Q) : x == 0 -> round x = 0.
Proof. intros H. unfold round. apply Qeq_bool_iff in H. now rewrite H. Qed.

Lemma round_unfold (x : Q) :
  ~ x == 0 ->
  round x = inject_Z (roundHalfEven (x / pow2 (exponentOf x))) * pow2 (exponentOf x).
Proof.
  intros H. unfold round. destruct (Qeq_bool x 0) eqn:E; [|reflexivity].
  apply Qeq_bool_iff in E. contradiction.
Qed.

Lemma Qabs_pos_lt (x : Q) : ~ x == 0 -> 0 < Qabs x.
Proof.
  intros H. destruct (Qlt_le_dec 0 (Qabs x)) as [|Hle]; [assumption|exfalso].
  pose proof (Qabs_nonneg x). apply H.
  assert (E : Qabs x == 0) by lra. revert E. apply Qabs_case; intros; lra.
Qed.

Lemma exponentOf_comp (x y : Q) : ~ x == 0 -> x == y -> exponentOf x = exponentOf y.
Proof.
  intros Hx Hxy. unfold exponentOf. f_equal. f_equal.
  apply log2floor_comp; [now apply Qabs_pos_lt|now rewrite Hxy].
Qed.

Lemma round_comp (x y : Q) : x == y -> round x == round y.
Proof.
  intros Hxy. destruct (Qeq_dec x 0) as [Hx|Hx].
  - rewrite (round_zero x Hx), (round_zero y); [reflexivity|now rewrite <- Hxy].
  - assert (Hy : ~ y == 0) by (now rewrite <- Hxy).
    rewrite (round_unfold x Hx), (round_unfold y Hy), <- (exponentOf_comp x y Hx Hxy).
    rewrite (roundHalfEven_comp (x / pow2 (exponentOf x)) (y / pow2 (exponentOf x)));
      [reflexivity|].
    unfold Qdiv. apply Qmult_comp; [exact Hxy|reflexivity].
Qed.

#[global] Instance round_proper : Proper (Qeq ==> Qeq) round.
Proof. intros x y. apply round_comp. Qed.

Lemma exponentOf_opp (x : Q) : exponentOf (- x) = exponentOf x.
Proof.
  unfold exponentOf. destruct (Qeq_dec x 0) as [Hx|Hx].
  - destruct x as [n d]. unfold Qeq in Hx. cbn in Hx.
    assert (n = 0%Z) by lia. subst n. reflexivity.
  - f_equal. f_equal. apply log2floor_comp.
    + apply Qabs_pos_lt. intros H. apply Hx. lra.
    + apply Qabs_opp.
Qed.

Lemma round_opp (x : Q) : round (- x) == - round x.
Proof.
  destruct (Qeq_dec x 0) as [Hx|Hx].
  - rewrite (round_zero x Hx), (round_zero (- x)); [reflexivity|lra].
  - assert (Hx' : ~ - x == 0) by (intros H; apply Hx; lra).
    rewrite (round_unfold x Hx), (round_unfold (- x) Hx'), exponentOf_opp.
    rewrite (roundHalfEven_comp (- x / pow2 (exponentOf x)) (- (x / pow2 (exponentOf x))));
      [|unfold Qdiv; ring].
    rewrite roundHalfEven_opp, inject_Z_opp. ring.
Qed.

(** The significand: the number scaled to the exponent of its last place
    is below [2^53], and at least [2^52] unless the number is subnormal. *)
Lemma scaled_bounds (x : Q) :
  0 < x ->
  let e := exponentOf x in
  x / pow2 e < pow2 53 /\
  (pow2 (-1022) <= x -> e = (log2floor x - 52)%Z /\ pow2 52 <= x / pow2 e).
Proof.
  intros Hx e.
  assert (Habs : log2floor (Qabs x) = log2floor x).
  { apply log2floor_comp; [apply Qabs_pos_lt; lra|apply Qabs_pos; lra]. }
  assert (Ee0 : e = Z.max (-1074) (log2floor x - 52))
    by (unfold e, exponentOf; now rewrite Habs).
  clearbody e.
  destruct (log2floor_spec x Hx) as [Hl Hh]. set (L := log2floor x) in *.
  pose proof (pow2_pos e) as He.
  split.
  - apply Qlt_shift_div_r; [exact He|]. rewrite <- pow2_plus.
    eapply Qlt_le_trans; [exact Hh|]. apply pow2_le. lia.
  - intros Hnormal.
    assert (HL : (-1022 <= L)%Z).
    { assert (-1022 < L + 1)%Z by (apply pow2_lt_inv; lra). lia. }
    assert (Ee : e = (L - 52)%Z) by lia.
    split; [exact Ee|].
    apply Qle_shift_div_l; [exact He|]. rewrite <- pow2_plus.
    eapply Qle_trans; [|exact Hl]. apply pow2_le. lia.
Qed.

Lemma round_pos_unfold (x : Q) :
  0 < x ->
  round x = inject_Z (roundHalfEven (x / pow2 (exponentOf x))) * pow2 (exponentOf x).
Proof. intros H. apply round_unfold. lra. Qed.

Lemma round_nonneg (x : Q) : 0 <= x -> 0 <= round x.
Proof.
  intros Hx. destruct (Qeq_dec x 0) as [E|E].
  - rewrite (round_zero x E). apply Qle_refl.
  - rewrite (round_unfold x E). pose proof (pow2_pos (exponentOf x)) as He.
    apply Qmult_le_0_compat; [|lra].
    change 0 with (inject_Z 0). rewrite <- Zle_Qle. apply roundHalfEven_nonneg.
    apply Qle_shift_div_l; [exact He|]. lra.
Qed.

Lemma round_nonpos (x : Q) : x <= 0 -> round x <= 0.
Proof.
  intros Hx. pose proof (round_nonneg (- x) ltac:(lra)) as H.
  rewrite round_opp in H. lra.
Qed.

(** The error of a rounding is at most half a unit in the last place,
    which for a number that is not subnormal is at most [2^-53] times the
    number. *)
Lemma round_error_pos (x : Q) :
  pow2 (-1022) <= x -> Qabs (round x - x) <= pow2 (-53) * x.
Proof.
  intros Hnormal.
  assert (Hx : 0 < x) by (pose proof (pow2_pos (-1022)); lra).
  destruct (scaled_bounds x Hx) as [_ Hs]. destruct (Hs Hnormal) as [Ee Hlow].
  rewrite (round_pos_unfold x Hx).
  set (e := exponentOf x) in *. pose proof (pow2_pos e) as He.
  pose proof (roundHalfEven_near (x / pow2 e)) as Hnear.
  set (m := inject_Z (roundHalfEven (x / pow2 e))) in *.
  assert (E : m * pow2 e - x == (m - x / pow2 e) * pow2 e) by (field; lra).
  rewrite E, Qabs_Qmult, (Qabs_pos (pow2 e)) by lra.
  apply Qle_trans with ((1 # 2) * pow2 e).
  - apply Qmult_le_compat_r; [exact Hnear|lra].
  - assert (Hx52 : pow2 52 * pow2 e <= x).
    { apply (Qmult_le_r _ _ (pow2 e)) in Hlow; [|exact He].
      assert (E2 : x / pow2 e * pow2 e == x) by (field; lra).
      rewrite E2 in Hlow. exact Hlow. }
    assert (E53 : pow2 (-53) * pow2 52 == 1 # 2) by reflexivity.
    apply Qle_trans with (pow2 (-53) * (pow2 52 * pow2 e)).
    + rewrite Qmult_assoc, E53. apply Qle_refl.
    + apply Qmult_le_l; [apply pow2_pos|exact Hx52].
Qed.

Lemma round_error (x : Q) :
  pow2 (-1022) <= Qabs x -> Qabs (round x - x) <= pow2 (-53) * Qabs x.
Proof.
  intros Hnormal. destruct (Qlt_le_dec x 0) as [Hneg|Hpos].
  - rewrite (Qabs_neg x) in * by lra.
    pose proof (round_error_pos (- x) Hnormal) as H.
    rewrite round_opp in H.
    assert (E : - round x - - x == - (round x - x)) by ring.
    now rewrite E, Qabs_opp in H.
  - rewrite (Qabs_pos x) in * by lra. now apply round_error_pos.
Qed.

End RoundFacts.

Section Doubles.
Import Binary64.
Local Open Scope Q_scope.

Lemma inject_Z_pow2 (k : Z) : (0 <= k)%Z -> pow2 k == inject_Z (2 ^ k).
Proof. intros H. symmetry. now apply pow2_Z. Qed.

Lemma round_scaled_integer (y : Q) (z : Z) :
  0 < y -> y == inject_Z z * pow2 (exponentOf y) -> round y == y.
Proof.
  intros Hy E. rewrite (round_pos_unfold y Hy).
  pose proof (pow2_pos (exponentOf y)) as He.
  rewrite (roundHalfEven_comp (y / pow2 (exponentOf y)) (inject_Z z)).
  - rewrite roundHalfEven_Z. now rewrite <- E.
  - apply Qeq_sym. apply Qeq_sym. 
    assert (E2 : y / pow2 (exponentOf y)
                 == inject_Z z * pow2 (exponentOf y) / pow2 (exponentOf y)).
    { unfold Qdiv. apply Qmult_comp; [exact E|reflexivity]. }
    rewrite E2. field. lra.
Qed.

Lemma round_of_form_pos (m e : Z) :
  (0 < m <= 2 ^ 53)%Z -> (-1074 <= e)%Z ->
  round (inject_Z m * pow2 e) == inject_Z m * pow2 e.
Proof.
  intros Hm He. set (y := inject_Z m * pow2 e).
  pose proof (pow2_pos e) as Hpe.
  assert (Hm0 : 0 < inject_Z m) by (change 0 with (inject_Z 0); rewrite <- Zlt_Qlt; lia).
  assert (Hy : 0 < y) by (unfold y; apply Qmult_lt_0_compat; assumption).
  assert (Habs : log2floor (Qabs y) = log2floor y).
  { apply log2floor_comp; [apply Qabs_pos_lt; lra|apply Qabs_pos; lra]. }
  assert (Ee : exponentOf y = Z.max (-1074) (log2floor y - 52))
    by (unfold exponentOf; now rewrite Habs).
  destruct (Z.eq_dec m (2 ^ 53)%Z) as [Emax|Hlt].
  - (* the significand is 2^53: the number is 2^52 at the next exponent *)
    assert (Ey : y == pow2 (53 + e)).
    { unfold y. rewrite Emax, <- inject_Z_pow2 by lia. symmetry. apply pow2_plus. }
    assert (HL : log2floor y = (53 + e)%Z).
    { apply log2floor_unique. rewrite Ey. split; [apply Qle_refl|apply pow2_lt; lia]. }
    apply (round_scaled_integer y (2 ^ 52)%Z); [exact Hy|].
    rewrite Ee, HL, Z.max_r by lia. rewrite Ey, <- inject_Z_pow2 by lia.
    rewrite <- pow2_plus. replace (52 + (53 + e - 52))%Z with (53 + e)%Z by lia.
    reflexivity.
  - assert (HL : (log2floor y - 52 <= e)%Z).
    { destruct (log2floor_spec y Hy) as [Hl _].
      assert (Hup : y < pow2 (53 + e)).
      { unfold y. rewrite pow2_plus, (inject_Z_pow2 53) by lia.
        apply Qmult_lt_r; [exact Hpe|]. rewrite <- Zlt_Qlt. lia. }
      assert (log2floor y < 53 + e)%Z by (apply pow2_lt_inv; lra). lia. }
    set (e' := exponentOf y) in *.
    assert (He' : (e' <= e)%Z) by lia.
    apply (round_scaled_integer y (m * 2 ^ (e - e'))%Z); [exact Hy|].
    fold e'. rewrite inject_Z_mult, <- inject_Z_pow2 by lia.
    rewrite <- Qmult_assoc, <- pow2_plus. replace (e - e' + e')%Z with e by lia.
    reflexivity.
Qed.

Lemma round_of_form (m e : Z) :
  (Z.abs m <= 2 ^ 53)%Z -> (-1074 <= e)%Z ->
  round (inject_Z m * pow2 e) == inject_Z m * pow2 e.
Proof.
  intros Hm He. destruct (Z.lt_trichotomy m 0) as [Hneg|[->|Hpos]].
  - assert (E : inject_Z m * pow2 e == - (inject_Z (- m) * pow2 e))
      by (rewrite inject_Z_opp; ring).
    rewrite E, round_opp. apply Qopp_comp. apply round_of_form_pos; lia.
  - rewrite round_zero; ring.
  - apply round_of_form_pos; lia.
Qed.

(** What a rounding gives: a significand of at most 53 bits at an
    exponent of at least -1074. *)
Lemma round_form (x : Q) :
  exists m e : Z,
    (Z.abs m <= 2 ^ 53)%Z /\ (-1074 <= e)%Z /\ round x == inject_Z m * pow2 e.
Proof.
  destruct (Qeq_dec x 0) as [Hx|Hx].
  - exists 0%Z, 0%Z. rewrite (round_zero x Hx).
    split; [cbn; lia|split; [lia|reflexivity]].
  - exists (roundHalfEven (x / pow2 (exponentOf x))), (exponentOf x).
    split; [|split; [unfold exponentOf; lia|now rewrite (round_unfold x Hx)]].
    pose proof (pow2_pos (exponentOf x)) as He.
    assert (Hb : forall y, 0 < y -> exponentOf y = exponentOf x ->
                   (0 <= roundHalfEven (y / pow2 (exponentOf x)) <= 2 ^ 53)%Z).
    { intros y Hy Ey. destruct (scaled_bounds y Hy) as [Hup _]. rewrite Ey in Hup.
      split.
      - apply roundHalfEven_nonneg. apply Qle_shift_div_l; [exact He|lra].
      - rewrite <- (roundHalfEven_Z (2 ^ 53)%Z). apply roundHalfEven_mono.
        rewrite <- (inject_Z_pow2 53) by lia. lra. }
    destruct (Qlt_le_dec 0 x) as [Hpos|Hneg].
    + specialize (Hb x Hpos eq_refl). lia.
    + assert (Hx' : 0 < - x) by lra.
      specialize (Hb (- x) Hx' (exponentOf_opp x)).
      rewrite (roundHalfEven_comp (- x / pow2 (exponentOf x))
                 (- (x / pow2 (exponentOf x)))) in Hb by (unfold Qdiv; ring).
      rewrite roundHalfEven_opp in Hb. lia.
Qed.

(** Rounding twice is rounding once: what a rounding gives is a double. *)
Lemma round_idempotent (x : Q) : isDouble (round x).
Proof.
  unfold isDouble. destruct (round_form x) as (m & e & Hm & He & E).
  rewrite E. now apply round_of_form.
Qed.

Lemma isDouble_comp (x y : Q) : x == y -> isDouble x -> isDouble y.
Proof. unfold isDouble. intros E H. now rewrite <- E. Qed.

Lemma isDouble_opp (x : Q) : isDouble x -> isDouble (- x).
Proof. unfold isDouble. intros H. now rewrite round_opp, H. Qed.

Lemma isDouble_Z (n : Z) : (Z.abs n <= 2 ^ 53)%Z -> isDouble (inject_Z n).
Proof.
  intros H. unfold isDouble.
  assert (E : inject_Z n == inject_Z n * pow2 0) by (change (pow2 0) with 1; ring).
  rewrite E. apply round_of_form; lia.
Qed.

(** *** Rounding keeps the order *)

Lemma round_mono_pos (x y : Q) : 0 < x -> x <= y -> round x <= round y.
Proof.
  intros Hx Hxy. assert (Hy : 0 < y) by lra.
  rewrite (round_pos_unfold x Hx), (round_pos_unfold y Hy).
  assert (Habs : forall z, 0 < z -> exponentOf z = Z.max (-1074) (log2floor z - 52)).
  { intros z Hz. unfold exponentOf. f_equal. f_equal.
    apply log2floor_comp; [apply Qabs_pos_lt; lra|apply Qabs_pos; lra]. }
  pose proof (log2floor_mono x y Hx Hxy) as HL.
  pose proof (Habs x Hx) as Ex. pose proof (Habs y Hy) as Ey.
  set (ex := exponentOf x) in *. set (ey := exponentOf y) in *.
  pose proof (pow2_pos ex) as Hpx. pose proof (pow2_pos ey) as Hpy.
  destruct (Z.eq_dec ex ey) as [E|Hne].
  - rewrite <- E. apply Qmult_le_compat_r; [|lra].
    rewrite <- Zle_Qle. apply roundHalfEven_mono.
    apply Qmult_le_compat_r; [exact Hxy|]. apply Qlt_le_weak, Qinv_lt_0_compat, Hpx.
  - assert (Hlt : (ex < ey)%Z) by lia.
    destruct (scaled_bounds x Hx) as [Hup _]. fold ex in Hup.
    assert (Hnormal : pow2 (-1022) <= y).
    { destruct (log2floor_spec y Hy) as [Hl _].
      eapply Qle_trans; [|exact Hl]. apply pow2_le. lia. }
    destruct (scaled_bounds y Hy) as [_ Hs]. destruct (Hs Hnormal) as [_ Hlow].
    fold ey in Hlow.
    apply Qle_trans with (pow2 53 * pow2 ex).
    + apply Qmult_le_compat_r; [|lra].
      rewrite (inject_Z_pow2 53) by lia. rewrite <- Zle_Qle.
      rewrite <- (roundHalfEven_Z (2 ^ 53)%Z). apply roundHalfEven_mono.
      rewrite <- (inject_Z_pow2 53) by lia. lra.
    + apply Qle_trans with (pow2 52 * pow2 ey).
      * rewrite <- !pow2_plus. apply pow2_le. lia.
      * apply Qmult_le_compat_r; [|lra].
        rewrite (inject_Z_pow2 52) by lia. rewrite <- Zle_Qle.
        rewrite <- (roundHalfEven_Z (2 ^ 52)%Z). apply roundHalfEven_mono.
        rewrite <- (inject_Z_pow2 52) by lia. exact Hlow.
Qed.

Lemma round_mono (x y : Q) : x <= y -> round x <= round y.
Proof.
  intros Hxy. destruct (Qlt_le_dec 0 x) as [Hx|Hx].
  - now apply round_mono_pos.
  - destruct (Qlt_le_dec y 0) as [Hy|Hy].
    + pose proof (round_mono_pos (- y) (- x) ltac:(lra) ltac:(lra)) as H.
      rewrite !round_opp in H. lra.
    + pose proof (round_nonpos x Hx). pose proof (round_nonneg y Hy). lra.
Qed.

Lemma round_le_double (x c : Q) : isDouble c -> x <= c -> round x <= c.
Proof. unfold isDouble. intros Hc H. rewrite <- Hc. now apply round_mono. Qed.

Lemma round_ge_double (x c : Q) : isDouble c -> c <= x -> c <= round x.
Proof. unfold isDouble. intros Hc H. rewrite <- Hc. now apply round_mono. Qed.

(** *** Sums and differences of doubles *)

Lemma isDouble_onGrid (x : Q) : isDouble x -> onGrid x.
Proof.
  intros Hx. destruct (round_form x) as (m & e & _ & He & E).
  unfold isDouble in Hx.
  exists (m * 2 ^ (e + 1074))%Z. rewrite <- Hx, E.
  rewrite inject_Z_mult, <- inject_Z_pow2 by lia.
  rewrite <- Qmult_assoc, <- pow2_plus. replace (e + 1074 + -1074)%Z with e by lia.
  reflexivity.
Qed.

Lemma onGrid_plus (x y : Q) : onGrid x -> onGrid y -> onGrid (x + y).
Proof.
  intros [a Ha] [b Hb]. exists (a + b)%Z. rewrite Ha, Hb, inject_Z_plus. ring.
Qed.

Lemma onGrid_opp (x : Q) : onGrid x -> onGrid (- x).
Proof. intros [a Ha]. exists (- a)%Z. rewrite Ha, inject_Z_opp. ring. Qed.

Lemma round_subnormal_pos (x : Q) :
  onGrid x -> 0 < x -> x < pow2 (-1022) -> round x == x.
Proof.
  intros [k Hk] Hx Hsmall.
  apply (round_scaled_integer x k); [exact Hx|].
  assert (E : exponentOf x = (-1074)%Z).
  { unfold exponentOf.
    assert (Habs : log2floor (Qabs x) = log2floor x).
    { apply log2floor_comp; [apply Qabs_pos_lt; lra|apply Qabs_pos; lra]. }
    rewrite Habs. destruct (log2floor_spec x Hx) as [Hl _].
    assert (log2floor x < -1022)%Z by (apply pow2_lt_inv; lra). lia. }
  now rewrite E.
Qed.

Lemma round_error_onGrid (x : Q) :
  onGrid x -> Qabs (round x - x) <= pow2 (-53) * Qabs x.
Proof.
  intros Hx. pose proof (Qabs_nonneg x) as Hnn. pose proof (pow2_pos (-53)) as Hu.
  destruct (Qlt_le_dec (Qabs x) (pow2 (-1022))) as [Hsmall|Hnormal];
    [|now apply round_error].
  assert (Hexact : round x == x).
  { destruct (Q_dec x 0) as [[Hneg|Hpos]|Hzero].
    - rewrite (Qabs_neg x) in Hsmall by lra.
      pose proof (round_subnormal_pos (- x) (onGrid_opp x Hx) ltac:(lra) Hsmall) as H.
      rewrite round_opp in H. lra.
    - rewrite (Qabs_pos x) in Hsmall by lra. now apply round_subnormal_pos.
    - rewrite (round_zero x Hzero). now rewrite Hzero. }
  rewrite Hexact. unfold Qminus. rewrite Qplus_opp_r. cbn [Qabs Z.abs].
  apply Qmult_le_0_compat; lra.
Qed.

(** A sum or a difference of two doubles is rounded with a relative error
    of at most [2^-53], whatever its size. *)
Lemma add_error (a b : Q) :
  isDouble a -> isDouble b ->
  Qabs (add a b - (a + b)) <= pow2 (-53) * Qabs (a + b).
Proof.
  intros Ha Hb. apply round_error_onGrid.
  apply onGrid_plus; now apply isDouble_onGrid.
Qed.

Lemma sub_error (a b : Q) :
  isDouble a -> isDouble b ->
  Qabs (sub a b - (a - b)) <= pow2 (-53) * Qabs (a - b).
Proof.
  intros Ha Hb. apply round_error_onGrid.
  apply onGrid_plus; [|apply onGrid_opp]; now apply isDouble_onGrid.
Qed.

End Doubles.

(** ** Agreement with the binary64 numbers of the kernel *)

(** The operations of [Binary64] give the numbers that the floating-point
    unit gives: on the literals of the code, on the parsing of a time
    stamp, on differences, products and quotients that are not exact, on
    ties, and on subnormal results. *)
Section KernelFloats.
Import PrimFloat.

Example binary64_agrees :
  forallb (fun '(f, q) => Qeq_bool (ofFloat f) q)
    [((1 / 10)%float, literal 0.1);
     ((1 / 1000)%float, literal 0.001);
     ((12 / 10)%float, literal 1.2);
     ((1 / 10 + 2 / 10)%float, (literal 0.1 ⊕ literal 0.2)%Q);
     ((0 * 3600 + 0 * 60 + 2 + 563 / 1000)%float,
      (literal 0 ⊗ 3600 ⊕ literal 0 ⊗ 60 ⊕ literal 2 ⊕ literal 563 ⊘ 1000)%Q);
     (((2 + 563 / 1000) - 63 / 1000)%float,
      ((literal 2 ⊕ literal 563 ⊘ 1000) ⊖ literal 63 ⊘ 1000)%Q);
     (((1 + 503 / 1000) - 3 / 1000)%float,
      ((literal 1 ⊕ literal 503 ⊘ 1000) ⊖ literal 3 ⊘ 1000)%Q);
     ((604 * (1920 / 604))%float, (604 ⊗ (1920 ⊘ 604))%Q);
     ((769 * (1920 / 1023))%float, (769 ⊗ (1920 ⊘ 1023))%Q);
     ((9007199254740992 + 1)%float, (9007199254740992 ⊕ 1)%Q);
     ((9007199254740994 + 1)%float, (9007199254740994 ⊕ 1)%Q);
     ((3 * 0x1p-1074 / 2)%float, ((3 * Binary64.pow2 (-1074)) ⊘ 2)%Q);
     ((0x1.fffffffffffffp-1000 * 0x1.8p-60)%float,
      (((2 - Binary64.pow2 (-52)) * Binary64.pow2 (-1000))
       ⊗ ((3 # 2) * Binary64.pow2 (-60)))%Q);
     ((0x1p-1074 / 2)%float, (Binary64.pow2 (-1074) ⊘ 2)%Q);
     ((- (7 / 3))%float, (- (7 ⊘ 3))%Q)]
  = true.
Proof. vm_compute. reflexivity. Qed.
End KernelFloats.

(** ** Text primitives *)

Lemma append_cons (c : ascii) (r s : string) :
  String c r +:+ s = String c (r +:+ s).
Proof. reflexivity. Qed.

Lemma append_empty_l (s : string) : "" +:+ s = s.
Proof. reflexivity. Qed.

Lemma append_empty_r (s : string) : s +:+ "" = s.
Proof.
  induction s as [|c r IH]; [reflexivity|].
  now rewrite append_cons, IH.
Qed.

Lemma append_assoc (a b c : string) : (a +:+ b) +:+ c = a +:+ (b +:+ c).
Proof.
  induction a as [|x r IH]; [reflexivity|].
  now rewrite !append_cons, IH.
Qed.

Lemma truthy_snoc (cur : string) (c : ascii) :
  truthy (cur +:+ String c "") = true.
Proof. destruct cur; reflexivity. Qed.

Lemma splitWhitespace_wordsFrom (s : string) :
  forall (inGap : bool) (cur : string),
    (inGap = true -> cur = "") ->
    length (List.filter truthy (splitWhitespace inGap cur s))
    = wordsFrom (truthy cur) s.
Proof.
  induction s as [|c r IH]; intros inGap cur Hgap; simpl.
  - destruct (truthy cur); reflexivity.
  - destruct (isWhitespace c).
    + destruct inGap.
      * rewrite (Hgap eq_refl). rewrite IH by reflexivity. reflexivity.
      * simpl. destruct (truthy cur); simpl;
          rewrite (IH true "") by reflexivity; reflexivity.
    + rewrite IH by discriminate. rewrite truthy_snoc. reflexivity.
Qed.

Lemma wordCount_wordsFrom (s : string) : wordCount s = wordsFrom false s.
Proof. unfold wordCount. now rewrite splitWhitespace_wordsFrom. Qed.

Lemma wordsFrom_join (a b : string) :
  forall inWord,
    wordsFrom inWord (a +:+ " " +:+ b) = wordsFrom inWord a + wordsFrom false b.
Proof.
  induction a as [|c r IH]; intros inWord.
  - reflexivity.
  - rewrite append_cons. simpl.
    destruct (isWhitespace c); rewrite IH; lia.
Qed.

(** The words of two texts joined by one space are the words of both. *)
Lemma wordCount_join (a b : string) :
  wordCount (a +:+ " " +:+ b) = wordCount a + wordCount b.
Proof. rewrite !wordCount_wordsFrom. apply wordsFrom_join. Qed.

(** ** A captured time stamp always parses *)

Lemma isDigit_not_separator (c : ascii) :
  isDigit c = true -> isTimeSeparator c = false.
Proof.
  destruct c as [[] [] [] [] [] [] [] []]; vm_compute; congruence.
Qed.

Lemma isDigit_not_whitespace (c : ascii) :
  isDigit c = true -> isWhitespace c = false.
Proof.
  destruct c as [[] [] [] [] [] [] [] []]; vm_compute; congruence.
Qed.

Lemma takeDigits_digits (n : nat) :
  forall s d rest,
    takeDigits n s = Some (d, rest) -> allDigits d /\ d <> "" \/ n = 0%nat.
Proof.
  induction n as [|n IH]; intros s d rest H; [now right|left].
  simpl in H. destruct s as [|c r]; [discriminate|].
  destruct (isDigit c) eqn:Hc; [|discriminate].
  destruct (takeDigits n r) as [[d' rest']|] eqn:Hr; simpl in H; [|discriminate].
  injection H as <- <-. split; [|discriminate].
  intros c' [<-|Hin]; [exact Hc|].
  destruct (IH _ _ _ Hr) as [[Hd _]| ->]; [now apply Hd|].
  simpl in Hr. injection Hr as <- <-. destruct Hin.
Qed.

Lemma splitOn_digits (d : string) :
  allDigits d ->
  forall cur, splitOn isTimeSeparator cur d = [cur +:+ d].
Proof.
  induction d as [|c r IH]; intros Hd cur; rewrite ?append_cons; simpl.
  - now rewrite append_empty_r.
  - rewrite isDigit_not_separator by (apply Hd; now left).
    rewrite IH by (intros c' Hc'; apply Hd; now right).
    now rewrite append_assoc.
Qed.

Lemma splitOn_digits_sep (d : string) (sep : ascii) (rest : string) :
  allDigits d -> isTimeSeparator sep = true ->
  forall cur,
    splitOn isTimeSeparator cur (d +:+ String sep rest)
    = (cur +:+ d) :: splitOn isTimeSeparator "" rest.
Proof.
  induction d as [|c r IH]; intros Hd Hsep cur;
    rewrite ?append_cons, ?append_empty_l; simpl.
  - now rewrite Hsep, append_empty_r.
  - rewrite isDigit_not_separator by (apply Hd; now left).
    rewrite IH; [|intros c' Hc'; apply Hd; now right|exact Hsep].
    now rewrite append_assoc.
Qed.

Lemma parseInt_digits (d : string) :
  allDigits d -> d <> "" -> is_Some (parseInt d).
Proof.
  intros Hd Hne. destruct d as [|c r]; [congruence|].
  assert (Hc : isDigit c = true) by (apply Hd; now left).
  unfold parseInt. simpl trimStart.
  rewrite (isDigit_not_whitespace _ Hc).
  assert (c <> "-"%char /\ c <> "+"%char) as [Hm Hp]
    by (split; intros ->; discriminate Hc).
  destruct c as [[] [] [] [] [] [] [] []]; try congruence;
    solve [eexists; reflexivity | discriminate Hc].
Qed.

Lemma takeTimestamp_parses (s t rest : string) :
  takeTimestamp s = Some (t, rest) -> is_Some (parseSrtTimestamp t).
Proof.
  unfold takeTimestamp. intros H.
  destruct (takeDigits 2 s) as [[h s1]|] eqn:Hh; cbn -[takeDigits takeChar] in H; [|discriminate].
  destruct (takeChar ":" s1) as [s2|]; cbn -[takeDigits takeChar] in H; [|discriminate].
  destruct (takeDigits 2 s2) as [[m s3]|] eqn:Hm; cbn -[takeDigits takeChar] in H; [|discriminate].
  destruct (takeChar ":" s3) as [s4|]; cbn -[takeDigits takeChar] in H; [|discriminate].
  destruct (takeDigits 2 s4) as [[sec s5]|] eqn:Hs; cbn -[takeDigits takeChar] in H; [|discriminate].
  destruct (takeChar "," s5) as [s6|]; cbn -[takeDigits takeChar] in H; [|discriminate].
  destruct (takeDigits 3 s6) as [[ms s7]|] eqn:Hms; cbn -[takeDigits takeChar] in H; [|discriminate].
  injection H as <- <-.
  destruct (takeDigits_digits _ _ _ _ Hh) as [[Dh Nh]|]; [|discriminate].
  destruct (takeDigits_digits _ _ _ _ Hm) as [[Dm Nm]|]; [|discriminate].
  destruct (takeDigits_digits _ _ _ _ Hs) as [[Ds Ns]|]; [|discriminate].
  destruct (takeDigits_digits _ _ _ _ Hms) as [[Dms Nms]|]; [|discriminate].
  unfold parseSrtTimestamp.
  change (h +:+ ":" +:+ m +:+ ":" +:+ sec +:+ "," +:+ ms)
    with (h +:+ String ":" (m +:+ String ":" (sec +:+ String "," ms))).
  rewrite !splitOn_digits_sep, splitOn_digits by (assumption || reflexivity).
  cbn -[parseInt]. rewrite !append_empty_l.
  destruct (parseInt_digits h Dh Nh) as [vh ->].
  destruct (parseInt_digits m Dm Nm) as [vm ->].
  destruct (parseInt_digits sec Ds Ns) as [vs ->].
  destruct (parseInt_digits ms Dms Nms) as [vms ->].
  cbn. eexists; reflexivity.
Qed.

Lemma matchTime_parses (s t1 t2 : string) :
  matchTime s = Some (t1, t2) ->
  is_Some (parseSrtTimestamp t1) /\ is_Some (parseSrtTimestamp t2).
Proof.
  induction s as [|c r IH]; simpl; intros H.
  - destruct (matchTimeAt "") eqn:E; [discriminate E|discriminate H].
  - destruct (matchTimeAt (String c r)) as [p|] eqn:E; [|now apply IH].
    injection H as ->. unfold matchTimeAt in E.
    destruct (takeTimestamp (String c r)) as [[u1 s1]|] eqn:E1; cbn -[takeTimestamp takeChar trimStart] in E; [|discriminate].
    destruct (takeChar "-" (trimStart s1)) as [s2|]; cbn -[takeTimestamp takeChar trimStart] in E; [|discriminate].
    destruct (takeChar "-" s2) as [s3|]; cbn -[takeTimestamp takeChar trimStart] in E; [|discriminate].
    destruct (takeChar ">" s3) as [s4|]; cbn -[takeTimestamp takeChar trimStart] in E; [|discriminate].
    destruct (takeTimestamp (trimStart s4)) as [[u2 s5]|] eqn:E2; cbn -[takeTimestamp takeChar trimStart] in E; [|discriminate].
    injection E as <- <-.
    split; eapply takeTimestamp_parses; eassumption.
Qed.

(** ** The grouping loop *)

Lemma groupTimedLines_cons first rest maxWordsPerScene :
  groupTimedLines (first :: rest) maxWordsPerScene
  = closeGroups (fold_left (groupingStep maxWordsPerScene) rest (initialState first)).
Proof. reflexivity. Qed.

Lemma concat_snoc (sep : string) (l : list string) (t : string) :
  l <> [] -> String.concat sep (l ++ [t]) = String.concat sep l +:+ sep +:+ t.
Proof.
  induction l as [|x [|y r] IH]; intros Hne; [congruence|reflexivity|].
  change (String.concat sep ((x :: y :: r) ++ [t]))
    with (x +:+ sep +:+ String.concat sep ((y :: r) ++ [t])).
  rewrite IH by discriminate.
  change (String.concat sep (x :: y :: r))
    with (x +:+ sep +:+ String.concat sep (y :: r)).
  now rewrite !append_assoc.
Qed.

Lemma joinTexts_snoc (chunk : list TimedLine.t) (line : TimedLine.t) :
  chunk <> [] ->
  joinTexts (chunk ++ [line]) = joinTexts chunk +:+ " " +:+ TimedLine.text line.
Proof.
  intros Hne. unfold joinTexts. rewrite map_app. apply concat_snoc.
  destruct chunk; [congruence|discriminate].
Qed.

Lemma withinBudget_single maxWordsPerScene line :
  withinBudget maxWordsPerScene [line].
Proof.
  split; [discriminate|].
  destruct (Z_le_gt_dec (Z.of_nat (wordCount (joinTexts [line]))) maxWordsPerScene)
    as [Hle|Hgt]; [now left|right].
  exists line. split; [reflexivity|]. unfold joinTexts in Hgt. simpl in Hgt. lia.
Qed.

Lemma groupingStep_chunked maxWordsPerScene done st line :
  chunked maxWordsPerScene done st ->
  chunked maxWordsPerScene (done ++ [line]) (groupingStep maxWordsPerScene st line).
Proof.
  intros (chunks & cur & Hdone & Hnarr & Hcur & Hall & Hb).
  unfold groupingStep.
  destruct (Qgtb _ _ || _) eqn:Hsplit.
  - exists (chunks ++ [cur]), [line]. cbn [sceneGroups currentSceneNarration].
    repeat split.
    + rewrite concat_app. simpl. rewrite app_nil_r, Hdone. reflexivity.
    + rewrite !map_app, Hnarr, Hcur. reflexivity.
    + apply Forall_app. split; [exact Hall|]. constructor; [exact Hb|constructor].
    + discriminate.
    + apply withinBudget_single.
  - exists chunks, (cur ++ [line]). cbn [sceneGroups currentSceneNarration].
    destruct Hb as [Hne Hb].
    apply orb_false_iff in Hsplit as [_ Hwords].
    repeat split.
    + rewrite Hdone. now rewrite app_assoc.
    + exact Hnarr.
    + rewrite Hcur. symmetry. now apply joinTexts_snoc.
    + exact Hall.
    + destruct cur; [congruence|discriminate].
    + left. rewrite joinTexts_snoc by exact Hne. rewrite wordCount_join.
      rewrite Hcur in Hwords. rewrite Z.gtb_ltb in Hwords.
      apply Z.ltb_ge in Hwords. exact Hwords.
Qed.

Lemma fold_groupingStep_chunked maxWordsPerScene rest :
  forall done st,
    chunked maxWordsPerScene done st ->
    chunked maxWordsPerScene (done ++ rest)
      (fold_left (groupingStep maxWordsPerScene) rest st).
Proof.
  induction rest as [|line rest IH]; intros done st H; simpl.
  - now rewrite app_nil_r.
  - replace (done ++ line :: rest) with ((done ++ [line]) ++ rest)
      by (now rewrite <- app_assoc).
    apply IH. now apply groupingStep_chunked.
Qed.

(** ** Durations of the scenes *)

Lemma rawDuration_middle (before : list SceneGroup.t) group after :
  rawDuration (before ++ group :: after) (length before) group
  = Binary64.round
      match after with
      | [] => (SceneGroup.endTime group - SceneGroup.startTime group)%Q
      | next :: _ => (SceneGroup.startTime next - SceneGroup.startTime group)%Q
      end.
Proof.
  unfold rawDuration, Binary64.sub. rewrite length_app.
  destruct after as [|next after]; cbn [length].
  - destruct (Nat.ltb_spec (length before) (length before + 1 - 1));
      [lia|reflexivity].
  - destruct (Nat.ltb_spec (length before)
                (length before + S (S (length after)) - 1)); [|lia].
    rewrite lookup_app_r by lia.
    replace (length before + 1 - length before)%nat with 1%nat by lia.
    reflexivity.
Qed.

Lemma rawDurations_gaps (groups : list SceneGroup.t) :
  forall before,
    imap (fun i => rawDuration (before ++ groups) (length before + i)) groups
    = map Binary64.round (gaps groups).
Proof.
  induction groups as [|group rest IH]; intros before; [reflexivity|].
  rewrite imap_cons. cbn [gaps map]. f_equal.
  - rewrite Nat.add_0_r. apply rawDuration_middle.
  - rewrite <- (IH (before ++ [group])). apply imap_ext.
    intros i g _. cbn. rewrite <- app_assoc, length_app. simpl.
    f_equal. lia.
Qed.

Lemma scenesOfGroups_durations (groups : list SceneGroup.t) :
  map SceneWithoutVisuals.durationSeconds (scenesOfGroups groups)
  = map (fun gap => Qmax (literal 0.1) (Binary64.round gap)) (gaps groups).
Proof.
  unfold scenesOfGroups.
  transitivity (Qmax (literal 0.1) <$> (Binary64.round <$> gaps groups));
    [|now rewrite <- list_fmap_compose].
  change (Binary64.round <$> gaps groups) with (map Binary64.round (gaps groups)).
  rewrite <- (rawDurations_gaps groups []).
  change (SceneWithoutVisuals.durationSeconds <$> imap (sceneOfGroup groups) groups
          = Qmax (literal 0.1) <$>
            imap (fun i => rawDuration ([] ++ groups) (length (@nil SceneGroup.t) + i)) groups).
  rewrite !fmap_imap. apply imap_ext. reflexivity.
Qed.

Lemma fold_Qplus_acc (l : list Q) :
  forall acc, (fold_left Qplus l acc == acc + fold_left Qplus l 0)%Q.
Proof.
  induction l as [|x l IH]; intros acc; simpl.
  - ring.
  - rewrite (IH (acc + x)%Q), (IH (0 + x)%Q). ring.
Qed.

Lemma sumQ_cons (x : Q) (l : list Q) : (sumQ (x :: l) == x + sumQ l)%Q.
Proof. unfold sumQ. simpl. rewrite fold_Qplus_acc. ring. Qed.

Lemma gaps_sum (groups : list SceneGroup.t) :
  forall first final,
    head groups = Some first -> last groups = Some final ->
    (sumQ (gaps groups)
     == SceneGroup.endTime final - SceneGroup.startTime first)%Q.
Proof.
  induction groups as [|group [|next rest] IH]; intros first final Hhead Hlast.
  - discriminate.
  - injection Hhead as <-. injection Hlast as <-.
    cbn [gaps]. rewrite sumQ_cons. unfold sumQ. simpl. ring.
  - injection Hhead as <-.
    cbn [gaps] in *. rewrite sumQ_cons.
    rewrite (IH next final eq_refl Hlast). ring.
Qed.

Lemma literal_tenth_pos : (0 < literal 0.1)%Q.
Proof. vm_compute. reflexivity. Qed.

Lemma literal_tenth_ge : (0.1 <= literal 0.1)%Q.
Proof. vm_compute. discriminate. Qed.

(** A rounded gap, floored or not, is not below the gap by more than the
    rounding. *)
Lemma floored_gap_ge (gap : Q) :
  onGrid gap ->
  ((1 - unitRoundoff) * gap <= Qmax (literal 0.1) (Binary64.round gap))%Q.
Proof.
  intros Hgrid.
  destruct (Qlt_le_dec 0 gap) as [Hpos|Hneg].
  - eapply Qle_trans; [|apply Q.le_max_r].
    pose proof (round_error_onGrid gap Hgrid) as Herr.
    rewrite (Qabs_pos gap) in Herr by now apply Qlt_le_weak.
    apply Qabs_Qle_condition in Herr as [Hlow _].
    unfold unitRoundoff. lra.
  - eapply Qle_trans; [|apply Q.le_max_l].
    pose proof literal_tenth_pos.
    assert (0 < 1 - unitRoundoff)%Q by (vm_compute; reflexivity).
    nra.
Qed.

(** A rounded gap that is not floored is not above the gap by more than
    the rounding. *)
Lemma unfloored_gap_le (gap : Q) :
  onGrid gap ->
  (literal 0.1 <= Binary64.round gap)%Q ->
  (Qmax (literal 0.1) (Binary64.round gap) <= (1 + unitRoundoff) * gap)%Q.
Proof.
  intros Hgrid Hfloor.
  rewrite (Q.max_r _ _ Hfloor).
  assert (Hpos : (0 < gap)%Q).
  { destruct (Qlt_le_dec 0 gap) as [Hpos|Hneg]; [exact Hpos|].
    pose proof (round_nonpos gap Hneg). pose proof literal_tenth_pos. lra. }
  pose proof (round_error_onGrid gap Hgrid) as Herr.
  rewrite (Qabs_pos gap) in Herr by now apply Qlt_le_weak.
  apply Qabs_Qle_condition in Herr as [_ Hup].
  unfold unitRoundoff. lra.
Qed.

Lemma sumQ_floored_ge (l : list Q) :
  Forall onGrid l ->
  ((1 - unitRoundoff) * sumQ l
   <= sumQ ((fun gap => Qmax (literal 0.1) (Binary64.round gap)) <$> l))%Q.
Proof.
  induction 1 as [|x l Hx _ IH].
  - unfold sumQ. simpl. lra.
  - rewrite fmap_cons, !sumQ_cons.
    pose proof (floored_gap_ge x Hx). lra.
Qed.

Lemma sumQ_unfloored_le (l : list Q) :
  Forall onGrid l ->
  Forall (fun gap => (literal 0.1 <= Binary64.round gap)%Q) l ->
  (sumQ ((fun gap => Qmax (literal 0.1) (Binary64.round gap)) <$> l)
   <= (1 + unitRoundoff) * sumQ l)%Q.
Proof.
  induction 1 as [|x l Hx _ IH]; intros Hfloor.
  - unfold sumQ. simpl. lra.
  - apply Forall_cons in Hfloor as [Hfx Hfl].
    rewrite fmap_cons, !sumQ_cons.
    pose proof (unfloored_gap_le x Hx Hfx). specialize (IH Hfl). lra.
Qed.

Lemma closeGroups_step_head maxWordsPerScene st line :
  head (closeGroups (groupingStep maxWordsPerScene st line))
    ≫= (fun g => Some (SceneGroup.startTime g))
  = head (closeGroups st) ≫= (fun g => Some (SceneGroup.startTime g)).
Proof.
  unfold groupingStep, closeGroups.
  destruct (Qgtb _ _ || _); cbn [sceneGroups];
    destruct (sceneGroups st); reflexivity.
Qed.

Lemma fold_groupingStep_head maxWordsPerScene rest :
  forall st,
    head (closeGroups (fold_left (groupingStep maxWordsPerScene) rest st))
      ≫= (fun g => Some (SceneGroup.startTime g))
    = head (closeGroups st) ≫= (fun g => Some (SceneGroup.startTime g)).
Proof.
  induction rest as [|line rest IH]; intros st; simpl; [reflexivity|].
  rewrite IH. apply closeGroups_step_head.
Qed.

Lemma fold_groupingStep_lastEnd maxWordsPerScene rest :
  forall st,
    lastLineEndTime (fold_left (groupingStep maxWordsPerScene) rest st)
    = default (lastLineEndTime st) (TimedLine.endTime <$> last rest).
Proof.
  induction rest as [|line rest IH]; intros st; [reflexivity|].
  cbn [fold_left]. rewrite IH.
  destruct rest as [|line' rest].
  - unfold groupingStep. destruct (Qgtb _ _ || _); reflexivity.
  - rewrite last_cons_cons.
    destruct (last (line' :: rest)) eqn:E; [reflexivity|].
    apply last_None in E. discriminate.
Qed.

Lemma groupTimedLines_ends (timedLines : list TimedLine.t) maxWordsPerScene
    (first final : TimedLine.t) :
  head timedLines = Some first -> last timedLines = Some final ->
  exists g1 g2,
    head (groupTimedLines timedLines maxWordsPerScene) = Some g1 /\
    last (groupTimedLines timedLines maxWordsPerScene) = Some g2 /\
    SceneGroup.startTime g1 = TimedLine.startTime first /\
    SceneGroup.endTime g2 = TimedLine.endTime final.
Proof.
  destruct timedLines as [|l0 rest]; [discriminate|].
  intros [= ->] Hlast. rewrite groupTimedLines_cons.
  set (st := fold_left _ rest _).
  pose proof (fold_groupingStep_head maxWordsPerScene rest (initialState first)) as Hh.
  pose proof (fold_groupingStep_lastEnd maxWordsPerScene rest (initialState first)) as He.
  fold st in Hh, He.
  destruct (head (closeGroups st)) as [g1|] eqn:Hg1;
    [|unfold closeGroups in Hg1; destruct (sceneGroups st); discriminate].
  exists g1, (currentGroup st). repeat split.
  - unfold closeGroups. apply last_snoc.
  - cbn in Hh. now injection Hh.
  - cbn [currentGroup SceneGroup.endTime]. rewrite He.
    destruct rest as [|l1 rest].
    + cbn in Hlast. now injection Hlast as <-.
    + rewrite last_cons_cons in Hlast. now rewrite Hlast.
Qed.

(** *** The groups and the chunks of lines they span *)

Lemma groupOf_snoc (chunk : list TimedLine.t) (line : TimedLine.t) :
  chunk <> [] ->
  groupOf (chunk ++ [line])
  = SceneGroup.mk (SceneGroup.narration (groupOf chunk) +:+ " " +:+ TimedLine.text line)
                  (SceneGroup.startTime (groupOf chunk))
                  (TimedLine.endTime line).
Proof.
  intros Hne. unfold groupOf. cbn [SceneGroup.narration SceneGroup.startTime].
  rewrite joinTexts_snoc by exact Hne. rewrite last_snoc.
  destruct chunk as [|x r]; [congruence|]. reflexivity.
Qed.

Lemma groupingStep_timed maxWordsPerScene done st line :
  timed done st ->
  timed (done ++ [line]) (groupingStep maxWordsPerScene st line).
Proof.
  intros (chunks & cur & Hdone & Hall & Hcur & Hgroups & Hopen).
  unfold groupingStep.
  destruct (Qgtb _ _ || _).
  - exists (chunks ++ [cur]), [line]. repeat split.
    + rewrite concat_app, Hdone. simpl. now rewrite app_nil_r.
    + apply Forall_app. split; [exact Hall|]. now constructor.
    + discriminate.
    + cbn [sceneGroups]. rewrite map_app, Hgroups. cbn [map].
      f_equal. f_equal. exact Hopen.
  - exists chunks, (cur ++ [line]). repeat split.
    + rewrite Hdone. now rewrite app_assoc.
    + exact Hall.
    + destruct cur; discriminate.
    + exact Hgroups.
    + rewrite groupOf_snoc by exact Hcur. rewrite <- Hopen. reflexivity.
Qed.

Lemma fold_groupingStep_timed maxWordsPerScene rest :
  forall done st,
    timed done st ->
    timed (done ++ rest) (fold_left (groupingStep maxWordsPerScene) rest st).
Proof.
  induction rest as [|line rest IH]; intros done st H.
  - now rewrite app_nil_r.
  - cbn [fold_left].
    replace (done ++ line :: rest) with ((done ++ [line]) ++ rest)
      by (now rewrite <- app_assoc).
    apply IH. now apply groupingStep_timed.
Qed.

Lemma groupOf_spans (chunk : list TimedLine.t) :
  chunk <> [] -> spans chunk (groupOf chunk).
Proof.
  intros Hne.
  destruct (head chunk) as [first|] eqn:Hfirst;
    [|destruct chunk; [congruence|discriminate]].
  destruct (last chunk) as [final|] eqn:Hfinal;
    [|apply last_None in Hfinal; congruence].
  exists first, final. unfold groupOf. rewrite Hfirst, Hfinal.
  repeat split.
Qed.

(** The groups are those of consecutive chunks of the lines. *)
Lemma groupTimedLines_spans (timedLines : list TimedLine.t) maxWordsPerScene :
  exists chunks : list (list TimedLine.t),
    concat chunks = timedLines /\
    Forall2 spans chunks (groupTimedLines timedLines maxWordsPerScene).
Proof.
  destruct timedLines as [|first rest].
  - exists []. split; [reflexivity|constructor].
  - rewrite groupTimedLines_cons.
    destruct (fold_groupingStep_timed maxWordsPerScene rest [first] (initialState first))
      as (chunks & cur & Hdone & Hall & Hcur & Hgroups & Hopen).
    { exists [], [first]. repeat split; [constructor|discriminate]. }
    exists (chunks ++ [cur]). split.
    + rewrite concat_app. simpl. rewrite app_nil_r. now rewrite <- Hdone.
    + unfold closeGroups. rewrite Hgroups, Hopen.
      apply Forall2_app.
      * apply Forall2_fmap_r. apply Forall_Forall2_diag.
        eapply Forall_impl; [exact Hall|]. intros chunk. apply groupOf_spans.
      * constructor; [now apply groupOf_spans|constructor].
Qed.

(** *** The times are doubles *)

Lemma parseSrtTimestamp_double (timestamp : string) (seconds : Q) :
  parseSrtTimestamp timestamp = Some seconds -> isDouble seconds.
Proof.
  unfold parseSrtTimestamp. intros H.
  destruct (_ !! 0%nat ≫= parseInt) as [hours|]; [|discriminate].
  destruct (_ !! 1%nat ≫= parseInt) as [minutes|]; [|discriminate].
  destruct (_ !! 2%nat ≫= parseInt) as [secs|]; [|discriminate].
  destruct (_ !! 3%nat ≫= parseInt) as [milliseconds|]; [|discriminate].
  cbn in H. injection H as <-. apply round_idempotent.
Qed.

Lemma parseTimedLines_doubles (srtContent : string) :
  Forall timedInDoubles (parseTimedLines srtContent).
Proof.
  apply Forall_forall. intros line Hin. apply list_elem_of_In in Hin.
  unfold parseTimedLines in Hin. apply in_flat_map in Hin as (block & _ & Hin).
  unfold parseBlock in Hin.
  destruct (_ <? 2)%nat; [destruct Hin|].
  destruct (_ ≫= matchTime) as [[t1 t2]|]; [|destruct Hin].
  destruct (negb _); [destruct Hin|].
  destruct (parseSrtTimestamp t1) as [a|] eqn:Ha; [|destruct Hin].
  destruct (parseSrtTimestamp t2) as [b|] eqn:Hb; [|destruct Hin].
  destruct Hin as [<-|[]].
  split; eapply parseSrtTimestamp_double; eassumption.
Qed.

Lemma spans_doubles (chunks : list (list TimedLine.t)) (groups : list SceneGroup.t) :
  Forall timedInDoubles (concat chunks) ->
  Forall2 spans chunks groups ->
  Forall (fun group => isDouble (SceneGroup.startTime group) /\
                       isDouble (SceneGroup.endTime group)) groups.
Proof.
  intros Hlines Hspans. revert Hlines.
  induction Hspans as [|chunk group chunks groups Hspan _ IH]; intros Hlines;
    [constructor|].
  cbn [concat] in Hlines. apply Forall_app in Hlines as [Hchunk Hrest].
  constructor; [|now apply IH].
  destruct Hspan as (first & final & Hfirst & Hfinal & _ & -> & ->).
  rewrite Forall_forall in Hchunk. split.
  - apply Hchunk. destruct chunk; [discriminate|].
    injection Hfirst as ->. left.
  - apply Hchunk. apply last_Some in Hfinal as [l' ->].
    apply list_elem_of_In, in_or_app. right. now left.
Qed.

Lemma gaps_onGrid (groups : list SceneGroup.t) :
  Forall (fun group => isDouble (SceneGroup.startTime group) /\
                       isDouble (SceneGroup.endTime group)) groups ->
  Forall onGrid (gaps groups).
Proof.
  induction 1 as [|group rest [Hstart Hend] Hrest IH]; [constructor|].
  cbn [gaps]. constructor; [|exact IH].
  destruct rest as [|next rest'].
  - apply onGrid_plus; [|apply onGrid_opp]; now apply isDouble_onGrid.
  - apply Forall_cons in Hrest as [[Hnext _] _].
    apply onGrid_plus; [|apply onGrid_opp]; now apply isDouble_onGrid.
Qed.

Lemma scenesOfGroups_narrations (groups : list SceneGroup.t) :
  map SceneWithoutVisuals.narration (scenesOfGroups groups)
  = map SceneGroup.narration groups.
Proof.
  unfold scenesOfGroups.
  change (SceneWithoutVisuals.narration <$> imap (sceneOfGroup groups) groups
          = SceneGroup.narration <$> groups).
  rewrite fmap_imap, <- imap_const. apply imap_ext. reflexivity.
Qed.

Lemma wordCount_joinTexts_ge (chunk : list TimedLine.t) (line : TimedLine.t) :
  In line chunk ->
  (wordCount (TimedLine.text line) <= wordCount (joinTexts chunk))%nat.
Proof.
  induction chunk as [|x [|y r] IH]; intros Hin.
  - destruct Hin.
  - destruct Hin as [->|[]]. apply Nat.le_refl.
  - change (joinTexts (x :: y :: r))
      with (TimedLine.text x +:+ " " +:+ joinTexts (y :: r)).
    rewrite wordCount_join.
    destruct Hin as [->|Hin]; [lia|]. specialize (IH Hin). lia.
Qed.

(** ** Scenarios of the specification *)

(** Scenario A: one scene, lasting from the start of the first line to the
    end of the second. *)
Example scenarioA_one_scene :
  map (fun s => (SceneWithoutVisuals.narration s, SceneWithoutVisuals.duration s,
                 Qred (SceneWithoutVisuals.durationSeconds s)))
      (parseAndGroupSrt scenarioA 10)
  = [("um dois tres quatro cinco seis sete oito", "4 segundos", 4%Q)].
Proof. vm_compute. reflexivity. Qed.

(** Scenario B: two scenes, the first lasting until the second line starts. *)
Example scenarioB_two_scenes :
  map (fun s => (SceneWithoutVisuals.narration s, SceneWithoutVisuals.duration s,
                 Qred (SceneWithoutVisuals.durationSeconds s)))
      (parseAndGroupSrt scenarioB 10)
  = [("um dois tres quatro", "4 segundos", 4%Q);
     ("cinco seis sete oito", "2 segundos", 2%Q)].
Proof. vm_compute. reflexivity. Qed.

(** ** Timing and word budget of the scenes *)



(** C2, as the specification states it, fails twice over.  A line shorter
    than 0.1 s that forms a scene of its own is lengthened to 0.1 s, so the
    durations add up to more than the span of the input, by 20 ms here.
    And each duration is a rounded difference: for the single line from
    63 ms to 2563 ms, where nothing is lengthened, the duration is below
    the span of the two parsed times.  Both inputs are in chronological
    order. *)
Lemma durations_sum_counterexample :
  (let timedLines := parseTimedLines shortLineSrt in
   let scenes := parseAndGroupSrt shortLineSrt 10 in
   chronological timedLines = true /\
   exists first final,
     head timedLines = Some first /\ last timedLines = Some final /\
     (TimedLine.endTime final - TimedLine.startTime first + 1 / 100
      < sumQ (map SceneWithoutVisuals.durationSeconds scenes))%Q) /\
  (let timedLines := parseTimedLines inexactSrt in
   let groups := groupTimedLines timedLines 10 in
   let scenes := parseAndGroupSrt inexactSrt 10 in
   chronological timedLines = true /\
   (forall index group,
       groups !! index = Some group ->
       (literal 0.1 <= rawDuration groups index group)%Q) /\
   exists first final,
     head timedLines = Some first /\ last timedLines = Some final /\
     (sumQ (map SceneWithoutVisuals.durationSeconds scenes)
      < TimedLine.endTime final - TimedLine.startTime first)%Q).
Proof.
  split.
  - split; [vm_compute; reflexivity|].
    eexists _, _. split; [vm_compute; reflexivity|].
    split; [vm_compute; reflexivity|]. vm_compute. reflexivity.
  - split; [vm_compute; reflexivity|]. split.
    + intros index group Hgroup. vm_compute in Hgroup.
      destruct index as [|index]; [|discriminate Hgroup].
      injection Hgroup as <-. vm_compute. discriminate.
    + eexists _, _. split; [vm_compute; reflexivity|].
      split; [vm_compute; reflexivity|]. vm_compute. reflexivity.
Qed.

(** C2, amended.  Up to the rounding of each duration, the precise
    durations of the scenes never add up to less than the span of the
    input (end of the last parsed line minus start of the first), and add
    up to the span when no scene has a raw duration below the floor of
    0.1 s: the sum is at least [(1 - 2^-53)] times the span, and in the
    second case at most [(1 + 2^-53)] times the span. *)
Theorem durations_sum_to_span (srtContent : string)
    (maxWordsPerScene : Z) (first final : TimedLine.t) :
  let timedLines := parseTimedLines srtContent in
  let groups := groupTimedLines timedLines maxWordsPerScene in
  let total :=
    sumQ (map SceneWithoutVisuals.durationSeconds
              (parseAndGroupSrt srtContent maxWordsPerScene)) in
  let span := (TimedLine.endTime final - TimedLine.startTime first)%Q in
  head timedLines = Some first ->
  last timedLines = Some final ->
  ((1 - unitRoundoff) * span <= total)%Q /\
  ((forall index group,
      groups !! index = Some group ->
      (literal 0.1 <= rawDuration groups index group)%Q) ->
   (total <= (1 + unitRoundoff) * span)%Q).
Proof.
  intros timedLines groups total span Hfirst Hfinal.
  destruct (groupTimedLines_ends timedLines maxWordsPerScene first final Hfirst Hfinal)
    as (g1 & g2 & Hg1 & Hg2 & Hstart & Hend).
  fold groups in Hg1, Hg2.
  pose proof (gaps_sum groups g1 g2 Hg1 Hg2) as Hspan.
  rewrite Hstart, Hend in Hspan. fold span in Hspan.
  assert (Htotal : total
            = sumQ ((fun gap => Qmax (literal 0.1) (Binary64.round gap)) <$> gaps groups)).
  { unfold total, parseAndGroupSrt. fold timedLines. fold groups.
    now rewrite scenesOfGroups_durations. }
  assert (Hgrid : Forall onGrid (gaps groups)).
  { destruct (groupTimedLines_spans timedLines maxWordsPerScene)
      as (chunks & Hconcat & Hspans).
    apply gaps_onGrid. apply (spans_doubles chunks); [|exact Hspans].
    rewrite Hconcat. apply parseTimedLines_doubles. }
  rewrite Htotal. split.
  - rewrite <- Hspan. now apply sumQ_floored_ge.
  - intros Hraw. rewrite <- Hspan. apply sumQ_unfloored_le; [exact Hgrid|].
    apply (proj1 (Forall_fmap Binary64.round (fun raw => (literal 0.1 <= raw)%Q)
                              (gaps groups))).
    change (Binary64.round <$> gaps groups) with (map Binary64.round (gaps groups)).
    rewrite <- (rawDurations_gaps groups []). apply Forall_lookup.
    intros i x Hx. rewrite list_lookup_imap in Hx.
    destruct (groups !! i) as [g|] eqn:Hg; [|discriminate].
    injection Hx as <-. now apply Hraw.
Qed.

(** Scenario B: two scenes of 4 s and 2 s, nothing rounded, and a span of
    6 s. *)
Lemma durations_sum_to_span_witness :
  ((1 - unitRoundoff) * (literal 7 - literal 1)
   <= sumQ (map SceneWithoutVisuals.durationSeconds (parseAndGroupSrt scenarioB 10))
   <= (1 + unitRoundoff) * (literal 7 - literal 1))%Q.
Proof.
  destruct (durations_sum_to_span scenarioB 10
              (TimedLine.mk (literal 1) (literal 3) "um dois tres quatro")
              (TimedLine.mk (literal 5) (literal 7) "cinco seis sete oito")
              ltac:(vm_compute; reflexivity) ltac:(vm_compute; reflexivity))
    as [Hlow Hup].
  split; [exact Hlow|]. apply Hup.
  intros index group Hgroup. vm_compute in Hgroup.
  destruct index as [|[|index]]; [| |discriminate Hgroup];
    injection Hgroup as <-; vm_compute; discriminate.
Defined.

(** C3.  The lines are cut into consecutive chunks, one per scene, the
    narration of a scene being the texts of its chunk joined by spaces.
    Every chunk is within the word budget, unless it is one single line
    that exceeds the budget by itself; and every line that exceeds the
    budget is a chunk of its own: it is never split nor merged. *)
Theorem scene_word_budget (srtContent : string) (maxWordsPerScene : Z) :
  exists chunks : list (list TimedLine.t),
    concat chunks = parseTimedLines srtContent /\
    map SceneWithoutVisuals.narration (parseAndGroupSrt srtContent maxWordsPerScene)
    = map joinTexts chunks /\
    Forall (withinBudget maxWordsPerScene) chunks /\
    forall line,
      In line (parseTimedLines srtContent) ->
      (maxWordsPerScene < Z.of_nat (wordCount (TimedLine.text line)))%Z ->
      In [line] chunks.
Proof.
  unfold parseAndGroupSrt. set (timedLines := parseTimedLines srtContent).
  assert (exists chunks,
             concat chunks = timedLines /\
             map SceneGroup.narration (groupTimedLines timedLines maxWordsPerScene)
             = map joinTexts chunks /\
             Forall (withinBudget maxWordsPerScene) chunks)
    as (chunks & Hcat & Hnarr & Hall).
  { destruct timedLines as [|first rest].
    - exists []. repeat split. constructor.
    - rewrite groupTimedLines_cons.
      destruct (fold_groupingStep_chunked maxWordsPerScene rest [first]
                  (initialState first)) as (chunks & cur & Hd & Hn & Hc & Hall & Hb).
      { exists [], [first].
        split; [reflexivity|]. split; [reflexivity|]. split; [reflexivity|].
        split; [constructor|apply withinBudget_single]. }
      exists (chunks ++ [cur]). repeat split.
      + rewrite concat_app. simpl. rewrite app_nil_r. now rewrite <- Hd.
      + unfold closeGroups. rewrite !map_app, Hn. cbn. now rewrite Hc.
      + apply Forall_app. split; [exact Hall|]. now constructor. }
  exists chunks. rewrite scenesOfGroups_narrations.
  repeat split; try assumption.
  intros line Hin Hover. rewrite <- Hcat in Hin.
  apply in_concat in Hin as (chunk & Hchunk & Hline).
  assert (Hb : withinBudget maxWordsPerScene chunk).
  { rewrite Forall_forall in Hall. apply Hall. now apply list_elem_of_In. }
  destruct Hb as [_ [Hle|(line' & -> & _)]].
  - pose proof (wordCount_joinTexts_ge chunk line Hline). lia.
  - destruct Hline as [->|[]]. exact Hchunk.
Qed.

Lemma scene_word_budget_witness :
  exists chunks : list (list TimedLine.t),
    concat chunks = parseTimedLines shortLineSrt /\
    map SceneWithoutVisuals.narration (parseAndGroupSrt shortLineSrt 5)
    = map joinTexts chunks /\
    Forall (withinBudget 5) chunks /\
    In [TimedLine.mk (literal 1 ⊕ literal 80 ⊘ 1000)%Q (literal 5)
          "um dois tres quatro cinco seis sete oito nove dez"] chunks.
Proof.
  destruct (scene_word_budget shortLineSrt 5)
    as (chunks & Hcat & Hnarr & Hall & Hover).
  exists chunks. repeat split; try assumption.
  apply Hover; [vm_compute; auto|vm_compute; reflexivity].
Defined.

(** ** Comparisons on numbers *)

Lemma Qgtb_true (a b : Q) : Qgtb a b = true <-> (b < a)%Q.
Proof.
  unfold Qgtb. rewrite negb_true_iff. split.
  - intros H. apply Qnot_le_lt. intros Hle. apply Qle_bool_iff in Hle. congruence.
  - intros H. destruct (Qle_bool a b) eqn:E; [|reflexivity].
    apply Qle_bool_iff in E. exfalso. apply (Qlt_not_le _ _ H E).
Qed.

Lemma Qgtb_false (a b : Q) : Qgtb a b = false <-> (a <= b)%Q.
Proof.
  unfold Qgtb. rewrite negb_false_iff. apply Qle_bool_iff.
Qed.

(** ** Duration rescaling *)

Section Rescaling.
Import Binary64.
Local Open Scope Q_scope.

Lemma unitRoundoff_small : 0 < unitRoundoff /\ unitRoundoff <= 1 # 4.
Proof. split; [reflexivity|discriminate]. Qed.

(** The sum that [reduce] computes, on the durations alone. *)
Lemma totalSceneDuration_fold (scenes : list Scene.t) :
  totalSceneDuration scenes = fold_left add (map Scene.durationSeconds scenes) 0.
Proof.
  unfold totalSceneDuration. generalize 0.
  induction scenes as [|scene rest IH]; intros acc; [reflexivity|].
  cbn [fold_left map]. apply IH.
Qed.

Lemma add_bounds (a b : Q) :
  isDouble a -> isDouble b -> 0 <= a + b ->
  (1 - unitRoundoff) * (a + b) <= add a b <= (1 + unitRoundoff) * (a + b).
Proof.
  intros Ha Hb Hsum. pose proof (add_error a b Ha Hb) as Herr.
  rewrite (Qabs_pos (a + b)) in Herr by exact Hsum.
  apply Qabs_Qle_condition in Herr. unfold unitRoundoff. lra.
Qed.

Lemma fold_add_double (l : list Q) :
  forall acc, isDouble acc -> isDouble (fold_left add l acc).
Proof.
  induction l as [|x l IH]; intros acc Hacc; [exact Hacc|].
  cbn [fold_left]. apply IH. apply round_idempotent.
Qed.

Lemma isDouble_zero : isDouble 0.
Proof. reflexivity. Qed.

(** The sum of doubles that are not negative, as the code adds them up
    one after the other, against their exact sum: after [k] additions the
    two are within [k] roundings of each other. *)
Lemma fold_add_bounds (l : list Q) :
  forall (k : nat) (acc a : Q),
    Forall (fun x => isDouble x /\ 0 <= x) l ->
    isDouble acc -> 0 <= a ->
    2 * inject_Z (Z.of_nat (k + length l)) * unitRoundoff <= 1 ->
    (1 - inject_Z (Z.of_nat k) * unitRoundoff) * a <= acc
      <= (1 + 2 * inject_Z (Z.of_nat k) * unitRoundoff) * a ->
    let n := inject_Z (Z.of_nat (k + length l)) in
    (1 - n * unitRoundoff) * (a + sumQ l) <= fold_left add l acc
      <= (1 + 2 * n * unitRoundoff) * (a + sumQ l).
Proof.
  induction l as [|x l IH]; intros k acc a Hall Hacc Ha Hk Hbounds; cbn zeta.
  - cbn [length fold_left]. rewrite Nat.add_0_r.
    assert (E : a + sumQ [] == a) by (unfold sumQ; cbn; ring).
    rewrite E. exact Hbounds.
  - apply Forall_cons in Hall as [[Hx Hx0] Hall].
    cbn [fold_left length] in *.
    replace (k + S (length l))%nat with (S k + length l)%nat in * by lia.
    assert (E : a + sumQ (x :: l) == (a + x) + sumQ l)
      by (rewrite sumQ_cons; ring).
    rewrite E.
    pose proof unitRoundoff_small as [Hu0 Hu1].
    assert (HK : 0 <= inject_Z (Z.of_nat k))
      by (change 0 with (inject_Z 0); rewrite <- Zle_Qle; lia).
    assert (HK1 : inject_Z (Z.of_nat (S k)) == inject_Z (Z.of_nat k) + 1).
    { rewrite Nat2Z.inj_succ, <- Z.add_1_r, inject_Z_plus. reflexivity. }
    assert (HKn : inject_Z (Z.of_nat (S k)) <= inject_Z (Z.of_nat (S k + length l)))
      by (rewrite <- Zle_Qle; lia).
    set (K := inject_Z (Z.of_nat k)) in *.
    set (u := unitRoundoff) in *.
    set (M := inject_Z (Z.of_nat (S k + length l))) in *.
    assert (HKu : (K + 1) * u <= 1 # 2).
    { apply Qle_trans with (M * u); [|lra].
      apply Qmult_le_compat_r; lra. }
    assert (Hacc0 : 0 <= acc).
    { apply Qle_trans with ((1 - K * u) * a); [|apply Hbounds].
      apply Qmult_le_0_compat; lra. }
    destruct (add_bounds acc x Hacc Hx ltac:(lra)) as [Hlow Hup].
    fold u in Hlow, Hup.
    apply IH; try assumption.
    + apply round_idempotent.
    + lra.
    + rewrite HK1. destruct Hbounds as [Hb1 Hb2]. split.
      * apply Qle_trans with ((1 - u) * (acc + x)); [|exact Hlow].
        apply Qle_trans with ((1 - u) * ((1 - K * u) * (a + x))).
        -- assert (0 <= (K * u * u) * (a + x))
             by (repeat apply Qmult_le_0_compat; lra).
           lra.
        -- apply Qmult_le_l; [lra|].
           assert (0 <= (K * u) * x) by (repeat apply Qmult_le_0_compat; lra).
           lra.
      * apply Qle_trans with ((1 + u) * (acc + x)); [exact Hup|].
        apply Qle_trans with ((1 + u) * ((1 + 2 * K * u) * (a + x))).
        -- apply Qmult_le_l; [lra|].
           assert (0 <= (K * u) * x) by (repeat apply Qmult_le_0_compat; lra).
           lra.
        -- assert (0 <= (u * (1 - 2 * K * u)) * (a + x))
             by (repeat apply Qmult_le_0_compat; lra).
           lra.
Qed.

Lemma sum_of_doubles (l : list Q) :
  Forall (fun x => isDouble x /\ 0 <= x) l ->
  let n := inject_Z (Z.of_nat (length l)) in
  2 * n * unitRoundoff <= 1 ->
  (1 - n * unitRoundoff) * sumQ l <= fold_left add l 0
    <= (1 + 2 * n * unitRoundoff) * sumQ l.
Proof.
  intros Hall n Hn.
  pose proof (fold_add_bounds l 0 0 0 Hall isDouble_zero (Qle_refl 0) Hn) as H.
  cbn zeta in H. change (0 + length l)%nat with (length l) in H. fold n in H.
  assert (E : 0 + sumQ l == sumQ l) by ring.
  rewrite E in H. apply H. split; lra.
Qed.

Lemma sumQ_nonneg (l : list Q) : Forall (fun x => 0 <= x) l -> 0 <= sumQ l.
Proof.
  induction 1 as [|x l Hx _ IH]; [unfold sumQ; cbn; lra|].
  rewrite sumQ_cons. lra.
Qed.

Lemma sumQ_app (l l' : list Q) : sumQ (l ++ l') == sumQ l + sumQ l'.
Proof.
  induction l as [|x l IH]; cbn [app].
  - unfold sumQ at 2. cbn. ring.
  - rewrite !sumQ_cons, IH. ring.
Qed.

Lemma mul_bounds (a b : Q) :
  0 <= a * b -> a * b == 0 \/ pow2 (-1022) <= a * b ->
  (1 - unitRoundoff) * (a * b) <= mul a b <= (1 + unitRoundoff) * (a * b).
Proof.
  intros Hpos [Hzero|Hbig]; unfold mul.
  - rewrite (round_zero _ Hzero), Hzero. split; lra.
  - pose proof (round_error (a * b)) as Herr.
    rewrite (Qabs_pos (a * b)) in Herr by exact Hpos. specialize (Herr Hbig).
    apply Qabs_Qle_condition in Herr. unfold unitRoundoff. lra.
Qed.

Lemma div_bounds (a b : Q) :
  pow2 (-1022) <= a / b ->
  (1 - unitRoundoff) * (a / b) <= div a b <= (1 + unitRoundoff) * (a / b).
Proof.
  intros Hbig. unfold div.
  assert (Hpos : 0 <= a / b).
  { apply Qle_trans with (pow2 (-1022)); [|exact Hbig].
    apply Qlt_le_weak, pow2_pos. }
  pose proof (round_error (a / b)) as Herr.
  rewrite (Qabs_pos (a / b)) in Herr by exact Hpos. specialize (Herr Hbig).
  apply Qabs_Qle_condition in Herr. unfold unitRoundoff. lra.
Qed.

(** The arithmetic of the rescaling: [D] is the exact sum of the
    durations, [S] the sum as the code computes it, [q] the exact quotient
    of the audio duration [A] by [S], [f] the factor, and [T] the exact
    sum of the products. *)
Lemma rescaled_sum_bounds (u v A S D q f T : Q) :
  0 < u -> u <= 1 # 1024 -> 0 <= v -> v <= 1 # 1024 ->
  0 <= D -> 0 <= q -> q * S == A ->
  (1 - v) * D <= S -> S <= (1 + 2 * v) * D ->
  (1 - u) * q <= f -> f <= (1 + u) * q ->
  (1 - u) * (f * D) <= T -> T <= (1 + u) * (f * D) ->
  (1 - 2 * v - 4 * u) * A <= T <= (1 + 2 * v + 4 * u) * A.
Proof.
  intros Hu0 Hu1 Hv0 Hv1 HD Hq HA HS1 HS2 Hf1 Hf2 HT1 HT2.
  assert (HqD : 0 <= q * D) by (apply Qmult_le_0_compat; assumption).
  assert (HfD1 : (1 - u) * (q * D) <= f * D).
  { rewrite Qmult_assoc. apply Qmult_le_compat_r; assumption. }
  assert (HfD2 : f * D <= (1 + u) * (q * D)).
  { rewrite Qmult_assoc. apply Qmult_le_compat_r; assumption. }
  assert (HA1 : (1 - v) * (q * D) <= A).
  { rewrite <- HA.
    assert (E : (1 - v) * (q * D) == q * ((1 - v) * D)) by ring.
    rewrite E. clear E.
    destruct (Qle_lt_or_eq _ _ Hq) as [Hq0|Hq0];
      [apply Qmult_le_l; assumption|rewrite <- Hq0; lra]. }
  assert (HA2 : A <= (1 + 2 * v) * (q * D)).
  { rewrite <- HA.
    assert (E : (1 + 2 * v) * (q * D) == q * ((1 + 2 * v) * D)) by ring.
    rewrite E. clear E.
    destruct (Qle_lt_or_eq _ _ Hq) as [Hq0|Hq0];
      [apply Qmult_le_l; assumption|rewrite <- Hq0; lra]. }
  set (x := q * D) in *.
  split.
  - apply Qle_trans with ((1 - u) * ((1 - u) * x)).
    + nra.
    + apply Qle_trans with ((1 - u) * (f * D)); [|exact HT1].
      apply Qmult_le_l; lra.
  - apply Qle_trans with ((1 + u) * ((1 + u) * x)).
    + apply Qle_trans with ((1 + u) * (f * D)); [exact HT2|].
      apply Qmult_le_l; lra.
    + nra.
Qed.

Lemma Qabs_bound (x y b : Q) : Qabs x <= y -> y <= b -> - b <= x <= b.
Proof.
  intros Hx Hy. apply Qabs_Qle_condition. now apply Qle_trans with y.
Qed.

(** The sum once the last scene has absorbed the residue: [S'] is the sum
    of the products as the code computes it, [p] the last product,
    [residue] the rounded difference and [r] the last duration. *)
Lemma adjusted_sum_bounds (u v A T S' p residue r : Q) :
  0 < u -> u <= 1 # 1024 -> 0 <= v -> v <= 1 # 1024 -> 0 <= A ->
  (1 - 2 * v - 4 * u) * A <= T <= (1 + 2 * v + 4 * u) * A ->
  (1 - v) * T <= S' <= (1 + 2 * v) * T ->
  0 <= p <= T ->
  Qabs (residue - (A - S')) <= u * Qabs (A - S') ->
  Qabs (r - (p + residue)) <= u * Qabs (p + residue) ->
  Qabs (T - p + r - A) <= (4 * v + 4 * u) * A.
Proof.
  intros Hu0 Hu1 Hv0 Hv1 HA [HT1 HT2] [HS1 HS2] [Hp0 HpT] Hres Hr.
  assert (HuA : 0 <= u * A) by (apply Qmult_le_0_compat; lra).
  assert (HvA : 0 <= v * A) by (apply Qmult_le_0_compat; lra).
  assert (HT0 : 0 <= T) by lra.
  assert (HT : T <= 2 * A) by nra.
  assert (HvT : v * T <= 2 * (v * A)).
  { assert (E : 2 * (v * A) == v * (2 * A)) by ring. rewrite E.
    destruct (Qle_lt_or_eq _ _ Hv0) as [H|H];
      [apply Qmult_le_l; assumption|rewrite <- H; lra]. }
  assert (HvT0 : 0 <= v * T) by (apply Qmult_le_0_compat; lra).
  assert (He : Qabs (A - S') <= (1 # 2) * A).
  { apply Qabs_Qle_condition. split; nra. }
  assert (Hres' : - ((1 # 2) * (u * A)) <= residue - (A - S') <= (1 # 2) * (u * A)).
  { apply (Qabs_bound _ _ _ Hres).
    assert (E : (1 # 2) * (u * A) == u * ((1 # 2) * A)) by ring. rewrite E.
    apply Qmult_le_l; assumption. }
  apply Qabs_Qle_condition in He.
  assert (Hsum : Qabs (p + residue) <= 3 * A).
  { apply Qabs_Qle_condition. split; nra. }
  assert (Hr' : - (3 * (u * A)) <= r - (p + residue) <= 3 * (u * A)).
  { apply (Qabs_bound _ _ _ Hr).
    assert (E : 3 * (u * A) == u * (3 * A)) by ring. rewrite E.
    apply Qmult_le_l; assumption. }
  apply Qabs_Qle_condition. split; nra.
Qed.

Lemma sumQ_alter_last (f : Q -> Q) (l : list Q) (x : Q) :
  last l = Some x ->
  sumQ (alter f (length l - 1)%nat l) == sumQ l - x + f x.
Proof.
  intros Hlast. apply last_Some in Hlast as [l' ->].
  rewrite length_app. cbn [length].
  replace (length l' + 1 - 1)%nat with (length l' + 0)%nat by lia.
  rewrite alter_app_r. cbn [alter list_alter].
  rewrite !sumQ_app, !sumQ_cons. ring.
Qed.

Lemma last_le_sumQ (l : list Q) (x : Q) :
  Forall (fun y => 0 <= y) l -> last l = Some x -> 0 <= x <= sumQ l.
Proof.
  intros Hall Hlast. apply last_Some in Hlast as [l' ->].
  apply Forall_app in Hall as [Hl' Hx]. apply Forall_cons in Hx as [Hx _].
  pose proof (sumQ_nonneg l' Hl').
  rewrite sumQ_app, sumQ_cons. unfold sumQ at 2. cbn. lra.
Qed.

Lemma rescaleScenes_unfold (scenes : list Scene.t) (totalDuration : Q) :
  literal 0.1 < totalSceneDuration scenes ->
  let scaleFactor := totalDuration ⊘ totalSceneDuration scenes in
  let scaledScenes :=
    map (fun scene =>
           withDurationSeconds scene (Scene.durationSeconds scene ⊗ scaleFactor))
        scenes in
  let residue := totalDuration ⊖ totalSceneDuration scaledScenes in
  rescaleScenes scenes totalDuration
  = if Qgtb (Qabs residue) (literal 0.001)
    then alter (fun scene =>
                  withDurationSeconds scene (Scene.durationSeconds scene ⊕ residue))
               (length scenes - 1)%nat scaledScenes
    else scaledScenes.
Proof.
  intros Htotal. cbn zeta. unfold rescaleScenes.
  apply Qgtb_true in Htotal. rewrite Htotal. rewrite length_map.
  destruct scenes as [|scene rest]; [discriminate Htotal|]. reflexivity.
Qed.

Lemma count_small (n : nat) :
  (Z.of_nat n < 2 ^ 32)%Z ->
  let v := inject_Z (Z.of_nat n) * unitRoundoff in
  0 <= v /\ v <= 1 # 1024 /\ 2 * inject_Z (Z.of_nat n) * unitRoundoff <= 1.
Proof.
  intros Hn. cbn zeta.
  assert (H0 : 0 <= inject_Z (Z.of_nat n))
    by (change 0 with (inject_Z 0); rewrite <- Zle_Qle; lia).
  assert (H1 : inject_Z (Z.of_nat n) <= inject_Z (2 ^ 32))
    by (rewrite <- Zle_Qle; lia).
  change (inject_Z (2 ^ 32)) with (4294967296 # 1) in H1.
  change unitRoundoff with (1 # 9007199254740992).
  repeat split; lra.
Qed.

Lemma sized_durations (scenes : list Scene.t) :
  Forall (fun scene => sizedDuration (Scene.durationSeconds scene)) scenes ->
  Forall (fun d => isDouble d /\ 0 <= d) (map Scene.durationSeconds scenes).
Proof.
  induction 1 as [|scene rest [Hdouble Hsize] _ IH]; [constructor|].
  cbn [map]. constructor; [|exact IH]. split; [exact Hdouble|].
  destruct Hsize as [->|Hsize]; [lra|].
  pose proof (pow2_pos (-340)). lra.
Qed.

(** The products of the durations by a factor that is large enough, and
    their exact sum. *)
Lemma scaled_durations (f : Q) (scenes : list Scene.t) :
  pow2 (-681) <= f ->
  Forall (fun scene => sizedDuration (Scene.durationSeconds scene)) scenes ->
  let durations := map Scene.durationSeconds scenes in
  let products := map (fun d => d ⊗ f) durations in
  Forall (fun p => isDouble p /\ 0 <= p) products /\
  Forall2 (fun d p => (1 - unitRoundoff) * (d * f) <= p <= (1 + unitRoundoff) * (d * f))
          durations products /\
  (1 - unitRoundoff) * (f * sumQ durations) <= sumQ products
    <= (1 + unitRoundoff) * (f * sumQ durations).
Proof.
  intros Hf Hall. cbn zeta.
  pose proof unitRoundoff_small as [Hu0 Hu1].
  assert (Hf0 : 0 < f) by (pose proof (pow2_pos (-681)); lra).
  induction Hall as [|scene rest [Hdouble Hsize] _ (IH1 & IH2 & IH3)].
  - repeat split; try constructor; unfold sumQ; cbn; lra.
  - cbn [map].
    assert (Hd0 : 0 <= Scene.durationSeconds scene).
    { destruct Hsize as [->|Hsize]; [lra|]. pose proof (pow2_pos (-340)). lra. }
    assert (Hprod : 0 <= Scene.durationSeconds scene * f)
      by (apply Qmult_le_0_compat; lra).
    assert (Hbig : Scene.durationSeconds scene * f == 0 \/
                   pow2 (-1022) <= Scene.durationSeconds scene * f).
    { destruct Hsize as [->|Hsize]; [left; ring|right].
      apply Qle_trans with (pow2 (-340) * pow2 (-681)).
      - rewrite <- pow2_plus. apply pow2_le. lia.
      - apply Qmult_le_compat_nonneg; split;
          try apply Qlt_le_weak, pow2_pos; assumption. }
    pose proof (mul_bounds _ _ Hprod Hbig) as Hmul.
    split; [|split].
    + constructor; [|exact IH1]. split; [apply round_idempotent|].
      apply round_nonneg. exact Hprod.
    + constructor; [exact Hmul|exact IH2].
    + rewrite !sumQ_cons. set (u := unitRoundoff) in *.
      set (d := Scene.durationSeconds scene) in *.
      assert (E : f * (d + sumQ (map Scene.durationSeconds rest))
                  == d * f + f * sumQ (map Scene.durationSeconds rest)) by ring.
      rewrite E. lra.
Qed.

Lemma durations_withDurationSeconds (g : Q -> Q) (scenes : list Scene.t) :
  map Scene.durationSeconds
      (map (fun scene => withDurationSeconds scene (g (Scene.durationSeconds scene)))
           scenes)
  = map g (map Scene.durationSeconds scenes).
Proof.
  induction scenes as [|scene rest IH]; [reflexivity|].
  cbn [map]. now rewrite IH.
Qed.

(** C7, as the specification states it, fails: a total original duration
    that is positive but not above 0.1 s (a single scene at the floor of
    the segmenter) is left as it is, far from the five seconds of the
    audio track. *)
Lemma rescale_positive_total_counterexample :
  let scenes := [sceneLasting (literal 0.1)] in
  let result := snd (reconcileDurations scenes (Some 5%Q)) in
  (0 < totalSceneDuration scenes)%Q /\
  result = scenes /\
  (sumQ (map Scene.durationSeconds result) < 1)%Q.
Proof.
  split; [reflexivity|]. split; [vm_compute; reflexivity|].
  vm_compute. reflexivity.
Qed.

(** C7, amended.  With an audio track and a total original duration above
    0.1 s, the audio duration is the total duration and every scene has
    its duration multiplied, in binary64, by the one factor audio duration
    / original total, itself the rounded quotient; the residue, the audio
    duration minus the sum of the products as the code computes them, is
    added to the last scene when it is above 0.001 in magnitude, and to no
    scene otherwise; and the rescaled durations add up to the audio
    duration within [4 n + 4] units of roundoff for [n] scenes.  The
    durations are doubles that are not negative, and the sizes are such
    that no operation of the rescaling underflows or overflows: a
    duration is zero or at least [2^-340] s, the total and the audio
    duration are at most [2^340] s, and there are fewer than [2^32]
    scenes. *)
Theorem rescaleScenes_uniform (scenes : list Scene.t) (audioDuration : Q) :
  let total := totalSceneDuration scenes in
  let scaleFactor := audioDuration ⊘ total in
  let scaledScenes :=
    map (fun scene =>
           withDurationSeconds scene (Scene.durationSeconds scene ⊗ scaleFactor))
        scenes in
  let residue := audioDuration ⊖ totalSceneDuration scaledScenes in
  let result := reconcileDurations scenes (Some audioDuration) in
  let count := inject_Z (Z.of_nat (length scenes)) in
  Forall (fun scene => sizedDuration (Scene.durationSeconds scene)) scenes ->
  (Z.of_nat (length scenes) < 2 ^ 32)%Z ->
  isDouble audioDuration ->
  pow2 (-340) <= audioDuration <= pow2 340 ->
  literal 0.1 < total ->
  total <= pow2 340 ->
  fst result = audioDuration /\
  Qabs (scaleFactor - audioDuration / total) <= unitRoundoff * (audioDuration / total) /\
  (forall i scene,
      scenes !! i = Some scene ->
      let exact := Scene.durationSeconds scene * (audioDuration / total) in
      let product := Scene.durationSeconds scene ⊗ scaleFactor in
      Qabs (product - exact) <= 3 * unitRoundoff * exact /\
      snd result !! i
      = Some (withDurationSeconds scene
                (if (i =? length scenes - 1)%nat && Qgtb (Qabs residue) (literal 0.001)
                 then product ⊕ residue else product))) /\
  Qabs (sumQ (map Scene.durationSeconds (snd result)) - audioDuration)
  <= (4 * count + 4) * unitRoundoff * audioDuration.
Proof.
  intros total scaleFactor scaledScenes residue result count
         Hsized Hcount HA [HAbig _] Htotal Htotal'.
  pose proof unitRoundoff_small as [Hu0 _].
  assert (Hu1 : unitRoundoff <= 1 # 1024) by (vm_compute; discriminate).
  destruct (count_small _ Hcount) as (Hv0 & Hv1 & Hv2). fold count in Hv0, Hv1, Hv2.
  pose proof literal_tenth_pos as Htenth.
  assert (HS0 : 0 < total) by lra.
  assert (HA0 : 0 < audioDuration) by (pose proof (pow2_pos (-340)); lra).
  set (q := audioDuration / total).
  assert (Hq0 : 0 < q) by (apply Qlt_shift_div_l; lra).
  assert (HqS : q * total == audioDuration) by (unfold q; field; lra).
  assert (Hqbig : pow2 (-680) <= q).
  { apply Qle_shift_div_l; [exact HS0|].
    apply Qle_trans with (pow2 (-680) * pow2 340).
    - apply Qmult_le_l; [apply pow2_pos|exact Htotal'].
    - rewrite <- pow2_plus. exact HAbig. }
  assert (Hf : (1 - unitRoundoff) * q <= scaleFactor <= (1 + unitRoundoff) * q).
  { apply div_bounds. apply Qle_trans with (pow2 (-680)); [|exact Hqbig].
    apply pow2_le. lia. }
  assert (Hfbig : pow2 (-681) <= scaleFactor).
  { apply Qle_trans with ((1 - unitRoundoff) * q); [|apply Hf].
    apply Qle_trans with ((1 # 2) * pow2 (-680)).
    - assert (E : pow2 (-680) == 2 * pow2 (-681))
        by (rewrite <- pow2_succ; reflexivity).
      rewrite E. lra.
    - apply Qmult_le_compat_nonneg; split;
        try apply Qlt_le_weak, pow2_pos; lra. }
  pose proof (sized_durations scenes Hsized) as Hds.
  destruct (scaled_durations scaleFactor scenes Hfbig Hsized) as (Hps & Heach & Hsum).
  set (durations := map Scene.durationSeconds scenes) in *.
  set (products := map (fun d => d ⊗ scaleFactor) durations) in *.
  assert (Hscaled : map Scene.durationSeconds scaledScenes = products).
  { unfold scaledScenes.
    apply (durations_withDurationSeconds (fun d => d ⊗ scaleFactor)). }
  assert (HlenD : length durations = length scenes) by apply length_map.
  assert (HlenP : length products = length scenes)
    by (unfold products; now rewrite length_map).
  pose proof (sum_of_doubles durations Hds) as HS. cbn zeta in HS.
  rewrite HlenD in HS. fold count in HS. specialize (HS Hv2).
  assert (Etotal : fold_left add durations 0 = total)
    by (symmetry; apply totalSceneDuration_fold).
  rewrite Etotal in HS.
  pose proof (sum_of_doubles products Hps) as HS'. cbn zeta in HS'.
  rewrite HlenP in HS'. fold count in HS'. specialize (HS' Hv2).
  assert (Etotal' : fold_left add products 0 = totalSceneDuration scaledScenes)
    by (now rewrite totalSceneDuration_fold, Hscaled).
  rewrite Etotal' in HS'.
  assert (HD0 : 0 <= sumQ durations).
  { apply sumQ_nonneg. eapply Forall_impl; [exact Hds|]. now intros d [_ Hd]. }
  assert (HT : (1 - 2 * (count * unitRoundoff) - 4 * unitRoundoff) * audioDuration
               <= sumQ products
               <= (1 + 2 * (count * unitRoundoff) + 4 * unitRoundoff) * audioDuration).
  { apply (rescaled_sum_bounds unitRoundoff (count * unitRoundoff) audioDuration
             total (sumQ durations) q scaleFactor (sumQ products));
      try assumption; try lra; try apply Hf; try apply Hsum. }
  split; [reflexivity|]. split.
  { apply Qabs_Qle_condition. lra. }
  unfold result. cbn [reconcileDurations snd].
  rewrite (rescaleScenes_unfold scenes audioDuration Htotal).
  fold total. fold scaleFactor. fold scaledScenes. fold residue.
  split.
  - intros i scene Hscene. cbn zeta. split.
    + assert (Hin : durations !! i = Some (Scene.durationSeconds scene)).
      { unfold durations. change (map ?f scenes) with (f <$> scenes).
        now rewrite list_lookup_fmap, Hscene. }
      destruct (Forall2_lookup_l _ _ _ _ _ Heach Hin) as (p & Hp & Hbounds).
      unfold products in Hp. change (map ?f durations) with (f <$> durations) in Hp.
      rewrite list_lookup_fmap, Hin in Hp. injection Hp as <-.
      assert (Hd0 : 0 <= Scene.durationSeconds scene).
      { rewrite Forall_forall in Hds.
        apply (Hds (Scene.durationSeconds scene)).
        eapply list_elem_of_lookup_2. exact Hin. }
      set (d := Scene.durationSeconds scene) in *.
      set (u := unitRoundoff) in *.
      fold q.
      assert (Hdq : 0 <= d * q) by (apply Qmult_le_0_compat; lra).
      assert (H1 : (1 - u) * (d * q) <= d * scaleFactor).
      { assert (E : (1 - u) * (d * q) == d * ((1 - u) * q)) by ring. rewrite E.
        destruct (Qle_lt_or_eq _ _ Hd0) as [H|H];
          [apply Qmult_le_l; [exact H|apply Hf]|rewrite <- H; lra]. }
      assert (H2 : d * scaleFactor <= (1 + u) * (d * q)).
      { assert (E : (1 + u) * (d * q) == d * ((1 + u) * q)) by ring. rewrite E.
        destruct (Qle_lt_or_eq _ _ Hd0) as [H|H];
          [apply Qmult_le_l; [exact H|apply Hf]|rewrite <- H; lra]. }
      apply Qabs_Qle_condition. split; nra.
    + destruct (Qgtb (Qabs residue) (literal 0.001)).
      * rewrite andb_true_r.
        destruct (Nat.eqb_spec i (length scenes - 1)) as [->|Hne].
        -- rewrite list_lookup_alter, decide_True by reflexivity.
           unfold scaledScenes. change (map ?f scenes) with (f <$> scenes).
           rewrite list_lookup_fmap, Hscene. reflexivity.
        -- rewrite list_lookup_alter_ne by congruence.
           unfold scaledScenes. change (map ?f scenes) with (f <$> scenes).
           rewrite list_lookup_fmap, Hscene. reflexivity.
      * rewrite andb_false_r.
        unfold scaledScenes. change (map ?f scenes) with (f <$> scenes).
        rewrite list_lookup_fmap, Hscene. reflexivity.
  - assert (Hlinear : (4 * count + 4) * unitRoundoff * audioDuration
                      == (4 * (count * unitRoundoff) + 4 * unitRoundoff) * audioDuration)
      by ring.
    rewrite Hlinear.
    assert (HuA : 0 <= unitRoundoff * audioDuration)
      by (apply Qmult_le_0_compat; lra).
    assert (HvA : 0 <= count * unitRoundoff * audioDuration)
      by (apply Qmult_le_0_compat; lra).
    destruct (Qgtb (Qabs residue) (literal 0.001)).
    + change (map Scene.durationSeconds (alter ?g ?i scaledScenes))
        with (Scene.durationSeconds <$> alter g i scaledScenes).
      rewrite (list_fmap_alter Scene.durationSeconds _ (fun p => p ⊕ residue))
        by (apply Forall_true; reflexivity).
      change (Scene.durationSeconds <$> scaledScenes)
        with (map Scene.durationSeconds scaledScenes).
      rewrite Hscaled. rewrite <- HlenP.
      destruct (last products) as [p|] eqn:Hlast.
      2: { apply last_None in Hlast. rewrite Hlast in HT.
           change (sumQ []) with 0 in HT.
           assert (0 < (1 - 2 * (count * unitRoundoff) - 4 * unitRoundoff)
                       * audioDuration)
             by (apply Qmult_lt_0_compat; lra).
           lra. }
      rewrite (sumQ_alter_last _ _ _ Hlast).
      apply (adjusted_sum_bounds unitRoundoff (count * unitRoundoff) audioDuration
               (sumQ products) (totalSceneDuration scaledScenes) p residue);
        try assumption; try lra.
      * apply last_le_sumQ; [|exact Hlast].
        eapply Forall_impl; [exact Hps|]. now intros x [_ Hx].
      * unfold residue. apply sub_error; [exact HA|].
        rewrite totalSceneDuration_fold. apply fold_add_double. reflexivity.
      * apply add_error.
        -- rewrite Forall_forall in Hps. apply Hps.
           apply last_Some in Hlast as [l' ->].
           apply list_elem_of_In, in_or_app. right. now left.
        -- apply round_idempotent.
    + rewrite Hscaled. apply Qabs_Qle_condition. split; nra.
Qed.
End Rescaling.

(** Five scenes against a track of 10^14 s: the residue is 1/64 s, above
    0.001 s, and the last scene absorbs it. *)
Lemma rescaleScenes_uniform_witness :
  let scaled := snd (reconcileDurations paceScenes (Some (literal 100000000000000))) in
  (Scene.durationSeconds <$> scaled !! 4%nat
   = Some ((literal 2.2 ⊗ (literal 100000000000000 ⊘ totalSceneDuration paceScenes))
           ⊕ literal (1 / 64))%Q) /\
  (Qabs (sumQ (map Scene.durationSeconds scaled) - literal 100000000000000)
   <= 24 * unitRoundoff * literal 100000000000000)%Q.
Proof.
  destruct (rescaleScenes_uniform paceScenes (literal 100000000000000))
    as (_ & _ & Heach & Hsum).
  - unfold paceScenes. cbn [map].
    repeat (apply Forall_cons; split;
            [split; [vm_compute; reflexivity|right; vm_compute; discriminate]|]).
    apply Forall_nil. exact I.
  - vm_compute. reflexivity.
  - vm_compute. reflexivity.
  - vm_compute. split; discriminate.
  - vm_compute. reflexivity.
  - vm_compute. discriminate.
  - split.
    + destruct (Heach 4%nat (sceneLasting (literal 2.2)) eq_refl) as [_ Hlast].
      cbn zeta. rewrite Hlast. cbn [fmap option_fmap option_map].
      vm_compute. reflexivity.
    + exact Hsum.
Defined.

(** Scenario D: ten seconds of scenes against five seconds of audio. *)
Example scenarioD_halved :
  map (fun s => Qred (Scene.durationSeconds s))
      (snd (reconcileDurations [sceneLasting 4%Q; sceneLasting 6%Q] (Some 5%Q)))
  = [2%Q; 3%Q].
Proof. vm_compute. reflexivity. Qed.

(** ** The Ken Burns transform *)



Section KenBurns.
Import Binary64.
Local Open Scope Q_scope.

Lemma isDouble_half : isDouble (1 # 2) /\ isDouble (- (1 # 2)).
Proof. split; reflexivity. Qed.

Lemma isDouble_max (a b : Q) : isDouble a -> isDouble b -> isDouble (Qmax a b).
Proof.
  intros Ha Hb. destruct (Q.max_spec a b) as [[_ E]|[_ E]];
    unfold isDouble; rewrite E; assumption.
Qed.

(** The pan drawn for an axis is at most one half either way. *)
Lemma pan_bounds (random : Q) :
  0 <= random <= 1 -> - (1 # 2) <= random ⊖ literal 0.5 <= 1 # 2.
Proof.
  intros [H0 H1]. destruct isDouble_half as [Hhalf Hneg].
  assert (E : literal 0.5 == 1 # 2) by reflexivity.
  unfold sub. split.
  - apply round_ge_double; [exact Hneg|]. rewrite E. lra.
  - apply round_le_double; [exact Hhalf|]. rewrite E. lra.
Qed.

Lemma getMaxOffset_double (scaledSize canvasSize : Q) :
  isDouble (getMaxOffset scaledSize canvasSize) /\
  0 <= getMaxOffset scaledSize canvasSize.
Proof.
  unfold getMaxOffset. split; [|apply Q.le_max_l].
  apply isDouble_max; [reflexivity|apply round_idempotent].
Qed.

(** One axis of a destination rectangle: with a pan of at most one half
    either way, the image never starts inside the frame. *)
Lemma offset_nonneg (maxOffset pan : Q) :
  isDouble maxOffset -> 0 <= maxOffset -> - (1 # 2) <= pan <= 1 # 2 ->
  0 <= maxOffset ⊕ pan ⊗ maxOffset /\ 0 <= maxOffset ⊖ pan ⊗ maxOffset.
Proof.
  intros Hdouble Hpos [Hpan1 Hpan2].
  assert (Hlow : - maxOffset <= pan ⊗ maxOffset).
  { apply round_ge_double; [now apply isDouble_opp|]. nra. }
  assert (Hup : pan ⊗ maxOffset <= maxOffset).
  { apply round_le_double; [exact Hdouble|]. nra. }
  split; apply round_nonneg; lra.
Qed.

(** The rectangles of a transform never start inside the frame: at the
    start and at the end the offsets are not positive, whatever the image,
    the canvas and the draws. *)
Lemma kenBurns_offsets
    (imgWidth imgHeight canvasWidth canvasHeight random1 random2 random3 : Q) :
  0 <= random2 <= 1 -> 0 <= random3 <= 1 ->
  let transform :=
    getKenBurnsTransforms imgWidth imgHeight canvasWidth canvasHeight
      random1 random2 random3 in
  (dx (destStart transform) <= 0 /\ dy (destStart transform) <= 0) /\
  (dx (destEnd transform) <= 0 /\ dy (destEnd transform) <= 0).
Proof.
  intros H2 H3. cbn zeta. unfold getKenBurnsTransforms.
  cbn [destStart destEnd dx dy].
  pose proof (pan_bounds random2 H2) as HpanX.
  pose proof (pan_bounds random3 H3) as HpanY.
  repeat match goal with
  | |- context [getMaxOffset ?s ?c] =>
      let m := fresh "m" in
      let Hd := fresh "Hd" in
      let Hp := fresh "Hp" in
      destruct (getMaxOffset_double s c) as [Hd Hp];
      set (m := getMaxOffset s c) in *; clearbody m
  end.
  repeat split;
    match goal with
    | |- - (?m ⊕ ?pan ⊗ ?m) <= 0 =>
        pose proof (proj1 (offset_nonneg m pan ltac:(assumption) ltac:(assumption)
                             ltac:(assumption))); lra
    | |- - (?m ⊖ ?pan ⊗ ?m) <= 0 =>
        pose proof (proj2 (offset_nonneg m pan ltac:(assumption) ltac:(assumption)
                             ltac:(assumption))); lra
    end.
Qed.

(** A double that is 1 or more is a multiple of [2^-52]. *)
Lemma double_grid (x : Q) :
  isDouble x -> 1 <= x -> exists k : Z, x == inject_Z k * pow2 (-52).
Proof.
  intros Hdouble Hx. unfold isDouble in Hdouble.
  assert (Hpos : 0 < x) by lra.
  rewrite (round_pos_unfold x Hpos) in Hdouble.
  assert (He : (-52 <= exponentOf x)%Z).
  { unfold exponentOf.
    assert (Habs : Qabs x = x).
    { destruct x as [n d]. unfold Qabs. f_equal. apply Z.abs_eq.
      unfold Qlt in Hpos. cbn in Hpos. lia. }
    rewrite Habs.
    assert (0 <= log2floor x)%Z; [|lia].
    replace 0%Z with (log2floor 1) by (vm_compute; reflexivity).
    apply log2floor_mono; lra. }
  exists (roundHalfEven (x / pow2 (exponentOf x)) * 2 ^ (exponentOf x + 52))%Z.
  rewrite <- Hdouble at 1. rewrite inject_Z_mult, <- Qmult_assoc.
  apply Qmult_comp; [reflexivity|].
  rewrite <- inject_Z_pow2 by lia. rewrite <- pow2_plus.
  replace (exponentOf x + 52 + -52)%Z with (exponentOf x) by lia. reflexivity.
Qed.

(** Two such doubles are equal or at least [2^-52] apart. *)
Lemma doubles_apart (x y : Q) :
  isDouble x -> isDouble y -> 1 <= y -> y < x -> pow2 (-52) <= x - y.
Proof.
  intros Hx Hy Hy1 Hlt.
  destruct (double_grid x Hx ltac:(lra)) as [k Hk].
  destruct (double_grid y Hy Hy1) as [j Hj].
  pose proof (pow2_pos (-52)) as Hg.
  assert (Hkj : (j < k)%Z).
  { apply Z.lt_nge. intros Hle. rewrite Zle_Qle in Hle.
    assert (inject_Z k * pow2 (-52) <= inject_Z j * pow2 (-52))
      by (apply Qmult_le_compat_r; lra).
    lra. }
  rewrite Hk, Hj.
  assert (Hstep : inject_Z j + 1 <= inject_Z k).
  { change 1 with (inject_Z 1). rewrite <- inject_Z_plus, <- Zle_Qle. lia. }
  assert ((inject_Z j + 1) * pow2 (-52) <= inject_Z k * pow2 (-52))
    by (apply Qmult_le_compat_r; lra).
  lra.
Qed.

Lemma roundoff_percent (x y : Q) :
  0 <= y -> x <= (1 + unitRoundoff) * y -> x <= (1025 # 1024) * y.
Proof.
  intros Hy Hx.
  assert (unitRoundoff * y <= (1 # 1024) * y).
  { apply Qmult_le_compat_r; [vm_compute; discriminate|exact Hy]. }
  lra.
Qed.

(** One axis of a destination rectangle.  When the scaled size, as
    computed, is not below the size of the canvas, which is one pixel or
    more, the image reaches the far edge of the frame, whatever the pan. *)
Lemma axis_covers (size canvas pan : Q) :
  isDouble size -> isDouble canvas -> 1 <= canvas <= size ->
  - (1 # 2) <= pan <= 1 # 2 ->
  let maxOffset := getMaxOffset size canvas in
  canvas <= - (maxOffset ⊕ pan ⊗ maxOffset) + size /\
  canvas <= - (maxOffset ⊖ pan ⊗ maxOffset) + size.
Proof.
  intros Hsize Hcanvas [Hone Hle] [Hpan1 Hpan2]. cbn zeta.
  destruct (getMaxOffset_double size canvas) as [Hm Hm0].
  destruct (Qle_lt_or_eq _ _ Hle) as [Hlt|Heq].
  - pose proof (doubles_apart size canvas Hsize Hcanvas Hone Hlt) as Hgap.
    pose proof (pow2_pos (-52)) as Hgrid.
    assert (Hd : (1 # 2) * (size - canvas) <= size ⊖ canvas
                 <= (1025 # 1024) * (size - canvas)).
    { pose proof (sub_error size canvas Hsize Hcanvas) as Herr.
      rewrite (Qabs_pos (size - canvas)) in Herr by lra.
      apply Qabs_Qle_condition in Herr as [Hlow Hup].
      assert (pow2 (-53) * (size - canvas) <= (1 # 1024) * (size - canvas))
        by (apply Qmult_le_compat_r; [vm_compute; discriminate|lra]).
      split; lra. }
    set (d := size ⊖ canvas) in *.
    assert (Hdbig : pow2 (-1022) <= d / 2).
    { apply Qle_trans with (pow2 (-54)); [apply pow2_le; lia|].
      assert (E : pow2 (-52) == 4 * pow2 (-54)) by reflexivity.
      apply Qle_shift_div_l; lra. }
    assert (Hh : (1 # 4) * d <= d ⊘ 2 <= (1025 # 1024) * (d / 2)).
    { destruct (div_bounds d 2 Hdbig) as [Hlow Hup].
      assert (0 <= d / 2) by (apply Qle_shift_div_l; lra).
      split; [|now apply roundoff_percent].
      assert (unitRoundoff * (d / 2) <= (1 # 2) * (d / 2))
        by (apply Qmult_le_compat_r; [vm_compute; discriminate|assumption]).
      assert (E : d / 2 == (1 # 2) * d) by field.
      lra. }
    assert (Em : getMaxOffset size canvas == d ⊘ 2).
    { unfold getMaxOffset. fold d. apply Q.max_r. lra. }
    set (m := getMaxOffset size canvas) in *.
    assert (Hhalf : m / 2 == (1 # 2) * m) by field.
    assert (Ed : d / 2 == (1 # 2) * d) by field.
    assert (Hmbig : pow2 (-1022) <= m / 2).
    { apply Qle_trans with (pow2 (-57)); [apply pow2_le; lia|].
      assert (E : pow2 (-52) == 32 * pow2 (-57)) by reflexivity.
      lra. }
    assert (Hr : round (m / 2) <= (1025 # 1024) * (m / 2)).
    { apply roundoff_percent; [lra|]. apply (div_bounds m 2 Hmbig). }
    assert (Hq1 : pan ⊗ m <= round (m / 2)).
    { apply round_mono. nra. }
    assert (Hq2 : - round (m / 2) <= pan ⊗ m).
    { rewrite <- round_opp. apply round_mono. nra. }
    assert (Hq3 : - m <= pan ⊗ m <= m).
    { split; [apply round_ge_double; [now apply isDouble_opp|nra]
             |apply round_le_double; [exact Hm|nra]]. }
    assert (Hq : isDouble (pan ⊗ m)) by apply round_idempotent.
    split.
    + pose proof (add_bounds m (pan ⊗ m) Hm Hq ltac:(lra)) as [_ Hup].
      apply roundoff_percent in Hup; lra.
    + assert (Hsub : m ⊖ pan ⊗ m = m ⊕ - (pan ⊗ m)) by reflexivity.
      rewrite Hsub.
      pose proof (add_bounds m (- (pan ⊗ m)) Hm (isDouble_opp _ Hq) ltac:(lra))
        as [_ Hup].
      apply roundoff_percent in Hup; lra.
  - assert (Ezero : size ⊖ canvas = 0) by (apply round_zero; lra).
    assert (Em : getMaxOffset size canvas == 0).
    { unfold getMaxOffset. rewrite Ezero.
      assert (E : 0 ⊘ 2 = 0) by (apply round_zero; reflexivity).
      rewrite E. reflexivity. }
    set (m := getMaxOffset size canvas) in *.
    assert (Eq : pan ⊗ m = 0) by (apply round_zero; rewrite Em; ring).
    rewrite Eq.
    assert (E1 : m ⊕ 0 = 0) by (apply round_zero; rewrite Em; ring).
    assert (E2 : m ⊖ 0 = 0) by (apply round_zero; rewrite Em; ring).
    rewrite E1, E2. split; lra.
Qed.

(** When the defect does not strike.  The offsets of the start and end
    rectangles are never positive, and a rectangle covers the frame
    exactly when its width and its height, as computed, are not below
    those of the canvas: the only way to miss the frame is a product of
    the image size by the scale that is rounded below the canvas size. *)
Lemma kenBurns_covers_iff
    (imgWidth imgHeight canvasWidth canvasHeight random1 random2 random3 : Q) :
  isDouble canvasWidth -> isDouble canvasHeight ->
  1 <= canvasWidth -> 1 <= canvasHeight ->
  0 <= random2 <= 1 -> 0 <= random3 <= 1 ->
  let transform :=
    getKenBurnsTransforms imgWidth imgHeight canvasWidth canvasHeight
      random1 random2 random3 in
  Forall (fun rect =>
            coversFrame rect canvasWidth canvasHeight <->
            canvasWidth <= dWidth rect /\ canvasHeight <= dHeight rect)
         [destStart transform; destEnd transform].
Proof.
  intros Hcw Hch Hcw1 Hch1 H2 H3 transform.
  destruct (kenBurns_offsets imgWidth imgHeight canvasWidth canvasHeight
              random1 random2 random3 H2 H3) as [[Sx Sy] [Ex Ey]].
  fold transform in Sx, Sy, Ex, Ey.
  pose proof (pan_bounds random2 H2) as HpanX.
  pose proof (pan_bounds random3 H3) as HpanY.
  assert (Hdouble : forall a b : Q, isDouble (a ⊗ b)) by (intros; apply round_idempotent).
  apply Forall_cons. split; [|apply Forall_cons; split; [|now apply Forall_nil]];
    unfold coversFrame; (split; [intros (_ & _ & Hw & Hh); split; lra|]);
    intros [Hw Hh].
  - split; [exact Sx|]. split; [exact Sy|].
    unfold transform, getKenBurnsTransforms in *.
    cbn [destStart dx dy dWidth dHeight] in *.
    split; [apply axis_covers|apply axis_covers]; auto.
  - split; [exact Ex|]. split; [exact Ey|].
    unfold transform, getKenBurnsTransforms in *.
    cbn [destEnd dx dy dWidth dHeight] in *.
    split; [apply axis_covers|apply axis_covers]; auto.
Qed.

(** The start and end scales are the cover-fit scale and the double
    nearest to 1.2 times it, one way or the other. *)
Lemma scale_bounds (scale : Q) (zoomIn : bool) :
  isDouble scale -> 0 <= scale ->
  scale <= startScale scale zoomIn <= scale ⊗ literal 1.2 /\
  scale <= endScale scale zoomIn <= scale ⊗ literal 1.2.
Proof.
  intros Hdouble Hpos.
  assert (Hmore : scale <= scale ⊗ literal 1.2).
  { apply round_ge_double; [exact Hdouble|].
    assert (1 <= literal 1.2) by (vm_compute; discriminate). nra. }
  unfold startScale, endScale. destruct zoomIn; repeat split; lra.
Qed.

(** C8, the defect at work.  A 604 x 604 image on the 1080p canvas, with a
    zoom in (0.7 is above one half): the cover-fit scale is the double
    nearest to 1920 / 604 and both scales are within 1.0 and 1.2 times it,
    but 604 times that scale is rounded to the double just below 1920, no
    overscan is left on that axis, and the start rectangle, which begins
    at 0, ends inside the frame: it does not cover it. *)
Theorem kenBurns_cover_fails :
  let scale := initialScale 604 604 1920 1080 in
  let transform :=
    getKenBurnsTransforms 604 604 1920 1080 (literal 0.7) (literal 0.9) (literal 0.2) in
  scale = 1920 ⊘ 604 /\
  (scale <= startScale scale true <= scale ⊗ literal 1.2 /\
   scale <= endScale scale true <= scale ⊗ literal 1.2) /\
  dx (destStart transform) == 0 /\
  dWidth (destStart transform) == 1920 - pow2 (-42) /\
  dx (destStart transform) + dWidth (destStart transform) < 1920 /\
  ~ coversFrame (destStart transform) 1920 1080.
Proof.
  cbn zeta. split; [vm_compute; reflexivity|].
  split; [apply scale_bounds; vm_compute; [reflexivity|discriminate]|].
  split; [vm_compute; reflexivity|]. split; [vm_compute; reflexivity|].
  split; [vm_compute; reflexivity|].
  intros (_ & _ & Hwidth & _). vm_compute in Hwidth. now apply Hwidth.
Qed.

(** A 4000 x 3000 image on the 1080p canvas, zooming out (0.3 is not above
    one half) with the pan drawn at 0.9 and 0.2. *)
Example kenBurns_sample :
  let k := getKenBurnsTransforms 4000 3000 1920 1080
             (literal 0.3) (literal 0.9) (literal 0.2) in
  (Qred (dWidth (destStart k)), Qred (dx (destEnd k)),
   Qred (dy (destEnd k)), Qred (dWidth (destEnd k)), Qred (dHeight (destEnd k)))
  = (2304, 0, - 234, 1920, 1440).
Proof. vm_compute. reflexivity. Qed.
End KenBurns.

(** ** The job orchestrator *)

Lemma broadcast_clients (clients : gset nat) event payload (streams : Streams) c :
  c ∈ (broadcastJobEvent clients event payload streams).1
  <-> c ∈ clients /\ writeThrows streams c = false.
Proof.
  unfold broadcastJobEvent. cbn. rewrite elem_of_filter. tauto.
Qed.

Lemma broadcast_lookup (clients : gset nat) event payload (streams : Streams) c :
  (broadcastJobEvent clients event payload streams).2 !! c
  = (fun s => if decide (c ∈ clients)
              then if Stream.broken s then s else writeSseEvent event payload s
              else s) <$> streams !! c.
Proof.
  unfold broadcastJobEvent. cbn. rewrite map_lookup_imap.
  destruct (streams !! c); reflexivity.
Qed.

Lemma endClients_lookup (clients : gset nat) (streams : Streams) c :
  endClients clients streams !! c
  = (fun s => if decide (c ∈ clients) then Stream.end_ s else s) <$> streams !! c.
Proof.
  unfold endClients. rewrite map_lookup_imap.
  destruct (streams !! c); reflexivity.
Qed.

Lemma jobFailureMessage_truthy errorMessage :
  truthy (jobFailureMessage errorMessage) = true.
Proof.
  unfold jobFailureMessage. destruct errorMessage as [m|]; [|reflexivity].
  destruct (truthy m) eqn:E; [exact E|reflexivity].
Qed.

Ltac case_job jobId id :=
  destruct (decide (jobId = id)) as [->|?];
  [rewrite ?lookup_insert_eq in * | rewrite ?lookup_insert_ne in * by congruence].

Lemma taskAgrees_other (w w' : World) jobId job :
  tasks w' !! jobId = tasks w !! jobId ->
  storyboardJobs w ⊆ storyboardJobs w' ->
  taskAgrees w jobId job -> taskAgrees w' jobId job.
Proof.
  unfold taskAgrees. intros -> Hsub.
  destruct (tasks w !! jobId) as [[]|]; intuition auto.
Qed.

Lemma step_jobsInvariant (w w' : World) (label : Label) :
  jobsInvariant w -> step w label w' -> jobsInvariant w'.
Proof.
  intros [HJ HR] Hstep.
  destruct Hstep as
    [ w dt Hdt
    | w jobId userId projectId Hfresh
    | w jobId message job job' streams' Hpc Hjob Hop
    | w jobId scenes job job' streams' Hpc Hjob Hop
    | w jobId errorMessage job job' streams' Hpc Hjob Hop
    | w jobId job Hpc Hjob
    | w jobId job due Hjob Htimer Hdue
    | w client requestUser jobId reply Hfree Hsub
    | w client requestUser jobId job' raw Hfree Hsub
    | w requestUser jobId
    | w client s Hs Hlisten
    | w client s Hs Hclosed
    | w client s Hs ].
  - (* tick *) split; [|exact HR]. intros id j Hj. exact (HJ id j Hj).
  - (* start *) split; cbn [jobs storyboardJobs tasks].
    + intros id j Hj. case_job jobId id.
      * injection Hj as <-. split; [reflexivity|].
        unfold taskAgrees. cbn [tasks storyboardJobs].
        rewrite lookup_insert_eq. repeat split. set_solver.
      * destruct (HJ id j Hj) as [Hid Hagree]. split; [exact Hid|].
        eapply taskAgrees_other; [| |exact Hagree]; cbn [tasks storyboardJobs].
        -- now rewrite lookup_insert_ne by congruence.
        -- set_solver.
    + intros id Hid. case_job jobId id; [now eexists|].
      apply HR. set_solver.
  - (* progress *)
    unfold notifyJobProgress in Hop. cbn in Hop. injection Hop as <- <-.
    destruct (HJ _ _ Hjob) as [Hid Hagree].
    split; cbn [jobs storyboardJobs tasks].
    + intros id j Hj. case_job jobId id.
      * injection Hj as <-. split; [exact Hid|].
        unfold taskAgrees in *. cbn [tasks storyboardJobs] in *.
        rewrite Hpc in *. exact Hagree.
      * apply (HJ id j Hj).
    + intros id Hin. case_job jobId id; [now eexists|]. now apply HR.
  - (* returns *)
    unfold finishJobSuccess in Hop. cbn in Hop. injection Hop as <- <-.
    destruct (HJ _ _ Hjob) as [Hid Hagree].
    unfold taskAgrees in Hagree. rewrite Hpc in Hagree.
    destruct Hagree as (Hrun & Htimer & Hreg).
    split; cbn [jobs storyboardJobs tasks].
    + intros id j Hj. case_job jobId id.
      * injection Hj as <-. split; [exact Hid|].
        unfold taskAgrees. cbn [tasks storyboardJobs].
        rewrite lookup_insert_eq. cbn.
        repeat split; [discriminate|exact Htimer|exact Hreg|now eexists].
      * destruct (HJ id j Hj) as [Hid' Hagree]. split; [exact Hid'|].
        eapply taskAgrees_other; [| |exact Hagree]; cbn [tasks storyboardJobs].
        -- now rewrite lookup_insert_ne by congruence.
        -- set_solver.
    + intros id Hin. case_job jobId id; [now eexists|]. now apply HR.
  - (* throws *)
    unfold finishJobFailure in Hop. cbn in Hop. injection Hop as <- <-.
    destruct (HJ _ _ Hjob) as [Hid Hagree].
    unfold taskAgrees in Hagree. rewrite Hpc in Hagree.
    destruct Hagree as (Hrun & Htimer & Hreg).
    split; cbn [jobs storyboardJobs tasks].
    + intros id j Hj. case_job jobId id.
      * injection Hj as <-. split; [exact Hid|].
        unfold taskAgrees. cbn [tasks storyboardJobs].
        rewrite lookup_insert_eq. cbn.
        repeat split; [discriminate|exact Htimer|exact Hreg|].
        eexists. split; [reflexivity|apply jobFailureMessage_truthy].
      * destruct (HJ id j Hj) as [Hid' Hagree]. split; [exact Hid'|].
        eapply taskAgrees_other; [| |exact Hagree]; cbn [tasks storyboardJobs].
        -- now rewrite lookup_insert_ne by congruence.
        -- set_solver.
    + intros id Hin. case_job jobId id; [now eexists|]. now apply HR.
  - (* persist settled *)
    destruct (HJ _ _ Hjob) as [Hid Hagree].
    unfold taskAgrees in Hagree. rewrite Hpc in Hagree.
    destruct Hagree as (Hterm & Hclients & Htimer & Hreg & Hres).
    split; cbn [jobs storyboardJobs tasks].
    + intros id j Hj. case_job jobId id.
      * injection Hj as <-. split; [exact Hid|].
        unfold taskAgrees. cbn [tasks storyboardJobs].
        rewrite lookup_insert_eq. repeat split; assumption.
      * destruct (HJ id j Hj) as [Hid' Hagree]. split; [exact Hid'|].
        eapply taskAgrees_other; [| |exact Hagree]; cbn [tasks storyboardJobs].
        -- now rewrite lookup_insert_ne by congruence.
        -- set_solver.
    + intros id Hin. case_job jobId id; [now eexists|]. now apply HR.
  - (* timer *)
    split; cbn [jobs storyboardJobs tasks].
    + intros id j Hj. destruct (HJ id j Hj) as [Hid Hagree]. split; [exact Hid|].
      unfold taskAgrees in *. cbn [tasks storyboardJobs].
      destruct (tasks w !! id) as [[]|] eqn:Hpc; [| |exact Hagree|exact Hagree].
      * destruct Hagree as (Hrun & Hnone & Hreg). repeat split; try assumption.
        apply elem_of_difference. split; [exact Hreg|].
        intros Heq%elem_of_singleton. subst id. congruence.
      * destruct Hagree as (Hterm & Hcl & Hnone & Hreg & Hres).
        repeat split; try assumption.
        apply elem_of_difference. split; [exact Hreg|].
        intros Heq%elem_of_singleton. subst id. congruence.
    + intros id Hin. apply HR. set_solver.
  - (* subscription refused *) now split.
  - (* subscription *)
    unfold subscribeJobEvents in Hsub.
    destruct requestUser as [user|]; [|discriminate].
    destruct (getJob w jobId) as [job|] eqn:Hget; [|discriminate].
    destruct (negb (canAccessJob user job)); [discriminate|].
    unfold getJob in Hget. destruct (decide (jobId ∈ storyboardJobs w)); [|discriminate].
    destruct (HJ _ _ Hget) as [Hid Hagree].
    assert (Hsame : StoryboardJob.id job' = jobId /\ taskAgrees w jobId job').
    { destruct (StoryboardJob.status job) eqn:Hst; injection Hsub as <- <-;
        [|now split|now split].
      split; [exact Hid|]. unfold taskAgrees in *.
      destruct (tasks w !! jobId) as [[]|]; cbn; rewrite ?Hst in *; intuition congruence. }
    split; cbn [jobs storyboardJobs tasks].
    + intros id j Hj. case_job jobId id.
      * injection Hj as <-. exact Hsame.
      * apply (HJ id j Hj).
    + intros id Hin. case_job jobId id; [now eexists|]. now apply HR.
  - (* poll *) now split.
  - (* heartbeat *) now split.
  - (* close *)
    split; cbn [jobs storyboardJobs tasks]; destruct (Stream.listening s);
      try assumption.
    + intros id j Hj.
      destruct (decide (id = Stream.jobId s)) as [->|Hne].
      * rewrite lookup_alter_eq in Hj.
        destruct (jobs w !! Stream.jobId s) as [j0|] eqn:Hj0; [|discriminate].
        injection Hj as <-. destruct (HJ _ _ Hj0) as [Hid Hagree].
        split; [exact Hid|]. unfold taskAgrees in *. cbn [tasks storyboardJobs].
        destruct (tasks w !! Stream.jobId s) as [[]|]; cbn;
          intuition auto; set_solver.
      * rewrite lookup_alter_ne in Hj by congruence. apply (HJ id j Hj).
    + intros id Hin.
      destruct (decide (id = Stream.jobId s)) as [->|Hne].
      * rewrite lookup_alter_eq. destruct (HR _ Hin) as [j0 ->]. now eexists.
      * rewrite lookup_alter_ne by congruence. now apply HR.
  - (* break *) now split.
Qed.

Lemma reachable_jobsInvariant (w : World) : reachable w -> jobsInvariant w.
Proof.
  induction 1 as [|w label w' _ IH Hstep].
  - split; intros id; cbn; [intros j Hj; now rewrite lookup_empty in Hj|set_solver].
  - eapply step_jobsInvariant; eassumption.
Qed.

Lemma step_timersInvariant (w w' : World) (label : Label) :
  jobsInvariant w -> timersInvariant w -> step w label w' -> timersInvariant w'.
Proof.
  intros [HJ _] HT Hstep.
  destruct Hstep as
    [ w dt Hdt
    | w jobId userId projectId Hfresh
    | w jobId message job job' streams' Hpc Hjob Hop
    | w jobId scenes job job' streams' Hpc Hjob Hop
    | w jobId errorMessage job job' streams' Hpc Hjob Hop
    | w jobId job Hpc Hjob
    | w jobId job due Hjob Htimer Hdue
    | w client requestUser jobId reply Hfree Hsub
    | w client requestUser jobId job' raw Hfree Hsub
    | w requestUser jobId
    | w client s Hs Hlisten
    | w client s Hs Hclosed
    | w client s Hs ];
    try exact HT; intros id j Hj; cbn [jobs clock] in *.
  - (* tick *) destruct (HT id j Hj) as [Hle Hdue]. split; [lia|exact Hdue].
  - (* start *) case_job jobId id; [|exact (HT id j Hj)].
    injection Hj as <-. cbn. split; [lia|discriminate].
  - (* progress *) case_job jobId id; [|exact (HT id j Hj)].
    unfold notifyJobProgress in Hop. cbn in Hop. injection Hop as <- <-.
    injection Hj as <-. cbn. split; [lia|].
    destruct (HJ _ _ Hjob) as [_ Hagree]. unfold taskAgrees in Hagree.
    rewrite Hpc in Hagree. destruct Hagree as (_ & -> & _). discriminate.
  - (* returns *) case_job jobId id; [|exact (HT id j Hj)].
    unfold finishJobSuccess in Hop. cbn in Hop. injection Hop as <- <-.
    injection Hj as <-. cbn. split; [lia|].
    destruct (HJ _ _ Hjob) as [_ Hagree]. unfold taskAgrees in Hagree.
    rewrite Hpc in Hagree. destruct Hagree as (_ & -> & _). discriminate.
  - (* throws *) case_job jobId id; [|exact (HT id j Hj)].
    unfold finishJobFailure in Hop. cbn in Hop. injection Hop as <- <-.
    injection Hj as <-. cbn. split; [lia|].
    destruct (HJ _ _ Hjob) as [_ Hagree]. unfold taskAgrees in Hagree.
    rewrite Hpc in Hagree. destruct Hagree as (_ & -> & _). discriminate.
  - (* persist settled *) case_job jobId id; [|exact (HT id j Hj)].
    injection Hj as <-. destruct (HT _ _ Hjob) as [Hle _]. cbn.
    split; [exact Hle|]. intros due [= <-]. lia.
  - (* subscription *)
    case_job jobId id; [|exact (HT id j Hj)]. injection Hj as <-.
    unfold subscribeJobEvents in Hsub.
    destruct requestUser as [user|]; [|discriminate].
    destruct (getJob w id) as [job|] eqn:Hget; [|discriminate].
    destruct (negb (canAccessJob user job)); [discriminate|].
    unfold getJob in Hget. destruct (decide (id ∈ storyboardJobs w)); [|discriminate].
    destruct (StoryboardJob.status job); injection Hsub as <- <-;
      exact (HT _ _ Hget).
  - (* close *)
    destruct (Stream.listening s); [|exact (HT id j Hj)].
    destruct (decide (id = Stream.jobId s)) as [->|Hne].
    + rewrite lookup_alter_eq in Hj.
      destruct (jobs w !! Stream.jobId s) as [j0|] eqn:Hj0; [|discriminate].
      injection Hj as <-. exact (HT _ _ Hj0).
    + rewrite lookup_alter_ne in Hj by congruence. exact (HT id j Hj).
Qed.

Lemma reachable_timersInvariant (w : World) : reachable w -> timersInvariant w.
Proof.
  induction 1 as [|w label w' Hw IH Hstep].
  - intros id j Hj. cbn in Hj. now rewrite lookup_empty in Hj.
  - eapply step_timersInvariant; [apply reachable_jobsInvariant| |]; eassumption.
Qed.


Lemma sameOutcome_refl job : sameOutcome job job.
Proof. repeat split. Qed.

Lemma sameOutcome_trans j1 j2 j3 :
  sameOutcome j1 j2 -> sameOutcome j2 j3 -> sameOutcome j1 j3.
Proof. unfold sameOutcome. intuition congruence. Qed.

(** No transition touches the outcome of a job that is terminal. *)
Lemma step_terminal_stable (w w' : World) (label : Label) jobId job :
  jobsInvariant w -> step w label w' ->
  jobs w !! jobId = Some job ->
  StoryboardJob.status job <> JobStatus.running ->
  exists job', jobs w' !! jobId = Some job' /\ sameOutcome job job'.
Proof.
  intros [HJ HR] Hstep Hjob Hterm.
  assert (Hnot : tasks w !! jobId <> Some Generating).
  { intros Hpc. destruct (HJ _ _ Hjob) as [_ Hagree].
    unfold taskAgrees in Hagree. rewrite Hpc in Hagree. tauto. }
  destruct Hstep; cbn [jobs]; try (exists job; split; [assumption|apply sameOutcome_refl]).
  - (* start *) exists job. split; [|apply sameOutcome_refl].
    rewrite lookup_insert_ne by congruence. exact Hjob.
  - (* progress *) exists job. split; [|apply sameOutcome_refl].
    rewrite lookup_insert_ne by congruence. exact Hjob.
  - (* returns *) exists job. split; [|apply sameOutcome_refl].
    rewrite lookup_insert_ne by congruence. exact Hjob.
  - (* throws *) exists job. split; [|apply sameOutcome_refl].
    rewrite lookup_insert_ne by congruence. exact Hjob.
  - (* persist *) destruct (decide (jobId0 = jobId)) as [->|Hne].
    + rewrite lookup_insert_eq. eexists. split; [reflexivity|].
      replace job0 with job by congruence. repeat split.
    + rewrite lookup_insert_ne by congruence. exists job.
      split; [exact Hjob|apply sameOutcome_refl].
  - (* subscription *) destruct (decide (jobId0 = jobId)) as [->|Hne].
    + rewrite lookup_insert_eq. eexists. split; [reflexivity|].
      unfold subscribeJobEvents in *.
      destruct requestUser as [user|]; [|discriminate].
      destruct (getJob w jobId) as [j|] eqn:Hget; [|discriminate].
      destruct (negb (canAccessJob user j)); [discriminate|].
      unfold getJob in Hget. destruct (decide (jobId ∈ storyboardJobs w)); [|discriminate].
      replace j with job in * by congruence.
      destruct (StoryboardJob.status job); match goal with
        | H : inr _ = inr _ |- _ => injection H as <- <- end; repeat split.
    + rewrite lookup_insert_ne by congruence. exists job.
      split; [exact Hjob|apply sameOutcome_refl].
  - (* close *) destruct (Stream.listening s);
      [|exists job; split; [assumption|apply sameOutcome_refl]].
    destruct (decide (Stream.jobId s = jobId)) as [<-|Hne].
    + rewrite lookup_alter_eq, Hjob. eexists. split; [reflexivity|]. repeat split.
    + rewrite lookup_alter_ne by congruence. exists job.
      split; [exact Hjob|apply sameOutcome_refl].
Qed.

Lemma steps_reachable (w w' : World) : reachable w -> steps w w' -> reachable w'.
Proof.
  intros Hw Hsteps. induction Hsteps as [|w label w' w'' Hstep _ IH]; [exact Hw|].
  apply IH. eapply reachable_step; eassumption.
Qed.

Lemma steps_terminal_stable (w w' : World) jobId job :
  reachable w -> steps w w' ->
  jobs w !! jobId = Some job ->
  StoryboardJob.status job <> JobStatus.running ->
  exists job', jobs w' !! jobId = Some job' /\ sameOutcome job job'.
Proof.
  intros Hw Hsteps. revert job.
  induction Hsteps as [w|w label w' w'' Hstep _ IH]; intros job Hjob Hterm.
  - exists job. split; [exact Hjob|apply sameOutcome_refl].
  - destruct (step_terminal_stable w w' label jobId job
                (reachable_jobsInvariant w Hw) Hstep Hjob Hterm)
      as (job1 & Hjob1 & Hsame1).
    destruct (IH (reachable_step _ _ _ Hw Hstep) job1 Hjob1) as (job2 & Hjob2 & Hsame2).
    { destruct Hsame1 as (_ & _ & _ & -> & _). exact Hterm. }
    exists job2. split; [exact Hjob2|]. eapply sameOutcome_trans; eassumption.
Qed.

(** One transition: a job object is never dropped, a new one is running,
    and a status changes only from running to completed or to failed. *)
Lemma step_status (w w' : World) (label : Label) jobId :
  jobsInvariant w -> step w label w' ->
  match jobs w !! jobId, jobs w' !! jobId with
  | None, None => True
  | None, Some job' => StoryboardJob.status job' = JobStatus.running
  | Some _, None => False
  | Some job, Some job' =>
      StoryboardJob.status job' = StoryboardJob.status job \/
      (StoryboardJob.status job = JobStatus.running /\
       (StoryboardJob.status job' = JobStatus.completed \/
        StoryboardJob.status job' = JobStatus.failed))
  end.
Proof.
  intros Hinv Hstep.
  destruct (jobs w !! jobId) as [job|] eqn:Hjob.
  - assert (Hcase : StoryboardJob.status job = JobStatus.running \/
                    StoryboardJob.status job <> JobStatus.running)
      by (destruct (StoryboardJob.status job); [left|right|right]; congruence).
    destruct Hcase as [Hrun|Hterm].
    + pose proof Hinv as [HJ HR].
      destruct Hstep; cbn [jobs]; rewrite ?Hjob; try (now left).
      * rewrite lookup_insert_ne by congruence. rewrite Hjob. now left.
      * unfold notifyJobProgress in *. cbn in *.
        match goal with H : (_, _) = (_, _) |- _ => injection H as <- <- end.
        case_job jobId0 jobId; [left; cbn; congruence|rewrite Hjob; now left].
      * unfold finishJobSuccess in *. cbn in *.
        match goal with H : (_, _) = (_, _) |- _ => injection H as <- <- end.
        case_job jobId0 jobId; [right; cbn; auto|rewrite Hjob; now left].
      * unfold finishJobFailure in *. cbn in *.
        match goal with H : (_, _) = (_, _) |- _ => injection H as <- <- end.
        case_job jobId0 jobId; [right; cbn; auto|rewrite Hjob; now left].
      * case_job jobId0 jobId; [left; cbn; congruence|rewrite Hjob; now left].
      * case_job jobId0 jobId; [|rewrite Hjob; now left].
        unfold subscribeJobEvents in *.
        destruct requestUser as [user|]; [|discriminate].
        destruct (getJob w jobId) as [j|] eqn:Hget; [|discriminate].
        destruct (negb (canAccessJob user j)); [discriminate|].
        unfold getJob in Hget.
        destruct (decide (jobId ∈ storyboardJobs w)); [|discriminate].
        replace j with job in * by congruence.
        destruct (StoryboardJob.status job) eqn:Hst; match goal with
          | H : inr _ = inr _ |- _ => injection H as <- <- end;
          left; cbn; congruence.
      * destruct (Stream.listening s); [|rewrite Hjob; now left].
        destruct (decide (Stream.jobId s = jobId)) as [<-|Hne].
        -- rewrite lookup_alter_eq, Hjob. now left.
        -- rewrite lookup_alter_ne by congruence. rewrite Hjob. now left.
    + destruct (step_terminal_stable w w' label jobId job Hinv Hstep Hjob Hterm)
        as (job' & -> & (_ & _ & _ & Hst & _)). now left.
  - destruct (jobs w' !! jobId) as [job'|] eqn:Hjob'; [|exact I].
    destruct Hstep; cbn [jobs] in Hjob'; try congruence.
    + case_job jobId0 jobId; [|congruence]. now injection Hjob' as <-.
    + case_job jobId0 jobId; congruence.
    + case_job jobId0 jobId; congruence.
    + case_job jobId0 jobId; congruence.
    + case_job jobId0 jobId; congruence.
    + case_job jobId0 jobId; [|congruence].
      unfold subscribeJobEvents in *.
      destruct requestUser as [user|]; [|discriminate].
      destruct (getJob w jobId) as [j|] eqn:Hget; [|discriminate].
      unfold getJob in Hget.
      destruct (decide (jobId ∈ storyboardJobs w)); congruence.
    + destruct (Stream.listening s); [|congruence].
      destruct (decide (Stream.jobId s = jobId)) as [<-|Hne].
      * rewrite lookup_alter_eq, Hjob in Hjob'. discriminate.
      * rewrite lookup_alter_ne in Hjob' by congruence. congruence.
Qed.

(** C4.  A job is created running; a transition leaves its status as it
    is or takes it from running to completed or to failed; and once the
    status is completed or failed it stays what it is, in the job object
    and in whatever the endpoints read from the registry, however the
    server runs on (progress, broadcast, polls, subscriptions, the
    project update, the clean-up timer). *)
Theorem job_status_monotonic (w : World) :
  reachable w ->
  (forall label w' jobId,
     step w label w' ->
     match jobs w !! jobId, jobs w' !! jobId with
     | None, None => True
     | None, Some job' => StoryboardJob.status job' = JobStatus.running
     | Some _, None => False
     | Some job, Some job' =>
         StoryboardJob.status job' = StoryboardJob.status job \/
         (StoryboardJob.status job = JobStatus.running /\
          (StoryboardJob.status job' = JobStatus.completed \/
           StoryboardJob.status job' = JobStatus.failed))
     end) /\
  (forall w' jobId job,
     steps w w' ->
     jobs w !! jobId = Some job ->
     StoryboardJob.status job <> JobStatus.running ->
     exists job',
       jobs w' !! jobId = Some job' /\
       StoryboardJob.status job' = StoryboardJob.status job /\
       forall observed,
         getJob w' jobId = Some observed ->
         StoryboardJob.status observed = StoryboardJob.status job).
Proof.
  intros Hw. split.
  - intros label w' jobId Hstep.
    apply (step_status w w' label jobId (reachable_jobsInvariant w Hw) Hstep).
  - intros w' jobId job Hsteps Hjob Hterm.
    destruct (steps_terminal_stable w w' jobId job Hw Hsteps Hjob Hterm)
      as (job' & Hjob' & (_ & _ & _ & Hst & _)).
    exists job'. split; [exact Hjob'|]. split; [exact Hst|].
    intros observed Hobs. unfold getJob in Hobs.
    destruct (decide (jobId ∈ storyboardJobs w')); [|discriminate]. congruence.
Qed.

Lemma worldStarted_reachable : reachable worldStarted.
Proof.
  eapply reachable_step; [apply reachable_initial|].
  apply (step_start initialWorld "job-1" "alice" "project-1"). apply lookup_empty.
Qed.

Lemma worldCompleted_step :
  step worldStarted (TaskReturns "job-1" [sceneLasting 2%Q]) worldCompleted.
Proof.
  eapply (step_returns worldStarted "job-1" [sceneLasting 2%Q]
            (newJob 0 "job-1" "alice" "project-1")).
  - apply lookup_insert_eq.
  - apply lookup_insert_eq.
  - reflexivity.
Qed.

Lemma worldCompleted_reachable : reachable worldCompleted.
Proof.
  eapply reachable_step; [apply worldStarted_reachable|apply worldCompleted_step].
Qed.

Lemma worldSettled_step : step worldCompleted (PersistSettled "job-1") worldSettled.
Proof.
  apply (step_persist worldCompleted "job-1" jobCompleted); apply lookup_insert_eq.
Qed.

Lemma job_status_monotonic_witness :
  exists job',
    jobs worldSettled !! "job-1" = Some job' /\
    StoryboardJob.status job' = JobStatus.completed.
Proof.
  destruct (proj2 (job_status_monotonic worldCompleted worldCompleted_reachable)
              worldSettled "job-1" jobCompleted
              (steps_more _ _ _ _ worldSettled_step (steps_refl _))
              ltac:(apply lookup_insert_eq) ltac:(discriminate))
    as (job' & Hjob' & Hstatus & _).
  exists job'. split; [exact Hjob'|exact Hstatus].
Defined.

(** ** The result endpoint *)


(** The access control of the endpoint: a caller who is neither the owner
    of a job nor an administrator is refused its state. *)
Example poll_outsider_denied :
  exists job,
    reachable worldStarted /\
    getJob worldStarted "job-1" = Some job /\
    StoryboardJob.status job = JobStatus.running /\
    getJobResult (Some bob) (getJob worldStarted "job-1")
    = sendError 403 "Acesso negado ao job.".
Proof.
  exists (newJob 0 "job-1" "alice" "project-1").
  assert (Hget : getJob worldStarted "job-1"
                 = Some (newJob 0 "job-1" "alice" "project-1")).
  { unfold getJob. rewrite decide_True by set_solver. apply lookup_insert_eq. }
  split; [apply worldStarted_reachable|]. split; [exact Hget|].
  split; [reflexivity|]. rewrite Hget. reflexivity.
Qed.



(** ** Event streams *)

Lemma terminalItem_sameOutcome job job' :
  sameOutcome job job' -> terminalItem job' = terminalItem job.
Proof.
  intros (Hid & Huser & Hproject & Hstatus & Hmessage & Hupdated & Hscenes & Herror).
  unfold terminalItem, completedPayload, failedPayload.
  now rewrite Hproject, Hstatus, Hmessage, Hupdated, Hscenes, Herror.
Qed.

Lemma streamShape_sameOutcome job job' s :
  sameOutcome job job' -> streamShape job s -> streamShape job' s.
Proof.
  intros Hsame (snapshot & rest & Hw & Hp & Hrest).
  exists snapshot, rest. split; [exact Hw|].
  rewrite (terminalItem_sameOutcome _ _ Hsame).
  destruct Hsame as (_ & _ & -> & _). now split.
Qed.

Lemma streamShape_running_open job s :
  streamShape job s -> StoryboardJob.status job = JobStatus.running ->
  Stream.ended s = false.
Proof.
  intros (snapshot & rest & _ & _ & Hrest) Hrun.
  destruct (Stream.ended s); [|reflexivity].
  destruct Hrest as (body & t & _ & _ & Ht).
  unfold terminalItem in Ht. rewrite Hrun in Ht. discriminate.
Qed.

Lemma streamShape_write job s item :
  streamShape job s -> progressItem item ->
  streamShape job (Stream.write item s).
Proof.
  intros (snapshot & rest & Hw & Hp & Hrest) Hitem. unfold Stream.write.
  destruct (Stream.ended s) eqn:Hended.
  - exists snapshot, rest. rewrite Hended. now repeat split.
  - exists snapshot, (rest ++ [item]). cbn. rewrite Hw, ?Hended.
    repeat split; [exact Hp|]. apply Forall_app. split; [exact Hrest|].
    now constructor.
Qed.

Lemma streamShape_finish job job' s item :
  streamShape job s -> Stream.ended s = false ->
  StoryboardJob.projectId job' = StoryboardJob.projectId job ->
  terminalItem job' = Some item ->
  streamShape job' (Stream.end_ (Stream.write item s)).
Proof.
  intros (snapshot & rest & Hw & Hp & Hrest) Hended Hproject Hitem.
  unfold Stream.write. rewrite Hended in *.
  exists snapshot, (rest ++ [item]). cbn. rewrite Hw, Hproject.
  repeat split; [exact Hp|]. exists rest, item. now repeat split.
Qed.

Lemma streamShape_open_job job job' s :
  streamShape job s -> Stream.ended s = false ->
  StoryboardJob.projectId job' = StoryboardJob.projectId job ->
  streamShape job' s.
Proof.
  intros (snapshot & rest & Hw & Hp & Hrest) Hended Hproject.
  exists snapshot, rest. rewrite Hended in *. rewrite Hproject. now repeat split.
Qed.

Lemma finishWith_job job1 event payload streams :
  (finishWith job1 event payload streams).1 = StoryboardJob.setClients ∅ job1.
Proof. reflexivity. Qed.

Lemma finishWith_lookup job1 event payload (streams : Streams) c :
  (finishWith job1 event payload streams).2 !! c
  = (fun s => if decide (c ∈ StoryboardJob.clients job1)
              then if Stream.broken s then s
                   else Stream.end_ (writeSseEvent event payload s)
              else s) <$> streams !! c.
Proof.
  unfold finishWith. cbn. rewrite endClients_lookup.
  change (map_imap _ streams)
    with (broadcastJobEvent (StoryboardJob.clients job1) event payload streams).2.
  rewrite broadcast_lookup.
  destruct (streams !! c) as [s|] eqn:Hs; [|reflexivity]. cbn. f_equal.
  destruct (decide (c ∈ StoryboardJob.clients job1)) as [Hin|Hout].
  - destruct (Stream.broken s) eqn:Hb.
    + rewrite decide_False; [reflexivity|].
      rewrite elem_of_filter. unfold writeThrows. rewrite Hs, Hb. intros [? _]. discriminate.
    + rewrite decide_True; [reflexivity|].
      rewrite elem_of_filter. unfold writeThrows. rewrite Hs, Hb. now split.
  - rewrite decide_False; [reflexivity|]. rewrite elem_of_filter. tauto.
Qed.

Lemma write_fields item s :
  Stream.jobId (Stream.write item s) = Stream.jobId s /\
  Stream.ended (Stream.write item s) = Stream.ended s /\
  Stream.broken (Stream.write item s) = Stream.broken s /\
  Stream.listening (Stream.write item s) = Stream.listening s /\
  Stream.closed (Stream.write item s) = Stream.closed s.
Proof. unfold Stream.write. destruct (Stream.ended s) eqn:E; cbn; auto. Qed.

Lemma streamAgrees_write job client s item :
  streamAgrees job client s -> progressItem item ->
  streamAgrees job client (Stream.write item s).
Proof.
  intros (Hshape & Ha & Hb & Hc & Hd) Hitem.
  destruct (write_fields item s) as (Ej & Ee & Eb & El & Ec).
  unfold streamAgrees. rewrite Ee, Eb, El, Ec.
  split; [now apply streamShape_write|]. auto.
Qed.

(** Two jobs that differ in nothing a stream depends on. *)
Lemma streamAgrees_job job job' client s :
  streamAgrees job client s ->
  sameOutcome job job' ->
  (client ∈ StoryboardJob.clients job' <-> client ∈ StoryboardJob.clients job) ->
  streamAgrees job' client s.
Proof.
  intros (Hshape & Ha & Hb & Hc & Hd) Hsame Hclients.
  split; [eapply streamShape_sameOutcome; eassumption|].
  destruct Hsame as (_ & _ & _ & Hst & _). rewrite Hst, Hclients. auto.
Qed.

Lemma notifyJobProgress_streams now message job (streams : Streams) :
  (notifyJobProgress now message job streams).2
  = (broadcastJobEvent (StoryboardJob.clients job) JobEvent.progress
       {| SsePayload.projectId := None;
          SsePayload.status := StoryboardJob.status job;
          SsePayload.message := message;
          SsePayload.updatedAt := now;
          SsePayload.sceneCount := None;
          SsePayload.error := None |} streams).2.
Proof. reflexivity. Qed.

Lemma notifyJobProgress_job now message job (streams : Streams) :
  let job' := (notifyJobProgress now message job streams).1 in
  StoryboardJob.id job' = StoryboardJob.id job /\
  StoryboardJob.projectId job' = StoryboardJob.projectId job /\
  StoryboardJob.status job' = StoryboardJob.status job /\
  forall c, c ∈ StoryboardJob.clients job'
            <-> c ∈ StoryboardJob.clients job /\ writeThrows streams c = false.
Proof.
  cbn. do 3 (split; [reflexivity|]). intros c. rewrite elem_of_filter. tauto.
Qed.

Lemma streamsAgree_progress (jobsM : gmap string StoryboardJob.t)
    (streams : Streams) jobId job now message :
  streamsAgree jobsM streams ->
  jobsM !! jobId = Some job ->
  StoryboardJob.status job = JobStatus.running ->
  streamsAgree (<[jobId := (notifyJobProgress now message job streams).1]> jobsM)
               (notifyJobProgress now message job streams).2.
Proof.
  intros [HS HC] Hjob Hrun.
  destruct (notifyJobProgress_job now message job streams)
    as (Hid & Hproject & Hstatus & Hclients).
  rewrite notifyJobProgress_streams.
  set (job' := (notifyJobProgress now message job streams).1) in *.
  match goal with
  | |- context [broadcastJobEvent _ _ ?p _] => set (payload := p) in *
  end.
  split.
  - intros c s' Hs'. rewrite broadcast_lookup in Hs'.
    destruct (streams !! c) as [s|] eqn:Hs; [|discriminate]. injection Hs' as <-.
    destruct (HS c s Hs) as (j & Hj & Hagree).
    destruct (decide (c ∈ StoryboardJob.clients job)) as [Hin|Hout].
    + destruct (HC jobId job c Hjob Hin) as (s0 & Hs0 & Hjid).
      replace s0 with s in * by congruence. rewrite Hjid in Hj.
      replace j with job in * by congruence.
      assert (Hopen : Stream.ended s = false)
        by (apply (streamShape_running_open job); [apply Hagree|exact Hrun]).
      destruct (Stream.broken s) eqn:Hbroken.
      * exists job'. rewrite Hjid, lookup_insert_eq. split; [reflexivity|].
        destruct Hagree as (Hshape & Ha & Hb & Hc & Hd).
        split; [eapply streamShape_open_job; eassumption|].
        rewrite Hstatus, Hclients, Hbroken. intuition congruence.
      * unfold writeSseEvent.
        destruct (write_fields (SseEvent JobEvent.progress payload) s) as (Ej & Ee & Eb & El & Ec).
        exists job'. rewrite Ej, Hjid, lookup_insert_eq. split; [reflexivity|].
        apply (streamAgrees_write job c s (SseEvent JobEvent.progress payload))
          in Hagree; [|reflexivity].
        destruct Hagree as (Hshape & Ha & Hb & Hc & Hd).
        split; [eapply streamShape_open_job; [eassumption|congruence|exact Hproject]|].
        rewrite Hstatus, Hclients, Ee, Eb, El, Ec in *.
        unfold writeThrows. rewrite Hs, Hbroken. intuition congruence.
    + destruct (decide (Stream.jobId s = jobId)) as [Hjid|Hne].
      * rewrite Hjid in *. replace j with job in * by congruence.
        exists job'. rewrite lookup_insert_eq. split; [reflexivity|].
        assert (Hopen : Stream.ended s = false)
          by (apply (streamShape_running_open job); [apply Hagree|exact Hrun]).
        destruct Hagree as (Hshape & Ha & Hb & Hc & Hd).
        split; [eapply streamShape_open_job; eassumption|].
        rewrite Hstatus, Hclients. intuition congruence.
      * exists j. rewrite lookup_insert_ne by congruence. now split.
  - intros id j c Hj Hin. rewrite broadcast_lookup.
    destruct (decide (jobId = id)) as [->|Hne].
    + rewrite lookup_insert_eq in Hj. injection Hj as <-.
      apply Hclients in Hin as [Hin _].
      destruct (HC id job c Hjob Hin) as (s & -> & Hjid).
      eexists. split; [reflexivity|].
      rewrite decide_True by exact Hin. unfold writeSseEvent.
      destruct (Stream.broken s); [exact Hjid|].
      now destruct (write_fields (SseEvent JobEvent.progress payload) s) as (-> & _).
    + rewrite lookup_insert_ne in Hj by congruence.
      destruct (HC id j c Hj Hin) as (s & Hs & Hjid). rewrite Hs.
      eexists. split; [reflexivity|].
      rewrite decide_False; [exact Hjid|].
      intros Hin'. destruct (HC jobId job c Hjob Hin') as (s0 & Hs0 & Hjid0).
      congruence.
Qed.

Lemma end_write_fields item s :
  Stream.jobId (Stream.end_ (Stream.write item s)) = Stream.jobId s /\
  Stream.ended (Stream.end_ (Stream.write item s)) = true /\
  Stream.broken (Stream.end_ (Stream.write item s)) = Stream.broken s /\
  Stream.listening (Stream.end_ (Stream.write item s)) = Stream.listening s /\
  Stream.closed (Stream.end_ (Stream.write item s)) = Stream.closed s.
Proof. unfold Stream.write. destruct (Stream.ended s) eqn:E; cbn; auto. Qed.

Lemma streamsAgree_finish (jobsM : gmap string StoryboardJob.t)
    (streams : Streams) jobId job job1 event payload :
  streamsAgree jobsM streams ->
  jobsM !! jobId = Some job ->
  StoryboardJob.status job = JobStatus.running ->
  StoryboardJob.projectId job1 = StoryboardJob.projectId job ->
  StoryboardJob.clients job1 = StoryboardJob.clients job ->
  StoryboardJob.status job1 <> JobStatus.running ->
  terminalItem (StoryboardJob.setClients ∅ job1) = Some (SseEvent event payload) ->
  streamsAgree (<[jobId := (finishWith job1 event payload streams).1]> jobsM)
               (finishWith job1 event payload streams).2.
Proof.
  intros [HS HC] Hjob Hrun Hproject Hclients Hterm Hitem.
  rewrite finishWith_job. set (job' := StoryboardJob.setClients ∅ job1) in *.
  assert (Hnone : forall c, c ∉ StoryboardJob.clients job') by (intros c; set_solver).
  assert (Hst' : StoryboardJob.status job' <> JobStatus.running) by exact Hterm.
  assert (Hproject' : StoryboardJob.projectId job' = StoryboardJob.projectId job)
    by exact Hproject.
  split.
  - intros c s' Hs'. rewrite finishWith_lookup, Hclients in Hs'.
    destruct (streams !! c) as [s|] eqn:Hs; [|discriminate]. injection Hs' as <-.
    destruct (HS c s Hs) as (j & Hj & Hagree).
    destruct (decide (Stream.jobId s = jobId)) as [Hjid|Hne].
    + rewrite Hjid in Hj. replace j with job in * by congruence.
      assert (Hopen : Stream.ended s = false)
        by (apply (streamShape_running_open job); [apply Hagree|exact Hrun]).
      destruct Hagree as (Hshape & Ha & Hb & Hc & Hd).
      destruct (decide (c ∈ StoryboardJob.clients job)) as [Hin|Hout];
        [destruct (Stream.broken s) eqn:Hbroken|].
      * exists job'. rewrite Hjid, lookup_insert_eq. split; [reflexivity|].
        split; [eapply streamShape_open_job; eassumption|].
        rewrite Hbroken.
        repeat split; try (intros; congruence); try tauto;
          try (intros Hin'; destruct (Hnone _ Hin')).
      * unfold writeSseEvent.
        destruct (end_write_fields (SseEvent event payload) s)
          as (Ej & Ee & Eb & El & Ec).
        exists job'. rewrite Ej, Hjid, lookup_insert_eq. split; [reflexivity|].
        split; [now apply (streamShape_finish job)|].
        rewrite Ee, Eb, El, Ec.
        repeat split; try tauto; try (intros; congruence);
          try (intros Hin'; destruct (Hnone _ Hin')).
      * exists job'. rewrite Hjid, lookup_insert_eq. split; [reflexivity|].
        split; [eapply streamShape_open_job; eassumption|].
        repeat split; try tauto; try (intros; congruence);
          try (intros Hin'; destruct (Hnone _ Hin'));
          try (intros _ Hcl Hbr; destruct Hout; now apply Hc).
    + assert (Hout : c ∉ StoryboardJob.clients job).
      { intros Hin. destruct (HC jobId job c Hjob Hin) as (s0 & Hs0 & Hjid0).
        congruence. }
      rewrite decide_False by exact Hout.
      exists j. rewrite lookup_insert_ne by congruence. now split.
  - intros id j c Hj Hin. rewrite finishWith_lookup, Hclients.
    destruct (decide (jobId = id)) as [->|Hne].
    + rewrite lookup_insert_eq in Hj. injection Hj as <-. destruct (Hnone _ Hin).
    + rewrite lookup_insert_ne in Hj by congruence.
      destruct (HC id j c Hj Hin) as (s & Hs & Hjid). rewrite Hs.
      eexists. split; [reflexivity|].
      rewrite decide_False; [exact Hjid|].
      intros Hin'. destruct (HC jobId job c Hjob Hin') as (s0 & Hs0 & Hjid0).
      congruence.
Qed.

Lemma streamShape_ext job s s' :
  Stream.written s' = Stream.written s -> Stream.ended s' = Stream.ended s ->
  streamShape job s -> streamShape job s'.
Proof.
  intros Hw He (snapshot & rest & Hwritten & Hp & Hrest).
  exists snapshot, rest. rewrite Hw, He. now repeat split.
Qed.

Lemma finishJobSuccess_finishWith now scenes job (streams : Streams) :
  exists job1,
    finishJobSuccess now scenes job streams
    = finishWith job1 JobEvent.completed (completedPayload job1 (length scenes)) streams /\
    StoryboardJob.projectId job1 = StoryboardJob.projectId job /\
    StoryboardJob.clients job1 = StoryboardJob.clients job /\
    StoryboardJob.status job1 <> JobStatus.running /\
    terminalItem (StoryboardJob.setClients ∅ job1)
    = Some (SseEvent JobEvent.completed (completedPayload job1 (length scenes))).
Proof. eexists. split; [reflexivity|]. repeat split. discriminate. Qed.

Lemma finishJobFailure_finishWith now error job (streams : Streams) :
  exists job1,
    finishJobFailure now error job streams
    = finishWith job1 JobEvent.failed (failedPayload job1) streams /\
    StoryboardJob.projectId job1 = StoryboardJob.projectId job /\
    StoryboardJob.clients job1 = StoryboardJob.clients job /\
    StoryboardJob.status job1 <> JobStatus.running /\
    terminalItem (StoryboardJob.setClients ∅ job1)
    = Some (SseEvent JobEvent.failed (failedPayload job1)).
Proof. eexists. split; [reflexivity|]. repeat split. discriminate. Qed.

Lemma step_streamsAgree (w w' : World) (label : Label) :
  serverInvariant w -> step w label w' -> streamsAgree (jobs w') (streams w').
Proof.
  intros [[HJ HR] [HS HC]] Hstep.
  destruct Hstep as
    [ w dt Hdt
    | w jobId userId projectId Hfresh
    | w jobId message job job' streams' Hpc Hjob Hop
    | w jobId scenes job job' streams' Hpc Hjob Hop
    | w jobId errorMessage job job' streams' Hpc Hjob Hop
    | w jobId job Hpc Hjob
    | w jobId job due Hjob Htimer Hdue
    | w client requestUser jobId reply Hfree Hsub
    | w client requestUser jobId job' raw Hfree Hsub
    | w requestUser jobId
    | w client s0 Hs0 Hlisten
    | w client s0 Hs0 Hclosed
    | w client s0 Hs0 ]; cbn [jobs streams]; try (now split).
  - (* start *) split.
    + intros c s Hs. destruct (HS c s Hs) as (j & Hj & Hagree).
      exists j. split; [|exact Hagree].
      rewrite lookup_insert_ne by congruence. exact Hj.
    + intros id j c Hj Hin. destruct (decide (jobId = id)) as [->|Hne].
      * rewrite lookup_insert_eq in Hj. injection Hj as <-.
        apply notifyJobProgress_job in Hin. set_solver.
      * rewrite lookup_insert_ne in Hj by congruence. now apply (HC id j c).
  - (* progress *)
    assert (Hrun : StoryboardJob.status job = JobStatus.running).
    { destruct (HJ _ _ Hjob) as [_ Hagree]. unfold taskAgrees in Hagree.
      rewrite Hpc in Hagree. tauto. }
    pose proof (streamsAgree_progress (jobs w) (streams w) jobId job (clock w)
                  message (conj HS HC) Hjob Hrun) as H.
    rewrite Hop in H. exact H.
  - (* returns *)
    assert (Hrun : StoryboardJob.status job = JobStatus.running).
    { destruct (HJ _ _ Hjob) as [_ Hagree]. unfold taskAgrees in Hagree.
      rewrite Hpc in Hagree. tauto. }
    destruct (finishJobSuccess_finishWith (clock w) scenes job (streams w))
      as (job1 & Heq & Hp & Hc & Ht & Hitem).
    pose proof (streamsAgree_finish (jobs w) (streams w) jobId job job1 _ _
                  (conj HS HC) Hjob Hrun Hp Hc Ht Hitem) as H.
    rewrite <- Heq, Hop in H. exact H.
  - (* throws *)
    assert (Hrun : StoryboardJob.status job = JobStatus.running).
    { destruct (HJ _ _ Hjob) as [_ Hagree]. unfold taskAgrees in Hagree.
      rewrite Hpc in Hagree. tauto. }
    destruct (finishJobFailure_finishWith (clock w) (jobFailureMessage errorMessage)
                job (streams w)) as (job1 & Heq & Hp & Hc & Ht & Hitem).
    pose proof (streamsAgree_finish (jobs w) (streams w) jobId job job1 _ _
                  (conj HS HC) Hjob Hrun Hp Hc Ht Hitem) as H.
    rewrite <- Heq, Hop in H. exact H.
  - (* persist settled *)
    assert (Hsame : sameOutcome job (scheduleJobCleanup (clock w) job))
      by (repeat split).
    split.
    + intros c s Hs. destruct (HS c s Hs) as (j & Hj & Hagree).
      destruct (decide (jobId = Stream.jobId s)) as [Heq|Hne].
      * rewrite <- Heq in *. rewrite lookup_insert_eq. eexists. split; [reflexivity|].
        replace j with job in * by congruence.
        eapply streamAgrees_job; [exact Hagree|exact Hsame|reflexivity].
      * exists j. rewrite lookup_insert_ne by congruence. now split.
    + intros id j c Hj Hin. destruct (decide (jobId = id)) as [->|Hne].
      * rewrite lookup_insert_eq in Hj. injection Hj as <-. now apply (HC id job c).
      * rewrite lookup_insert_ne in Hj by congruence. now apply (HC id j c).
  - (* subscription *)
    unfold subscribeJobEvents in Hsub.
    destruct requestUser as [user|]; [|discriminate].
    destruct (getJob w jobId) as [job|] eqn:Hget; [|discriminate].
    destruct (negb (canAccessJob user job)); [discriminate|].
    unfold getJob in Hget. destruct (decide (jobId ∈ storyboardJobs w)); [|discriminate].
    destruct (HJ _ _ Hget) as [Hid _].
    assert (Hnew : client ∉ StoryboardJob.clients job).
    { intros Hin. destruct (HC _ _ _ Hget Hin) as (s & Hs & _). congruence. }
    assert (Hjob' : sameOutcome job job' /\
                    (forall c, c <> client ->
                       (c ∈ StoryboardJob.clients job' <-> c ∈ StoryboardJob.clients job)) /\
                    Stream.jobId raw = jobId /\
                    streamAgrees job' client raw).
    { destruct (StoryboardJob.status job) eqn:Hst; injection Hsub as <- <-.
      - split; [repeat split|]. split; [intros c Hc; cbn; set_solver|].
        split; [exact Hid|]. split.
        + exists (snapshotPayload job), []. cbn. repeat split. constructor.
        + cbn. repeat split; try congruence; try tauto; intros; set_solver.
      - split; [repeat split|]. split; [tauto|]. split; [exact Hid|]. split.
        + eexists (snapshotPayload job), _. cbn. split; [reflexivity|].
          split; [reflexivity|]. eexists [], _. split; [reflexivity|].
          split; [constructor|]. unfold terminalItem. now rewrite Hst.
        + cbn. repeat split; try congruence; try tauto.
      - split; [repeat split|]. split; [tauto|]. split; [exact Hid|]. split.
        + eexists (snapshotPayload job), _. cbn. split; [reflexivity|].
          split; [reflexivity|]. eexists [], _. split; [reflexivity|].
          split; [constructor|]. unfold terminalItem. now rewrite Hst.
        + cbn. repeat split; try congruence; try tauto. }
    destruct Hjob' as (Hsame & Hclients & Hraw & Hagree').
    split.
    + intros c s Hs. destruct (decide (client = c)) as [->|Hne].
      * rewrite lookup_insert_eq in Hs. injection Hs as <-.
        exists job'. rewrite Hraw, lookup_insert_eq. now split.
      * rewrite lookup_insert_ne in Hs by congruence.
        destruct (HS c s Hs) as (j & Hj & Hagree).
        destruct (decide (jobId = Stream.jobId s)) as [Heq|Hne'].
        -- rewrite <- Heq in *. rewrite lookup_insert_eq. eexists. split; [reflexivity|].
           replace j with job in * by congruence.
           eapply streamAgrees_job; [exact Hagree|exact Hsame|].
           apply Hclients. congruence.
        -- exists j. rewrite lookup_insert_ne by congruence. now split.
    + intros id j c Hj Hin. destruct (decide (client = c)) as [->|Hne].
      * rewrite lookup_insert_eq. eexists. split; [reflexivity|].
        destruct (decide (jobId = id)) as [->|Hne']; [exact Hraw|].
        rewrite lookup_insert_ne in Hj by congruence.
        destruct (HC id j c Hj Hin) as (s & Hs & _). congruence.
      * rewrite lookup_insert_ne by congruence.
        destruct (decide (jobId = id)) as [->|Hne'].
        -- rewrite lookup_insert_eq in Hj. injection Hj as <-.
           apply (HC id job c Hget). apply Hclients; [congruence|exact Hin].
        -- rewrite lookup_insert_ne in Hj by congruence. now apply (HC id j c).
  - (* heartbeat *) split.
    + intros c s Hs. destruct (decide (client = c)) as [->|Hne].
      * rewrite lookup_insert_eq in Hs. injection Hs as <-.
        destruct (HS c s0 Hs0) as (j & Hj & Hagree).
        destruct (Stream.broken s0); [now exists j|].
        exists j. destruct (write_fields Ping s0) as (-> & _).
        split; [exact Hj|]. now apply streamAgrees_write.
      * rewrite lookup_insert_ne in Hs by congruence. now apply HS.
    + intros id j c Hj Hin. destruct (HC id j c Hj Hin) as (s & Hs & Hjid).
      destruct (decide (client = c)) as [->|Hne].
      * rewrite lookup_insert_eq. eexists. split; [reflexivity|].
        replace s with s0 in * by congruence.
        destruct (Stream.broken s0); [exact Hjid|].
        now destruct (write_fields Ping s0) as (-> & _).
      * rewrite lookup_insert_ne by congruence. now exists s.
  - (* close *)
    destruct (HS client s0 Hs0) as (j0 & Hj0 & (Hshape0 & Ha0 & Hb0 & Hc0 & Hd0)).
    split.
    + intros c s Hs. destruct (decide (client = c)) as [->|Hne].
      * rewrite lookup_insert_eq in Hs. injection Hs as <-. cbn [Stream.close Stream.jobId].
        destruct (Stream.listening s0) eqn:Hl.
        -- rewrite lookup_alter_eq, Hj0. eexists. split; [reflexivity|].
           split; [now apply (streamShape_ext _ s0)|].
           cbn. repeat split; try congruence; intros; set_solver.
        -- exists j0. split; [exact Hj0|].
           split; [now apply (streamShape_ext _ s0)|].
           cbn. repeat split; try congruence;
             try (intros; destruct Ha0 as [? ?]; [assumption|]; congruence).
      * rewrite lookup_insert_ne in Hs by congruence.
        destruct (HS c s Hs) as (j & Hj & Hagree).
        destruct (Stream.listening s0); [|now exists j].
        destruct (decide (Stream.jobId s0 = Stream.jobId s)) as [Heq|Hne'].
        -- rewrite <- Heq in *. rewrite lookup_alter_eq, Hj0. eexists.
           split; [reflexivity|]. replace j with j0 in * by congruence.
           eapply streamAgrees_job; [exact Hagree|repeat split|]. cbn. set_solver.
        -- exists j. rewrite lookup_alter_ne by congruence. now split.
    + intros id j c Hj Hin.
      assert (exists j1, jobs w !! id = Some j1 /\ c ∈ StoryboardJob.clients j1)
        as (j1 & Hj1 & Hin1).
      { destruct (Stream.listening s0); [|now exists j].
        destruct (decide (Stream.jobId s0 = id)) as [<-|Hne'].
        - rewrite lookup_alter_eq, Hj0 in Hj. injection Hj as <-.
          exists j0. split; [exact Hj0|]. cbn in Hin. set_solver.
        - rewrite lookup_alter_ne in Hj by congruence. now exists j. }
      destruct (HC id j1 c Hj1 Hin1) as (s & Hs & Hjid).
      destruct (decide (client = c)) as [->|Hne].
      * rewrite lookup_insert_eq. eexists. split; [reflexivity|].
        replace s with s0 in * by congruence. exact Hjid.
      * rewrite lookup_insert_ne by congruence. now exists s.
  - (* break *) split.
    + intros c s Hs. destruct (decide (client = c)) as [->|Hne].
      * rewrite lookup_insert_eq in Hs. injection Hs as <-.
        destruct (HS c s0 Hs0) as (j & Hj & (Hshape & Ha & Hb & Hc & Hd)).
        exists j. split; [exact Hj|].
        split; [now apply (streamShape_ext _ s0)|].
        cbn. repeat split; try congruence; try tauto; apply Ha; assumption.
      * rewrite lookup_insert_ne in Hs by congruence. now apply HS.
    + intros id j c Hj Hin. destruct (HC id j c Hj Hin) as (s & Hs & Hjid).
      destruct (decide (client = c)) as [->|Hne].
      * rewrite lookup_insert_eq. eexists. split; [reflexivity|].
        replace s with s0 in * by congruence. exact Hjid.
      * rewrite lookup_insert_ne by congruence. now exists s.
Qed.

Lemma step_serverInvariant (w w' : World) (label : Label) :
  serverInvariant w -> step w label w' -> serverInvariant w'.
Proof.
  intros Hinv Hstep. split.
  - eapply step_jobsInvariant; [apply Hinv|eassumption].
  - eapply step_streamsAgree; eassumption.
Qed.

Lemma reachable_serverInvariant (w : World) : reachable w -> serverInvariant w.
Proof.
  induction 1 as [|w label w' _ IH Hstep].
  - split; [apply reachable_jobsInvariant; constructor|].
    split; cbn; intros *; rewrite lookup_empty; discriminate.
  - eapply step_serverInvariant; eassumption.
Qed.

Lemma terminalCount_progress (items : list StreamItem) :
  Forall progressItem items -> terminalCount items = 0%nat.
Proof.
  unfold terminalCount. induction 1 as [|item items Hitem _ IH]; [reflexivity|].
  cbn. destruct item as [[] p|]; try discriminate Hitem; exact IH.
Qed.

Lemma terminalItem_isTerminal job item :
  terminalItem job = Some item -> isTerminal item = true.
Proof.
  unfold terminalItem. destruct (StoryboardJob.status job); intros [= <-]; reflexivity.
Qed.

Lemma terminalCount_served job snapshot body item :
  Forall progressItem body -> terminalItem job = Some item ->
  terminalCount (SseEvent JobEvent.progress snapshot :: body ++ [item]) = 1%nat.
Proof.
  intros Hbody Hitem. unfold terminalCount. cbn. rewrite List.filter_app, length_app.
  fold (terminalCount body). rewrite (terminalCount_progress body Hbody).
  cbn. now rewrite (terminalItem_isTerminal job item Hitem).
Qed.

Lemma terminalItem_carriesResult job item :
  resultPresent job -> terminalItem job = Some item -> carriesResult job item.
Proof.
  unfold resultPresent, terminalItem.
  destruct (StoryboardJob.status job); intros Hres [= <-]; cbn.
  - destruct Hres as [scenes Hscenes]. exists scenes. now rewrite Hscenes.
  - destruct Hres as (e & He & _). now exists e.
Qed.

Lemma jobsInvariant_resultPresent (w : World) jobId job :
  jobsInvariant w -> jobs w !! jobId = Some job -> resultPresent job.
Proof.
  intros [HJ _] Hjob. destruct (HJ _ _ Hjob) as [_ Hagree].
  unfold taskAgrees in Hagree.
  destruct (tasks w !! jobId) as [[]|]; [|tauto|tauto|tauto].
  unfold resultPresent. destruct Hagree as [-> _]. exact I.
Qed.

Lemma finishWith_delivers (w : World) (jobId : string) (job job1 : StoryboardJob.t)
    (event : JobEvent.t) (payload : SsePayload.t) (tasks' : gmap string TaskPc)
    (jobs' : gmap string StoryboardJob.t) :
  serverInvariant w ->
  tasks w !! jobId = Some Generating ->
  jobs w !! jobId = Some job ->
  StoryboardJob.clients job1 = StoryboardJob.clients job ->
  delivers w
    (mkWorld (clock w) jobs' (storyboardJobs w) tasks'
       (finishWith job1 event payload (streams w)).2)
    jobId (SseEvent event payload).
Proof.
  intros [[HJ _] [HS _]] Hpc Hjob Hclients client s Hs Hid Hclosed Hbroken.
  destruct (HS client s Hs) as (job0 & Hjob0 & Hshape & _ & _ & Hin & _).
  rewrite Hid, Hjob in Hjob0. injection Hjob0 as <-.
  destruct (HJ _ _ Hjob) as [_ Hagree]. unfold taskAgrees in Hagree.
  rewrite Hpc in Hagree. destruct Hagree as (Hrun & _).
  pose proof (streamShape_running_open job s Hshape Hrun) as Hopen.
  specialize (Hin Hrun Hclosed Hbroken).
  cbn [streams]. rewrite finishWith_lookup, Hs. cbn.
  rewrite Hclients, decide_True by exact Hin. rewrite Hbroken.
  eexists. split; [reflexivity|].
  unfold writeSseEvent, Stream.write. rewrite Hopen. cbn. now split.
Qed.

Lemma step_task_has_job (w w' : World) (label : Label) :
  (forall jobId, is_Some (tasks w !! jobId) -> is_Some (jobs w !! jobId)) ->
  step w label w' ->
  forall jobId, is_Some (tasks w' !! jobId) -> is_Some (jobs w' !! jobId).
Proof.
  intros H Hstep id.
  destruct Hstep as
    [ w dt Hdt
    | w jobId userId projectId Hfresh
    | w jobId message job job' streams' Hpc Hjob Hop
    | w jobId scenes job job' streams' Hpc Hjob Hop
    | w jobId errorMessage job job' streams' Hpc Hjob Hop
    | w jobId job Hpc Hjob
    | w jobId job due Hjob Htimer Hdue
    | w client requestUser jobId reply Hfree Hsub
    | w client requestUser jobId job' raw Hfree Hsub
    | w requestUser jobId
    | w client s Hs Hlisten
    | w client s Hs Hclosed
    | w client s Hs ];
    cbn [tasks jobs]; try exact (H id);
    try (destruct (decide (jobId = id)) as [->|Hne];
         [rewrite ?lookup_insert_eq; intros; eauto
         |rewrite ?lookup_insert_ne by congruence; exact (H id)]).
  - (* close *)
    destruct (Stream.listening s); [|exact (H id)].
    intros Htask. specialize (H id Htask).
    destruct (decide (id = Stream.jobId s)) as [->|Hne].
    + rewrite lookup_alter_eq. destruct H as [j ->]. now eexists.
    + now rewrite lookup_alter_ne by congruence.
Qed.

Lemma reachable_task_has_job (w : World) :
  reachable w ->
  forall jobId, is_Some (tasks w !! jobId) -> is_Some (jobs w !! jobId).
Proof.
  induction 1 as [|w label w' _ IH Hstep].
  - intros jobId [pc Hpc]. cbn in Hpc. now rewrite lookup_empty in Hpc.
  - eapply step_task_has_job; eassumption.
Qed.

(** C5.  In every state of the server, the stream of a subscriber starts
    with the snapshot; as long as the server has not ended it, it holds
    progress events only; when the server has ended it, it holds exactly
    one terminal event, the one of its job ([completed] with the scene
    count or [failed] with the error), as its last item; and a subscriber
    whose connection is neither closed nor broken has been served and
    ended as soon as its job is terminal.  Someone who subscribes to a job
    that is already terminal is written the snapshot and the terminal
    event, and the stream is ended.  And the terminal event is delivered:
    a background task that is generating can always return and can always
    throw; when it returns, its job is completed with the scenes returned
    and, in that very step, every subscriber of the job whose connection
    is neither closed nor broken is written the [completed] event with
    the number of scenes and its stream is ended; when it throws, the job
    is failed with the error and every such subscriber is written the
    [failed] event with the error and its stream is ended. *)
Theorem subscriber_terminal_event (w : World) :
  reachable w ->
  (forall client s,
     streams w !! client = Some s ->
     exists job snapshot rest,
       jobs w !! Stream.jobId s = Some job /\
       Stream.written s = SseEvent JobEvent.progress snapshot :: rest /\
       SsePayload.projectId snapshot = Some (StoryboardJob.projectId job) /\
       (Stream.ended s = false ->
        Forall progressItem rest /\ terminalCount (Stream.written s) = 0%nat) /\
       (Stream.ended s = true ->
        exists body t,
          rest = body ++ [t] /\ Forall progressItem body /\
          terminalItem job = Some t /\ carriesResult job t /\
          terminalCount (Stream.written s) = 1%nat) /\
       (StoryboardJob.status job <> JobStatus.running ->
        Stream.closed s = false -> Stream.broken s = false ->
        Stream.ended s = true)) /\
  (forall client user jobId job,
     getJob w jobId = Some job ->
     canAccessJob user job = true ->
     StoryboardJob.status job <> JobStatus.running ->
     exists t,
       terminalItem job = Some t /\ carriesResult job t /\
       subscribeJobEvents (Some user) (getJob w jobId) client
       = inr (job,
              Stream.mk jobId [SseEvent JobEvent.progress (snapshotPayload job); t]
                true false false false)) /\
  (forall jobId,
     tasks w !! jobId = Some Generating ->
     (forall scenes, exists w', step w (TaskReturns jobId scenes) w') /\
     (forall errorMessage, exists w', step w (TaskThrows jobId errorMessage) w')) /\
  (forall jobId scenes w',
     step w (TaskReturns jobId scenes) w' ->
     exists job',
       jobs w' !! jobId = Some job' /\
       StoryboardJob.status job' = JobStatus.completed /\
       StoryboardJob.scenes job' = Some scenes /\
       delivers w w' jobId
         (SseEvent JobEvent.completed (completedPayload job' (length scenes)))) /\
  (forall jobId errorMessage w',
     step w (TaskThrows jobId errorMessage) w' ->
     exists job',
       jobs w' !! jobId = Some job' /\
       StoryboardJob.status job' = JobStatus.failed /\
       StoryboardJob.error job' = Some (jobFailureMessage errorMessage) /\
       jobFailureMessage errorMessage <> "" /\
       delivers w w' jobId (SseEvent JobEvent.failed (failedPayload job'))).
Proof.
  intros Hw. pose proof (reachable_serverInvariant w Hw) as Hinv.
  destruct Hinv as [Hjobs [HS HC]].
  split; [|split; [|split; [|split]]].
  - intros client s Hs.
    destruct (HS client s Hs) as (job & Hjob & (Hshape & Ha & Hb & Hc & Hd)).
    destruct Hshape as (snapshot & rest & Hwritten & Hp & Hrest).
    exists job, snapshot, rest. do 3 (split; [assumption|]).
    split; [|split; [|exact Hd]].
    + intros Hopen. rewrite Hopen in Hrest. split; [exact Hrest|].
      rewrite Hwritten. apply terminalCount_progress. now constructor.
    + intros Hended. rewrite Hended in Hrest.
      destruct Hrest as (body & t & -> & Hbody & Ht).
      exists body, t. do 3 (split; [trivial|]). split.
      * apply terminalItem_carriesResult; [|exact Ht].
        eapply jobsInvariant_resultPresent; eassumption.
      * rewrite Hwritten. now apply (terminalCount_served job).
  - intros client user jobId job Hget Haccess Hterm.
    assert (Hjob : jobs w !! jobId = Some job).
    { unfold getJob in Hget. now destruct (decide (jobId ∈ storyboardJobs w)). }
    destruct Hjobs as [HJ HR]. destruct (HJ _ _ Hjob) as [Hid _].
    pose proof (jobsInvariant_resultPresent w jobId job (conj HJ HR) Hjob) as Hres.
    rewrite Hget. unfold subscribeJobEvents. rewrite Haccess. cbn [negb].
    unfold terminalItem.
    destruct (StoryboardJob.status job) eqn:Hst; [congruence| |].
    + eexists. split; [reflexivity|]. split.
      * apply terminalItem_carriesResult; [exact Hres|].
        unfold terminalItem. now rewrite Hst.
      * cbn. now rewrite Hid.
    + eexists. split; [reflexivity|]. split.
      * apply terminalItem_carriesResult; [exact Hres|].
        unfold terminalItem. now rewrite Hst.
      * cbn. now rewrite Hid.
  - intros jobId Hpc.
    assert (Hjob : exists job, jobs w !! jobId = Some job).
    { apply (reachable_task_has_job w Hw jobId). now rewrite Hpc. }
    destruct Hjob as [job Hjob]. split.
    + intros scenes. eexists.
      eapply (step_returns w jobId scenes job); [exact Hpc|exact Hjob|].
      apply surjective_pairing.
    + intros errorMessage. eexists.
      eapply (step_throws w jobId errorMessage job); [exact Hpc|exact Hjob|].
      apply surjective_pairing.
  - intros jobId scenes w' Hstep. inversion Hstep as
      [ | | |w0 jobId0 scenes0 job job' streams' Hpc Hjob Hop| | | | | | | | | ]; subst.
    set (job1 := StoryboardJob.mk (StoryboardJob.id job) (StoryboardJob.userId job)
                   (StoryboardJob.projectId job) JobStatus.completed
                   "Storyboard completo!" (StoryboardJob.createdAt job) (clock w)
                   (Some scenes) (StoryboardJob.error job) (StoryboardJob.clients job)
                   (StoryboardJob.cleanupTimer job)).
    change (finishJobSuccess (clock w) scenes job (streams w))
      with (finishWith job1 JobEvent.completed (completedPayload job1 (length scenes))
              (streams w)) in Hop.
    assert (Hjob' : job' = StoryboardJob.setClients ∅ job1)
      by (rewrite <- (finishWith_job job1 JobEvent.completed
                        (completedPayload job1 (length scenes)) (streams w)), Hop;
          reflexivity).
    assert (Hstreams : streams'
                       = (finishWith job1 JobEvent.completed
                            (completedPayload job1 (length scenes)) (streams w)).2)
      by (now rewrite Hop).
    exists job'. cbn [jobs]. rewrite lookup_insert_eq. subst job' streams'.
    split; [reflexivity|]. split; [reflexivity|]. split; [reflexivity|].
    change (completedPayload (StoryboardJob.setClients ∅ job1) (length scenes))
      with (completedPayload job1 (length scenes)).
    apply (finishWith_delivers w jobId job job1); auto. now split.
  - intros jobId errorMessage w' Hstep. inversion Hstep as
      [ | | | |w0 jobId0 errorMessage0 job job' streams' Hpc Hjob Hop| | | | | | | | ]; subst.
    set (job1 := StoryboardJob.mk (StoryboardJob.id job) (StoryboardJob.userId job)
                   (StoryboardJob.projectId job) JobStatus.failed
                   (jobFailureMessage errorMessage) (StoryboardJob.createdAt job)
                   (clock w) (StoryboardJob.scenes job)
                   (Some (jobFailureMessage errorMessage)) (StoryboardJob.clients job)
                   (StoryboardJob.cleanupTimer job)).
    change (finishJobFailure (clock w) (jobFailureMessage errorMessage) job (streams w))
      with (finishWith job1 JobEvent.failed (failedPayload job1) (streams w)) in Hop.
    assert (Hjob' : job' = StoryboardJob.setClients ∅ job1)
      by (rewrite <- (finishWith_job job1 JobEvent.failed (failedPayload job1)
                        (streams w)), Hop; reflexivity).
    assert (Hstreams : streams'
                       = (finishWith job1 JobEvent.failed (failedPayload job1)
                            (streams w)).2)
      by (now rewrite Hop).
    exists job'. cbn [jobs]. rewrite lookup_insert_eq. subst job' streams'.
    split; [reflexivity|]. split; [reflexivity|]. split; [reflexivity|].
    split.
    { pose proof (jobFailureMessage_truthy errorMessage) as H.
      now destruct (jobFailureMessage errorMessage). }
    change (failedPayload (StoryboardJob.setClients ∅ job1))
      with (failedPayload job1).
    apply (finishWith_delivers w jobId job job1); auto. now split.
Qed.

Lemma worldSubscribed_reachable : reachable worldSubscribed.
Proof.
  eapply reachable_step; [apply worldStarted_reachable|].
  eapply (step_subscribe worldStarted 1 (Some alice) "job-1").
  - apply lookup_empty.
  - vm_compute. reflexivity.
Qed.

Lemma worldServed_reachable : reachable worldServed.
Proof.
  eapply reachable_step; [apply worldSubscribed_reachable|].
  eapply (step_returns worldSubscribed "job-1" [sceneLasting 2%Q]).
  - vm_compute. reflexivity.
  - vm_compute. reflexivity.
  - reflexivity.
Qed.

Lemma subscriber_terminal_event_witness :
  exists w' s',
    step worldSubscribed (TaskThrows "job-1" (Some "quota")) w' /\
    streams w' !! 1%nat = Some s' /\
    Stream.ended s' = true /\
    exists payload,
      last (Stream.written s') = Some (SseEvent JobEvent.failed payload) /\
      SsePayload.error payload = Some "quota".
Proof.
  destruct (subscriber_terminal_event worldSubscribed worldSubscribed_reachable)
    as (_ & _ & Hcan & _ & Hthrows).
  destruct (Hcan "job-1") as [_ Hthrow]; [vm_compute; reflexivity|].
  destruct (Hthrow (Some "quota")) as [w' Hstep].
  destruct (Hthrows "job-1" (Some "quota") w' Hstep)
    as (job' & _ & _ & Herror & _ & Hdelivers).
  destruct (streams worldSubscribed !! 1%nat) as [s|] eqn:Hs;
    [|vm_compute in Hs; discriminate Hs].
  destruct (Hdelivers 1%nat s Hs) as (s' & Hs' & Hwritten & Hended).
  - vm_compute in Hs. now injection Hs as <-.
  - vm_compute in Hs. now injection Hs as <-.
  - vm_compute in Hs. now injection Hs as <-.
  - exists w', s'. split; [exact Hstep|]. split; [exact Hs'|]. split; [exact Hended|].
    exists (failedPayload job'). split.
    + rewrite Hwritten. apply last_snoc.
    + exact Herror.
Defined.

(** ** Storyboard generation *)

Lemma filterThrowing_returns {A} (f : A -> Outcome bool) (l : list A) :
  (forall x, In x l -> exists keep, f x = Returned keep) ->
  exists kept, filterThrowing f l = Returned kept.
Proof.
  induction l as [|x rest IH]; intros Hf; [now eexists|].
  destruct (Hf x (or_introl eq_refl)) as [keep Hkeep].
  destruct IH as [kept Hkept]; [intros y Hy; apply Hf; now right|].
  cbn. rewrite Hkeep, Hkept. now eexists.
Qed.

Lemma generateVisualDescriptionForScene_returns (ext : External.t) (index : nat)
    (narration : string) (allCharactersInfo : list CharacterInfo.t) (apiKey : string) :
  truthy apiKey = true ->
  (forall c, In c allCharactersInfo ->
     exists found, External.regExpTest ext (CharacterInfo.name c) narration
                   = Returned found) ->
  generateVisualDescriptionForScene ext index narration allCharactersInfo apiKey
  = Returned (describedAs ext index narration).
Proof.
  intros Hkey Hnames. unfold generateVisualDescriptionForScene, getAiClient.
  rewrite Hkey. cbn [mbind outcome_bind].
  match goal with
  | |- context [filterThrowing ?f allCharactersInfo] =>
      destruct (filterThrowing_returns f allCharactersInfo) as [kept ->]
  end.
  { intros c Hc. destruct (Hnames c Hc) as [found ->]. now eexists. }
  unfold describedAs.
  destruct (External.descriptionReply ext index) as [|[t|]]; reflexivity.
Qed.

(** The first character name whose pattern is rejected aborts the
    description, and nothing catches it. *)
Lemma generateVisualDescriptionForScene_throws (ext : External.t) (index : nat)
    (narration : string) (c : CharacterInfo.t) (others : list CharacterInfo.t)
    (apiKey message : string) :
  truthy apiKey = true ->
  External.regExpTest ext (CharacterInfo.name c) narration = Thrown message ->
  generateVisualDescriptionForScene ext index narration (c :: others) apiKey
  = Thrown message.
Proof.
  intros Hkey Hthrow. unfold generateVisualDescriptionForScene, getAiClient.
  rewrite Hkey. cbn. now rewrite Hthrow.
Qed.

Lemma enrichScenes_returns (ext : External.t) (args : GenerateArgs.t) (total : nat)
    (pending : list SceneWithoutVisuals.t) :
  descriptionsReachModel ext args pending ->
  forall i completeScenes progress,
    exists progress',
      enrichScenes ext args total i pending completeScenes progress
      = (progress',
         Returned (completeScenes
                   ++ imap (fun k => enrichedScene ext args (i + k)) pending)).
Proof.
  induction pending as [|scene rest IH]; intros [Hkey Hnames] i completeScenes progress.
  - exists progress. cbn. now rewrite app_nil_r.
  - cbn [enrichScenes].
    rewrite generateVisualDescriptionForScene_returns;
      [|exact Hkey|intros c Hc; apply Hnames; [exact Hc|now left]].
    set (visualDescription := describedAs ext i (SceneWithoutVisuals.narration scene)).
    assert (Hrest : descriptionsReachModel ext args rest).
    { split; [exact Hkey|]. intros c s Hc Hs. apply Hnames; [exact Hc|now right]. }
    assert (Hshift : imap (fun k => enrichedScene ext args (i + k)) (scene :: rest)
                     = enrichedScene ext args i scene
                       :: imap (fun k => enrichedScene ext args (i + 1 + k)) rest).
    { rewrite imap_cons, Nat.add_0_r. f_equal. apply imap_ext. intros k s _. cbn.
      f_equal. lia. }
    rewrite Hshift.
    assert (Hone : forall imageUrl,
              imageFor ext args i visualDescription = imageUrl ->
              completeScene scene visualDescription imageUrl
              = enrichedScene ext args i scene).
    { intros imageUrl <-. reflexivity. }
    unfold imageFor in Hone.
    destruct (generateImageForScene ext i visualDescription
                (GenerateArgs.characterReferences args)
                (GenerateArgs.allCharactersInfo args) (GenerateArgs.apiKey args))
      as [imageUrl|message];
      match goal with
      | |- context [enrichScenes ext args total (i + 1) rest ?acc ?p] =>
          destruct (IH Hrest (i + 1)%nat acc p) as [progress' ->]
      end;
      exists progress'; rewrite <- app_assoc, (Hone _ eq_refl); reflexivity.
Qed.

Lemma generateStoryboard_segmented (ext : External.t) (args : GenerateArgs.t)
    (scenes : list SceneWithoutVisuals.t) :
  External.mockMode ext = false ->
  segmentScenes ext args = Returned scenes ->
  scenes <> [] ->
  exists progress,
    generateStoryboard ext args
    = match enrichScenes ext args (length scenes) 0 scenes [] progress with
      | (progress', Returned completeScenes) =>
          (progress' ++ ["Storyboard completo!"], Returned completeScenes)
      | (progress', Thrown message) => (progress', Thrown message)
      end.
Proof.
  intros Hmock Hsegment Hne. unfold generateStoryboard, segmentScenes in *.
  rewrite Hmock. destruct (GenerateArgs.isSrt args); cbv beta iota in Hsegment;
    [injection Hsegment as Hsegment|]; rewrite Hsegment;
    (destruct scenes as [|scene rest]; [congruence|]);
    eexists; reflexivity.
Qed.

(** Outside the mock mode, when nothing fails before the description
    prompts are sent, the pipeline returns, for whatever the models answer: one scene per
    segmented scene, in order, each with the description and the image it
    could get. *)
Lemma generateStoryboard_returns (ext : External.t) (args : GenerateArgs.t)
    (scenes : list SceneWithoutVisuals.t) :
  External.mockMode ext = false ->
  segmentScenes ext args = Returned scenes ->
  scenes <> [] ->
  descriptionsReachModel ext args scenes ->
  exists progress,
    generateStoryboard ext args
    = (progress, Returned (imap (enrichedScene ext args) scenes)).
Proof.
  intros Hmock Hsegment Hne Hreach.
  destruct (generateStoryboard_segmented ext args scenes Hmock Hsegment Hne) as [p ->].
  destruct (enrichScenes_returns ext args (length scenes) scenes Hreach 0%nat [] p)
    as [progress' ->].
  eexists. reflexivity.
Qed.

(** When nothing fails before the description prompts are sent, a scene
    whose image cannot be generated gets the placeholder image, a scene
    whose description call is rejected gets the fallback description built
    from its narration, and in both cases the scene list is returned with
    one entry per segmented scene. *)
Lemma generateStoryboard_enrichment (ext : External.t) (args : GenerateArgs.t)
    (scenes : list SceneWithoutVisuals.t) :
  External.mockMode ext = false ->
  segmentScenes ext args = Returned scenes ->
  scenes <> [] ->
  descriptionsReachModel ext args scenes ->
  exists progress completeScenes,
    generateStoryboard ext args = (progress, Returned completeScenes) /\
    length completeScenes = length scenes /\
    forall i scene,
      scenes !! i = Some scene ->
      exists completed,
        completeScenes !! i = Some completed /\
        ((exists message,
            generateImageForScene ext i (Scene.visualDescription completed)
              (GenerateArgs.characterReferences args)
              (GenerateArgs.allCharactersInfo args) (GenerateArgs.apiKey args)
            = Thrown message) ->
         Scene.imageUrl completed = PLACEHOLDER_IMAGE_URL) /\
        (External.descriptionReply ext i = TextRejected ->
         Scene.visualDescription completed
         = fallbackDescription (SceneWithoutVisuals.narration scene)).
Proof.
  intros Hmock Hsegment Hne Hreach.
  destruct (generateStoryboard_returns ext args scenes Hmock Hsegment Hne Hreach)
    as [progress Hrun].
  exists progress, (imap (enrichedScene ext args) scenes).
  split; [exact Hrun|]. split; [apply length_imap|].
  intros i scene Hscene. exists (enrichedScene ext args i scene).
  split; [now rewrite list_lookup_imap, Hscene|]. split.
  - intros [message Hthrow]. cbn in *. unfold imageFor. now rewrite Hthrow.
  - intros Hrejected. cbn. unfold describedAs. now rewrite Hrejected.
Qed.

(** Two scenes, the second of which cannot be drawn. *)
Example generateStoryboard_sample :
  map (fun s => (Scene.sceneNumber s, Scene.narration s, Scene.duration s,
                 Scene.visualDescription s, String.length (Scene.imageUrl s)))
      (match (generateStoryboard sampleExternal (sampleArgs "Ana")).2 with
       | Returned completeScenes => completeScenes
       | Thrown _ => []
       end)
  = [(1%nat, "um dois tres quatro", "4 segundos", "Plano geral, luz suave.", 27%nat);
     (2%nat, "cinco seis sete oito", "2 segundos", "Plano geral, luz suave.",
      String.length PLACEHOLDER_IMAGE_URL)].
Proof. vm_compute. reflexivity. Qed.

(** C9, the defect.  Outside the mock mode, a character name whose
    pattern the engine rejects makes the description of the first scene
    throw before its [try]; the generation then throws the same error:
    there is no fallback description and no scene list. *)
Theorem description_failure_aborts (ext : External.t) (args : GenerateArgs.t)
    (scene : SceneWithoutVisuals.t) (rest : list SceneWithoutVisuals.t)
    (c : CharacterInfo.t) (others : list CharacterInfo.t) (message : string) :
  External.mockMode ext = false ->
  segmentScenes ext args = Returned (scene :: rest) ->
  truthy (GenerateArgs.apiKey args) = true ->
  GenerateArgs.allCharactersInfo args = c :: others ->
  External.regExpTest ext (CharacterInfo.name c) (SceneWithoutVisuals.narration scene)
  = Thrown message ->
  exists progress, generateStoryboard ext args = (progress, Thrown message).
Proof.
  intros Hmock Hsegment Hkey Hchars Hthrow.
  destruct (generateStoryboard_segmented ext args (scene :: rest) Hmock Hsegment)
    as [p ->]; [discriminate|].
  cbn [enrichScenes].
  rewrite Hchars,
    (generateVisualDescriptionForScene_throws ext 0 _ c others _ message Hkey Hthrow).
  eexists. reflexivity.
Qed.

Lemma description_failure_aborts_witness :
  exists progress,
    generateStoryboard sampleExternal (sampleArgs "C++")
    = (progress, Thrown "Invalid regular expression: /\bC++\b/i: Nothing to repeat").
Proof.
  destruct (parseAndGroupSrt scenarioB 10) as [|scene rest] eqn:Hscenes;
    [vm_compute in Hscenes; discriminate Hscenes|].
  apply (description_failure_aborts sampleExternal (sampleArgs "C++") scene rest
           (CharacterInfo.mk "C++" None None) []).
  - reflexivity.
  - unfold segmentScenes. cbn. now rewrite Hscenes.
  - reflexivity.
  - reflexivity.
  - reflexivity.
Defined.

(** C10, the defect at work.  The request of C9 (subtitles that segment
    into two scenes, a character named [C++], an API key, the mock mode
    off): the segmentation result is not empty, and yet the pipeline
    returns no scene list at all, where the claim has it return one
    completed scene per segmented scene; it throws what the pattern of the
    name throws. *)
Theorem segmented_scenes_not_returned :
  segmentScenes sampleExternal (sampleArgs "C++")
  = Returned (parseAndGroupSrt scenarioB 10) /\
  length (parseAndGroupSrt scenarioB 10) = 2%nat /\
  (generateStoryboard sampleExternal (sampleArgs "C++")).2
  = Thrown "Invalid regular expression: /\bC++\b/i: Nothing to repeat" /\
  forall progress completeScenes,
    generateStoryboard sampleExternal (sampleArgs "C++")
    <> (progress, Returned completeScenes).
Proof.
  split; [reflexivity|]. split; [vm_compute; reflexivity|].
  assert (Hrun : (generateStoryboard sampleExternal (sampleArgs "C++")).2
                 = Thrown "Invalid regular expression: /\bC++\b/i: Nothing to repeat")
    by (vm_compute; reflexivity).
  split; [exact Hrun|].
  intros progress completeScenes H. rewrite H in Hrun. discriminate Hrun.
Qed.

(** Without an API key the subtitles are still segmented (into two scenes
    here), and the first description throws what [getAiClient] throws;
    the endpoints refuse such a user before they call the pipeline. *)
Example missing_key_sample :
  segmentScenes sampleExternal (sampleArgsWith "Ana" "")
  = Returned (parseAndGroupSrt scenarioB 10) /\
  length (parseAndGroupSrt scenarioB 10) = 2%nat /\
  (generateStoryboard sampleExternal (sampleArgsWith "Ana" "")).2
  = Thrown "API Key não configurada para o usuário.".
Proof.
  split; [reflexivity|]. split; vm_compute; reflexivity.
Qed.

(** Where the defect does not strike, the claim C10 holds: outside the
    mock mode, for every non-empty segmentation result, when an API key
    is configured and the pattern of every character name is accepted,
    the pipeline returns exactly one completed scene per segmented scene,
    in the same order, and the scene of index [i] has the number, the
    narration, the displayed duration and the precise duration of the
    segmented scene of index [i]. *)
Lemma generateStoryboard_frame (ext : External.t) (args : GenerateArgs.t)
    (scenes : list SceneWithoutVisuals.t) :
  External.mockMode ext = false ->
  segmentScenes ext args = Returned scenes ->
  scenes <> [] ->
  descriptionsReachModel ext args scenes ->
  exists progress completeScenes,
    generateStoryboard ext args = (progress, Returned completeScenes) /\
    length completeScenes = length scenes /\
    forall i scene,
      scenes !! i = Some scene ->
      exists completed,
        completeScenes !! i = Some completed /\
        Scene.sceneNumber completed = SceneWithoutVisuals.sceneNumber scene /\
        Scene.narration completed = SceneWithoutVisuals.narration scene /\
        Scene.duration completed = SceneWithoutVisuals.duration scene /\
        Scene.durationSeconds completed = SceneWithoutVisuals.durationSeconds scene.
Proof.
  intros Hmock Hsegment Hne Hreach.
  destruct (generateStoryboard_returns ext args scenes Hmock Hsegment Hne Hreach)
    as [progress Hrun].
  exists progress, (imap (enrichedScene ext args) scenes).
  split; [exact Hrun|]. split; [apply length_imap|].
  intros i scene Hscene. exists (enrichedScene ext args i scene).
  split; [now rewrite list_lookup_imap, Hscene|]. now repeat split.
Qed.

Lemma generateStoryboard_frame_witness :
  exists progress completeScenes,
    generateStoryboard sampleExternal (sampleArgs "Ana")
    = (progress, Returned completeScenes) /\
    length completeScenes = 2%nat.
Proof.
  destruct (generateStoryboard_frame sampleExternal (sampleArgs "Ana")
              (parseAndGroupSrt scenarioB 10))
    as (progress & completeScenes & Hrun & Hlength & _).
  - reflexivity.
  - reflexivity.
  - intros H. vm_compute in H. discriminate H.
  - split; [reflexivity|]. intros c scene [<-|[]] _. eexists. reflexivity.
  - exists progress, completeScenes. split; [exact Hrun|].
    rewrite Hlength. vm_compute. reflexivity.
Defined.

(** ** The mock mode *)

(** In the mock mode the failure sentinel makes the generation throw,
    whatever the rest of the input. *)
Lemma generateStoryboard_sentinel (ext : External.t) (args : GenerateArgs.t) :
  External.mockMode ext = true ->
  includes "__MOCK_FAIL__" (GenerateArgs.scriptOrSrtContent args) = true ->
  generateStoryboard ext args
  = (["Modo mock ativo: iniciando geração simulada..."],
     Thrown "Falha simulada de geração (mock).").
Proof. intros Hmock Hfail. unfold generateStoryboard. now rewrite Hmock, Hfail. Qed.

(** In the mock mode the scenes come from the segmentation alone: one per
    segmented subtitle scene, with the mock image. *)
Lemma generateStoryboard_mock_srt (ext : External.t) (args : GenerateArgs.t) :
  External.mockMode ext = true ->
  includes "__MOCK_FAIL__" (GenerateArgs.scriptOrSrtContent args) = false ->
  GenerateArgs.isSrt args = true ->
  parseAndGroupSrt (GenerateArgs.scriptOrSrtContent args) (GenerateArgs.pacing args)
  <> [] ->
  exists completeScenes,
    (generateStoryboard ext args).2 = Returned completeScenes /\
    length completeScenes
    = length (parseAndGroupSrt (GenerateArgs.scriptOrSrtContent args)
                (GenerateArgs.pacing args)) /\
    Forall (fun scene => Scene.imageUrl scene = MOCK_IMAGE_URL) completeScenes.
Proof.
  intros Hmock Hfail Hsrt Hne. unfold generateStoryboard, buildMockScenes.
  rewrite Hmock, Hfail, Hsrt.
  destruct (parseAndGroupSrt _ _) as [|scene rest] eqn:Hscenes; [congruence|].
  cbn [length Nat.eqb]. eexists. split; [reflexivity|].
  split; [now rewrite length_imap|].
  apply Forall_forall. intros completed Hin.
  apply list_elem_of_lookup in Hin as [i Hi].
  rewrite list_lookup_imap in Hi.
  destruct ((scene :: rest) !! i); [|discriminate]. now injection Hi as <-.
Qed.

(** Scenario C: a job whose input holds the failure sentinel fails, and a
    poll is answered with a handled error status and the error text. *)
Example scenarioC_sentinel :
  exists message job' streams',
    (generateStoryboard mockExternal (scriptArgs "Era uma vez. __MOCK_FAIL__")).2
    = Thrown message /\
    finishJobFailure 5 (jobFailureMessage (Some message))
      (newJob 0 "job-1" "alice" "project-1") ∅ = (job', streams') /\
    getJobResult (Some alice) (Some job')
    = {| code := 400;
         body := FailedBody "project-1" JobStatus.failed
                   "Falha simulada de geração (mock)."
                   "Falha simulada de geração (mock)." 5 |}.
Proof.
  eexists _, _, _. split; [vm_compute; reflexivity|].
  split; [reflexivity|]. vm_compute. reflexivity.
Qed.

(** ** Parsed lines *)

Lemma chars_append (a b : string) : chars (a +:+ b) = chars a ++ chars b.
Proof.
  induction a as [|c r IH]; [reflexivity|].
  rewrite append_cons. unfold chars in *. cbn. now rewrite IH.
Qed.

Lemma isDigit_value (c : ascii) :
  isDigit c = true -> (0 <= Z.of_N (N_of_ascii c) - 48 <= 9)%Z.
Proof.
  unfold isDigit. intros [H1 H2]%andb_true_iff.
  apply N.leb_le in H1, H2. lia.
Qed.

Lemma digitsValue_nonneg (s : string) :
  forall acc, (0 <= acc)%Z -> (0 <= digitsValue acc s)%Z.
Proof.
  induction s as [|c r IH]; intros acc Hacc; simpl; [exact Hacc|].
  destruct (isDigit c) eqn:Hc; [|exact Hacc].
  apply IH. pose proof (isDigit_value c Hc). lia.
Qed.

Lemma parseInt_digits_nonneg (d : string) :
  allDigits d -> d <> "" -> exists v, parseInt d = Some v /\ (0 <= v)%Z.
Proof.
  intros Hd Hne. destruct d as [|c r]; [congruence|].
  assert (Hc : isDigit c = true) by (apply Hd; now left).
  exists (digitsValue 0 (String c r)).
  split; [|apply digitsValue_nonneg; lia].
  unfold parseInt. simpl trimStart.
  rewrite (isDigit_not_whitespace _ Hc).
  destruct c as [[] [] [] [] [] [] [] []]; try discriminate Hc; reflexivity.
Qed.

Lemma takeTimestamp_nonneg (s t rest : string) :
  takeTimestamp s = Some (t, rest) ->
  exists seconds, parseSrtTimestamp t = Some seconds /\ (0 <= seconds)%Q.
Proof.
  unfold takeTimestamp. intros H.
  destruct (takeDigits 2 s) as [[h s1]|] eqn:Hh; cbn -[takeDigits takeChar] in H; [|discriminate].
  destruct (takeChar ":" s1) as [s2|]; cbn -[takeDigits takeChar] in H; [|discriminate].
  destruct (takeDigits 2 s2) as [[m s3]|] eqn:Hm; cbn -[takeDigits takeChar] in H; [|discriminate].
  destruct (takeChar ":" s3) as [s4|]; cbn -[takeDigits takeChar] in H; [|discriminate].
  destruct (takeDigits 2 s4) as [[sec s5]|] eqn:Hs; cbn -[takeDigits takeChar] in H; [|discriminate].
  destruct (takeChar "," s5) as [s6|]; cbn -[takeDigits takeChar] in H; [|discriminate].
  destruct (takeDigits 3 s6) as [[ms s7]|] eqn:Hms; cbn -[takeDigits takeChar] in H; [|discriminate].
  injection H as <- <-.
  destruct (takeDigits_digits _ _ _ _ Hh) as [[Dh Nh]|]; [|discriminate].
  destruct (takeDigits_digits _ _ _ _ Hm) as [[Dm Nm]|]; [|discriminate].
  destruct (takeDigits_digits _ _ _ _ Hs) as [[Ds Ns]|]; [|discriminate].
  destruct (takeDigits_digits _ _ _ _ Hms) as [[Dms Nms]|]; [|discriminate].
  unfold parseSrtTimestamp.
  change (h +:+ ":" +:+ m +:+ ":" +:+ sec +:+ "," +:+ ms)
    with (h +:+ String ":" (m +:+ String ":" (sec +:+ String "," ms))).
  rewrite !splitOn_digits_sep, splitOn_digits by (assumption || reflexivity).
  cbn -[parseInt]. rewrite !append_empty_l.
  destruct (parseInt_digits_nonneg h Dh Nh) as (vh & -> & Ph).
  destruct (parseInt_digits_nonneg m Dm Nm) as (vm & -> & Pm).
  destruct (parseInt_digits_nonneg sec Ds Ns) as (vs & -> & Ps).
  destruct (parseInt_digits_nonneg ms Dms Nms) as (vms & -> & Pms).
  cbn. eexists. split; [reflexivity|].
  assert (Hnumber : forall z, (0 <= z)%Z -> (0 <= Binary64.round (inject_Z z))%Q).
  { intros z Hz. apply round_nonneg. unfold Qle; cbn; lia. }
  pose proof (Hnumber vh Ph). pose proof (Hnumber vm Pm).
  pose proof (Hnumber vs Ps). pose proof (Hnumber vms Pms).
  assert (0 <= Binary64.round (inject_Z vh) ⊗ 3600)%Q
    by (apply round_nonneg; lra).
  assert (0 <= Binary64.round (inject_Z vm) ⊗ 60)%Q
    by (apply round_nonneg; lra).
  assert (0 <= Binary64.round (inject_Z vms) ⊘ 1000)%Q
    by (apply round_nonneg, Qle_shift_div_l; lra).
  assert (0 <= Binary64.round (inject_Z vh) ⊗ 3600
               ⊕ Binary64.round (inject_Z vm) ⊗ 60)%Q
    by (apply round_nonneg; lra).
  assert (0 <= Binary64.round (inject_Z vh) ⊗ 3600
               ⊕ Binary64.round (inject_Z vm) ⊗ 60
               ⊕ Binary64.round (inject_Z vs))%Q
    by (apply round_nonneg; lra).
  apply round_nonneg. lra.
Qed.

Lemma matchTime_nonneg (s t1 t2 : string) :
  matchTime s = Some (t1, t2) ->
  exists startTime endTime,
    parseSrtTimestamp t1 = Some startTime /\ parseSrtTimestamp t2 = Some endTime /\
    (0 <= startTime)%Q /\ (0 <= endTime)%Q.
Proof.
  induction s as [|c r IH]; simpl; intros H.
  - destruct (matchTimeAt "") eqn:E; [discriminate E|discriminate H].
  - destruct (matchTimeAt (String c r)) as [p|] eqn:E; [|now apply IH].
    injection H as ->. unfold matchTimeAt in E.
    destruct (takeTimestamp (String c r)) as [[u1 s1]|] eqn:E1; cbn -[takeTimestamp takeChar trimStart] in E; [|discriminate].
    destruct (takeChar "-" (trimStart s1)) as [s2|]; cbn -[takeTimestamp takeChar trimStart] in E; [|discriminate].
    destruct (takeChar "-" s2) as [s3|]; cbn -[takeTimestamp takeChar trimStart] in E; [|discriminate].
    destruct (takeChar ">" s3) as [s4|]; cbn -[takeTimestamp takeChar trimStart] in E; [|discriminate].
    destruct (takeTimestamp (trimStart s4)) as [[u2 s5]|] eqn:E2; cbn -[takeTimestamp takeChar trimStart] in E; [|discriminate].
    injection E as <- <-.
    destruct (takeTimestamp_nonneg _ _ _ E1) as (a & Ha & Pa).
    destruct (takeTimestamp_nonneg _ _ _ E2) as (b & Hb & Pb).
    now exists a, b.
Qed.

(** A block whose second line holds a time line and whose text is not
    empty gives exactly one timed line: the two captured times always
    parse (they are never NaN), to numbers of seconds that are not
    negative. *)
Theorem parseBlock_accepts (block t1 t2 : string) :
  let lines := splitOn (Ascii.eqb "010") "" (trim block) in
  let text := stripTags false (trim (String.concat " " (drop 2 lines))) in
  lines !! 1%nat ≫= matchTime = Some (t1, t2) ->
  text <> "" ->
  exists startTime endTime,
    parseSrtTimestamp t1 = Some startTime /\
    parseSrtTimestamp t2 = Some endTime /\
    (0 <= startTime)%Q /\ (0 <= endTime)%Q /\
    parseBlock block = [TimedLine.mk startTime endTime text].
Proof.
  intros lines text Hmatch Htext.
  assert (Hlen : (length lines <? 2)%nat = false).
  { apply Nat.ltb_ge. destruct (lines !! 1%nat) as [l|] eqn:Hl; [|discriminate].
    apply lookup_lt_Some in Hl. lia. }
  destruct (lines !! 1%nat) as [line|] eqn:Hline; [|discriminate].
  cbn in Hmatch.
  destruct (matchTime_nonneg _ _ _ Hmatch) as (a & b & Ha & Hb & Pa & Pb).
  exists a, b. repeat split; try assumption.
  unfold parseBlock. fold lines. rewrite Hlen, Hline. cbn [mbind option_bind].
  rewrite Hmatch. fold text.
  destruct text; [congruence|]. cbn [truthy negb]. now rewrite Ha, Hb.
Qed.

Lemma parseBlock_accepts_witness :
  parseBlock ("7" +:+ LF +:+ "00:01:02,500 --> 00:01:04,000" +:+ LF +:+ "<i>Bom dia</i>")
  = [TimedLine.mk (literal 60 ⊕ literal 2 ⊕ literal 500 ⊘ 1000)%Q (literal 64) "Bom dia"].
Proof.
  destruct (parseBlock_accepts
              ("7" +:+ LF +:+ "00:01:02,500 --> 00:01:04,000" +:+ LF +:+ "<i>Bom dia</i>")
              "00:01:02,500" "00:01:04,000"
              ltac:(vm_compute; reflexivity) ltac:(vm_compute; discriminate))
    as (a & b & Ha & Hb & _ & _ & ->).
  vm_compute in Ha, Hb. injection Ha as <-. injection Hb as <-.
  vm_compute. reflexivity.
Defined.

(** ** What the scenes say *)

Lemma chars_concat (sep : string) (l : list string) (c : ascii) :
  In c (chars (String.concat sep l)) ->
  In c (chars sep) \/ exists x, In x l /\ In c (chars x).
Proof.
  induction l as [|x [|y r] IH]; intros Hin.
  - destruct Hin.
  - right. exists x. split; [now left|exact Hin].
  - change (String.concat sep (x :: y :: r))
      with (x +:+ sep +:+ String.concat sep (y :: r)) in Hin.
    rewrite !chars_append in Hin.
    apply in_app_or in Hin as [Hin|Hin]; [right; exists x; split; [now left|exact Hin]|].
    apply in_app_or in Hin as [Hin|Hin]; [now left|].
    destruct (IH Hin) as [H|(z & Hz & Hc)]; [now left|].
    right. exists z. split; [now right|exact Hc].
Qed.

Lemma concat_truthy (sep x : string) (l : list string) :
  x <> "" -> String.concat sep (x :: l) <> "".
Proof.
  intros Hx. destruct l as [|y r]; [exact Hx|].
  change (String.concat sep (x :: y :: r))
    with (x +:+ sep +:+ String.concat sep (y :: r)).
  destruct x; [congruence|]. rewrite append_cons. discriminate.
Qed.

Lemma stripTags_no_open (s : string) :
  forall inTag, ~ In "<"%char (chars (stripTags inTag s)).
Proof.
  induction s as [|c r IH]; intros inTag; simpl; [intros []|].
  destruct inTag; [apply IH|].
  destruct (Ascii.eqb c "<") eqn:Hc; [apply IH|].
  intros [->|Hin]; [discriminate Hc|]. now apply (IH false).
Qed.

(** The text of a parsed line is not empty and holds no tag opening. *)
Lemma parseTimedLines_texts (srtContent : string) :
  Forall (fun line =>
            TimedLine.text line <> "" /\
            ~ In "<"%char (chars (TimedLine.text line)))
         (parseTimedLines srtContent).
Proof.
  apply Forall_forall. intros line Hin%list_elem_of_In.
  unfold parseTimedLines in Hin. apply in_flat_map in Hin as (block & _ & Hin).
  unfold parseBlock in Hin.
  destruct (_ <? 2)%nat; [destruct Hin|].
  destruct (_ ≫= matchTime) as [[t1 t2]|]; [|destruct Hin].
  destruct (stripTags false _) as [|c r] eqn:Htext; [destruct Hin|].
  cbn [truthy negb] in Hin.
  destruct (parseSrtTimestamp t1) as [a|]; [|destruct Hin].
  destruct (parseSrtTimestamp t2) as [b|]; [|destruct Hin].
  destruct Hin as [<-|[]]. cbn [TimedLine.text]. split; [discriminate|].
  rewrite <- Htext. apply stripTags_no_open.
Qed.

(** The lines are cut into consecutive chunks that are not empty, one per
    scene, in order. *)
Lemma parseAndGroupSrt_chunks (srtContent : string) (maxWordsPerScene : Z) :
  exists chunks : list (list TimedLine.t),
    concat chunks = parseTimedLines srtContent /\
    map SceneWithoutVisuals.narration (parseAndGroupSrt srtContent maxWordsPerScene)
    = map joinTexts chunks /\
    Forall (fun chunk => chunk <> []) chunks.
Proof.
  unfold parseAndGroupSrt. set (timedLines := parseTimedLines srtContent).
  rewrite scenesOfGroups_narrations.
  destruct timedLines as [|first rest].
  - exists []. repeat split. constructor.
  - rewrite groupTimedLines_cons.
    destruct (fold_groupingStep_chunked maxWordsPerScene rest [first]
                (initialState first)) as (chunks & cur & Hd & Hn & Hc & Hall & Hb).
    { exists [], [first].
      split; [reflexivity|]. split; [reflexivity|]. split; [reflexivity|].
      split; [constructor|apply withinBudget_single]. }
    exists (chunks ++ [cur]). repeat split.
    + rewrite concat_app. simpl. rewrite app_nil_r. now rewrite <- Hd.
    + unfold closeGroups. rewrite !map_app, Hn. cbn. now rewrite Hc.
    + apply Forall_app. split.
      * eapply Forall_impl; [exact Hall|]. now intros chunk [Hne _].
      * constructor; [apply Hb|constructor].
Qed.

(** The narration of every scene is a text that is not empty and in which
    no tag opening is left: tags never reach a narration. *)
Theorem narration_without_tags (srtContent : string) (maxWordsPerScene : Z) :
  Forall (fun scene =>
            SceneWithoutVisuals.narration scene <> "" /\
            ~ In "<"%char (chars (SceneWithoutVisuals.narration scene)))
         (parseAndGroupSrt srtContent maxWordsPerScene).
Proof.
  destruct (parseAndGroupSrt_chunks srtContent maxWordsPerScene)
    as (chunks & Hcat & Hnarr & Hne).
  pose proof (parseTimedLines_texts srtContent) as Htexts.
  rewrite <- Hcat in Htexts.
  apply Forall_forall. intros scene Hin.
  assert (Hn : In (SceneWithoutVisuals.narration scene) (map joinTexts chunks)).
  { rewrite <- Hnarr. apply in_map. now apply list_elem_of_In. }
  apply in_map_iff in Hn as (chunk & <- & Hchunk).
  assert (Hlines : forall line, In line chunk ->
            TimedLine.text line <> "" /\
            ~ In "<"%char (chars (TimedLine.text line))).
  { intros line Hline. rewrite Forall_forall in Htexts. apply Htexts.
    apply list_elem_of_In, in_concat. now exists chunk. }
  split.
  - rewrite Forall_forall in Hne.
    specialize (Hne chunk ltac:(now apply list_elem_of_In)).
    destruct chunk as [|line rest]; [congruence|].
    apply concat_truthy, Hlines. now left.
  - intros Hopen. apply chars_concat in Hopen as [Hsep|(x & Hx & Hc)].
    + destruct Hsep as [Hsep|[]]. discriminate Hsep.
    + apply in_map_iff in Hx as (line & <- & Hline).
      now apply (Hlines line Hline).
Qed.

Lemma concat_app_sep (sep : string) (l1 l2 : list string) :
  l1 <> [] -> l2 <> [] ->
  String.concat sep (l1 ++ l2)
  = String.concat sep l1 +:+ sep +:+ String.concat sep l2.
Proof.
  induction l1 as [|x [|y r] IH]; intros H1 H2; [congruence| |].
  - destruct l2; [congruence|reflexivity].
  - change (String.concat sep ((x :: y :: r) ++ l2))
      with (x +:+ sep +:+ String.concat sep ((y :: r) ++ l2)).
    rewrite IH by (discriminate || assumption).
    change (String.concat sep (x :: y :: r))
      with (x +:+ sep +:+ String.concat sep (y :: r)).
    now rewrite !append_assoc.
Qed.

Lemma joinTexts_concat (chunks : list (list TimedLine.t)) :
  Forall (fun chunk => chunk <> []) chunks ->
  String.concat " " (map joinTexts chunks) = joinTexts (concat chunks).
Proof.
  induction 1 as [|chunk rest Hne Hall IH]; [reflexivity|].
  destruct rest as [|next rest].
  - cbn. now rewrite app_nil_r.
  - change (String.concat " " (map joinTexts (chunk :: next :: rest)))
      with (joinTexts chunk +:+ " "
            +:+ String.concat " " (map joinTexts (next :: rest))).
    rewrite IH. change (concat (chunk :: next :: rest))
      with (chunk ++ concat (next :: rest)).
    unfold joinTexts at 3. rewrite map_app. rewrite concat_app_sep; [reflexivity| |].
    + destruct chunk; [congruence|discriminate].
    + inversion Hall as [|? ? Hnext _]; subst.
      destruct next; [congruence|discriminate].
Qed.

(** No subtitle text is lost, repeated or reordered: the narrations of the
    scenes, joined by spaces, are the texts of the parsed lines joined by
    spaces. *)
Theorem narrations_keep_text (srtContent : string) (maxWordsPerScene : Z) :
  String.concat " "
    (map SceneWithoutVisuals.narration (parseAndGroupSrt srtContent maxWordsPerScene))
  = String.concat " " (map TimedLine.text (parseTimedLines srtContent)).
Proof.
  destruct (parseAndGroupSrt_chunks srtContent maxWordsPerScene)
    as (chunks & Hcat & Hnarr & Hne).
  rewrite Hnarr, joinTexts_concat by exact Hne. now rewrite Hcat.
Qed.

(** ** Where a scene ends *)

Lemma calm_snoc (chunk : list TimedLine.t) (final line : TimedLine.t) :
  calm chunk -> last chunk = Some final ->
  (pauseBetween final line <= MAX_PAUSE_SECONDS)%Q ->
  calm (chunk ++ [line]).
Proof.
  induction chunk as [|x [|y r] IH]; intros Hcalm Hlast Hpause.
  - discriminate.
  - injection Hlast as ->. cbn. tauto.
  - destruct Hcalm as [Hxy Hrest]. split; [exact Hxy|].
    apply IH; [exact Hrest| |exact Hpause].
    rewrite last_cons_cons in Hlast. exact Hlast.
Qed.

Lemma boundaries_grow maxWordsPerScene (chunks : list (list TimedLine.t))
    (cur more : list TimedLine.t) :
  cur <> [] ->
  boundaries maxWordsPerScene (chunks ++ [cur]) ->
  boundaries maxWordsPerScene (chunks ++ [cur ++ more]).
Proof.
  intros Hne. induction chunks as [|x [|y r] IH]; intros H.
  - cbn. tauto.
  - destruct H as [(next & Hhead & Hsplit) _]. split; [|cbn; tauto].
    exists next. split; [|exact Hsplit].
    destruct cur; [congruence|exact Hhead].
  - destruct H as [Hxy Hrest]. split; [exact Hxy|]. now apply IH.
Qed.

Lemma boundaries_close maxWordsPerScene (chunks : list (list TimedLine.t))
    (cur : list TimedLine.t) (line : TimedLine.t) :
  boundaries maxWordsPerScene (chunks ++ [cur]) ->
  mustSplit maxWordsPerScene cur line ->
  boundaries maxWordsPerScene ((chunks ++ [cur]) ++ [[line]]).
Proof.
  intros H Hsplit. induction chunks as [|x [|y r] IH].
  - cbn. split; [|tauto]. now exists line.
  - destruct H as [Hx _]. split; [exact Hx|]. split; [|cbn; tauto]. now exists line.
  - destruct H as [Hxy Hrest]. split; [exact Hxy|]. now apply IH.
Qed.

Lemma last_snoc_line (chunk : list TimedLine.t) (line : TimedLine.t) :
  last (chunk ++ [line]) = Some line.
Proof. apply last_snoc. Qed.

Lemma groupingStep_paced maxWordsPerScene done st line :
  paced maxWordsPerScene done st ->
  paced maxWordsPerScene (done ++ [line]) (groupingStep maxWordsPerScene st line).
Proof.
  intros (chunks & cur & final & Hdone & Hnarr & Hcur & Hlast & Hend & Hall & Hcalm & Hb).
  assert (Hne : cur <> []) by (intros ->; discriminate Hlast).
  unfold groupingStep.
  destruct (Qgtb _ _ || _) eqn:Hsplit.
  - exists (chunks ++ [cur]), [line], line.
    cbn [sceneGroups currentSceneNarration lastLineEndTime].
    split; [rewrite concat_app; simpl; now rewrite app_nil_r, Hdone|].
    split; [rewrite !map_app, Hnarr, Hcur; reflexivity|].
    split; [reflexivity|]. split; [reflexivity|]. split; [reflexivity|].
    split; [apply Forall_app; split; [exact Hall|now constructor]|].
    split; [cbn; tauto|].
    apply boundaries_close; [exact Hb|].
    apply orb_true_iff in Hsplit as [Hpause|Hwords].
    + left. exists final. split; [exact Hlast|].
      apply Qgtb_true in Hpause. unfold pauseBetween. now rewrite <- Hend.
    + right. rewrite <- Hcur. rewrite Z.gtb_ltb in Hwords.
      now apply Z.ltb_lt in Hwords.
  - exists chunks, (cur ++ [line]), line.
    cbn [sceneGroups currentSceneNarration lastLineEndTime].
    apply orb_false_iff in Hsplit as [Hpause _].
    split; [rewrite Hdone; now rewrite app_assoc|].
    split; [exact Hnarr|].
    split; [rewrite Hcur; symmetry; now apply joinTexts_snoc|].
    split; [apply last_snoc_line|]. split; [reflexivity|].
    split; [exact Hall|].
    split.
    + apply (calm_snoc cur final line Hcalm Hlast).
      apply Qgtb_false in Hpause. unfold pauseBetween. now rewrite <- Hend.
    + now apply boundaries_grow.
Qed.

Lemma fold_groupingStep_paced maxWordsPerScene rest :
  forall done st,
    paced maxWordsPerScene done st ->
    paced maxWordsPerScene (done ++ rest)
      (fold_left (groupingStep maxWordsPerScene) rest st).
Proof.
  induction rest as [|line rest IH]; intros done st H; simpl.
  - now rewrite app_nil_r.
  - replace (done ++ line :: rest) with ((done ++ [line]) ++ rest)
      by (now rewrite <- app_assoc).
    apply IH. now apply groupingStep_paced.
Qed.

(** The grouping is greedy on both rules.  The lines are cut into
    consecutive chunks, one per scene: inside a chunk no two consecutive
    lines are more than 1.5 s apart, and a chunk ends only where the loop
    had to end it, because the next line comes after a silence of more
    than 1.5 s or would take the words of the chunk over the budget.  The
    silence is the one the loop measures: the start of a line minus the
    end of the line before, in binary64. *)
Theorem scene_pause_rule (srtContent : string) (maxWordsPerScene : Z) :
  exists chunks : list (list TimedLine.t),
    concat chunks = parseTimedLines srtContent /\
    map SceneWithoutVisuals.narration (parseAndGroupSrt srtContent maxWordsPerScene)
    = map joinTexts chunks /\
    Forall calm chunks /\
    boundaries maxWordsPerScene chunks.
Proof.
  unfold parseAndGroupSrt. set (timedLines := parseTimedLines srtContent).
  rewrite scenesOfGroups_narrations.
  destruct timedLines as [|first rest].
  - exists []. repeat split. constructor.
  - rewrite groupTimedLines_cons.
    destruct (fold_groupingStep_paced maxWordsPerScene rest [first]
                (initialState first))
      as (chunks & cur & final & Hd & Hn & Hc & _ & _ & Hall & Hcalm & Hb).
    { exists [], [first], first. cbn. repeat split; auto. }
    exists (chunks ++ [cur]).
    split; [rewrite concat_app; simpl; rewrite app_nil_r; now rewrite <- Hd|].
    split; [unfold closeGroups; rewrite !map_app, Hn; cbn; now rewrite Hc|].
    split; [apply Forall_app; split; [exact Hall|now constructor]|exact Hb].
Qed.

(** A silence of 1.5 s by the time stamps, from 3 ms to 1503 ms: the two
    times are rounded when parsed, the loop measures the double just above
    1.5, and it splits. *)
Example pause_of_one_and_a_half_seconds :
  (exists first second,
      parseTimedLines exactPauseSrt = [first; second] /\
      (MAX_PAUSE_SECONDS < pauseBetween first second)%Q /\
      (pauseBetween first second == 3 / 2 + Binary64.pow2 (-52))%Q) /\
  map SceneWithoutVisuals.narration (parseAndGroupSrt exactPauseSrt 10)
  = ["um dois"; "tres quatro"].
Proof.
  split; [|vm_compute; reflexivity].
  eexists _, _. split; [vm_compute; reflexivity|].
  split; vm_compute; reflexivity.
Qed.

(** ** Characters that a text lacks *)

Lemma lacks_cons (c a : ascii) (r : string) :
  lacks c (String a r) <-> a <> c /\ lacks c r.
Proof. unfold lacks, chars. cbn. tauto. Qed.

Lemma lacks_append (c : ascii) (a b : string) :
  lacks c (a +:+ b) <-> lacks c a /\ lacks c b.
Proof.
  unfold lacks. rewrite chars_append. split.
  - intros H. split; intros Hin; apply H, in_or_app; tauto.
  - intros [Ha Hb] [Hin|Hin]%in_app_or; tauto.
Qed.

Lemma lacks_trimStart (c : ascii) (s : string) : lacks c s -> lacks c (trimStart s).
Proof.
  induction s as [|a r IH]; intros H; simpl; [exact H|].
  destruct (isWhitespace a); [|exact H]. apply IH. now apply lacks_cons in H.
Qed.

Lemma lacks_trimEnd (c : ascii) (s : string) : lacks c s -> lacks c (trimEnd s).
Proof.
  induction s as [|a r IH]; intros H; simpl; [exact H|].
  apply lacks_cons in H as [Ha Hr]. specialize (IH Hr).
  destruct (trimEnd r) as [|b t].
  - destruct (isWhitespace a); [intros []|]. apply lacks_cons. split; [exact Ha|intros []].
  - apply lacks_cons. now split.
Qed.

Lemma lacks_trim (c : ascii) (s : string) : lacks c s -> lacks c (trim s).
Proof. intros H. now apply lacks_trimEnd, lacks_trimStart. Qed.

Lemma replaceCrLf_cons (a b : ascii) (r : string) :
  replaceCrLf (String a (String b r))
  = if Ascii.eqb a "013" && Ascii.eqb b "010"
    then String "010" (replaceCrLf r)
    else String a (replaceCrLf (String b r)).
Proof. reflexivity. Qed.

Lemma lacks_replaceCrLf (c : ascii) (s : string) :
  lacks c s -> lacks c (replaceCrLf s).
Proof.
  assert (H : forall n s, (String.length s <= n)%nat ->
                          lacks c s -> lacks c (replaceCrLf s)).
  { clear s. induction n as [|n IH]; intros s Hlen Hs.
    - destruct s; [exact Hs|cbn in Hlen; lia].
    - destruct s as [|a [|b r]]; [exact Hs|exact Hs|].
      rewrite replaceCrLf_cons. cbn in Hlen.
      apply lacks_cons in Hs as [Ha Hr].
      destruct (Ascii.eqb a "013" && Ascii.eqb b "010") eqn:Hpair.
      + apply andb_true_iff in Hpair as [_ Hlf%Ascii.eqb_eq]. subst b.
        apply lacks_cons in Hr as [Hb Hr]. apply lacks_cons. split; [exact Hb|].
        apply IH; [lia|exact Hr].
      + apply lacks_cons. split; [exact Ha|]. apply IH; [cbn; lia|exact Hr]. }
  now apply (H (String.length s)).
Qed.

Lemma lacks_splitBlankLines (c : ascii) (s : string) :
  c <> "010"%char ->
  forall cur nl, lacks c cur -> lacks c s ->
    Forall (lacks c) (splitBlankLines cur nl s).
Proof.
  intros Hc. induction s as [|a r IH]; intros cur nl Hcur Hs; simpl.
  - destruct nl as [|[|nl]]; repeat constructor; try exact Hcur.
    apply lacks_append. split; [exact Hcur|].
    apply lacks_cons. split; [congruence|intros []].
  - apply lacks_cons in Hs as [Ha Hr].
    destruct (Ascii.eqb a "010").
    + destruct nl as [|[|nl]]; [now apply IH| |now apply IH].
      constructor; [exact Hcur|]. apply IH; [intros []|exact Hr].
    + destruct nl as [|[|nl]]; apply IH; try exact Hr;
        apply lacks_append; (split; [exact Hcur|]);
        repeat (apply lacks_cons; split; [congruence|]); intros [].
Qed.

Lemma lacks_splitOn (c : ascii) (isSep : ascii -> bool) (s : string) :
  forall cur, lacks c cur -> lacks c s -> Forall (lacks c) (splitOn isSep cur s).
Proof.
  induction s as [|a r IH]; intros cur Hcur Hs; simpl.
  - now repeat constructor.
  - apply lacks_cons in Hs as [Ha Hr]. destruct (isSep a).
    + constructor; [exact Hcur|]. apply IH; [intros []|exact Hr].
    + apply IH; [|exact Hr]. apply lacks_append. split; [exact Hcur|].
      apply lacks_cons. split; [exact Ha|intros []].
Qed.

Lemma lacks_takeDigits (c : ascii) (n : nat) :
  forall s d rest, takeDigits n s = Some (d, rest) -> lacks c s -> lacks c rest.
Proof.
  induction n as [|n IH]; intros s d rest H Hs; simpl in H.
  - now injection H as <- <-.
  - destruct s as [|a r]; [discriminate|]. destruct (isDigit a); [|discriminate].
    destruct (takeDigits n r) as [[d' rest']|] eqn:Hr; simpl in H; [|discriminate].
    injection H as <- <-. apply (IH _ _ _ Hr). now apply lacks_cons in Hs.
Qed.

Lemma lacks_takeChar (c a : ascii) (s rest : string) :
  takeChar a s = Some rest -> lacks c s -> lacks c rest.
Proof.
  destruct s as [|b r]; simpl; [discriminate|].
  destruct (Ascii.eqb a b); [|discriminate]. intros [= <-] H.
  now apply lacks_cons in H.
Qed.

Lemma lacks_takeTimestamp (c : ascii) (s t rest : string) :
  takeTimestamp s = Some (t, rest) -> lacks c s -> lacks c rest.
Proof.
  unfold takeTimestamp. intros H Hs.
  destruct (takeDigits 2 s) as [[h s1]|] eqn:Hh; cbn -[takeDigits takeChar] in H; [|discriminate].
  destruct (takeChar ":" s1) as [s2|] eqn:H1; cbn -[takeDigits takeChar] in H; [|discriminate].
  destruct (takeDigits 2 s2) as [[m s3]|] eqn:Hm; cbn -[takeDigits takeChar] in H; [|discriminate].
  destruct (takeChar ":" s3) as [s4|] eqn:H2; cbn -[takeDigits takeChar] in H; [|discriminate].
  destruct (takeDigits 2 s4) as [[sec s5]|] eqn:Hsec; cbn -[takeDigits takeChar] in H; [|discriminate].
  destruct (takeChar "," s5) as [s6|] eqn:H3; cbn -[takeDigits takeChar] in H; [|discriminate].
  destruct (takeDigits 3 s6) as [[ms s7]|] eqn:Hms; cbn -[takeDigits takeChar] in H; [|discriminate].
  injection H as <- <-.
  eapply lacks_takeDigits; [exact Hms|]. eapply lacks_takeChar; [exact H3|].
  eapply lacks_takeDigits; [exact Hsec|]. eapply lacks_takeChar; [exact H2|].
  eapply lacks_takeDigits; [exact Hm|]. eapply lacks_takeChar; [exact H1|].
  eapply lacks_takeDigits; [exact Hh|exact Hs].
Qed.

(** A line without [>] holds no time line. *)
Lemma matchTime_needs_arrow (s : string) : lacks ">" s -> matchTime s = None.
Proof.
  assert (Hat : forall s, lacks ">" s -> matchTimeAt s = None).
  { clear s. intros s Hs. unfold matchTimeAt.
    destruct (takeTimestamp s) as [[t1 s1]|] eqn:E1; cbn -[takeTimestamp takeChar trimStart]; [|reflexivity].
    destruct (takeChar "-" (trimStart s1)) as [s2|] eqn:E2; cbn -[takeTimestamp takeChar trimStart]; [|reflexivity].
    destruct (takeChar "-" s2) as [s3|] eqn:E3; cbn -[takeTimestamp takeChar trimStart]; [|reflexivity].
    destruct (takeChar ">" s3) as [s4|] eqn:E4; cbn -[takeTimestamp takeChar trimStart]; [|reflexivity].
    exfalso.
    assert (H3 : lacks ">" s3).
    { eapply lacks_takeChar; [exact E3|]. eapply lacks_takeChar; [exact E2|].
      apply lacks_trimStart. eapply lacks_takeTimestamp; [exact E1|exact Hs]. }
    destruct s3 as [|b r]; cbn [takeChar] in E4; [discriminate E4|].
    destruct (Ascii.eqb ">" b) eqn:Hb; [|discriminate E4].
    apply Ascii.eqb_eq in Hb. subst b. apply lacks_cons in H3 as [Hne _]. congruence. }
  induction s as [|a r IH]; intros Hs; [reflexivity|].
  cbn [matchTime]. rewrite (Hat _ Hs). apply IH. now apply lacks_cons in Hs.
Qed.

Lemma parseBlock_needs_arrow (block : string) :
  lacks ">" block -> parseBlock block = [].
Proof.
  intros Hb. unfold parseBlock.
  destruct (_ <? 2)%nat; [reflexivity|].
  destruct (splitOn _ "" (trim block) !! 1%nat) as [line|] eqn:Hline; [|reflexivity].
  cbn [mbind option_bind]. rewrite matchTime_needs_arrow; [reflexivity|].
  assert (Hall : Forall (lacks ">") (splitOn (Ascii.eqb "010") "" (trim block))).
  { apply lacks_splitOn; [intros []|now apply lacks_trim]. }
  rewrite Forall_lookup in Hall. exact (Hall _ _ Hline).
Qed.

(** A text without any [>] holds no subtitle at all. *)
Lemma parseTimedLines_needs_arrow (srtContent : string) :
  lacks ">" srtContent -> parseTimedLines srtContent = [].
Proof.
  intros Hs. unfold parseTimedLines.
  assert (Hall : Forall (lacks ">")
                   (splitBlankLines "" 0 (replaceCrLf (trim srtContent)))).
  { apply lacks_splitBlankLines; [discriminate|intros []|].
    now apply lacks_replaceCrLf, lacks_trim. }
  induction Hall as [|block rest Hblock _ IH]; [reflexivity|].
  cbn [flat_map]. now rewrite parseBlock_needs_arrow, IH.
Qed.

(** A subtitle input in which no time line can be found (here: a text
    without any [>], such as a plain script uploaded as subtitles) makes
    the generation fail with the message of the empty segmentation, before
    any model is called and whatever the API key. *)
Theorem subtitles_without_arrow_fail (ext : External.t) (args : GenerateArgs.t) :
  External.mockMode ext = false ->
  GenerateArgs.isSrt args = true ->
  lacks ">" (GenerateArgs.scriptOrSrtContent args) ->
  generateStoryboard ext args
  = (["Processando e agrupando cenas do arquivo .SRT com ritmo ajustado..."],
     Thrown "Nenhuma cena válida foi encontrada no arquivo .SRT. Verifique o formato do arquivo.").
Proof.
  intros Hmock Hsrt Hlacks. unfold generateStoryboard, parseAndGroupSrt.
  rewrite Hmock, Hsrt, (parseTimedLines_needs_arrow _ Hlacks). reflexivity.
Qed.

Lemma subtitles_without_arrow_fail_witness :
  (generateStoryboard sampleExternal
     (sampleArgsWithContent "Era uma vez um gato." "")).2
  = Thrown "Nenhuma cena válida foi encontrada no arquivo .SRT. Verifique o formato do arquivo.".
Proof.
  rewrite (subtitles_without_arrow_fail sampleExternal
             (sampleArgsWithContent "Era uma vez um gato." "")).
  - reflexivity.
  - reflexivity.
  - reflexivity.
  - unfold lacks. vm_compute. intuition discriminate.
Defined.

(** ** Line ends *)

Lemma toCrLf_empty (s : string) : toCrLf s = "" -> s = "".
Proof. destruct s as [|c r]; [reflexivity|]. simpl. destruct (Ascii.eqb c "010"); discriminate. Qed.

Lemma trimStart_toCrLf (s : string) : trimStart (toCrLf s) = toCrLf (trimStart s).
Proof.
  induction s as [|c r IH]; [reflexivity|].
  cbn [toCrLf]. destruct (Ascii.eqb c "010") eqn:Hc.
  - apply Ascii.eqb_eq in Hc. subst c. exact IH.
  - cbn [trimStart]. destruct (isWhitespace c); [exact IH|].
    cbn [toCrLf]. now rewrite Hc.
Qed.

Lemma trimEnd_toCrLf (s : string) : trimEnd (toCrLf s) = toCrLf (trimEnd s).
Proof.
  induction s as [|c r IH]; [reflexivity|].
  cbn [toCrLf trimEnd]. destruct (Ascii.eqb c "010") eqn:Hc.
  - apply Ascii.eqb_eq in Hc. subst c. cbn [trimEnd]. rewrite IH.
    destruct (trimEnd r) as [|b t] eqn:Hr; [reflexivity|].
    destruct (toCrLf (String b t)) eqn:Ht; [apply toCrLf_empty in Ht; discriminate Ht|].
    rewrite <- Ht. reflexivity.
  - cbn [trimEnd]. rewrite IH.
    destruct (trimEnd r) as [|b t] eqn:Hr.
    + cbn [toCrLf]. destruct (isWhitespace c); [reflexivity|].
      cbn [toCrLf]. now rewrite Hc.
    + destruct (toCrLf (String b t)) eqn:Ht; [apply toCrLf_empty in Ht; discriminate Ht|].
      rewrite <- Ht. cbn [toCrLf]. now rewrite Hc.
Qed.

Lemma replaceCrLf_toCrLf (s : string) :
  lacks "013" s -> replaceCrLf (toCrLf s) = s.
Proof.
  induction s as [|c r IH]; intros Hs; [reflexivity|].
  apply lacks_cons in Hs as [Hc Hr]. specialize (IH Hr).
  cbn [toCrLf]. destruct (Ascii.eqb c "010") eqn:Hlf.
  - apply Ascii.eqb_eq in Hlf. subst c. rewrite replaceCrLf_cons. cbn. now rewrite IH.
  - destruct (toCrLf r) as [|b t] eqn:Ht.
    + apply toCrLf_empty in Ht. now subst r.
    + rewrite replaceCrLf_cons, IH.
      destruct (Ascii.eqb c "013") eqn:Hcr; [apply Ascii.eqb_eq in Hcr; congruence|].
      reflexivity.
Qed.

Lemma replaceCrLf_without (s : string) : lacks "013" s -> replaceCrLf s = s.
Proof.
  assert (H : forall n s, (String.length s <= n)%nat ->
                          lacks "013" s -> replaceCrLf s = s).
  { clear s. induction n as [|n IH]; intros s Hlen Hs.
    - destruct s; [reflexivity|cbn in Hlen; lia].
    - destruct s as [|a [|b r]]; [reflexivity|reflexivity|].
      rewrite replaceCrLf_cons. cbn in Hlen.
      apply lacks_cons in Hs as [Ha Hr].
      destruct (Ascii.eqb a "013") eqn:Hcr; [apply Ascii.eqb_eq in Hcr; congruence|].
      cbn [andb]. rewrite IH; [reflexivity|cbn; lia|exact Hr]. }
  now apply (H (String.length s)).
Qed.

(** Line ends do not matter: a subtitle text written with line feeds and
    the same text written with carriage return, line feed give the same
    scenes. *)
Theorem line_ends_do_not_matter (srtContent : string) (maxWordsPerScene : Z) :
  lacks "013" srtContent ->
  parseAndGroupSrt (toCrLf srtContent) maxWordsPerScene
  = parseAndGroupSrt srtContent maxWordsPerScene.
Proof.
  intros Hs. unfold parseAndGroupSrt, parseTimedLines. f_equal. f_equal. f_equal. f_equal.
  unfold trim. rewrite trimStart_toCrLf, trimEnd_toCrLf.
  rewrite replaceCrLf_toCrLf, replaceCrLf_without; [reflexivity| |];
    now apply lacks_trimEnd, lacks_trimStart.
Qed.

Lemma line_ends_do_not_matter_witness :
  parseAndGroupSrt (toCrLf scenarioB) 10 = parseAndGroupSrt scenarioB 10.
Proof.
  apply line_ends_do_not_matter. unfold lacks. vm_compute. intuition discriminate.
Defined.

(** ** Whatever the models answer *)

Lemma prefix_append (p x : string) : String.prefix p (p +:+ x) = true.
Proof.
  induction p as [|a p IH]; [now destruct x|].
  rewrite append_cons. cbn. destruct (Ascii.ascii_dec a a); [exact IH|congruence].
Qed.

Lemma generateImageForScene_dataUrl (ext : External.t) (index : nat)
    (visualDescription : string) (characterReferences : list CharacterReference.t)
    (allCharactersInfo : list CharacterInfo.t) (apiKey imageUrl : string) :
  generateImageForScene ext index visualDescription characterReferences
    allCharactersInfo apiKey = Returned imageUrl ->
  isDataUrl imageUrl = true.
Proof.
  unfold generateImageForScene, getAiClient, mbind, outcome_bind.
  destruct (truthy apiKey); [|discriminate].
  destruct (filterThrowing _ characterReferences) as [relevant|]; [|discriminate].
  destruct (filterThrowing _ allCharactersInfo) as [traits|]; [|discriminate].
  destruct (length relevant =? 0)%nat.
  - destruct (External.imagenBytes ext index) as [[bytes|]|]; try discriminate.
    destruct (truthy bytes); [|discriminate]. intros [= <-].
    change "data:image/jpeg;base64," with ("data:" +:+ "image/jpeg;base64,").
    rewrite append_assoc. apply prefix_append.
  - destruct (External.referencedImage ext index) as [[[[mime data]|] text]|];
      try discriminate. intros [= <-]. apply prefix_append.
Qed.

Lemma Forall2_imap {A B} (P : A -> B -> Prop) (l : list A) :
  forall f : nat -> A -> B, (forall i x, P x (f i x)) -> Forall2 P l (imap f l).
Proof.
  induction l as [|x l IH]; intros f H; cbn; constructor; [apply H|].
  apply IH. intros i y. apply H.
Qed.

Lemma enrichScenes_shape (ext : External.t) (args : GenerateArgs.t) (total : nat)
    (pending : list SceneWithoutVisuals.t) :
  forall i completeScenes progress progress' scenes,
    enrichScenes ext args total i pending completeScenes progress
    = (progress', Returned scenes) ->
    exists added,
      scenes = completeScenes ++ added /\
      Forall2 (fun scene completed =>
                 sameTimingAndText scene completed /\
                 isDataUrl (Scene.imageUrl completed) = true)
              pending added.
Proof.
  induction pending as [|scene rest IH]; intros i acc p p' scenes H.
  - cbn in H. injection H as _ <-. exists []. split; [now rewrite app_nil_r|constructor].
  - cbn [enrichScenes] in H.
    destruct (generateVisualDescriptionForScene _ _ _ _ _) as [description|];
      [|discriminate].
    destruct (generateImageForScene ext i description _ _ _) as [url|] eqn:Himage.
    + apply IH in H as (added & -> & Hall).
      exists (completeScene scene description url :: added).
      split; [now rewrite <- app_assoc|]. constructor; [|exact Hall].
      split; [now repeat split|]. eapply generateImageForScene_dataUrl, Himage.
    + apply IH in H as (added & -> & Hall).
      exists (completeScene scene description PLACEHOLDER_IMAGE_URL :: added).
      split; [now rewrite <- app_assoc|]. constructor; [|exact Hall].
      split; [now repeat split|reflexivity].
Qed.

(** The scenes a generation returns are the scenes it started from, one
    for one and in order. *)
Lemma generateStoryboard_sources (ext : External.t) (args : GenerateArgs.t)
    (progress : list string) (scenes : list Scene.t) :
  generateStoryboard ext args = (progress, Returned scenes) ->
  exists source,
    sourceScenes ext args = Returned source /\ source <> [] /\
    Forall2 (fun scene completed =>
               sameTimingAndText scene completed /\
               isDataUrl (Scene.imageUrl completed) = true)
            source scenes.
Proof.
  unfold generateStoryboard, sourceScenes, segmentScenes, mockSourceScenes, buildMockScenes.
  destruct (External.mockMode ext).
  - destruct (includes _ _); [discriminate|].
    set (source := if GenerateArgs.isSrt args then _ else _).
    destruct source as [|scene rest] eqn:Hsource; [discriminate|].
    cbn [length Nat.eqb]. intros [= _ <-].
    eexists. split; [reflexivity|]. split; [discriminate|].
    constructor; [split; [now repeat split|reflexivity]|].
    apply Forall2_imap. intros i s. split; [now repeat split|reflexivity].
  - set (segmented := if GenerateArgs.isSrt args then _ else _).
    assert (Hseg : exists p0 outcome, segmented = (p0, outcome) /\
              outcome = (if GenerateArgs.isSrt args
                         then Returned (parseAndGroupSrt (GenerateArgs.scriptOrSrtContent args)
                                          (GenerateArgs.pacing args))
                         else splitScriptIntoScenesWithAI ext (GenerateArgs.apiKey args))).
    { unfold segmented. destruct (GenerateArgs.isSrt args); eexists _, _; split; reflexivity. }
    destruct Hseg as (p0 & outcome & -> & Houtcome). rewrite <- Houtcome.
    destruct outcome as [source|]; [|discriminate].
    destruct source as [|scene rest]; [cbn [length Nat.eqb]; discriminate|].
    cbn [length Nat.eqb].
    destruct (enrichScenes _ _ _ _ _ _ _) as [p' [completed|]] eqn:Hloop; [|discriminate].
    intros [= _ <-].
    apply enrichScenes_shape in Hloop as (added & -> & Hall).
    eexists. split; [reflexivity|]. split; [discriminate|exact Hall].
Qed.

(** Whatever the models answer and in either mode, a generation that
    returns gives at least one scene, exactly one per scene it started
    from and in the same order, with the number, the narration and both
    durations of that scene, and with an image that is given inline (a
    [data:] URL: generated, placeholder or mock), never a remote one. *)
Theorem generateStoryboard_result (ext : External.t) (args : GenerateArgs.t)
    (progress : list string) (scenes : list Scene.t) :
  generateStoryboard ext args = (progress, Returned scenes) ->
  scenes <> [] /\
  exists source,
    sourceScenes ext args = Returned source /\
    Forall2 (fun scene completed =>
               sameTimingAndText scene completed /\
               isDataUrl (Scene.imageUrl completed) = true)
            source scenes.
Proof.
  intros Hrun.
  destruct (generateStoryboard_sources ext args progress scenes Hrun)
    as (source & Hsource & Hne & Hall).
  split; [|now exists source].
  intros ->. inversion Hall. congruence.
Qed.

Lemma generateStoryboard_result_witness :
  exists scenes,
    (generateStoryboard sampleExternal (sampleArgs "Ana")).2 = Returned scenes /\
    scenes <> [].
Proof.
  destruct (generateStoryboard sampleExternal (sampleArgs "Ana"))
    as [progress [scenes|message]] eqn:Hrun;
    [|vm_compute in Hrun; discriminate Hrun].
  exists scenes. split; [reflexivity|].
  apply (generateStoryboard_result sampleExternal (sampleArgs "Ana") progress scenes Hrun).
Defined.

(** ** Scenes of a plain script *)

Lemma imap_seq_numbers {A B} (number : B -> nat) (l : list A) :
  forall (f : nat -> A -> B) start,
    (forall i x, number (f i x) = (start + i + 1)%nat) ->
    map number (imap f l) = seq (start + 1) (length l).
Proof.
  induction l as [|x l IH]; intros f start H; [reflexivity|].
  cbn. rewrite H, Nat.add_0_r. f_equal.
  rewrite (IH (f ∘ S) (S start)); [reflexivity|].
  intros i y. cbn. rewrite H. lia.
Qed.

Lemma mathRound_near (x : Q) :
  (x - (1 # 2) < inject_Z (mathRound x))%Q /\ (inject_Z (mathRound x) <= x + (1 # 2))%Q.
Proof.
  unfold mathRound. split.
  - pose proof (Qlt_floor (x + (1 # 2))) as H.
    rewrite inject_Z_plus in H. change (inject_Z 1) with 1%Q in H. lra.
  - apply Qfloor_le.
Qed.

(** The scenes of a plain script.  When the segmentation of a script
    returns, the API key is not empty and the list is not empty; the
    scenes carry the narrations of the model in order, numbered from 1;
    and every scene lasts a whole number of seconds, at least one, that is
    within half a second of its words read at 150 words a minute whenever
    that is more than a second, the displayed duration being that same
    number. *)
Theorem splitScript_scenes (ext : External.t) (apiKey : string)
    (scenes : list SceneWithoutVisuals.t) :
  splitScriptIntoScenesWithAI ext apiKey = Returned scenes ->
  apiKey <> "" /\ scenes <> [] /\
  exists narrations,
    External.scriptScenes ext = Returned narrations /\
    map SceneWithoutVisuals.narration scenes = narrations /\
    map SceneWithoutVisuals.sceneNumber scenes = seq 1 (length narrations) /\
    Forall (fun scene =>
              let words := inject_Z (Z.of_nat (wordCount (trim (SceneWithoutVisuals.narration scene)))) in
              exists seconds : Z,
                (1 <= seconds)%Z /\
                SceneWithoutVisuals.durationSeconds scene = inject_Z seconds /\
                SceneWithoutVisuals.duration scene = displayDuration seconds /\
                (words / 2.5 - (1 # 2) < inject_Z seconds)%Q /\
                (inject_Z seconds <= Qmax 1 (words / 2.5 + (1 # 2)))%Q)
           scenes.
Proof.
  unfold splitScriptIntoScenesWithAI, getAiClient, mbind, outcome_bind.
  destruct apiKey as [|k key]; [discriminate|]. cbn [truthy].
  destruct (External.scriptScenes ext) as [narrations|]; [|discriminate].
  destruct (length narrations =? 0)%nat eqn:Hlen; [discriminate|].
  apply Nat.eqb_neq in Hlen.
  set (f := fun (index : nat) (narration : string) => _).
  intros H. assert (Hscenes : scenes = imap f narrations) by congruence.
  clear H. subst scenes.
  split; [discriminate|].
  split; [destruct narrations; [cbn in Hlen; lia|discriminate]|].
  exists narrations. split; [reflexivity|].
  split; [|split].
  - apply list_eq. intros i. rewrite list_lookup_fmap, list_lookup_imap.
    now destruct (narrations !! i).
  - apply (imap_seq_numbers SceneWithoutVisuals.sceneNumber narrations f 0).
    intros i x. reflexivity.
  - apply Forall_forall. intros scene Hin.
    apply list_elem_of_lookup in Hin as [i Hi]. rewrite list_lookup_imap in Hi.
    destruct (narrations !! i) as [narration|]; [|discriminate].
    injection Hi as <-. cbn.
    set (x := (inject_Z (Z.of_nat (wordCount (trim narration))) / (150 / 60))%Q).
    exists (Z.max 1 (mathRound x)).
    split; [lia|]. split; [reflexivity|]. split; [reflexivity|].
    assert (Hx : (inject_Z (Z.of_nat (wordCount (trim narration))) / 2.5 == x)%Q).
    { unfold x. field. }
    rewrite Hx. destruct (mathRound_near x) as [Hlow Hhigh].
    destruct (Z.max_spec 1 (mathRound x)) as [[Hlt ->]|[Hle ->]].
    + split; [exact Hlow|]. eapply Qle_trans; [exact Hhigh|]. apply Q.le_max_r.
    + split; [|apply Q.le_max_l].
      eapply Qlt_le_trans; [exact Hlow|]. rewrite <- Zle_Qle. exact Hle.
Qed.

Lemma splitScript_scenes_witness :
  map SceneWithoutVisuals.narration
    (match splitScriptIntoScenesWithAI scriptedExternal "sample-key" with
     | Returned scenes => scenes
     | Thrown _ => []
     end)
  = ["Era uma vez um gato."; "Ele dormia ao sol."].
Proof.
  destruct (splitScriptIntoScenesWithAI scriptedExternal "sample-key")
    as [scenes|message] eqn:Hsplit; [|vm_compute in Hsplit; discriminate Hsplit].
  destruct (splitScript_scenes scriptedExternal "sample-key" scenes Hsplit)
    as (_ & _ & narrations & Hmodel & Hnarr & _).
  rewrite Hnarr. vm_compute in Hmodel. now injection Hmodel as <-.
Defined.

(** ** The mock mode on a plain script *)

Lemma splitScriptIntoMockScenes_scenes (script : string) :
  trim script <> "" ->
  exists narrations,
    narrations <> [] /\ (length narrations <= 4)%nat /\
    Forall (fun narration => narration <> "") narrations /\
    splitScriptIntoMockScenes script
    = imap (fun index narration =>
              {| SceneWithoutVisuals.sceneNumber := index + 1;
                 SceneWithoutVisuals.narration := narration;
                 SceneWithoutVisuals.duration := "2 segundos";
                 SceneWithoutVisuals.durationSeconds := 2;
                 SceneWithoutVisuals.visualDescription :=
                   "Mock visual da cena " +:+ pretty (index + 1)%nat +:+ ": "
                   +:+ String.substring 0 80 narration |})
           narrations.
Proof.
  intros Hvisible. unfold splitScriptIntoMockScenes.
  set (parts := List.filter truthy _).
  assert (Hparts : Forall (fun narration => narration <> "") parts).
  { apply Forall_forall. intros x Hx%list_elem_of_In.
    apply filter_In in Hx as [_ Hx]. now destruct x. }
  destruct parts as [|part rest] eqn:Hp.
  - cbn [length Nat.ltb Nat.leb].
    destruct (trim script) as [|c r] eqn:Ht; [congruence|].
    cbn [List.filter truthy length Nat.eqb].
    eexists. split; [|split; [|split; [|reflexivity]]];
      [discriminate|cbn; lia|repeat constructor; discriminate].
  - cbn [length Nat.ltb Nat.leb].
    assert (Htake : take 4 (part :: rest) <> []) by discriminate.
    destruct (take 4 (part :: rest)) as [|x xs] eqn:Hk; [congruence|].
    cbn [length Nat.eqb].
    exists (x :: xs). split; [discriminate|].
    split; [rewrite <- Hk, length_take; lia|].
    split; [|reflexivity].
    rewrite <- Hk. now apply Forall_take.
Qed.

(** In the mock mode, a plain script that holds some visible text and not
    the failure sentinel always gives between one and four scenes of two
    seconds, each with a narration that is not empty and with the mock
    image. *)
Theorem mock_script_generation (ext : External.t) (args : GenerateArgs.t) :
  External.mockMode ext = true ->
  GenerateArgs.isSrt args = false ->
  includes "__MOCK_FAIL__" (GenerateArgs.scriptOrSrtContent args) = false ->
  trim (GenerateArgs.scriptOrSrtContent args) <> "" ->
  exists progress scenes,
    generateStoryboard ext args = (progress, Returned scenes) /\
    (1 <= length scenes <= 4)%nat /\
    Forall (fun scene =>
              Scene.narration scene <> "" /\
              Scene.durationSeconds scene = 2%Q /\
              Scene.imageUrl scene = MOCK_IMAGE_URL)
           scenes.
Proof.
  intros Hmock Hscript Hfail Hvisible.
  destruct (splitScriptIntoMockScenes_scenes _ Hvisible)
    as (narrations & Hne & Hlen & Hall & Hsplit).
  unfold generateStoryboard, buildMockScenes.
  rewrite Hmock, Hfail, Hscript, Hsplit, length_imap.
  destruct narrations as [|first rest] eqn:Hn; [congruence|].
  rewrite <- Hn in *. replace (length narrations =? 0)%nat with false
    by (subst narrations; reflexivity).
  eexists _, _. split; [reflexivity|].
  rewrite !length_imap. split; [subst narrations; cbn in *; lia|].
  apply Forall_forall. intros scene Hin.
  apply list_elem_of_lookup in Hin as [i Hi].
  rewrite !list_lookup_imap in Hi.
  destruct (narrations !! i) as [narration|] eqn:Hi'; [|discriminate].
  injection Hi as <-. cbn. split; [|now split].
  rewrite Forall_lookup in Hall. exact (Hall _ _ Hi').
Qed.

Lemma mock_script_generation_witness :
  exists progress scenes,
    generateStoryboard mockExternal (scriptArgs "Era uma vez. Um gato dormia!")
    = (progress, Returned scenes) /\
    (1 <= length scenes <= 4)%nat.
Proof.
  destruct (mock_script_generation mockExternal
              (scriptArgs "Era uma vez. Um gato dormia!"))
    as (progress & scenes & Hrun & Hlen & _).
  - reflexivity.
  - reflexivity.
  - vm_compute. reflexivity.
  - vm_compute. discriminate.
  - now exists progress, scenes.
Defined.

(** ** Accounts and API keys *)

(** An account that is banned or expired never generates anything: with a
    verified token and a well-formed body, each of the three generation
    endpoints answers 403, whatever the mode, the API key and the models,
    and no job is created. *)
Theorem refused_accounts_never_generate (ext : External.t) (mockMode : bool)
    (call : nat) (now : Z) (jobId : string) (requestUser : RequestUser.t)
    (payload : GenerateArgs.t) (regeneration : RegenerateArgs.t)
    (start : StartPayload.t) (row : UserRow.t) (project : option ProjectRow.t)
    (projectRecord : Outcome ProjectRow.t) :
  refusedStatus (UserRow.status row) ->
  postGenerate ext (Some requestUser) (Returned payload) (Some row)
  = SentError 403 "Conta sem permissão para gerar conteúdo." /\
  postRegenerateImage ext call (Some requestUser) (Returned regeneration) (Some row)
  = SentError 403 "Conta sem permissão para gerar conteúdo." /\
  postGenerateStart mockMode now jobId (Some requestUser) (Returned start) (Some row)
    project projectRecord
  = SentError 403 "Conta sem permissão para gerar conteúdo.".
Proof.
  intros Hstatus.
  assert (Hcheck : forall mode,
            getUserForGemini mode (Some row)
            = SentError 403 "Conta sem permissão para gerar conteúdo.").
  { intros mode. unfold getUserForGemini. destruct Hstatus as [-> | ->]; reflexivity. }
  unfold postGenerate, postRegenerateImage, postGenerateStart.
  now rewrite !Hcheck.
Qed.

Lemma refused_accounts_never_generate_witness :
  postGenerateStart true 0 "job-1" (Some alice) (Returned sampleStart)
    (Some (aliceRow "EXPIRED" (Some sampleKey))) None
    (Returned (ProjectRow.mk "project-1" "alice"))
  = SentError 403 "Conta sem permissão para gerar conteúdo.".
Proof.
  apply (refused_accounts_never_generate sampleExternal true 0 0 "job-1" alice
           (sampleArgs "Ana")
           (RegenerateArgs.mk "Plano geral." [] [] "aquarela" "")
           sampleStart (aliceRow "EXPIRED" (Some sampleKey)) None
           (Returned (ProjectRow.mk "project-1" "alice"))).
  now right.
Defined.

(** An account that passes the check has a usable API key: the row handed
    to the generation carries a key that is not empty, which [getAiClient]
    accepts; the account is neither banned nor expired; and outside the
    mock mode the row is the stored one. *)
Theorem accepted_user_has_key (mockMode : bool) (user : option UserRow.t)
    (accepted : UserRow.t) :
  getUserForGemini mockMode user = Sent accepted ->
  exists (row : UserRow.t) (key : string),
    user = Some row /\
    UserRow.googleApiKey accepted = Some key /\ key <> "" /\
    getAiClient key = Returned tt /\
    ~ refusedStatus (UserRow.status row) /\
    UserRow.id accepted = UserRow.id row /\
    (mockMode = false -> accepted = row).
Proof.
  unfold getUserForGemini. destruct user as [row|]; [|discriminate].
  destruct (String.eqb (UserRow.status row) "BANNED") eqn:Hb; [discriminate|].
  destruct (String.eqb (UserRow.status row) "EXPIRED") eqn:He; [discriminate|].
  cbn [orb].
  assert (Hstatus : ~ refusedStatus (UserRow.status row)).
  { intros [H|H]; rewrite H in *; discriminate. }
  destruct mockMode.
  - intros [= <-]. cbn [UserRow.withGoogleApiKey UserRow.googleApiKey UserRow.id].
    destruct (UserRow.googleApiKey row) as [[|c k]|]; cbn;
      eexists row, _; (split; [reflexivity|]); (split; [reflexivity|]);
      repeat split; try discriminate; assumption.
  - destruct (UserRow.googleApiKey row) as [[|c k]|] eqn:Hkey; cbn; try discriminate.
    intros [= <-]. exists row, (String c k).
    repeat split; try assumption; discriminate.
Qed.

Lemma accepted_user_has_key_witness :
  exists key,
    UserRow.googleApiKey (aliceRow "ACTIVE" (Some sampleKey)) = Some key /\ key <> "".
Proof.
  destruct (accepted_user_has_key false (Some (aliceRow "ACTIVE" (Some sampleKey)))
              (aliceRow "ACTIVE" (Some sampleKey)) eq_refl)
    as (row & key & Hrow & Hkey & Hne & _).
  now exists key.
Defined.

(** A job that a start request sets up is owned by the caller, who can
    therefore read it; it is running; its generation gets an API key that
    is not empty; when the request names a project, the caller owns that
    project or is an administrator; and the job is the one the transition
    [Start] registers, once its task has sent its first progress
    message. *)
Theorem started_job_owned (mockMode : bool) (now : Z) (jobId : string)
    (requestUser : RequestUser.t) (payload : StartPayload.t)
    (user : option UserRow.t) (project : option ProjectRow.t)
    (projectRecord : Outcome ProjectRow.t) (started : StartedJob.t) :
  postGenerateStart mockMode now jobId (Some requestUser) (Returned payload)
    user project projectRecord = Sent started ->
  let job := StartedJob.job started in
  StoryboardJob.userId job = RequestUser.id requestUser /\
  canAccessJob requestUser job = true /\
  StoryboardJob.status job = JobStatus.running /\
  GenerateArgs.apiKey (StartedJob.args started) <> "" /\
  (truthyOption (StartPayload.projectId payload) = true ->
   exists row, project = Some row /\
     (ProjectRow.userId row = RequestUser.id requestUser \/
      RequestUser.role requestUser = "ADMIN")) /\
  (notifyJobProgress now "Preparando geração do storyboard..." job ∅).1
  = newJob now jobId (RequestUser.id requestUser) (StoryboardJob.projectId job).
Proof.
  unfold postGenerateStart.
  destruct (getUserForGemini mockMode user) as [accepted|] eqn:Huser; [|discriminate].
  destruct (accepted_user_has_key _ _ _ Huser) as (row & key & _ & Hkey & Hne & _).
  assert (Hlaunch : forall started',
            match projectRecord with
            | Thrown message =>
                SentError 400 (messageOr "Falha ao iniciar geração de storyboard." message)
            | Returned projectRecord =>
                Sent {| StartedJob.job :=
                          StoryboardJob.mk jobId (RequestUser.id requestUser)
                            (ProjectRow.id projectRecord) JobStatus.running
                            "Job criado. Iniciando processamento..." now now
                            None None ∅ None;
                        StartedJob.args :=
                          withApiKey (default "" (UserRow.googleApiKey accepted))
                            (StartPayload.generationPayload payload) |}
            end = Sent started' ->
            StoryboardJob.userId (StartedJob.job started') = RequestUser.id requestUser /\
            canAccessJob requestUser (StartedJob.job started') = true /\
            StoryboardJob.status (StartedJob.job started') = JobStatus.running /\
            GenerateArgs.apiKey (StartedJob.args started') <> "" /\
            (notifyJobProgress now "Preparando geração do storyboard..."
               (StartedJob.job started') ∅).1
            = newJob now jobId (RequestUser.id requestUser)
                (StoryboardJob.projectId (StartedJob.job started'))).
  { intros started'. destruct projectRecord as [record|]; [|discriminate].
    intros [= <-]. cbn. rewrite Hkey. cbn.
    split; [reflexivity|]. split; [unfold canAccessJob; cbn; now rewrite String.eqb_refl|].
    split; [reflexivity|]. split; [exact Hne|reflexivity]. }
  destruct (truthyOption (StartPayload.projectId payload)) eqn:Hproject.
  - unfold getProjectForUser. destruct project as [p|]; [|discriminate].
    assert (Haccess : negb (String.eqb (ProjectRow.userId p) (RequestUser.id requestUser))
                      && negb (String.eqb (RequestUser.role requestUser) "ADMIN") = false ->
                      ProjectRow.userId p = RequestUser.id requestUser \/
                      RequestUser.role requestUser = "ADMIN").
    { intros Hno. apply andb_false_iff in Hno as [Hno|Hno];
        apply negb_false_iff, String.eqb_eq in Hno; tauto. }
    destruct (negb _ && negb _); [discriminate|].
    intros Hsent. destruct (Hlaunch _ Hsent) as (H1 & H2 & H3 & H4 & H5).
    repeat split; try assumption. intros _. exists p. split; [reflexivity|].
    now apply Haccess.
  - intros Hsent. destruct (Hlaunch _ Hsent) as (H1 & H2 & H3 & H4 & H5).
    repeat split; try assumption. discriminate.
Qed.

Lemma started_job_owned_witness :
  exists started,
    postGenerateStart false 0 "job-1" (Some alice) (Returned sampleStart)
      (Some (aliceRow "ACTIVE" (Some sampleKey))) None
      (Returned (ProjectRow.mk "project-1" "alice")) = Sent started /\
    canAccessJob alice (StartedJob.job started) = true.
Proof.
  eexists. split; [reflexivity|].
  match goal with
  | |- canAccessJob _ (StartedJob.job ?s) = _ =>
      apply (started_job_owned false 0 "job-1" alice sampleStart
               (Some (aliceRow "ACTIVE" (Some sampleKey))) None
               (Returned (ProjectRow.mk "project-1" "alice")) s eq_refl)
  end.
Defined.

(** A log-in gives a token exactly when the credentials are well formed,
    the account exists, the password matches and the account is active;
    the reply then carries that token and the account's own e-mail, role
    and status. *)
Theorem login_token_only_for_active (credentials : Outcome (string * string))
    (user : option UserRow.t) (passwordMatches : bool) (token : string) :
  ((exists body, postLogin credentials user passwordMatches token = Sent body)
   <-> (exists pair row,
          credentials = Returned pair /\ user = Some row /\
          passwordMatches = true /\ UserRow.status row = "ACTIVE")) /\
  forall body,
    postLogin credentials user passwordMatches token = Sent body ->
    LoginBody.token body = token /\
    exists row, user = Some row /\
      LoginBody.email body = UserRow.email row /\
      LoginBody.role body = UserRow.role row /\
      LoginBody.status body = "ACTIVE".
Proof.
  split; [split|].
  - intros [body H]. unfold postLogin in H.
    destruct credentials as [pair|]; [|discriminate].
    destruct user as [row|]; [|discriminate].
    destruct (truthy _ && _); [discriminate|].
    destruct passwordMatches; [|discriminate]. cbn [negb] in H.
    destruct (String.eqb (UserRow.status row) "ACTIVE") eqn:Hactive; [|discriminate].
    apply String.eqb_eq in Hactive. now exists pair, row.
  - intros (pair & row & -> & -> & -> & Hactive). unfold postLogin.
    rewrite Hactive. cbn. eexists. reflexivity.
  - intros body H. unfold postLogin in H.
    destruct credentials as [pair|]; [|discriminate].
    destruct user as [row|]; [|discriminate].
    destruct (truthy _ && _); [discriminate|].
    destruct passwordMatches; [|discriminate]. cbn [negb] in H.
    destruct (String.eqb (UserRow.status row) "ACTIVE") eqn:Hactive; [|discriminate].
    apply String.eqb_eq in Hactive. injection H as <-. cbn.
    split; [reflexivity|]. exists row. now repeat split.
Qed.

(** *** Trimming *)

Lemma trimStart_head (s : string) (c : ascii) (r : string) :
  trimStart s = String c r -> isWhitespace c = false.
Proof.
  induction s as [|a t IH]; simpl; [discriminate|].
  destruct (isWhitespace a) eqn:Ha; [exact IH|]. now intros [= <- _].
Qed.

Lemma trimStart_fixed (c : ascii) (r : string) :
  isWhitespace c = false -> trimStart (String c r) = String c r.
Proof. intros H. simpl. now rewrite H. Qed.

Lemma trimEnd_cons (c : ascii) (r : string) :
  trimEnd (String c r)
  = match trimEnd r with
    | EmptyString => if isWhitespace c then EmptyString else String c EmptyString
    | r' => String c r'
    end.
Proof. reflexivity. Qed.

Lemma trimEnd_head (s : string) (c : ascii) (r : string) :
  trimEnd s = String c r -> exists t, s = String c t.
Proof.
  destruct s as [|a t]; [discriminate|]. rewrite trimEnd_cons.
  destruct (trimEnd t); [destruct (isWhitespace a); [discriminate|]|];
    intros [= <- _]; now eexists.
Qed.

Lemma trimEnd_idempotent (s : string) : trimEnd (trimEnd s) = trimEnd s.
Proof.
  induction s as [|c r IH]; [reflexivity|]. rewrite trimEnd_cons.
  destruct (trimEnd r) as [|b t] eqn:Hr.
  - destruct (isWhitespace c) eqn:Hc; [reflexivity|].
    rewrite trimEnd_cons. cbn [trimEnd]. now rewrite Hc.
  - rewrite trimEnd_cons, IH. reflexivity.
Qed.

(** Trimming twice is trimming once. *)
Lemma trim_idempotent (s : string) : trim (trim s) = trim s.
Proof.
  unfold trim. destruct (trimEnd (trimStart s)) as [|c r] eqn:Ht; [reflexivity|].
  destruct (trimEnd_head _ _ _ Ht) as [t Hs].
  rewrite trimStart_fixed by (eapply trimStart_head; exact Hs).
  rewrite <- Ht. apply trimEnd_idempotent.
Qed.

Lemma allKeyChars_chars (s : string) :
  allKeyChars s = true -> Forall (fun c => isKeyChar c = true) (chars s).
Proof.
  induction s as [|c r IH]; [constructor|]. cbn [allKeyChars].
  intros [Hc Hr]%andb_true_iff. constructor; [exact Hc|now apply IH].
Qed.

Lemma looksLikeGoogleKey_shape (key : string) :
  looksLikeGoogleKey key = true ->
  String.prefix "AIza" key = true /\ (34 <= String.length key)%nat /\
  Forall (fun c => isKeyChar c = true) (chars key).
Proof.
  unfold looksLikeGoogleKey.
  destruct key as [|c1 [|c2 [|c3 [|c4 rest]]]]; try discriminate;
    try (destruct c1 as [[] [] [] [] [] [] [] []]; discriminate);
    try (destruct c1 as [[] [] [] [] [] [] [] []]; try discriminate;
         destruct c2 as [[] [] [] [] [] [] [] []]; discriminate);
    try (destruct c1 as [[] [] [] [] [] [] [] []]; try discriminate;
         destruct c2 as [[] [] [] [] [] [] [] []]; try discriminate;
         destruct c3 as [[] [] [] [] [] [] [] []]; discriminate).
  destruct c1 as [[] [] [] [] [] [] [] []]; try discriminate;
    destruct c2 as [[] [] [] [] [] [] [] []]; try discriminate;
    destruct c3 as [[] [] [] [] [] [] [] []]; try discriminate;
    destruct c4 as [[] [] [] [] [] [] [] []]; try discriminate.
  intros [Hlen Hall]%andb_true_iff. apply Nat.leb_le in Hlen.
  split; [apply (prefix_append "AIza" rest)|]. split; [cbn; lia|].
  repeat (constructor; [reflexivity|]). now apply allKeyChars_chars.
Qed.

(** The API key of a user.  Whatever white space the engine trims (its
    [trim] need only leave a trimmed text as it is): a key that the
    handler stores is the trimmed key of the request, and the update of
    the row has succeeded; the key starts with [AIza], has at least 34
    characters, all of them letters, digits, [-] or [_]; [getAiClient]
    accepts it; and sent again it is stored unchanged.  A request with a
    verified token that is not stored is answered 400, or 500 when its
    key is well formed and the update of the row rejects: the other
    answers of the handler are never given. *)
Theorem stored_api_key (jsTrim : string -> string) (requestUser : RequestUser.t)
    (apiKey : option string) (updated : Outcome unit) :
  (forall text, jsTrim (jsTrim text) = jsTrim text) ->
  (forall stored,
     putUserApiKey jsTrim (Sent requestUser) apiKey updated = Sent stored ->
     (exists given, apiKey = Some given /\ stored = jsTrim given) /\
     updated = Returned tt /\
     String.prefix "AIza" stored = true /\ (34 <= String.length stored)%nat /\
     Forall (fun c => isKeyChar c = true) (chars stored) /\
     getAiClient stored = Returned tt /\
     putUserApiKey jsTrim (Sent requestUser) (Some stored) updated = Sent stored) /\
  (forall statusCode message,
     putUserApiKey jsTrim (Sent requestUser) apiKey updated
     = SentError statusCode message ->
     statusCode = 400%nat \/
     (statusCode = 500%nat /\ updated = Thrown message /\
      exists given,
        apiKey = Some given /\ looksLikeGoogleKey (jsTrim given) = true)).
Proof.
  intros Htrim. unfold putUserApiKey, validateGoogleApiKey.
  destruct apiKey as [given|];
    [|split; [discriminate|intros ? ? [= <- _]; now left]].
  destruct (truthy given); cbn [negb];
    [|split; [discriminate|intros ? ? [= <- _]; now left]].
  rewrite Htrim.
  destruct (looksLikeGoogleKey (jsTrim given)) eqn:Hkey; cbn [negb];
    [|split; [discriminate|intros ? ? [= <- _]; now left]].
  destruct updated as [[]|failure].
  - split; [|discriminate].
    intros stored [= <-].
    destruct (looksLikeGoogleKey_shape _ Hkey) as (Hprefix & Hlen & Hchars).
    split; [now exists given|]. repeat split; try assumption.
    + unfold getAiClient. destruct (jsTrim given); [cbn in Hlen; lia|reflexivity].
    + assert (Htruthy : truthy (jsTrim given) = true)
        by (destruct (jsTrim given); [cbn in Hlen; lia|reflexivity]).
      rewrite Htruthy. cbn [negb]. rewrite !Htrim, Hkey. reflexivity.
  - split; [discriminate|].
    intros statusCode message [= <- <-]. right.
    split; [reflexivity|]. split; [reflexivity|]. now exists given.
Qed.

Lemma stored_api_key_witness :
  putUserApiKey trim (Sent alice) (Some ("  " +:+ sampleKey +:+ " ")) (Returned tt)
  = Sent sampleKey /\
  getAiClient sampleKey = Returned tt.
Proof.
  split; [vm_compute; reflexivity|].
  apply (proj1 (stored_api_key trim alice (Some ("  " +:+ sampleKey +:+ " "))
                  (Returned tt) trim_idempotent) sampleKey).
  vm_compute. reflexivity.
Defined.

(** A well-formed key sent with the token of a user who has no row: the
    update rejects and the request is answered 500. *)
Example stored_api_key_without_row :
  putUserApiKey trim (Sent alice) (Some sampleKey)
    (Thrown "Record to update not found.")
  = SentError 500 "Record to update not found.".
Proof. vm_compute. reflexivity. Qed.

(** ** Jobs over time *)

Lemma sameIdentity_refl job : sameIdentity job job.
Proof. repeat split. lia. Qed.

Lemma sameIdentity_trans j1 j2 j3 :
  sameIdentity j1 j2 -> sameIdentity j2 j3 -> sameIdentity j1 j3.
Proof. unfold sameIdentity. intuition (congruence || lia). Qed.

Lemma step_identity (w w' : World) (label : Label) jobId job :
  timersInvariant w -> step w label w' ->
  jobs w !! jobId = Some job ->
  exists job', jobs w' !! jobId = Some job' /\ sameIdentity job job'.
Proof.
  intros HT Hstep Hjob.
  pose proof (proj1 (HT _ _ Hjob)) as Hnow.
  destruct Hstep as
    [ w dt Hdt
    | w id userId projectId Hfresh
    | w id message job0 job' streams' Hpc Hjob0 Hop
    | w id scenes job0 job' streams' Hpc Hjob0 Hop
    | w id errorMessage job0 job' streams' Hpc Hjob0 Hop
    | w id job0 Hpc Hjob0
    | w id job0 due Hjob0 Htimer Hdue
    | w client requestUser id reply Hfree Hsub
    | w client requestUser id job' raw Hfree Hsub
    | w requestUser id
    | w client s Hs Hlisten
    | w client s Hs Hclosed
    | w client s Hs ];
    cbn [jobs clock] in *;
    try (exists job; split; [assumption|apply sameIdentity_refl]).
  - (* start *) exists job. split; [|apply sameIdentity_refl].
    rewrite lookup_insert_ne by congruence. exact Hjob.
  - (* progress *) destruct (decide (id = jobId)) as [->|Hne].
    + rewrite lookup_insert_eq. eexists. split; [reflexivity|].
      replace job0 with job in * by congruence.
      unfold notifyJobProgress in Hop. cbn in Hop. injection Hop as <- _.
      now repeat split.
    + rewrite lookup_insert_ne by congruence. exists job.
      split; [exact Hjob|apply sameIdentity_refl].
  - (* returns *) destruct (decide (id = jobId)) as [->|Hne].
    + rewrite lookup_insert_eq. eexists. split; [reflexivity|].
      replace job0 with job in * by congruence.
      unfold finishJobSuccess in Hop. cbn in Hop. injection Hop as <- _.
      now repeat split.
    + rewrite lookup_insert_ne by congruence. exists job.
      split; [exact Hjob|apply sameIdentity_refl].
  - (* throws *) destruct (decide (id = jobId)) as [->|Hne].
    + rewrite lookup_insert_eq. eexists. split; [reflexivity|].
      replace job0 with job in * by congruence.
      unfold finishJobFailure in Hop. cbn in Hop. injection Hop as <- _.
      now repeat split.
    + rewrite lookup_insert_ne by congruence. exists job.
      split; [exact Hjob|apply sameIdentity_refl].
  - (* persist *) destruct (decide (id = jobId)) as [->|Hne].
    + rewrite lookup_insert_eq. eexists. split; [reflexivity|].
      replace job0 with job by congruence. repeat split. cbn. lia.
    + rewrite lookup_insert_ne by congruence. exists job.
      split; [exact Hjob|apply sameIdentity_refl].
  - (* subscription *) destruct (decide (id = jobId)) as [->|Hne].
    + rewrite lookup_insert_eq. eexists. split; [reflexivity|].
      unfold subscribeJobEvents in Hsub.
      destruct requestUser as [user|]; [|discriminate].
      destruct (getJob w jobId) as [j|] eqn:Hget; [|discriminate].
      destruct (negb (canAccessJob user j)); [discriminate|].
      unfold getJob in Hget. destruct (decide (jobId ∈ storyboardJobs w)); [|discriminate].
      replace j with job in * by congruence.
      destruct (StoryboardJob.status job); injection Hsub as <- _;
        repeat split; cbn; lia.
    + rewrite lookup_insert_ne by congruence. exists job.
      split; [exact Hjob|apply sameIdentity_refl].
  - (* close *) destruct (Stream.listening s);
      [|exists job; split; [assumption|apply sameIdentity_refl]].
    destruct (decide (Stream.jobId s = jobId)) as [<-|Hne].
    + rewrite lookup_alter_eq, Hjob. eexists. split; [reflexivity|].
      repeat split. cbn. lia.
    + rewrite lookup_alter_ne by congruence. exists job.
      split; [exact Hjob|apply sameIdentity_refl].
Qed.

Lemma step_datesInvariant (w w' : World) (label : Label) :
  timersInvariant w -> datesInvariant w -> step w label w' -> datesInvariant w'.
Proof.
  intros HT HD Hstep id' job' Hjob'.
  assert (Hold : forall id job,
            jobs w !! id = Some job ->
            (StoryboardJob.createdAt job <= StoryboardJob.updatedAt job)%Z /\
            (StoryboardJob.updatedAt job <= clock w)%Z).
  { intros id job Hjob. split; [exact (HD _ _ Hjob)|exact (proj1 (HT _ _ Hjob))]. }
  destruct Hstep as
    [ w dt Hdt
    | w id userId projectId Hfresh
    | w id message job0 job1 streams' Hpc Hjob0 Hop
    | w id scenes job0 job1 streams' Hpc Hjob0 Hop
    | w id errorMessage job0 job1 streams' Hpc Hjob0 Hop
    | w id job0 Hpc Hjob0
    | w id job0 due Hjob0 Htimer Hdue
    | w client requestUser id reply Hfree Hsub
    | w client requestUser id job1 raw Hfree Hsub
    | w requestUser id
    | w client s Hs Hlisten
    | w client s Hs Hclosed
    | w client s Hs ];
    cbn [jobs clock] in *; try (exact (proj1 (Hold _ _ Hjob'))).
  - (* start *) case_job id id'; [|exact (proj1 (Hold _ _ Hjob'))].
    injection Hjob' as <-. cbn. lia.
  - (* progress *) case_job id id'; [|exact (proj1 (Hold _ _ Hjob'))].
    injection Hjob' as <-. unfold notifyJobProgress in Hop. cbn in Hop.
    injection Hop as <- _. cbn. destruct (Hold _ _ Hjob0). lia.
  - (* returns *) case_job id id'; [|exact (proj1 (Hold _ _ Hjob'))].
    injection Hjob' as <-. unfold finishJobSuccess in Hop. cbn in Hop.
    injection Hop as <- _. cbn. destruct (Hold _ _ Hjob0). lia.
  - (* throws *) case_job id id'; [|exact (proj1 (Hold _ _ Hjob'))].
    injection Hjob' as <-. unfold finishJobFailure in Hop. cbn in Hop.
    injection Hop as <- _. cbn. destruct (Hold _ _ Hjob0). lia.
  - (* persist *) case_job id id'; [|exact (proj1 (Hold _ _ Hjob'))].
    injection Hjob' as <-. cbn. exact (proj1 (Hold _ _ Hjob0)).
  - (* subscription *) case_job id id'; [|exact (proj1 (Hold _ _ Hjob'))].
    injection Hjob' as <-. unfold subscribeJobEvents in Hsub.
    destruct requestUser as [user|]; [|discriminate].
    destruct (getJob w id') as [j|] eqn:Hget; [|discriminate].
    destruct (negb (canAccessJob user j)); [discriminate|].
    unfold getJob in Hget. destruct (decide (id' ∈ storyboardJobs w)); [|discriminate].
    destruct (StoryboardJob.status j); injection Hsub as <- _;
      exact (proj1 (Hold _ _ Hget)).
  - (* close *) destruct (Stream.listening s); [|exact (proj1 (Hold _ _ Hjob'))].
    destruct (decide (id' = Stream.jobId s)) as [->|Hne].
    + rewrite lookup_alter_eq in Hjob'.
      destruct (jobs w !! Stream.jobId s) as [j0|] eqn:Hj0; [|discriminate].
      injection Hjob' as <-. exact (proj1 (Hold _ _ Hj0)).
    + rewrite lookup_alter_ne in Hjob' by congruence. exact (proj1 (Hold _ _ Hjob')).
Qed.

Lemma reachable_datesInvariant (w : World) : reachable w -> datesInvariant w.
Proof.
  induction 1 as [|w label w' Hw IH Hstep].
  - intros id j Hj. cbn in Hj. now rewrite lookup_empty in Hj.
  - eapply step_datesInvariant; [apply reachable_timersInvariant| |]; eassumption.
Qed.

Lemma steps_identity (w w' : World) (jobId : string) (job : StoryboardJob.t) :
  reachable w -> steps w w' -> jobs w !! jobId = Some job ->
  exists job', jobs w' !! jobId = Some job' /\ sameIdentity job job'.
Proof.
  intros Hw Hsteps. revert job.
  induction Hsteps as [w|w label w1 w2 Hstep _ IH]; intros job Hjob.
  - exists job. split; [exact Hjob|apply sameIdentity_refl].
  - destruct (step_identity w w1 label jobId job
                (reachable_timersInvariant w Hw) Hstep Hjob) as (job1 & Hjob1 & Hsame1).
    destruct (IH (reachable_step _ _ _ Hw Hstep) job1 Hjob1) as (job2 & Hjob2 & Hsame2).
    exists job2. split; [exact Hjob2|]. eapply sameIdentity_trans; eassumption.
Qed.

(** What a registered job keeps.  In every state the server can reach, a
    job that the registry holds was last updated no earlier than it was
    created and no later than now; and whatever happens next, what the
    registry holds under the same identifier, for as long as it holds
    anything there, has the same identifier, owner, project and creation
    time, and a last update that has not moved back. *)
Theorem job_identity_and_dates (w w' : World) (jobId : string)
    (job : StoryboardJob.t) :
  reachable w -> steps w w' -> getJob w jobId = Some job ->
  (StoryboardJob.createdAt job <= StoryboardJob.updatedAt job <= clock w)%Z /\
  forall job', getJob w' jobId = Some job' -> sameIdentity job job'.
Proof.
  intros Hw Hsteps Hget.
  assert (Hjob : jobs w !! jobId = Some job).
  { unfold getJob in Hget. now destruct (decide (jobId ∈ storyboardJobs w)). }
  split.
  - split; [exact (reachable_datesInvariant w Hw _ _ Hjob)|].
    exact (proj1 (reachable_timersInvariant w Hw _ _ Hjob)).
  - intros job' Hget'.
    destruct (steps_identity w w' jobId job Hw Hsteps Hjob) as (job2 & Hjob2 & Hsame).
    unfold getJob in Hget'. destruct (decide (jobId ∈ storyboardJobs w')); [|discriminate].
    rewrite Hjob2 in Hget'. now injection Hget' as <-.
Qed.

Lemma job_identity_and_dates_witness :
  exists job',
    getJob worldSettled "job-1" = Some job' /\
    StoryboardJob.userId job' = "alice".
Proof.
  destruct (getJob worldSettled "job-1") as [job'|] eqn:Hget;
    [|vm_compute in Hget; discriminate Hget].
  exists job'. split; [reflexivity|].
  destruct (job_identity_and_dates worldStarted worldSettled "job-1"
              (newJob 0 "job-1" "alice" "project-1") worldStarted_reachable)
    as (_ & Hkept).
  - eapply steps_more; [apply worldCompleted_step|].
    eapply steps_more; [apply worldSettled_step|apply steps_refl].
  - unfold getJob. rewrite decide_True by set_solver. apply lookup_insert_eq.
  - destruct (Hkept job' Hget) as (_ & Huser & _). exact Huser.
Defined.

(** A running job is never discarded: in every state the server can
    reach, a job that is running is registered and has no clean-up timer,
    so a poll by its owner or by an administrator is answered 202 with the
    current message, never 404. *)
Theorem running_job_is_served (w : World) (jobId : string) (job : StoryboardJob.t)
    (requestUser : RequestUser.t) :
  reachable w ->
  jobs w !! jobId = Some job ->
  StoryboardJob.status job = JobStatus.running ->
  getJob w jobId = Some job /\
  StoryboardJob.cleanupTimer job = None /\
  (canAccessJob requestUser job = true ->
   getJobResult (Some requestUser) (getJob w jobId)
   = {| code := 202;
        body := RunningBody (StoryboardJob.projectId job) JobStatus.running
                  (StoryboardJob.message job) (StoryboardJob.updatedAt job) |}).
Proof.
  intros Hw Hjob Hrun.
  destruct (reachable_jobsInvariant w Hw) as [HJ _].
  destruct (HJ _ _ Hjob) as [_ Hagree]. unfold taskAgrees in Hagree.
  destruct (tasks w !! jobId) as [[]|];
    [|destruct Hagree as [Hterm _]; congruence
     |destruct Hagree as [Hterm _]; congruence|destruct Hagree].
  destruct Hagree as (_ & Htimer & Hreg).
  assert (Hget : getJob w jobId = Some job).
  { unfold getJob. now rewrite decide_True. }
  split; [exact Hget|]. split; [exact Htimer|].
  intros Haccess. rewrite Hget. unfold getJobResult. now rewrite Haccess, Hrun.
Qed.

Lemma running_job_is_served_witness :
  code (getJobResult (Some alice) (getJob worldStarted "job-1")) = 202%nat.
Proof.
  destruct (running_job_is_served worldStarted "job-1"
              (newJob 0 "job-1" "alice" "project-1") alice worldStarted_reachable)
    as (_ & _ & Hpoll).
  - apply lookup_insert_eq.
  - reflexivity.
  - now rewrite Hpoll.
Defined.

(** The clients of a job are live connections: in every state the server
    can reach, a response object kept among the clients of a job belongs
    to a running job and to a connection that the server has not ended and
    the peer has not closed; a job that is completed or failed keeps no
    client at all. *)
Theorem clients_are_live (w : World) (jobId : string) (job : StoryboardJob.t) :
  reachable w ->
  jobs w !! jobId = Some job ->
  (StoryboardJob.status job <> JobStatus.running -> StoryboardJob.clients job = ∅) /\
  forall client,
    client ∈ StoryboardJob.clients job ->
    StoryboardJob.status job = JobStatus.running /\
    exists s,
      streams w !! client = Some s /\ Stream.jobId s = jobId /\
      Stream.ended s = false /\ Stream.closed s = false.
Proof.
  intros Hw Hjob.
  destruct (reachable_serverInvariant w Hw) as [[HJ _] [Hstreams Hclients]].
  destruct (HJ _ _ Hjob) as [_ Hagree].
  assert (Hterm : StoryboardJob.status job <> JobStatus.running ->
                  StoryboardJob.clients job = ∅).
  { intros Hterm. unfold taskAgrees in Hagree.
    destruct (tasks w !! jobId) as [[]|]; [|tauto|tauto|tauto].
    destruct Hagree as [Hrun _]. congruence. }
  split; [exact Hterm|].
  intros client Hin. split.
  - destruct (StoryboardJob.status job) eqn:Hst; [reflexivity| |];
      rewrite Hterm in Hin by discriminate; set_solver.
  - destruct (Hclients _ _ _ Hjob Hin) as (s & Hs & Hid).
    exists s. split; [exact Hs|]. split; [exact Hid|].
    destruct (Hstreams _ _ Hs) as (job' & Hjob' & _ & Hlive & Hopen & _).
    rewrite Hid, Hjob in Hjob'. injection Hjob' as <-.
    destruct (Hlive Hin) as [Hlisten Hended]. split; [exact Hended|].
    exact (Hopen Hlisten).
Qed.

Lemma clients_are_live_witness :
  StoryboardJob.clients jobCompleted = ∅.
Proof.
  apply (proj1 (clients_are_live worldCompleted "job-1" jobCompleted
                  worldCompleted_reachable (lookup_insert_eq _ _ _))).
  discriminate.
Defined.

(** ** The event stream on the wire *)

Lemma prefix_empty (s : string) : String.prefix "" s = true.
Proof. now destruct s. Qed.

Lemma splitOn_lacks (c : ascii) (s : string) :
  lacks c s -> forall cur, splitOn (Ascii.eqb c) cur s = [cur +:+ s].
Proof.
  induction s as [|a r IH]; intros Hs cur; simpl; [now rewrite append_empty_r|].
  apply lacks_cons in Hs as [Ha Hr].
  destruct (Ascii.eqb c a) eqn:E; [apply Ascii.eqb_eq in E; congruence|].
  rewrite IH by exact Hr. now rewrite append_assoc.
Qed.

Lemma splitOn_append_sep (c : ascii) (a b : string) :
  lacks c a ->
  forall cur, splitOn (Ascii.eqb c) cur (a +:+ String c b)
              = (cur +:+ a) :: splitOn (Ascii.eqb c) "" b.
Proof.
  induction a as [|x r IH]; intros Ha cur.
  - rewrite append_empty_l, append_empty_r. simpl. now rewrite Ascii.eqb_refl.
  - apply lacks_cons in Ha as [Hx Hr]. rewrite append_cons. simpl.
    destruct (Ascii.eqb c x) eqn:E; [apply Ascii.eqb_eq in E; congruence|].
    rewrite IH by exact Hr. now rewrite append_assoc.
Qed.

Lemma trimEnd_append (a b : string) :
  b <> "" -> trimEnd b = b -> trimEnd (a +:+ b) = a +:+ b.
Proof.
  intros Hne Hb. induction a as [|c r IH]; [exact Hb|].
  rewrite append_cons, trimEnd_cons, IH.
  destruct (r +:+ b) eqn:E; [|reflexivity].
  destruct r; [rewrite append_empty_l in E; congruence|].
  rewrite append_cons in E. discriminate E.
Qed.

Lemma trim_append (x : ascii) (a b : string) :
  isWhitespace x = false -> b <> "" -> trimEnd b = b ->
  trim (String x a +:+ b) = String x a +:+ b.
Proof.
  intros Hx Hne Hb. unfold trim. rewrite append_cons, trimStart_fixed by exact Hx.
  rewrite <- append_cons. now apply trimEnd_append.
Qed.

Lemma tight_parts (json : string) :
  tight json ->
  exists c r, json = String c r /\ isWhitespace c = false /\ trimEnd json = json.
Proof.
  intros (Hne & _ & Htrim). unfold trim in Htrim.
  destruct json as [|c r]; [congruence|].
  destruct (trimEnd_head _ _ _ Htrim) as [t Ht].
  pose proof (trimStart_head _ _ _ Ht) as Hc.
  exists c, r. split; [reflexivity|]. split; [exact Hc|].
  rewrite trimStart_fixed in Htrim by exact Hc. exact Htrim.
Qed.

Lemma scanLine_data (scan : SseScan) (json : string) :
  tight json ->
  scanLine scan ("data: " +:+ json)
  = mkSseScan (scannedEvent scan) (dataLines scan ++ [json]).
Proof.
  intros Htight. destruct (tight_parts json Htight) as (c & r & -> & Hc & Hend).
  unfold scanLine.
  assert (Htrim : trim ("data: " +:+ String c r) = "data: " +:+ String c r).
  { apply trim_append; [reflexivity|discriminate|exact Hend]. }
  rewrite Htrim.
  change (sliceFrom 5 ("data: " +:+ String c r)) with (String " " (String c r)).
  replace (trim (String " " (String c r))) with (String c r).
  - reflexivity.
  - unfold trim. cbn [trimStart]. change (isWhitespace " ") with true. cbv iota.
    now rewrite Hc, Hend.
Qed.

Lemma parseSseEvent_event {J : Type} (jsonParse : string -> option J)
    (event : JobEvent.t) (json : string) :
  tight json ->
  parseSseEvent jsonParse
    ("event: " +:+ eventName event +:+ String "010" ("data: " +:+ json))
  = (fun data => (eventName event, data)) <$> jsonParse json.
Proof.
  intros Htight.
  destruct (tight_parts json Htight) as (c & r & Hjson & Hc & Hend).
  assert (Hlacks : lacks "010" ("data: " +:+ json)).
  { destruct Htight as (_ & Hlf & _). apply lacks_append. split; [|exact Hlf].
    unfold lacks. vm_compute. intuition discriminate. }
  unfold parseSseEvent.
  assert (Hblock : truthy (trim ("event: " +:+ eventName event
                                 +:+ String "010" ("data: " +:+ json))) = true).
  { replace ("event: " +:+ eventName event +:+ String "010" ("data: " +:+ json))
      with ("event: " +:+ (eventName event +:+ String "010" "data: ") +:+ json)
      by (now rewrite !append_assoc).
    rewrite <- append_assoc.
    change ("event: " +:+ (eventName event +:+ String "010" "data: "))
      with (String "e" ("vent: " +:+ (eventName event +:+ String "010" "data: "))).
    rewrite trim_append; [reflexivity|reflexivity|now subst json|exact Hend]. }
  rewrite Hblock. cbn [negb].
  assert (Hsplit : splitOn (Ascii.eqb "010") ""
                     ("event: " +:+ eventName event +:+ String "010" ("data: " +:+ json))
                   = ["event: " +:+ eventName event; "data: " +:+ json]).
  { change ("event: " +:+ eventName event +:+ String "010" ("data: " +:+ json))
      with (("event: " +:+ eventName event) +:+ String "010" ("data: " +:+ json)).
    rewrite splitOn_append_sep, splitOn_lacks by
      (exact Hlacks || (destruct event; unfold lacks; vm_compute; intuition discriminate)).
    reflexivity. }
  rewrite Hsplit. cbn [fold_left].
  assert (Hevent : scanLine (mkSseScan "message" []) ("event: " +:+ eventName event)
                   = mkSseScan (eventName event) []).
  { destruct event; vm_compute; reflexivity. }
  rewrite Hevent, scanLine_data by exact Htight.
  cbn [dataLines scannedEvent app length Nat.eqb String.concat].
  now destruct (jsonParse json).
Qed.

(** What the server writes for an event, the client reads back: the
    block of an event gives the name of the event and, to [JSON.parse],
    exactly the text that [JSON.stringify] produced; the comment line of
    the heartbeat gives no event at all. *)
Theorem sse_event_round_trip {J : Type} (jsonParse : string -> option J)
    (event : JobEvent.t) (json : string) :
  tight json ->
  parseSseEvent jsonParse
    ("event: " +:+ eventName event +:+ String "010" ("data: " +:+ json))
  = (fun data => (eventName event, data)) <$> jsonParse json /\
  parseSseEvent jsonParse ": ping" = None.
Proof.
  intros Htight. split; [now apply parseSseEvent_event|reflexivity].
Qed.

Lemma sse_event_round_trip_witness :
  parseSseEvent toyParse
    ("event: completed" +:+ String "010" ("data: " +:+ "{Storyboard completo!}"))
  = Some ("completed", EventData.mk (Some "Storyboard completo!") None).
Proof.
  exact (proj1 (sse_event_round_trip toyParse JobEvent.completed
                  "{Storyboard completo!}"
                  ltac:(repeat split;
                        [discriminate|unfold lacks; vm_compute; intuition discriminate]))).
Defined.

(** ** The reader of the event stream *)

Lemma unbroken_lacks (s : string) : lacks "010" s -> unbroken s = true.
Proof.
  induction s as [|c r IH]; intros Hs; [reflexivity|].
  apply lacks_cons in Hs as [Hc Hr]. cbn [unbroken].
  destruct (Ascii.eqb c "010") eqn:E; [apply Ascii.eqb_eq in E; congruence|].
  now apply IH.
Qed.

Lemma unbroken_line (a b : string) :
  lacks "010" a -> b <> "" -> lacks "010" b ->
  unbroken (a +:+ String "010" b) = true.
Proof.
  intros Ha Hne Hb. induction a as [|c r IH].
  - rewrite append_empty_l. destruct b as [|x t]; [congruence|]. cbn [unbroken].
    rewrite Ascii.eqb_refl. apply lacks_cons in Hb as [Hx Ht].
    destruct (Ascii.eqb x "010") eqn:E; [apply Ascii.eqb_eq in E; congruence|].
    now apply unbroken_lacks.
  - apply lacks_cons in Ha as [Hc Hr]. rewrite append_cons. cbn [unbroken].
    destruct (Ascii.eqb c "010") eqn:E; [apply Ascii.eqb_eq in E; congruence|].
    now apply IH.
Qed.

Lemma unbroken_cons (c : ascii) (r : string) :
  unbroken (String c r)
  = if Ascii.eqb c "010" then
      match r with
      | EmptyString => false
      | String c' r' => negb (Ascii.eqb c' "010") && unbroken r'
      end
    else unbroken r.
Proof. reflexivity. Qed.

(** A text that holds no empty line and does not end a line still does
    so when it is followed by one that does. *)
Lemma unbroken_append (a b : string) :
  unbroken a = true -> unbroken b = true -> unbroken (a +:+ b) = true.
Proof.
  intros Ha Hb.
  assert (H : forall n a, (String.length a <= n)%nat -> unbroken a = true ->
                          unbroken (a +:+ b) = true).
  { clear a Ha. induction n as [|n IH]; intros a Hlen Ha.
    - destruct a; [now rewrite append_empty_l|cbn in Hlen; lia].
    - destruct a as [|x r]; [now rewrite append_empty_l|].
      cbn in Hlen. rewrite append_cons, unbroken_cons. rewrite unbroken_cons in Ha.
      destruct (Ascii.eqb x "010").
      + destruct r as [|y t]; [discriminate|]. rewrite append_cons.
        apply andb_true_iff in Ha as [Hy Ht]. rewrite Hy. cbn [andb]. cbn in Hlen.
        apply IH; [lia|exact Ht].
      + apply IH; [lia|exact Ha]. }
  now apply (H (String.length a)).
Qed.

Lemma unbroken_snoc (cur : string) (c : ascii) :
  unbroken cur = true -> Ascii.eqb c "010" = false ->
  unbroken (cur +:+ String c "") = true.
Proof.
  intros Hcur Hc. apply unbroken_append; [exact Hcur|].
  rewrite unbroken_cons. now rewrite Hc.
Qed.

Lemma unbroken_snoc2 (cur : string) (c : ascii) :
  unbroken cur = true -> Ascii.eqb c "010" = false ->
  unbroken (cur +:+ String "010" (String c "")) = true.
Proof.
  intros Hcur Hc. apply unbroken_append; [exact Hcur|].
  rewrite unbroken_cons. change (Ascii.eqb "010" "010") with true. cbv iota.
  now rewrite Hc.
Qed.

Lemma drainFrom_cons (jsonParse : string -> option EventData.t) (cur : string)
    (c : ascii) (r : string) (progress : list string) :
  drainFrom jsonParse cur (String c r) progress
  = if Ascii.eqb c "010" then
      match r with
      | EmptyString => (progress, Reading (cur +:+ String c ""))
      | String c' r' =>
          if Ascii.eqb c' "010" then
            match handleBlock jsonParse cur progress with
            | (progress', Some outcome) => (progress', Stopped outcome)
            | (progress', None) => drainFrom jsonParse "" r' progress'
            end
          else drainFrom jsonParse (cur +:+ String c (String c' "")) r' progress
      end
    else drainFrom jsonParse (cur +:+ String c "") r progress.
Proof. reflexivity. Qed.

(** Searching a buffer whose head is known to hold no empty line is
    searching the rest. *)
Lemma drainFrom_resume (jsonParse : string -> option EventData.t) (cur : string) :
  unbroken cur = true ->
  forall acc s progress,
    drainFrom jsonParse acc (cur +:+ s) progress
    = drainFrom jsonParse (acc +:+ cur) s progress.
Proof.
  assert (H : forall n cur, (String.length cur <= n)%nat -> unbroken cur = true ->
              forall acc s progress,
                drainFrom jsonParse acc (cur +:+ s) progress
                = drainFrom jsonParse (acc +:+ cur) s progress).
  { clear cur. induction n as [|n IH]; intros cur Hlen Hcur acc s progress.
    - destruct cur; [now rewrite append_empty_l, append_empty_r|cbn in Hlen; lia].
    - destruct cur as [|a r]; [now rewrite append_empty_l, append_empty_r|].
      cbn in Hlen. rewrite append_cons, drainFrom_cons. rewrite unbroken_cons in Hcur.
      destruct (Ascii.eqb a "010") eqn:Ha.
      + destruct r as [|b t]; [discriminate|].
        apply andb_true_iff in Hcur as [Hb Ht]. apply negb_true_iff in Hb.
        rewrite append_cons, Hb. cbn in Hlen.
        rewrite IH by (exact Ht || lia). now rewrite append_assoc.
      + rewrite IH by (exact Hcur || lia). now rewrite append_assoc. }
  intros Hcur. now apply (H (String.length cur)).
Qed.

(** Reading on after more bytes have come is reading the whole at once. *)
Lemma drainFrom_append (jsonParse : string -> option EventData.t) (s : string) :
  forall cur t progress,
    unbroken cur = true ->
    drainFrom jsonParse cur (s +:+ t) progress
    = match drainFrom jsonParse cur s progress with
      | (progress', Reading buffer) => drainFrom jsonParse "" (buffer +:+ t) progress'
      | stopped => stopped
      end.
Proof.
  assert (H : forall n s, (String.length s <= n)%nat ->
              forall cur t progress,
                unbroken cur = true ->
                drainFrom jsonParse cur (s +:+ t) progress
                = match drainFrom jsonParse cur s progress with
                  | (progress', Reading buffer) =>
                      drainFrom jsonParse "" (buffer +:+ t) progress'
                  | stopped => stopped
                  end).
  { clear s. induction n as [|n IH]; intros s Hlen cur t progress Hcur.
    - destruct s; [|cbn in Hlen; lia]. rewrite append_empty_l. cbn [drainFrom].
      now rewrite drainFrom_resume, append_empty_l.
    - destruct s as [|c r].
      { rewrite append_empty_l. cbn [drainFrom].
        now rewrite drainFrom_resume, append_empty_l. }
      cbn in Hlen. rewrite append_cons, !drainFrom_cons.
      destruct (Ascii.eqb c "010") eqn:Hc.
      + destruct r as [|c' r'].
        * rewrite append_empty_l.
          apply Ascii.eqb_eq in Hc. subst c.
          rewrite append_assoc.
          change (String "010" "" +:+ t) with (String "010" t).
          rewrite (drainFrom_resume jsonParse cur Hcur "" (String "010" t)).
          rewrite append_empty_l, drainFrom_cons. reflexivity.
        * rewrite append_cons. cbn in Hlen.
          destruct (Ascii.eqb c' "010") eqn:Hc'.
          -- destruct (handleBlock jsonParse cur progress) as [p' [outcome|]];
               [reflexivity|].
             apply IH; [lia|reflexivity].
          -- apply IH; [lia|]. apply Ascii.eqb_eq in Hc. subst c.
             now apply unbroken_snoc2.
      + apply IH; [lia|]. now apply unbroken_snoc. }
  intros cur t progress. now apply (H (String.length s)).
Qed.

Lemma concat_empty_cons (x : string) (l : list string) :
  String.concat "" (x :: l) = x +:+ String.concat "" l.
Proof. destruct l; [now rewrite append_empty_r|reflexivity]. Qed.

(** However the bytes are cut into chunks, the reader does what it would
    do with all of them at once. *)
Lemma readChunks_concat (jsonParse : string -> option EventData.t)
    (chunks : list string) :
  forall buffer progress,
    drainFrom jsonParse "" buffer progress = (progress, Reading buffer) ->
    readChunks jsonParse buffer chunks progress
    = finishReading
        (drainFrom jsonParse "" (buffer +:+ String.concat "" chunks) progress).
Proof.
  induction chunks as [|chunk rest IH]; intros buffer progress Hbuffer.
  - cbn [readChunks String.concat]. now rewrite append_empty_r, Hbuffer.
  - cbn [readChunks]. rewrite concat_empty_cons, <- append_assoc.
    rewrite (drainFrom_append jsonParse (buffer +:+ chunk)) by reflexivity.
    pose proof (drainFrom_append jsonParse (buffer +:+ chunk) "" "" progress eq_refl)
      as Hagain.
    rewrite append_empty_r in Hagain.
    destruct (drainFrom jsonParse "" (buffer +:+ chunk) progress)
      as [progress' [buffer'|outcome]]; [|reflexivity].
    rewrite append_empty_r in Hagain. apply IH. now symmetry.
Qed.

Lemma wireText_cons (jsonStringify : SsePayload.t -> string) (item : StreamItem)
    (items : list StreamItem) :
  wireText jsonStringify (item :: items)
  = wireItem jsonStringify item +:+ wireText jsonStringify items.
Proof. apply concat_empty_cons. Qed.

Lemma drainFrom_block (jsonParse : string -> option EventData.t) (block rest : string)
    (progress : list string) :
  unbroken block = true ->
  drainFrom jsonParse "" (block +:+ String "010" (String "010" rest)) progress
  = match handleBlock jsonParse block progress with
    | (progress', Some outcome) => (progress', Stopped outcome)
    | (progress', None) => drainFrom jsonParse "" rest progress'
    end.
Proof.
  intros Hblock. rewrite drainFrom_resume by exact Hblock.
  rewrite append_empty_l, drainFrom_cons. reflexivity.
Qed.

Lemma readWire (jsonStringify : SsePayload.t -> string)
    (jsonParse : string -> option EventData.t) (items : list StreamItem) :
  (forall event payload,
     In (SseEvent event payload) items ->
     tight (jsonStringify payload) /\
     jsonParse (jsonStringify payload) = Some (eventData payload)) ->
  forall progress,
    finishReading (drainFrom jsonParse "" (wireText jsonStringify items) progress)
    = clientView items progress.
Proof.
  induction items as [|item rest IH]; intros Hjson progress; [reflexivity|].
  assert (Hrest : forall event payload,
            In (SseEvent event payload) rest ->
            tight (jsonStringify payload) /\
            jsonParse (jsonStringify payload) = Some (eventData payload)).
  { intros event payload Hin. apply (Hjson event payload). now right. }
  rewrite wireText_cons. destruct item as [event payload|].
  - destruct (Hjson event payload (or_introl eq_refl)) as [Htight Hparse].
    pose proof Htight as (Hne & Hlf & _).
    cbn [wireItem clientView].
    replace (("event: " +:+ eventName event +:+ String "010" "")
             +:+ ("data: " +:+ jsonStringify payload +:+ String "010" (String "010" "")))
      with (("event: " +:+ eventName event
             +:+ String "010" ("data: " +:+ jsonStringify payload))
            +:+ String "010" (String "010" ""))
      by (now rewrite !append_assoc).
    rewrite append_assoc.
    change (String "010" (String "010" "") +:+ wireText jsonStringify rest)
      with (String "010" (String "010" (wireText jsonStringify rest))).
    rewrite drainFrom_block.
    + unfold handleBlock.
      rewrite (parseSseEvent_event jsonParse event (jsonStringify payload) Htight).
      rewrite Hparse. cbn [fmap option_fmap option_map eventData EventData.message
                             EventData.error truthyOption default].
      destruct event; cbn [eventName String.eqb];
        [apply IH, Hrest|reflexivity|reflexivity].
    + change ("event: " +:+ eventName event
              +:+ String "010" ("data: " +:+ jsonStringify payload))
        with (("event: " +:+ eventName event)
              +:+ String "010" ("data: " +:+ jsonStringify payload)).
      apply unbroken_line.
      * destruct event; unfold lacks; vm_compute; intuition discriminate.
      * discriminate.
      * apply lacks_append. split; [unfold lacks; vm_compute; intuition discriminate|exact Hlf].
  - cbn [wireItem clientView].
    rewrite append_assoc.
    change (String "010" (String "010" "") +:+ wireText jsonStringify rest)
      with (String "010" (String "010" (wireText jsonStringify rest))).
    rewrite drainFrom_block by reflexivity.
    change (handleBlock jsonParse ": ping" progress) with (progress, @None (Outcome unit)).
    apply IH, Hrest.
Qed.

(** The stream, end to end.  When [JSON.parse] reads back what
    [JSON.stringify] wrote for the payloads, the client makes of the bytes
    of a stream, however they are cut into chunks, exactly what the server
    wrote: it reports the message of each event in order, ignores the
    heartbeats, returns at the [completed] event, throws the error of the
    [failed] event, reads nothing after either, and returns when the
    stream ends without them. *)
Theorem client_reads_stream (jsonStringify : SsePayload.t -> string)
    (jsonParse : string -> option EventData.t) (items : list StreamItem)
    (chunks : list string) :
  (forall event payload,
     In (SseEvent event payload) items ->
     tight (jsonStringify payload) /\
     jsonParse (jsonStringify payload) = Some (eventData payload)) ->
  String.concat "" chunks = wireText jsonStringify items ->
  readChunks jsonParse "" chunks [] = clientView items [].
Proof.
  intros Hjson Hchunks.
  rewrite readChunks_concat by reflexivity.
  rewrite append_empty_l, Hchunks. now apply readWire.
Qed.

Lemma client_reads_stream_witness :
  readChunks toyParse "" sampleChunks []
  = (["Preparando..."; "Storyboard completo!"], Returned tt).
Proof.
  rewrite (client_reads_stream toyStringify toyParse sampleItems sampleChunks).
  - reflexivity.
  - intros event payload [H|[H|[H|[H|[]]]]]; try discriminate H;
      injection H as <- <-;
      (split; [repeat split; [discriminate|unfold lacks; vm_compute; intuition discriminate]
              |reflexivity]).
  - vm_compute. reflexivity.
Defined.

(** ** The client against the server *)

Lemma clientView_progress (body tail : list StreamItem) :
  Forall progressItem body ->
  forall progress,
    exists progress',
      clientView (body ++ tail) progress = clientView tail progress'.
Proof.
  induction 1 as [|item body Hitem _ IH]; intros progress; [now exists progress|].
  destruct item as [event payload|]; cbn [app clientView]; [|apply IH].
  cbn in Hitem. subst event. apply IH.
Qed.

(** A subscriber served to the end.  In every state the server can reach,
    when the server has ended the stream of a subscriber and the client
    has read its bytes, however they were cut into chunks, the client has
    returned if the job is completed, and has thrown the error of the job,
    which is not empty, if the job is failed. *)
Theorem served_client_outcome (jsonStringify : SsePayload.t -> string)
    (jsonParse : string -> option EventData.t) (w : World) (client : nat)
    (s : Stream.t) (chunks : list string) :
  reachable w ->
  streams w !! client = Some s ->
  Stream.ended s = true ->
  (forall event payload,
     In (SseEvent event payload) (Stream.written s) ->
     tight (jsonStringify payload) /\
     jsonParse (jsonStringify payload) = Some (eventData payload)) ->
  String.concat "" chunks = wireText jsonStringify (Stream.written s) ->
  exists job progress,
    jobs w !! Stream.jobId s = Some job /\
    match StoryboardJob.status job with
    | JobStatus.running => False
    | JobStatus.completed =>
        readChunks jsonParse "" chunks [] = (progress, Returned tt)
    | JobStatus.failed =>
        exists error,
          StoryboardJob.error job = Some error /\ error <> "" /\
          readChunks jsonParse "" chunks [] = (progress, Thrown error)
    end.
Proof.
  intros Hw Hs Hended Hjson Hchunks.
  destruct (reachable_serverInvariant w Hw) as [Hjobs [Hstreams _]].
  destruct (Hstreams _ _ Hs) as (job & Hjob & Hshape & _).
  pose proof (jobsInvariant_resultPresent w _ job Hjobs Hjob) as Hresult.
  destruct Hshape as (snapshot & rest & Hwritten & _ & Hrest).
  rewrite Hended in Hrest. destruct Hrest as (body & terminal & -> & Hbody & Hterminal).
  assert (Hread : readChunks jsonParse "" chunks []
                  = clientView (Stream.written s) []).
  { rewrite readChunks_concat by reflexivity.
    rewrite append_empty_l, Hchunks. now apply readWire. }
  rewrite Hread, Hwritten. cbn [clientView].
  match goal with
  | |- context [clientView (body ++ [terminal]) ?p] =>
      destruct (clientView_progress body [terminal] Hbody p) as [progress' ->]
  end.
  unfold terminalItem, resultPresent in *.
  destruct (StoryboardJob.status job) eqn:Hstatus; [discriminate| |];
    injection Hterminal as <-; eexists job, _; (split; [exact Hjob|]);
    rewrite Hstatus; cbn [clientView].
  - reflexivity.
  - destruct Hresult as (err & Herr & Htruthy). exists err.
    split; [exact Herr|]. split; [now destruct err|].
    unfold failedPayload, firstTruthy. cbn [SsePayload.error SsePayload.message].
    rewrite Herr. cbn [truthyOption default]. now rewrite Htruthy.
Qed.

Lemma served_client_outcome_witness :
  exists progress,
    readChunks toyParse ""
      ["event: progress" +:+ LF +:+ "data: {Preparando geração do storyboard...}";
       LF +:+ LF +:+ "event: completed" +:+ LF +:+ "data: {Storyboard completo!}" +:+ LF;
       LF] []
    = (progress, Returned tt).
Proof.
  destruct (streams worldServed !! 1%nat) as [s|] eqn:Hs;
    [|vm_compute in Hs; discriminate Hs].
  assert (Hstream : s = Stream.mk "job-1"
            [SseEvent JobEvent.progress
               (snapshotPayload (newJob 0 "job-1" "alice" "project-1"));
             SseEvent JobEvent.completed (completedPayload jobCompleted 1)]
            true false true false).
  { vm_compute in Hs. injection Hs as <-. vm_compute. reflexivity. }
  destruct (served_client_outcome toyStringify toyParse worldServed 1 s
              ["event: progress" +:+ LF +:+ "data: {Preparando geração do storyboard...}";
               LF +:+ LF +:+ "event: completed" +:+ LF +:+ "data: {Storyboard completo!}" +:+ LF;
               LF]
              worldServed_reachable Hs)
    as (job & progress & Hjob & Hout).
  - now subst s.
  - subst s. intros event payload [H|[H|[]]]; injection H as <- <-;
      (split; [repeat split; [discriminate|unfold lacks; vm_compute; intuition discriminate]
              |reflexivity]).
  - subst s. vm_compute. reflexivity.
  - subst s. cbn [Stream.jobId] in Hjob.
    assert (Hstatus : StoryboardJob.status job = JobStatus.completed).
    { vm_compute in Hjob. injection Hjob as <-. reflexivity. }
    rewrite Hstatus in Hout. now exists progress.
Defined.

(** One turn of the polling client against the result endpoint.  In every
    state the server can reach, the client that polls a job waits while
    the job is running (reporting its message), returns the scenes of the
    job once it is completed, throws the error of the job, which is not
    empty, once it is failed, and throws the message of the server when it
    is refused; it never meets a reply it takes for invalid. *)
Theorem poll_client_decision (w : World) (requestUser : option RequestUser.t)
    (jobId : string) :
  reachable w ->
  let reply := getJobResult requestUser (getJob w jobId) in
  let turn := pollTurn (replyData reply).1 (replyData reply).2 in
  match requestUser, getJob w jobId with
  | None, _ => turn = PollThrows "Unauthorized"
  | Some _, None => turn = PollThrows "Job não encontrado."
  | Some user, Some job =>
      if canAccessJob user job then
        match StoryboardJob.status job with
        | JobStatus.running =>
            turn = PollAgain (if truthy (StoryboardJob.message job)
                              then Some (StoryboardJob.message job) else None)
        | JobStatus.completed =>
            exists scenes,
              StoryboardJob.scenes job = Some scenes /\
              turn = PollReturns scenes (Some (StoryboardJob.projectId job))
        | JobStatus.failed =>
            exists error,
              StoryboardJob.error job = Some error /\ error <> "" /\
              turn = PollThrows error
        end
      else turn = PollThrows "Acesso negado ao job."
  end.
Proof.
  intros Hw reply turn. subst reply turn.
  destruct requestUser as [user|]; [|reflexivity].
  destruct (getJob w jobId) as [job|] eqn:Hget; [|reflexivity].
  assert (Hresult : resultPresent job).
  { unfold getJob in Hget. destruct (decide (jobId ∈ storyboardJobs w)); [|discriminate].
    eapply jobsInvariant_resultPresent; [apply reachable_jobsInvariant, Hw|exact Hget]. }
  unfold getJobResult. destruct (canAccessJob user job); cbn [negb]; [|reflexivity].
  unfold resultPresent in Hresult.
  destruct (StoryboardJob.status job) eqn:Hstatus.
  - unfold pollTurn. cbn. now destruct (StoryboardJob.message job).
  - destruct Hresult as [scenes Hscenes]. exists scenes.
    split; [exact Hscenes|]. rewrite Hscenes. reflexivity.
  - destruct Hresult as (err & Herr & Htruthy). exists err.
    split; [exact Herr|]. split; [now destruct err|].
    rewrite Herr, Htruthy. unfold pollTurn, firstTruthy. cbn. now rewrite Htruthy.
Qed.

Lemma poll_client_decision_witness :
  pollTurn (replyData (getJobResult (Some alice) (getJob worldSettled "job-1"))).1
    (replyData (getJobResult (Some alice) (getJob worldSettled "job-1"))).2
  = PollReturns [sceneLasting 2%Q] (Some "project-1").
Proof.
  pose proof (poll_client_decision worldSettled (Some alice) "job-1") as H.
  cbv zeta in H.
  assert (Hreach : reachable worldSettled).
  { eapply reachable_step; [apply worldCompleted_reachable|apply worldSettled_step]. }
  specialize (H Hreach).
  destruct (getJob worldSettled "job-1") as [job|] eqn:Hget;
    [|vm_compute in Hget; discriminate Hget].
  assert (Hjob : job = scheduleJobCleanup 0 jobCompleted).
  { unfold getJob in Hget. rewrite decide_True in Hget by set_solver.
    unfold worldSettled in Hget. cbn [jobs] in Hget.
    rewrite lookup_insert_eq in Hget. now injection Hget as <-. }
  subst job. cbn in H. destruct H as (scenes & Hscenes & ->).
  injection Hscenes as <-. reflexivity.
Defined.

(** ** The timeline of the render loop *)













(** ** The progress that the render loop reports *)

Lemma visualProgress_bounds (currentTime totalDuration : Q) :
  (0 <= currentTime)%Q -> (currentTime < totalDuration)%Q ->
  (10 <= visualProgress currentTime totalDuration <= 94)%Z.
Proof.
  intros Hnonneg Hbefore. unfold visualProgress.
  assert (Hpos : (0 < totalDuration)%Q) by lra.
  assert (Hlow : (0 <= currentTime / totalDuration)%Q).
  { apply Qle_shift_div_l; lra. }
  assert (Hhigh : (currentTime / totalDuration < 1)%Q).
  { apply Qlt_shift_div_r; lra. }
  set (ratio := (currentTime / totalDuration)%Q) in *.
  assert (H0 : (0 <= Qfloor (ratio * 85))%Z).
  { change 0%Z with (Qfloor 0). apply Qfloor_resp_le. lra. }
  assert (H85 : (Qfloor (ratio * 85) < 85)%Z).
  { rewrite Zlt_Qlt. eapply Qle_lt_trans; [apply Qfloor_le|].
    change (inject_Z 85) with 85%Q. lra. }
  lia.
Qed.

Lemma renderLoop_reports (scaledScenes : list Scene.t)
    (transforms : list KenBurnsTransform) (totalDuration : Q) (clock : list Q) :
  Forall (fun currentTime => (0 <= currentTime)%Q) clock ->
  forall state,
    let percents :=
      reportedPercents (renderLoop scaledScenes transforms totalDuration state clock) in
    StronglySorted Z.lt percents /\
    Forall (fun percent =>
              (lastReportedProgress state < percent)%Z /\ (10 <= percent <= 94)%Z)
           percents.
Proof.
  induction 1 as [|currentTime later Hnonneg _ IH]; intros state;
    [split; constructor|].
  cbn [renderLoop]. unfold renderTick.
  destruct (Qle_bool totalDuration currentTime) eqn:Hend; [split; constructor|].
  assert (Hbefore : (currentTime < totalDuration)%Q).
  { apply Qnot_le_lt. intros H. apply Qle_bool_iff in H. congruence. }
  pose proof (visualProgress_bounds _ _ Hnonneg Hbefore) as Hpercent.
  set (index' := advanceScene _ _ _ _).
  destruct (scaledScenes !! index') as [scene|];
    [destruct (transforms !! index') as [transform|]|];
    [|apply (IH (mkRenderState index' (lastReportedProgress state)))..].
  destruct (lastReportedProgress state <? visualProgress currentTime totalDuration)%Z
    eqn:Hmore.
  - apply Z.ltb_lt in Hmore.
    destruct (IH (mkRenderState index' (visualProgress currentTime totalDuration)))
      as [Hsorted Hall].
    cbn [lastReportedProgress] in Hall.
    unfold reportedPercents in *. cbn [omap list_omap fmap option_fmap option_map fst snd].
    split.
    + constructor; [exact Hsorted|].
      eapply Forall_impl; [exact Hall|]. cbn. tauto.
    + constructor; [split; [exact Hmore|exact Hpercent]|].
      eapply Forall_impl; [exact Hall|]. cbn. intros percent [? ?]. split; [lia|tauto].
  - apply (IH (mkRenderState index' (lastReportedProgress state))).
Qed.

(** The progress bar of the render loop.  On a clock that never reads less
    than zero, and whatever the scenes and the transforms, the percentages
    that the loop reports go strictly up, each beyond the one reported
    last, and stay between 10 and 94: the loop never reports the same
    percentage twice and never reaches 95. *)
Theorem render_loop_reports (scaledScenes : list Scene.t)
    (transforms : list KenBurnsTransform) (totalDuration : Q)
    (state : RenderState) (clock : list Q) :
  Forall (fun currentTime => (0 <= currentTime)%Q) clock ->
  let percents :=
    reportedPercents (renderLoop scaledScenes transforms totalDuration state clock) in
  StronglySorted Z.lt percents /\
  Forall (fun percent =>
            (lastReportedProgress state < percent)%Z /\ (10 <= percent <= 94)%Z)
         percents.
Proof.
  intros Hclock. now apply renderLoop_reports.
Qed.

Lemma render_loop_reports_witness :
  reportedPercents
    (renderLoop sampleTimeline sampleTransforms 6 initialRenderState sampleClock)
  = [10; 24; 45; 87]%Z /\
  StronglySorted Z.lt
    (reportedPercents
       (renderLoop sampleTimeline sampleTransforms 6 initialRenderState sampleClock)).
Proof.
  split; [vm_compute; reflexivity|].
  apply (render_loop_reports sampleTimeline sampleTransforms 6 initialRenderState
           sampleClock).
  unfold sampleClock. repeat constructor; discriminate.
Defined.

(** ** The aspect of the painted image *)

Lemma initialScale_size (imgWidth imgHeight canvasWidth canvasHeight : Q) :
  (1 <= imgWidth <= Binary64.pow2 32)%Q -> (1 <= imgHeight <= Binary64.pow2 32)%Q ->
  (1 <= canvasWidth <= Binary64.pow2 32)%Q -> (1 <= canvasHeight <= Binary64.pow2 32)%Q ->
  let scale := initialScale imgWidth imgHeight canvasWidth canvasHeight in
  isDouble scale /\ (Binary64.pow2 (-32) <= scale)%Q.
Proof.
  intros Hiw Hih Hcw Hch. cbn zeta. unfold initialScale.
  assert (Hdouble : isDouble (Binary64.pow2 (-32))) by reflexivity.
  assert (Hquotient : forall a b : Q,
             (1 <= a <= Binary64.pow2 32)%Q -> (1 <= b <= Binary64.pow2 32)%Q ->
             (Binary64.pow2 (-32) <= a / b)%Q).
  { intros a b Ha Hb. apply Qle_shift_div_l; [lra|].
    apply Qle_trans with (Binary64.pow2 (-32) * Binary64.pow2 32)%Q.
    - apply Qmult_le_l; [apply pow2_pos|apply Hb].
    - rewrite <- pow2_plus. change (Binary64.pow2 (-32 + 32)) with 1%Q. apply Ha. }
  destruct (Qgtb _ _); (split; [apply round_idempotent|]);
    apply round_ge_double; auto.
Qed.

(** The image is hardly distorted.  The whole image is the source of the
    drawing, and the start and end rectangles of a transform are as wide
    and as high as the image, each size multiplied in binary64 by the
    scale of that end: their proportions are those of the image within
    three units of roundoff, for images and canvases of 1 to [2^32] pixels
    a side. *)
Theorem kenBurns_keeps_aspect
    (imgWidth imgHeight canvasWidth canvasHeight random1 random2 random3 : Q) :
  (1 <= imgWidth <= Binary64.pow2 32)%Q -> (1 <= imgHeight <= Binary64.pow2 32)%Q ->
  (1 <= canvasWidth <= Binary64.pow2 32)%Q -> (1 <= canvasHeight <= Binary64.pow2 32)%Q ->
  let transform :=
    getKenBurnsTransforms imgWidth imgHeight canvasWidth canvasHeight
      random1 random2 random3 in
  sWidth transform = imgWidth /\ sHeight transform = imgHeight /\
  Forall (fun rect =>
            (Qabs (dWidth rect * imgHeight - dHeight rect * imgWidth)
             <= 3 * unitRoundoff * (dHeight rect * imgWidth))%Q)
         [destStart transform; destEnd transform].
Proof.
  intros Hiw Hih Hcw Hch transform. split; [reflexivity|]. split; [reflexivity|].
  destruct (initialScale_size _ _ _ _ Hiw Hih Hcw Hch) as [Hdouble Hscale].
  pose proof (pow2_pos (-32)) as Hpos.
  assert (Haxis : forall s : Q,
             (Binary64.pow2 (-32) <= s)%Q ->
             (Qabs ((imgWidth ⊗ s) * imgHeight - (imgHeight ⊗ s) * imgWidth)
              <= 3 * unitRoundoff * ((imgHeight ⊗ s) * imgWidth))%Q).
  { intros s Hs.
    assert (Hbig : forall a : Q, (1 <= a)%Q ->
               (0 <= a * s)%Q /\ (a * s == 0 \/ Binary64.pow2 (-1022) <= a * s)%Q).
    { intros a Ha.
      assert (Binary64.pow2 (-32) <= a * s)%Q by nra.
      split; [lra|right].
      apply Qle_trans with (Binary64.pow2 (-32)); [apply pow2_le; lia|assumption]. }
    destruct (Hbig imgWidth ltac:(lra)) as [Hw0 Hw].
    destruct (Hbig imgHeight ltac:(lra)) as [Hh0 Hh].
    pose proof (mul_bounds _ _ Hw0 Hw) as [Hw1 Hw2].
    pose proof (mul_bounds _ _ Hh0 Hh) as [Hh1 Hh2].
    pose proof unitRoundoff_small as [Hu0 _].
    assert (Hu1 : (unitRoundoff <= 1 # 1024)%Q) by (vm_compute; discriminate).
    set (u := unitRoundoff) in *.
    set (w := (imgWidth ⊗ s)%Q) in *. set (h := (imgHeight ⊗ s)%Q) in *.
    assert (Hwh : (0 <= imgWidth * s * imgHeight)%Q)
      by (apply Qmult_le_0_compat; lra).
    assert (E1 : (w * imgHeight <= (1 + u) * (imgWidth * s * imgHeight))%Q).
    { assert (E : ((1 + u) * (imgWidth * s * imgHeight)
                   == (1 + u) * (imgWidth * s) * imgHeight)%Q) by ring.
      rewrite E. apply Qmult_le_compat_r; lra. }
    assert (E2 : ((1 - u) * (imgWidth * s * imgHeight) <= w * imgHeight)%Q).
    { assert (E : ((1 - u) * (imgWidth * s * imgHeight)
                   == (1 - u) * (imgWidth * s) * imgHeight)%Q) by ring.
      rewrite E. apply Qmult_le_compat_r; lra. }
    assert (E3 : (h * imgWidth <= (1 + u) * (imgWidth * s * imgHeight))%Q).
    { assert (E : ((1 + u) * (imgWidth * s * imgHeight)
                   == (1 + u) * (imgHeight * s) * imgWidth)%Q) by ring.
      rewrite E. apply Qmult_le_compat_r; lra. }
    assert (E4 : ((1 - u) * (imgWidth * s * imgHeight) <= h * imgWidth)%Q).
    { assert (E : ((1 - u) * (imgWidth * s * imgHeight)
                   == (1 - u) * (imgHeight * s) * imgWidth)%Q) by ring.
      rewrite E. apply Qmult_le_compat_r; lra. }
    set (x := (imgWidth * s * imgHeight)%Q) in *.
    set (a := (w * imgHeight)%Q) in *. set (b := (h * imgWidth)%Q) in *.
    assert (Hux : (0 <= u * x)%Q) by (apply Qmult_le_0_compat; lra).
    assert (Hub : ((1 - u) * (u * x) <= u * b)%Q).
    { assert (E : ((1 - u) * (u * x) == u * ((1 - u) * x))%Q) by ring.
      rewrite E. apply Qmult_le_l; assumption. }
    assert (Huux : (u * (u * x) <= (1 # 1024) * (u * x))%Q)
      by (apply Qmult_le_compat_r; lra).
    apply Qabs_Qle_condition. split; lra. }
  destruct (scale_bounds _ (Qgtb random1 (literal 0.5)) Hdouble ltac:(lra))
    as [[Hstart _] [Hend _]].
  unfold transform, getKenBurnsTransforms.
  repeat constructor; cbn [destStart destEnd dWidth dHeight]; apply Haxis; lra.
Qed.

(** A 1023 x 769 image on the 1080p canvas: within the three units, though
    the proportions of the start rectangle are not exactly those of the
    image. *)
Lemma kenBurns_keeps_aspect_witness :
  let rect :=
    destStart (getKenBurnsTransforms 1023 769 1920 1080
                 (literal 0.7) (literal 0.9) (literal 0.2)) in
  (Qabs (dWidth rect * 769 - dHeight rect * 1023)
   <= 3 * unitRoundoff * (dHeight rect * 1023))%Q /\
  ~ (dWidth rect * 769 == dHeight rect * 1023)%Q.
Proof.
  split.
  - pose proof (kenBurns_keeps_aspect 1023 769 1920 1080
                  (literal 0.7) (literal 0.9) (literal 0.2)
                  ltac:(vm_compute; split; discriminate)
                  ltac:(vm_compute; split; discriminate)
                  ltac:(vm_compute; split; discriminate)
                  ltac:(vm_compute; split; discriminate)) as (_ & _ & Hrects).
    apply Forall_cons in Hrects as [Hstart _]. exact Hstart.
  - vm_compute. discriminate.
Defined.

(** ** Videos without scenes, and videos of generated storyboards *)

Lemma renderLoop_no_scene (transforms : list KenBurnsTransform) (totalDuration : Q)
    (clock : list Q) :
  forall state, renderLoop [] transforms totalDuration state clock = [].
Proof.
  induction clock as [|currentTime later IH]; intros state; [reflexivity|].
  cbn [renderLoop]. unfold renderTick.
  destruct (Qle_bool totalDuration currentTime); [reflexivity|].
  rewrite lookup_nil. apply IH.
Qed.

(** A video without scenes.  Without an audio track it is refused as being
    of no duration, and so it is with a track that lasts nothing; with a
    track that lasts, the video is made, but no tick of the render loop
    paints a frame or reports progress, whatever the clock. *)
Theorem video_without_scenes (imageSize : string -> Q * Q)
    (randoms : nat -> Q * Q * Q) (audioDuration : option Q)
    (resolution : Resolution) (clock : list Q) :
  generateVideoFromScenes imageSize randoms [] audioDuration resolution clock
  = match audioDuration with
    | Some totalDuration =>
        if Qle_bool totalDuration 0
        then Thrown "A duração do vídeo é zero. Não é possível gerar um clipe."
        else Returned []
    | None => Thrown "A duração do vídeo é zero. Não é possível gerar um clipe."
    end.
Proof.
  unfold generateVideoFromScenes.
  destruct (canvasOf resolution) as [width height].
  destruct audioDuration as [totalDuration|]; [|reflexivity].
  cbn [reconcileDurations]. unfold rescaleScenes, checkTotalDuration.
  assert (E : Qgtb (totalSceneDuration []) (literal 0.1) = false)
    by (vm_compute; reflexivity).
  rewrite E.
  destruct (Qle_bool totalDuration 0); [reflexivity|].
  unfold mbind, outcome_bind. cbn [imap]. now rewrite renderLoop_no_scene.
Qed.

Lemma total_at_least (scenes : list Scene.t) :
  scenes <> [] ->
  Forall (fun scene => (0.1 <= Scene.durationSeconds scene)%Q) scenes ->
  (literal 0.1 <= totalSceneDuration scenes)%Q.
Proof.
  unfold totalSceneDuration.
  assert (H : forall (l : list Scene.t) (acc : Q),
             (0 <= acc)%Q -> l <> [] ->
             Forall (fun scene => (0.1 <= Scene.durationSeconds scene)%Q) l ->
             (literal 0.1
              <= fold_left (fun sum s => (sum ⊕ Scene.durationSeconds s)%Q) l acc)%Q).
  { induction l as [|scene rest IH]; intros acc Hacc Hne Hall; [congruence|].
    apply Forall_cons in Hall as [Hscene Hall]. cbn [fold_left].
    assert (Hstep : (literal 0.1 <= acc ⊕ Scene.durationSeconds scene)%Q)
      by (apply round_mono; lra).
    destruct rest as [|next rest]; [exact Hstep|].
    apply IH; [|discriminate|exact Hall].
    pose proof literal_tenth_pos. lra. }
  intros Hne Hall. apply H; [lra|exact Hne|exact Hall].
Qed.

Lemma sourceScenes_durations (ext : External.t) (args : GenerateArgs.t)
    (source : list SceneWithoutVisuals.t) :
  sourceScenes ext args = Returned source ->
  Forall (fun scene => (0.1 <= SceneWithoutVisuals.durationSeconds scene)%Q) source.
Proof.
  assert (Hsrt : forall srt pacing,
             Forall (fun scene => (0.1 <= SceneWithoutVisuals.durationSeconds scene)%Q)
                    (parseAndGroupSrt srt pacing)).
  { intros srt pacing. unfold parseAndGroupSrt, scenesOfGroups.
    apply Forall_forall. intros scene Hin.
    apply list_elem_of_lookup in Hin as [i Hi]. rewrite list_lookup_imap in Hi.
    destruct (_ !! i); [|discriminate]. injection Hi as <-. cbn.
    eapply Qle_trans; [apply literal_tenth_ge|apply Q.le_max_l]. }
  unfold sourceScenes, mockSourceScenes, segmentScenes.
  destruct (External.mockMode ext), (GenerateArgs.isSrt args);
    try (intros [= <-]; apply Hsrt).
  - intros [= <-]. unfold splitScriptIntoMockScenes.
    destruct (_ =? _)%nat; [constructor|].
    apply Forall_forall. intros scene Hin.
    apply list_elem_of_lookup in Hin as [i Hi]. rewrite list_lookup_imap in Hi.
    destruct (_ !! i); [|discriminate]. injection Hi as <-. cbn. lra.
  - unfold splitScriptIntoScenesWithAI, mbind, outcome_bind.
    destruct (getAiClient _); [|discriminate].
    destruct (External.scriptScenes ext) as [narrations|]; [|discriminate].
    destruct (_ =? _)%nat; [discriminate|]. intros [= <-].
    apply Forall_forall. intros scene Hin.
    apply list_elem_of_lookup in Hin as [i Hi]. rewrite list_lookup_imap in Hi.
    destruct (_ !! i); [|discriminate]. injection Hi as <-. cbn.
    apply Qle_trans with (inject_Z 1); [vm_compute; discriminate|].
    rewrite <- Zle_Qle. lia.
Qed.

Lemma generateStoryboard_durations (ext : External.t) (args : GenerateArgs.t)
    (progress : list string) (scenes : list Scene.t) :
  generateStoryboard ext args = (progress, Returned scenes) ->
  scenes <> [] /\
  Forall (fun scene => (0.1 <= Scene.durationSeconds scene)%Q) scenes.
Proof.
  intros Hrun.
  destruct (generateStoryboard_sources ext args progress scenes Hrun)
    as (source & Hsource & Hne & Hall).
  split; [intros ->; inversion Hall; congruence|].
  apply sourceScenes_durations in Hsource.
  clear Hrun Hne. induction Hall as [|scene completed source scenes [Hsame _] _ IH];
    [constructor|].
  inversion Hsource; subst. constructor; [|now apply IH].
  destruct Hsame as (_ & _ & _ & ->). assumption.
Qed.

(** A generated storyboard can always be made into a video.  Whatever the
    mode and the models, every scene that a generation returns lasts a
    tenth of a second or more; so the compositor does not refuse the
    storyboard as being of no duration when there is no audio track, and
    with a track it refuses it exactly when the track lasts nothing. *)
Theorem generated_storyboard_renders (ext : External.t) (args : GenerateArgs.t)
    (progress : list string) (scenes : list Scene.t)
    (imageSize : string -> Q * Q) (randoms : nat -> Q * Q * Q)
    (audioDuration : option Q) (resolution : Resolution) (clock : list Q) :
  generateStoryboard ext args = (progress, Returned scenes) ->
  Forall (fun scene => (0.1 <= Scene.durationSeconds scene)%Q) scenes /\
  ((exists frames,
      generateVideoFromScenes imageSize randoms scenes audioDuration resolution clock
      = Returned frames)
   <-> usableAudio audioDuration).
Proof.
  intros Hrun.
  destruct (generateStoryboard_durations ext args progress scenes Hrun) as [Hne Hall].
  split; [exact Hall|].
  assert (Htotal : (0 < totalSceneDuration scenes)%Q).
  { pose proof (total_at_least scenes Hne Hall). pose proof literal_tenth_pos. lra. }
  unfold generateVideoFromScenes, usableAudio.
  destruct (canvasOf resolution) as [width height].
  destruct audioDuration as [totalDuration|]; cbn [reconcileDurations];
    unfold checkTotalDuration, mbind, outcome_bind.
  - destruct (Qle_bool totalDuration 0) eqn:Hzero.
    + apply Qle_bool_iff in Hzero. split; [intros [frames H]; discriminate H|].
      intros H. specialize (H totalDuration eq_refl). lra.
    + split; [|intros _; eexists; reflexivity].
      intros _ d [= <-]. apply Qnot_le_lt. intros H.
      apply Qle_bool_iff in H. congruence.
  - destruct (Qle_bool (totalSceneDuration scenes) 0) eqn:Hzero.
    + apply Qle_bool_iff in Hzero. lra.
    + split; [intros _ d H; discriminate H|intros _; eexists; reflexivity].
Qed.

Lemma generated_storyboard_renders_witness :
  exists scenes frames,
    (generateStoryboard sampleExternal (sampleArgs "Ana")).2 = Returned scenes /\
    generateVideoFromScenes (fun _ => (1024, 1024)%Q) (fun _ => (literal 0.7, literal 0.9, literal 0.2))
      scenes None R1080p sampleClock
    = Returned frames.
Proof.
  destruct (generateStoryboard sampleExternal (sampleArgs "Ana"))
    as [progress [scenes|message]] eqn:Hrun;
    [|vm_compute in Hrun; discriminate Hrun].
  destruct (generated_storyboard_renders sampleExternal (sampleArgs "Ana") progress
              scenes (fun _ => (1024, 1024)%Q) (fun _ => (literal 0.7, literal 0.9, literal 0.2))
              None R1080p sampleClock Hrun) as [_ [_ Hmade]].
  destruct Hmade as [frames Hframes]; [intros d H; discriminate H|].
  exists scenes, frames. split; [reflexivity|exact Hframes].
Defined.
